(** * MemProf context disambiguation: the callsite context graph

    A shallow embedding of the cloning engine of
    [llvm/lib/Transforms/IPO/MemProfContextDisambiguation.cpp]:
    the allocation-type lattice, the callsite context graph with its
    shared edges, the graph builder helpers, clone identification, the
    verification checks and the search through tail calls, followed by the
    properties proved about them.

    Pointers are indices: a [ContextNode *] is an index into [NodeOwner], a
    [std::shared_ptr<ContextEdge>] is an index into the edge store of the
    graph, so that an edge referenced from the caller's callee list and from
    the callee's caller list is one object.  Statements that the source only
    runs in builds with assertions are quoted in comments next to the place
    they guard; the verification functions [checkNode], [checkEdge] and
    [check], which consist of assertions, are boolean functions. *)

From stdpp Require Import base option list gmap sets.
From Stdlib Require Import NArith ZArith Lia.

Set Default Proof Using "Type".
Open Scope N_scope.

(* ================================================================== *)
(** * Part I: the model                                                *)
(* ================================================================== *)

(** ** Machine integers *)

(** [uint32_t] context ids and the [unsigned int] counters wrap at 2^32. *)
Definition UINT32_MOD : N := 2 ^ 32.
Definition wrap32 (n : N) : N := n mod UINT32_MOD.

(** ** Allocation types *)

(** Modelled from the spec: the enumerators of [AllocationType], declared in
    [llvm/IR/ModuleSummaryIndex.h].  The values of [None], [NotCold] and
    [Cold] are the ones the table [AllocTypeCloningPriority] of
    [identifyClones] is indexed by; [Hot] is the next bit.  An aggregate
    ([uint8_t]) is the bitwise or of enumerators, which cannot wrap. *)
Module AllocationType.
Definition None : N := 0.
Definition NotCold : N := 1.
Definition Cold : N := 2.
Definition Hot : N := 4.
End AllocationType.

(** [(uint8_t)AllocationType::Cold | (uint8_t)AllocationType::NotCold] *)
Definition BothTypes : N := N.lor AllocationType.Cold AllocationType.NotCold.

(** Number of bits set in a byte. *)
Definition popcount (n : N) : nat :=
  length (filter (fun i => N.testbit n i = true) [0; 1; 2; 3; 4; 5; 6; 7]).

(** Modelled from the spec: [hasSingleAllocType] of
    [llvm/Analysis/MemoryProfileInfo.h], "the node already has one
    allocation-type outcome": exactly one bit of the aggregate is set. *)
Definition hasSingleAllocType (AllocTypes : N) : bool :=
  bool_decide (popcount AllocTypes = 1%nat).

(** [allocTypeToUse]; the source first states
    [assert(AllocTypes != (uint8_t)AllocationType::None)]. *)
Definition allocTypeToUse (AllocTypes : N) : N :=
  if N.eqb AllocTypes (N.lor AllocationType.NotCold AllocationType.Cold)
  then AllocationType.NotCold
  else AllocTypes.


(** [checkColdOrNotCold] *)
Definition checkColdOrNotCold (AllocType : N) : bool :=
  N.eqb AllocType AllocationType.Cold
  || N.eqb AllocType AllocationType.NotCold
  || N.eqb AllocType (N.lor AllocationType.Cold AllocationType.NotCold).

(** ** Results of fallible code *)

(** A step of the source either completes, or has no defined behaviour
    (a null or dangling pointer is dereferenced, [DenseMap::at] misses, an
    array is indexed out of range, [vector::erase] is given [end()]), or the
    model ran out of the fuel that bounds a recursion. *)
Inductive Error := UndefinedBehaviour | OutOfFuel.

Inductive Res (A : Type) : Type :=
  | Ok (a : A)
  | Err (e : Error).
Arguments Ok {A} a.
Arguments Err {A} e.

#[global] Instance Res_ret : MRet Res := fun A a => Ok a.
#[global] Instance Res_bind : MBind Res := fun A B f m =>
  match m with
  | Ok a => f a
  | Err e => Err e
  end.

Definition ub {A} : Res A := Err UndefinedBehaviour.

(** Dereference of a pointer that may be null, or of a slot that may be
    missing. *)
Definition deref {A} (o : option A) : Res A :=
  match o with
  | Some a => Ok a
  | None => ub
  end.

(** ** Keys of the hash containers *)

(** Modelled from the spec: [DenseMap] and [DenseSet] of LLVM's ADT
    library, which hold the context ids, are not among the sources.  With
    [uint32_t] keys they mark an empty bucket by the key [~0U] and an erased
    one by [~0U - 1]: the insertion asserts that its key is neither, and an
    entry stored under one of the two cannot be found again. *)
Definition denseKeyReserved (k : N) : bool := N.leb (UINT32_MOD - 2) k.

(** A key on its way into a [DenseMap] or [DenseSet] of context ids. *)
Definition denseKey (k : N) : Res N :=
  if denseKeyReserved k then ub else Ok k.

(** ** Nodes and edges *)

Abbreviation NodeId := nat (only parsing).
Abbreviation EdgeId := nat (only parsing).
(** [CallTy] and [FuncTy *]: the identity of a call and of a function. *)
Abbreviation CallTy := N (only parsing).
Abbreviation FuncTy := N (only parsing).

(** [CallInfo]: a call (null when [call] is [None]) and a clone number. *)
Record CallInfo := mkCallInfo {
  call : option CallTy;
  cloneNo : N
}.

#[global] Instance CallInfo_eq_dec : EqDecision CallInfo.
Proof. solve_decision. Defined.

(** [CallInfo()] *)
Definition nullCallInfo : CallInfo := mkCallInfo None 0.

(** [FuncInfo] *)
Record FuncInfo := mkFuncInfo {
  func : option FuncTy;
  funcCloneNo : N
}.

#[global] Instance FuncInfo_eq_dec : EqDecision FuncInfo.
Proof. solve_decision. Defined.

Module ContextEdge.
Record t := mk {
  Callee : option NodeId;
  Caller : option NodeId;
  AllocTypes : N;
  IsBackedge : bool;
  ContextIds : gset N
}.

Definition setCallee (v : option NodeId) (e : t) : t :=
  mk v (Caller e) (AllocTypes e) (IsBackedge e) (ContextIds e).
Definition setCaller (v : option NodeId) (e : t) : t :=
  mk (Callee e) v (AllocTypes e) (IsBackedge e) (ContextIds e).
Definition setAllocTypes (v : N) (e : t) : t :=
  mk (Callee e) (Caller e) v (IsBackedge e) (ContextIds e).
Definition setIsBackedge (v : bool) (e : t) : t :=
  mk (Callee e) (Caller e) (AllocTypes e) v (ContextIds e).
Definition setContextIds (v : gset N) (e : t) : t :=
  mk (Callee e) (Caller e) (AllocTypes e) (IsBackedge e) v.

(** [ContextEdge::clear] *)
Definition clear (e : t) : t :=
  mk None None AllocationType.None (IsBackedge e) ∅.

(** [ContextEdge::isRemoved]; when both pointers are null the source
    asserts that the alloc type is [None] and the id set empty. *)
Definition isRemoved (e : t) : bool :=
  if bool_decide (is_Some (Callee e) \/ is_Some (Caller e)) then false else true.
End ContextEdge.

Module ContextNode.
Record t := mk {
  IsAllocation : bool;
  Recursive : bool;
  AllocTypes : N;
  Call : CallInfo;
  MatchingCalls : list CallInfo;
  OrigStackOrAllocId : N;
  CalleeEdges : list EdgeId;
  CallerEdges : list EdgeId;
  Clones : list NodeId;
  CloneOf : option NodeId
}.

Definition setRecursive (v : bool) (n : t) : t :=
  mk (IsAllocation n) v (AllocTypes n) (Call n) (MatchingCalls n)
     (OrigStackOrAllocId n) (CalleeEdges n) (CallerEdges n) (Clones n) (CloneOf n).
Definition setAllocTypes (v : N) (n : t) : t :=
  mk (IsAllocation n) (Recursive n) v (Call n) (MatchingCalls n)
     (OrigStackOrAllocId n) (CalleeEdges n) (CallerEdges n) (Clones n) (CloneOf n).
(** [ContextNode::setCall] *)
Definition setCall (v : CallInfo) (n : t) : t :=
  mk (IsAllocation n) (Recursive n) (AllocTypes n) v (MatchingCalls n)
     (OrigStackOrAllocId n) (CalleeEdges n) (CallerEdges n) (Clones n) (CloneOf n).
Definition setMatchingCalls (v : list CallInfo) (n : t) : t :=
  mk (IsAllocation n) (Recursive n) (AllocTypes n) (Call n) v
     (OrigStackOrAllocId n) (CalleeEdges n) (CallerEdges n) (Clones n) (CloneOf n).
Definition setOrigStackOrAllocId (v : N) (n : t) : t :=
  mk (IsAllocation n) (Recursive n) (AllocTypes n) (Call n) (MatchingCalls n)
     v (CalleeEdges n) (CallerEdges n) (Clones n) (CloneOf n).
Definition setCalleeEdges (v : list EdgeId) (n : t) : t :=
  mk (IsAllocation n) (Recursive n) (AllocTypes n) (Call n) (MatchingCalls n)
     (OrigStackOrAllocId n) v (CallerEdges n) (Clones n) (CloneOf n).
Definition setCallerEdges (v : list EdgeId) (n : t) : t :=
  mk (IsAllocation n) (Recursive n) (AllocTypes n) (Call n) (MatchingCalls n)
     (OrigStackOrAllocId n) (CalleeEdges n) v (Clones n) (CloneOf n).
Definition setClones (v : list NodeId) (n : t) : t :=
  mk (IsAllocation n) (Recursive n) (AllocTypes n) (Call n) (MatchingCalls n)
     (OrigStackOrAllocId n) (CalleeEdges n) (CallerEdges n) v (CloneOf n).
Definition setCloneOf (v : option NodeId) (n : t) : t :=
  mk (IsAllocation n) (Recursive n) (AllocTypes n) (Call n) (MatchingCalls n)
     (OrigStackOrAllocId n) (CalleeEdges n) (CallerEdges n) (Clones n) v.

(** [ContextNode(bool IsAllocation, CallInfo C)] *)
Definition new (IsAllocation : bool) (C : CallInfo) : t :=
  mk IsAllocation false 0 C [] 0 [] [] [] None.

(** [ContextNode::hasCall] *)
Definition hasCall (n : t) : bool := bool_decide (is_Some (call (Call n))).
End ContextNode.

(** ** Command line options *)

Record Options := mkOptions {
  VerifyCCG : bool;
  VerifyNodes : bool;
  TailCallSearchDepth : N;
  AllowRecursiveCallsites : bool;
  CloneRecursiveContexts : bool;
  AllowRecursiveContexts : bool;
  (** Declared [extern] in the source: the percentage of cold bytes from
      which an allocation that stays ambiguous is hinted cold all the same. *)
  MinClonedColdBytePercent : N
}.

(** The [cl::init] values.  Modelled from the spec: the definition of
    [MinClonedColdBytePercent] is not among the sources; the heuristic it
    controls is optional, and the value 100 leaves it switched off. *)
Definition defaultOptions : Options :=
  mkOptions false false 5 true true true 100.

(** ** The graph *)

Record CallsiteContextGraph := mkCCG {
  (** [NodeOwner]: a [ContextNode *] is an index into it. *)
  NodeOwner : list ContextNode.t;
  (** The edges that [std::make_shared<ContextEdge>] has allocated: a
      [std::shared_ptr<ContextEdge>] is an index into it. *)
  EdgeStore : list ContextEdge.t;
  ContextIdToAllocationType : gmap N N;
  LastContextId : N;
  NodeToCallingFunc : gmap NodeId FuncTy;
  StackEntryIdToContextNodeMap : gmap N NodeId;
  (** [MapVector]s: association lists in insertion order. *)
  AllocationCallToContextNodeMap : list (CallInfo * NodeId);
  NonAllocationCallToContextNodeMap : list (CallInfo * NodeId);
  FuncToCallsWithMetadata : list (FuncTy * list CallInfo);
  DotAllocContextIds : gset N
}.

Definition setNodeOwner (v : list ContextNode.t) (g : CallsiteContextGraph) :=
  mkCCG v (EdgeStore g) (ContextIdToAllocationType g) (LastContextId g)
        (NodeToCallingFunc g) (StackEntryIdToContextNodeMap g)
        (AllocationCallToContextNodeMap g) (NonAllocationCallToContextNodeMap g)
        (FuncToCallsWithMetadata g) (DotAllocContextIds g).
Definition setEdgeStore (v : list ContextEdge.t) (g : CallsiteContextGraph) :=
  mkCCG (NodeOwner g) v (ContextIdToAllocationType g) (LastContextId g)
        (NodeToCallingFunc g) (StackEntryIdToContextNodeMap g)
        (AllocationCallToContextNodeMap g) (NonAllocationCallToContextNodeMap g)
        (FuncToCallsWithMetadata g) (DotAllocContextIds g).
Definition setContextIdToAllocationType (v : gmap N N) (g : CallsiteContextGraph) :=
  mkCCG (NodeOwner g) (EdgeStore g) v (LastContextId g)
        (NodeToCallingFunc g) (StackEntryIdToContextNodeMap g)
        (AllocationCallToContextNodeMap g) (NonAllocationCallToContextNodeMap g)
        (FuncToCallsWithMetadata g) (DotAllocContextIds g).
Definition setLastContextId (v : N) (g : CallsiteContextGraph) :=
  mkCCG (NodeOwner g) (EdgeStore g) (ContextIdToAllocationType g) v
        (NodeToCallingFunc g) (StackEntryIdToContextNodeMap g)
        (AllocationCallToContextNodeMap g) (NonAllocationCallToContextNodeMap g)
        (FuncToCallsWithMetadata g) (DotAllocContextIds g).
Definition setNodeToCallingFunc (v : gmap NodeId FuncTy) (g : CallsiteContextGraph) :=
  mkCCG (NodeOwner g) (EdgeStore g) (ContextIdToAllocationType g) (LastContextId g)
        v (StackEntryIdToContextNodeMap g)
        (AllocationCallToContextNodeMap g) (NonAllocationCallToContextNodeMap g)
        (FuncToCallsWithMetadata g) (DotAllocContextIds g).
Definition setStackEntryIdToContextNodeMap (v : gmap N NodeId) (g : CallsiteContextGraph) :=
  mkCCG (NodeOwner g) (EdgeStore g) (ContextIdToAllocationType g) (LastContextId g)
        (NodeToCallingFunc g) v
        (AllocationCallToContextNodeMap g) (NonAllocationCallToContextNodeMap g)
        (FuncToCallsWithMetadata g) (DotAllocContextIds g).
Definition setAllocationCallToContextNodeMap (v : list (CallInfo * NodeId))
    (g : CallsiteContextGraph) :=
  mkCCG (NodeOwner g) (EdgeStore g) (ContextIdToAllocationType g) (LastContextId g)
        (NodeToCallingFunc g) (StackEntryIdToContextNodeMap g)
        v (NonAllocationCallToContextNodeMap g)
        (FuncToCallsWithMetadata g) (DotAllocContextIds g).
Definition setNonAllocationCallToContextNodeMap (v : list (CallInfo * NodeId))
    (g : CallsiteContextGraph) :=
  mkCCG (NodeOwner g) (EdgeStore g) (ContextIdToAllocationType g) (LastContextId g)
        (NodeToCallingFunc g) (StackEntryIdToContextNodeMap g)
        (AllocationCallToContextNodeMap g) v
        (FuncToCallsWithMetadata g) (DotAllocContextIds g).
Definition setFuncToCallsWithMetadata (v : list (FuncTy * list CallInfo))
    (g : CallsiteContextGraph) :=
  mkCCG (NodeOwner g) (EdgeStore g) (ContextIdToAllocationType g) (LastContextId g)
        (NodeToCallingFunc g) (StackEntryIdToContextNodeMap g)
        (AllocationCallToContextNodeMap g) (NonAllocationCallToContextNodeMap g)
        v (DotAllocContextIds g).
Definition setDotAllocContextIds (v : gset N) (g : CallsiteContextGraph) :=
  mkCCG (NodeOwner g) (EdgeStore g) (ContextIdToAllocationType g) (LastContextId g)
        (NodeToCallingFunc g) (StackEntryIdToContextNodeMap g)
        (AllocationCallToContextNodeMap g) (NonAllocationCallToContextNodeMap g)
        (FuncToCallsWithMetadata g) v.

(** The graph [CallsiteContextGraph() = default] starts from. *)
Definition emptyGraph : CallsiteContextGraph :=
  mkCCG [] [] ∅ 0 ∅ ∅ [] [] [] ∅.

(** *** Access to the stores *)

Definition getNode (g : CallsiteContextGraph) (n : NodeId) : Res ContextNode.t :=
  deref (NodeOwner g !! n).
Definition getEdge (g : CallsiteContextGraph) (e : EdgeId) : Res ContextEdge.t :=
  deref (EdgeStore g !! e).

(** A write through a pointer. *)
Definition updNode (g : CallsiteContextGraph) (n : NodeId)
    (f : ContextNode.t -> ContextNode.t) : Res CallsiteContextGraph :=
  N ← getNode g n;
  Ok (setNodeOwner (<[n := f N]> (NodeOwner g)) g).
Definition updEdge (g : CallsiteContextGraph) (e : EdgeId)
    (f : ContextEdge.t -> ContextEdge.t) : Res CallsiteContextGraph :=
  E ← getEdge g e;
  Ok (setEdgeStore (<[e := f E]> (EdgeStore g)) g).

(** [std::make_shared<ContextEdge>(Callee, Caller, AllocType, ContextIds)] *)
Definition makeEdge (g : CallsiteContextGraph) (Callee Caller : NodeId)
    (AllocType : N) (ContextIds : gset N) : EdgeId * CallsiteContextGraph :=
  (length (EdgeStore g),
   setEdgeStore (EdgeStore g ++
     [ContextEdge.mk (Some Callee) (Some Caller) AllocType false ContextIds]) g).

(** [createNewNode] *)
Definition createNewNode (g : CallsiteContextGraph) (IsAllocation : bool)
    (F : option FuncTy) (C : CallInfo) : NodeId * CallsiteContextGraph :=
  let NewNode := length (NodeOwner g) in
  let g := setNodeOwner (NodeOwner g ++ [ContextNode.new IsAllocation C]) g in
  (NewNode,
   match F with
   | Some F => setNodeToCallingFunc (<[NewNode := F]> (NodeToCallingFunc g)) g
   | None => g
   end).

(** *** Loops *)

(** A [for] loop over a container whose body may fail. *)
Fixpoint foldlM {A S : Type} (f : S -> A -> Res S) (l : list A) (s : S) : Res S :=
  match l with
  | [] => Ok s
  | x :: l' => s' ← f s x; foldlM f l' s'
  end.

(** [llvm::find_if] followed by [vector::erase]: the first occurrence goes;
    without one, [erase(end())] has no defined behaviour. *)
Fixpoint eraseFirst (x : EdgeId) (l : list EdgeId) : option (list EdgeId) :=
  match l with
  | [] => None
  | y :: l' => if decide (y = x) then Some l' else cons y <$> eraseFirst x l'
  end.

(** *** Context information of a node *)

Section WithOptions.
Variable opts : Options.

(** [ContextNode::useCallerEdgesForContextInfo]; asserts
    [!CalleeEdges.empty() || CallerEdges.empty() || IsAllocation ||
     (AllowRecursiveCallsites && AllowRecursiveContexts)]. *)
Definition useCallerEdgesForContextInfo (n : ContextNode.t) : bool :=
  ContextNode.IsAllocation n || CloneRecursiveContexts opts.

(** The range [llvm::concat(CalleeEdges, useCallerEdgesForContextInfo() ?
    CallerEdges : {})] that the three functions below walk. *)
Definition contextInfoEdges (n : ContextNode.t) : list EdgeId :=
  ContextNode.CalleeEdges n ++
  (if useCallerEdgesForContextInfo n then ContextNode.CallerEdges n else []).

(** [ContextNode::getContextIds] *)
Definition ContextNode_getContextIds (g : CallsiteContextGraph) (n : ContextNode.t)
    : Res (gset N) :=
  foldlM (fun ContextIds Edge =>
            E ← getEdge g Edge; Ok (ContextIds ∪ ContextEdge.ContextIds E))
         (contextInfoEdges n) ∅.

(** [ContextNode::computeAllocType] *)
Fixpoint ContextNode_computeAllocType_loop (g : CallsiteContextGraph)
    (Edges : list EdgeId) (AllocType : N) : Res N :=
  match Edges with
  | [] => Ok AllocType
  | Edge :: Edges' =>
      E ← getEdge g Edge;
      let AllocType := N.lor AllocType (ContextEdge.AllocTypes E) in
      (* Bail early if alloc type reached both, no further refinement. *)
      if N.eqb AllocType BothTypes then Ok AllocType
      else ContextNode_computeAllocType_loop g Edges' AllocType
  end.

Definition ContextNode_computeAllocType (g : CallsiteContextGraph) (n : ContextNode.t)
    : Res N :=
  ContextNode_computeAllocType_loop g (contextInfoEdges n) AllocationType.None.

(** [ContextNode::emptyContextIds] *)
Fixpoint ContextNode_emptyContextIds_loop (g : CallsiteContextGraph)
    (Edges : list EdgeId) : Res bool :=
  match Edges with
  | [] => Ok true
  | Edge :: Edges' =>
      E ← getEdge g Edge;
      if decide (ContextEdge.ContextIds E = ∅)
      then ContextNode_emptyContextIds_loop g Edges'
      else Ok false
  end.

Definition ContextNode_emptyContextIds (g : CallsiteContextGraph) (n : ContextNode.t)
    : Res bool :=
  ContextNode_emptyContextIds_loop g (contextInfoEdges n).

(** [ContextNode::isRemoved]; asserts
    [(AllowRecursiveCallsites && AllowRecursiveContexts) ||
     (AllocTypes == None) == emptyContextIds()]. *)
Definition ContextNode_isRemoved (n : ContextNode.t) : bool :=
  N.eqb (ContextNode.AllocTypes n) AllocationType.None.

(** The assertion of [ContextNode::isRemoved]. *)
Definition ContextNode_isRemoved_assert (g : CallsiteContextGraph) (n : ContextNode.t)
    : Res bool :=
  if AllowRecursiveCallsites opts && AllowRecursiveContexts opts then Ok true
  else
    b ← ContextNode_emptyContextIds g n;
    Ok (bool_decide (N.eqb (ContextNode.AllocTypes n) AllocationType.None = b)).

(** [ContextNode::getOrigNode] *)
Definition getOrigNode (Node : NodeId) (n : ContextNode.t) : NodeId :=
  match ContextNode.CloneOf n with
  | None => Node
  | Some o => o
  end.

(** [ContextNode::addClone], called on node [Node] with the clone [Clone];
    when [Node] is an original it asserts [!Clone->CloneOf]. *)
Definition addClone (g : CallsiteContextGraph) (Node Clone : NodeId)
    : Res CallsiteContextGraph :=
  n ← getNode g Node;
  match ContextNode.CloneOf n with
  | Some Orig =>
      g ← updNode g Orig (fun o =>
             ContextNode.setClones (ContextNode.Clones o ++ [Clone]) o);
      updNode g Clone (ContextNode.setCloneOf (Some Orig))
  | None =>
      g ← updNode g Node (fun o =>
             ContextNode.setClones (ContextNode.Clones o ++ [Clone]) o);
      updNode g Clone (ContextNode.setCloneOf (Some Node))
  end.

(** [ContextNode::findEdgeFromCallee] *)
Fixpoint findEdgeFromCallee_loop (g : CallsiteContextGraph) (Edges : list EdgeId)
    (Callee : option NodeId) : Res (option EdgeId) :=
  match Edges with
  | [] => Ok None
  | Edge :: Edges' =>
      E ← getEdge g Edge;
      if decide (ContextEdge.Callee E = Callee) then Ok (Some Edge)
      else findEdgeFromCallee_loop g Edges' Callee
  end.

Definition findEdgeFromCallee (g : CallsiteContextGraph) (Node : NodeId)
    (Callee : option NodeId) : Res (option EdgeId) :=
  n ← getNode g Node;
  findEdgeFromCallee_loop g (ContextNode.CalleeEdges n) Callee.

(** [ContextNode::findEdgeFromCaller] *)
Fixpoint findEdgeFromCaller_loop (g : CallsiteContextGraph) (Edges : list EdgeId)
    (Caller : option NodeId) : Res (option EdgeId) :=
  match Edges with
  | [] => Ok None
  | Edge :: Edges' =>
      E ← getEdge g Edge;
      if decide (ContextEdge.Caller E = Caller) then Ok (Some Edge)
      else findEdgeFromCaller_loop g Edges' Caller
  end.

Definition findEdgeFromCaller (g : CallsiteContextGraph) (Node : NodeId)
    (Caller : option NodeId) : Res (option EdgeId) :=
  n ← getNode g Node;
  findEdgeFromCaller_loop g (ContextNode.CallerEdges n) Caller.

(** [ContextNode::eraseCalleeEdge]; asserts [EI != CalleeEdges.end()]. *)
Definition eraseCalleeEdge (g : CallsiteContextGraph) (Node : NodeId) (Edge : EdgeId)
    : Res CallsiteContextGraph :=
  n ← getNode g Node;
  l ← deref (eraseFirst Edge (ContextNode.CalleeEdges n));
  updNode g Node (ContextNode.setCalleeEdges l).

(** [ContextNode::eraseCallerEdge]; asserts [EI != CallerEdges.end()]. *)
Definition eraseCallerEdge (g : CallsiteContextGraph) (Node : NodeId) (Edge : EdgeId)
    : Res CallsiteContextGraph :=
  n ← getNode g Node;
  l ← deref (eraseFirst Edge (ContextNode.CallerEdges n));
  updNode g Node (ContextNode.setCallerEdges l).

(** [Node->CalleeEdges.push_back(Edge)] and [Node->CallerEdges.push_back(Edge)] *)
Definition pushCalleeEdge (g : CallsiteContextGraph) (Node : NodeId) (Edge : EdgeId)
    : Res CallsiteContextGraph :=
  updNode g Node (fun n =>
    ContextNode.setCalleeEdges (ContextNode.CalleeEdges n ++ [Edge]) n).
Definition pushCallerEdge (g : CallsiteContextGraph) (Node : NodeId) (Edge : EdgeId)
    : Res CallsiteContextGraph :=
  updNode g Node (fun n =>
    ContextNode.setCallerEdges (ContextNode.CallerEdges n ++ [Edge]) n).

(** [removeEdgeFromGraph(Edge)] without an iterator; asserts
    [!Edge->isRemoved()] and that both lists shrink. *)
Definition removeEdgeFromGraph (g : CallsiteContextGraph) (Edge : EdgeId)
    : Res CallsiteContextGraph :=
  E ← getEdge g Edge;
  let Callee := ContextEdge.Callee E in
  let Caller := ContextEdge.Caller E in
  g ← updEdge g Edge ContextEdge.clear;
  Callee ← deref Callee;
  g ← eraseCallerEdge g Callee Edge;
  Caller ← deref Caller;
  eraseCalleeEdge g Caller Edge.

(** [removeEdgeFromGraph(Edge, &EI, CalleeIter)] where [EI] points into the
    edge list of [Node] that is being walked: [Done] are the edges before
    [EI] and [Rest] the ones after it, so that erasing at [EI] leaves
    [Done ++ Rest].  The iterator belongs to the list of the edge's caller
    (callee, when [CalleeIter] is false); erasing through it from the list
    of another node has no defined behaviour. *)
Definition removeEdgeFromGraph_iter (g : CallsiteContextGraph) (Edge : EdgeId)
    (Node : NodeId) (Done Rest : list EdgeId) (CalleeIter : bool)
    : Res CallsiteContextGraph :=
  E ← getEdge g Edge;
  let Callee := ContextEdge.Callee E in
  let Caller := ContextEdge.Caller E in
  g ← updEdge g Edge ContextEdge.clear;
  Callee ← deref Callee;
  Caller ← deref Caller;
  if CalleeIter then
    g ← eraseCallerEdge g Callee Edge;
    if decide (Caller = Node)
    then updNode g Node (ContextNode.setCalleeEdges (Done ++ Rest))
    else ub
  else
    g ← eraseCalleeEdge g Caller Edge;
    if decide (Callee = Node)
    then updNode g Node (ContextNode.setCallerEdges (Done ++ Rest))
    else ub.

(** [removeNoneTypeCalleeEdges]; asserts [Edge->ContextIds.empty()] for the
    edges it removes. *)
Fixpoint removeNoneTypeCalleeEdges_loop (g : CallsiteContextGraph) (Node : NodeId)
    (Done Rest : list EdgeId) : Res CallsiteContextGraph :=
  match Rest with
  | [] => Ok g
  | Edge :: Rest' =>
      E ← getEdge g Edge;
      if N.eqb (ContextEdge.AllocTypes E) AllocationType.None then
        g ← removeEdgeFromGraph_iter g Edge Node Done Rest' true;
        removeNoneTypeCalleeEdges_loop g Node Done Rest'
      else removeNoneTypeCalleeEdges_loop g Node (Done ++ [Edge]) Rest'
  end.

Definition removeNoneTypeCalleeEdges (g : CallsiteContextGraph) (Node : NodeId)
    : Res CallsiteContextGraph :=
  n ← getNode g Node;
  removeNoneTypeCalleeEdges_loop g Node [] (ContextNode.CalleeEdges n).

(** [removeNoneTypeCallerEdges]: the edge leaves both lists but is not
    cleared. *)
Fixpoint removeNoneTypeCallerEdges_loop (g : CallsiteContextGraph) (Node : NodeId)
    (Done Rest : list EdgeId) : Res CallsiteContextGraph :=
  match Rest with
  | [] => Ok g
  | Edge :: Rest' =>
      E ← getEdge g Edge;
      if N.eqb (ContextEdge.AllocTypes E) AllocationType.None then
        Caller ← deref (ContextEdge.Caller E);
        g ← eraseCalleeEdge g Caller Edge;
        g ← updNode g Node (ContextNode.setCallerEdges (Done ++ Rest'));
        removeNoneTypeCallerEdges_loop g Node Done Rest'
      else removeNoneTypeCallerEdges_loop g Node (Done ++ [Edge]) Rest'
  end.

Definition removeNoneTypeCallerEdges (g : CallsiteContextGraph) (Node : NodeId)
    : Res CallsiteContextGraph :=
  n ← getNode g Node;
  removeNoneTypeCallerEdges_loop g Node [] (ContextNode.CallerEdges n).

(** *** Allocation types of sets of context ids *)

(** [computeAllocType(ContextIds)]: the ids are visited in the iteration
    order of the set; [ContextIdToAllocationType.at(Id)] needs the id to be
    in the map. *)
Fixpoint computeAllocType_loop (tbl : gmap N N) (Ids : list N) (AllocType : N)
    : Res N :=
  match Ids with
  | [] => Ok AllocType
  | Id :: Ids' =>
      t ← deref (tbl !! Id);
      let AllocType := N.lor AllocType t in
      (* Bail early if alloc type reached both, no further refinement. *)
      if N.eqb AllocType BothTypes then Ok AllocType
      else computeAllocType_loop tbl Ids' AllocType
  end.

Definition computeAllocType (g : CallsiteContextGraph) (ContextIds : gset N) : Res N :=
  computeAllocType_loop (ContextIdToAllocationType g) (elements ContextIds)
                        AllocationType.None.

(** [intersectAllocTypesImpl] *)
Fixpoint intersectAllocTypesImpl_loop (tbl : gmap N N) (Node1Ids : list N)
    (Node2Ids : gset N) (AllocType : N) : Res N :=
  match Node1Ids with
  | [] => Ok AllocType
  | Id :: Ids' =>
      if decide (Id ∈ Node2Ids) then
        t ← deref (tbl !! Id);
        let AllocType := N.lor AllocType t in
        if N.eqb AllocType BothTypes then Ok AllocType
        else intersectAllocTypesImpl_loop tbl Ids' Node2Ids AllocType
      else intersectAllocTypesImpl_loop tbl Ids' Node2Ids AllocType
  end.

Definition intersectAllocTypesImpl (g : CallsiteContextGraph)
    (Node1Ids Node2Ids : gset N) : Res N :=
  intersectAllocTypesImpl_loop (ContextIdToAllocationType g) (elements Node1Ids)
                               Node2Ids AllocationType.None.

(** [intersectAllocTypes] *)
Definition intersectAllocTypes (g : CallsiteContextGraph)
    (Node1Ids Node2Ids : gset N) : Res N :=
  if decide (size Node1Ids < size Node2Ids)%nat
  then intersectAllocTypesImpl g Node1Ids Node2Ids
  else intersectAllocTypesImpl g Node2Ids Node1Ids.

(** [allocTypesMatch]; asserts [InAllocTypes.size() == Edges.size()], and
    [std::equal] over two ranges of different lengths is false. *)
Fixpoint allocTypesMatch (g : CallsiteContextGraph) (InAllocTypes : list N)
    (Edges : list EdgeId) : Res bool :=
  match InAllocTypes, Edges with
  | [], [] => Ok true
  | l :: InAllocTypes', Edge :: Edges' =>
      r ← getEdge g Edge;
      if N.eqb l AllocationType.None
         || N.eqb (ContextEdge.AllocTypes r) AllocationType.None
         || N.eqb (allocTypeToUse l) (allocTypeToUse (ContextEdge.AllocTypes r))
      then allocTypesMatch g InAllocTypes' Edges'
      else Ok false
  | _, _ => Ok false
  end.

(** [allocTypesMatchClone]: [EdgeCalleeMap] is keyed by the callee pointer of
    the clone's callee edges (the source asserts that no key repeats);
    asserts [Node] and [InAllocTypes.size() == Node->CalleeEdges.size()]. *)
Fixpoint allocTypesMatchClone_loop (g : CallsiteContextGraph)
    (EdgeCalleeMap : gmap (option NodeId) N) (InAllocTypes : list N) (I : nat)
    (Edges : list EdgeId) : Res bool :=
  match Edges with
  | [] => Ok true
  | Edge :: Edges' =>
      E ← getEdge g Edge;
      match EdgeCalleeMap !! ContextEdge.Callee E with
      | None => allocTypesMatchClone_loop g EdgeCalleeMap InAllocTypes (S I) Edges'
      | Some t =>
          InI ← deref (InAllocTypes !! I);
          if N.eqb InI AllocationType.None || N.eqb t AllocationType.None
          then allocTypesMatchClone_loop g EdgeCalleeMap InAllocTypes (S I) Edges'
          else if N.eqb (allocTypeToUse t) (allocTypeToUse InI)
          then allocTypesMatchClone_loop g EdgeCalleeMap InAllocTypes (S I) Edges'
          else Ok false
      end
  end.

Definition allocTypesMatchClone (g : CallsiteContextGraph) (InAllocTypes : list N)
    (Clone : NodeId) : Res bool :=
  c ← getNode g Clone;
  Node ← deref (ContextNode.CloneOf c);
  n ← getNode g Node;
  EdgeCalleeMap ← foldlM (fun (m : gmap (option NodeId) N) Edge =>
                            E ← getEdge g Edge;
                            Ok (<[ContextEdge.Callee E := ContextEdge.AllocTypes E]> m))
                         (ContextNode.CalleeEdges c) ∅;
  allocTypesMatchClone_loop g EdgeCalleeMap InAllocTypes 0 (ContextNode.CalleeEdges n).

(** ** Building the graph *)

(** [MapVector::operator[]] followed by an assignment, and [lookup]. *)
Fixpoint mapVectorSet {K V : Type} `{EqDecision K} (k : K) (v : V)
    (l : list (K * V)) : list (K * V) :=
  match l with
  | [] => [(k, v)]
  | (k', v') :: l' =>
      if decide (k' = k) then (k, v) :: l' else (k', v') :: mapVectorSet k v l'
  end.

Fixpoint mapVectorLookup {K V : Type} `{EqDecision K} (k : K)
    (l : list (K * V)) : option V :=
  match l with
  | [] => None
  | (k', v') :: l' => if decide (k' = k) then Some v' else mapVectorLookup k l'
  end.

(** [getNodeForAlloc], [getNodeForInst], [getNodeForStackId] *)
Definition getNodeForAlloc (g : CallsiteContextGraph) (C : CallInfo) : option NodeId :=
  mapVectorLookup C (AllocationCallToContextNodeMap g).

Definition getNodeForInst (g : CallsiteContextGraph) (C : CallInfo) : option NodeId :=
  match getNodeForAlloc g C with
  | Some Node => Some Node
  | None => mapVectorLookup C (NonAllocationCallToContextNodeMap g)
  end.

Definition getNodeForStackId (g : CallsiteContextGraph) (StackId : N) : option NodeId :=
  StackEntryIdToContextNodeMap g !! StackId.

(** [addAllocNode]; asserts [!getNodeForAlloc(Call)]. *)
Definition addAllocNode (g : CallsiteContextGraph) (Call : CallInfo) (F : FuncTy)
    : Res (NodeId * CallsiteContextGraph) :=
  let '(AllocNode, g) := createNewNode g true (Some F) Call in
  let g := setAllocationCallToContextNodeMap
             (mapVectorSet Call AllocNode (AllocationCallToContextNodeMap g)) g in
  (* Use LastContextId as a uniq id for MIB allocation nodes. *)
  g ← updNode g AllocNode (ContextNode.setOrigStackOrAllocId (LastContextId g));
  g ← updNode g AllocNode (ContextNode.setAllocTypes AllocationType.None);
  Ok (AllocNode, g).

(** [ContextNode::addOrUpdateCallerEdge], called on node [Node]. *)
Fixpoint addOrUpdateCallerEdge_loop (g : CallsiteContextGraph) (Edges : list EdgeId)
    (Caller : NodeId) (AllocType : N) (ContextId : N)
    : Res (option CallsiteContextGraph) :=
  match Edges with
  | [] => Ok None
  | Edge :: Edges' =>
      E ← getEdge g Edge;
      if decide (ContextEdge.Caller E = Some Caller) then
        g ← updEdge g Edge (fun E =>
               ContextEdge.setContextIds (ContextEdge.ContextIds E ∪ {[ContextId]})
                 (ContextEdge.setAllocTypes (N.lor (ContextEdge.AllocTypes E) AllocType) E));
        Ok (Some g)
      else addOrUpdateCallerEdge_loop g Edges' Caller AllocType ContextId
  end.

Definition addOrUpdateCallerEdge (g : CallsiteContextGraph) (Node Caller : NodeId)
    (AllocType : N) (ContextId : N) : Res CallsiteContextGraph :=
  n ← getNode g Node;
  r ← addOrUpdateCallerEdge_loop g (ContextNode.CallerEdges n) Caller AllocType ContextId;
  match r with
  | Some g => Ok g
  | None =>
      let '(Edge, g) := makeEdge g Node Caller AllocType {[ContextId]} in
      g ← pushCallerEdge g Node Edge;
      pushCalleeEdge g Caller Edge
  end.

(** The derived graph's [getStackId]: the identity for the IR, a lookup in
    the summary index otherwise. *)
Variable getStackId : N -> N.

(** [addStackNodesForMIB].  [StackContext] lists the entries of the MIB's
    call stack that [beginAfterSharedPrefix(CallsiteContext)] leaves: the
    entries after the ones shared with the allocation call's own callsite
    context.  The map [ContextIdToContextSizeInfos], which only this
    function writes and which [UpdateCalls] and the reports read, is kept
    beside the graph: the entry that the function makes for the new context
    id is left out here, and [UpdateCalls] takes the map as an argument. *)
Definition addStackNodesForMIB_step (AllocType : N)
    (st : CallsiteContextGraph * NodeId * gset N) (ContextIter : N)
    : Res (CallsiteContextGraph * NodeId * gset N) :=
  let '(g, PrevNode, StackIdSet) := st in
  let StackId := getStackId ContextIter in
  let '(StackNode, g) :=
    match getNodeForStackId g StackId with
    | Some StackNode => (StackNode, Ok g)
    | None =>
        let '(StackNode, g) := createNewNode g false None nullCallInfo in
        let g := setStackEntryIdToContextNodeMap
                   (<[StackId := StackNode]> (StackEntryIdToContextNodeMap g)) g in
        (StackNode, updNode g StackNode (ContextNode.setOrigStackOrAllocId StackId))
    end in
  g ← g;
  (* Marking a node recursive will prevent its cloning completely, even for
     non-recursive contexts flowing through it. *)
  '(g, StackIdSet) ←
    (if AllowRecursiveCallsites opts then Ok (g, StackIdSet)
     else if decide (StackId ∈ StackIdSet)
          then g ← updNode g StackNode (ContextNode.setRecursive true);
               Ok (g, StackIdSet)
          else Ok (g, StackIdSet ∪ {[StackId]}));
  g ← updNode g StackNode (fun n =>
         ContextNode.setAllocTypes (N.lor (ContextNode.AllocTypes n) AllocType) n);
  g ← addOrUpdateCallerEdge g PrevNode StackNode AllocType (LastContextId g);
  Ok (g, StackNode, StackIdSet).

Definition addStackNodesForMIB (g : CallsiteContextGraph) (AllocNode : NodeId)
    (StackContext : list N) (AllocType : N) : Res CallsiteContextGraph :=
  (* Treating the hot alloc type as NotCold before the disambiguation for
     "hot" is done. *)
  let AllocType :=
    if N.eqb AllocType AllocationType.Hot then AllocationType.NotCold else AllocType in
  let g := setLastContextId (wrap32 (LastContextId g + 1)) g in
  Id ← denseKey (LastContextId g);
  let g := setContextIdToAllocationType
             (<[Id := AllocType]> (ContextIdToAllocationType g)) g in
  (* Update alloc type and context ids for this MIB. *)
  g ← updNode g AllocNode (fun n =>
         ContextNode.setAllocTypes (N.lor (ContextNode.AllocTypes n) AllocType) n);
  '(g, _, _) ← foldlM (addStackNodesForMIB_step AllocType) StackContext (g, AllocNode, ∅);
  Ok g.

(** [duplicateContextIds].  The set [StackSequenceContextIds] is only
    iterated: it is given as the sequence of its ids in the order of the
    iteration, which the ids alone do not determine.
    [ContextIdToAllocationType[OldId]] default constructs the entry of an
    id that is not in the map (the source asserts it is). *)
Definition duplicateContextIds_step
    (st : CallsiteContextGraph * gmap N (gset N) * gset N) (OldId : N)
    : Res (CallsiteContextGraph * gmap N (gset N) * gset N) :=
  let '(g, OldToNewContextIds, NewContextIds) := st in
  let g := setLastContextId (wrap32 (LastContextId g + 1)) g in
  NewId ← denseKey (LastContextId g);
  let NewContextIds := NewContextIds ∪ {[NewId]} in
  let OldToNewContextIds :=
    <[OldId := default ∅ (OldToNewContextIds !! OldId) ∪ {[NewId]}]>
      OldToNewContextIds in
  (* The new context has the same allocation type as original. *)
  let tbl := ContextIdToAllocationType g in
  let tbl := match tbl !! OldId with
             | Some _ => tbl
             | None => <[OldId := AllocationType.None]> tbl
             end in
  let tbl := <[NewId := default AllocationType.None (tbl !! OldId)]> tbl in
  let g := setContextIdToAllocationType tbl g in
  let g := if decide (OldId ∈ DotAllocContextIds g)
           then setDotAllocContextIds (DotAllocContextIds g ∪ {[NewId]}) g
           else g in
  Ok (g, OldToNewContextIds, NewContextIds).

Definition duplicateContextIds (g : CallsiteContextGraph)
    (StackSequenceContextIds : list N) (OldToNewContextIds : gmap N (gset N))
    : Res (CallsiteContextGraph * gmap N (gset N) * gset N) :=
  foldlM duplicateContextIds_step StackSequenceContextIds (g, OldToNewContextIds, ∅).

(** [propagateDuplicateContextIds]: the lambda [GetNewIds]. *)
Definition GetNewIds (OldToNewContextIds : gmap N (gset N)) (ContextIds : gset N)
    : gset N :=
  foldl (fun NewIds Id =>
           match OldToNewContextIds !! Id with
           | Some New => NewIds ∪ New
           | None => NewIds
           end) ∅ (elements ContextIds).

(** The recursive lambda [UpdateCallers]; [fuel] bounds the depth of the
    recursion. *)
Fixpoint UpdateCallers (fuel : nat) (OldToNewContextIds : gmap N (gset N))
    (Node : NodeId) (st : CallsiteContextGraph * gset EdgeId)
    : Res (CallsiteContextGraph * gset EdgeId) :=
  match fuel with
  | O => Err OutOfFuel
  | S fuel =>
      n ← getNode st.1 Node;
      foldlM (fun (st : CallsiteContextGraph * gset EdgeId) Edge =>
                let '(g, Visited) := st in
                if decide (Edge ∈ Visited) then Ok (g, Visited)
                else
                  let Visited := Visited ∪ {[Edge]} in
                  E ← getEdge g Edge;
                  let NextNode := ContextEdge.Caller E in
                  let NewIdsToAdd := GetNewIds OldToNewContextIds (ContextEdge.ContextIds E) in
                  (* Only need to recursively iterate to NextNode via this
                     caller edge if it resulted in any added ids to NextNode. *)
                  if decide (NewIdsToAdd = ∅) then Ok (g, Visited)
                  else
                    g ← updEdge g Edge (fun E =>
                           ContextEdge.setContextIds
                             (ContextEdge.ContextIds E ∪ NewIdsToAdd) E);
                    NextNode ← deref NextNode;
                    UpdateCallers fuel OldToNewContextIds NextNode (g, Visited))
             (ContextNode.CallerEdges n) st
  end.

Definition propagateDuplicateContextIds (fuel : nat) (g : CallsiteContextGraph)
    (OldToNewContextIds : gmap N (gset N)) : Res CallsiteContextGraph :=
  '(g, _) ← foldlM (fun st (Entry : CallInfo * NodeId) =>
                      UpdateCallers fuel OldToNewContextIds Entry.2 st)
                   (AllocationCallToContextNodeMap g) (g, ∅);
  Ok g.

(** ** Moving edges between clones *)

(** [moveEdgeToExistingCalleeClone]; asserts
    [NewCallee->getOrigNode() == Edge->Callee->getOrigNode()].  The loop
    over [OldCallee->CalleeEdges] pushes onto [NewCallee->CalleeEdges],
    which must be another vector.  Under [VerifyCCG] the source ends with
    calls of [checkNode], which change nothing. *)
Definition moveEdgeToExistingCalleeClone_calleeEdge
    (OldCallee NewCallee : NodeId) (EdgeIsRecursive NewClone : bool)
    (ContextIdsToMove : gset N) (g : CallsiteContextGraph) (OldCalleeEdge : EdgeId)
    : Res CallsiteContextGraph :=
  OCE ← getEdge g OldCalleeEdge;
  let CalleeToUse := ContextEdge.Callee OCE in
  (* If this is a direct recursion edge, use NewCallee (the clone) as the
     callee as well, so that any edge updated/created here is also direct
     recursive. *)
  if bool_decide (CalleeToUse = Some OldCallee) && EdgeIsRecursive then
    (* assert(OldCalleeEdge == Edge); continue *)
    Ok g
  else
    let CalleeToUse :=
      if decide (CalleeToUse = Some OldCallee) then Some NewCallee else CalleeToUse in
    (* The context ids moving to the new callee are the subset of this
       edge's context ids and the context ids on the caller edge being
       moved. *)
    let EdgeContextIdsToMove := ContextEdge.ContextIds OCE ∩ ContextIdsToMove in
    g ← updEdge g OldCalleeEdge (fun E =>
           ContextEdge.setContextIds (ContextEdge.ContextIds E ∖ EdgeContextIdsToMove) E);
    OCE ← getEdge g OldCalleeEdge;
    t ← computeAllocType g (ContextEdge.ContextIds OCE);
    g ← updEdge g OldCalleeEdge (ContextEdge.setAllocTypes t);
    NewCalleeEdge ← (if NewClone then Ok None
                     else findEdgeFromCallee g NewCallee CalleeToUse);
    match NewCalleeEdge with
    | Some NewCalleeEdge =>
        t ← computeAllocType g EdgeContextIdsToMove;
        updEdge g NewCalleeEdge (fun E =>
          ContextEdge.setAllocTypes (N.lor (ContextEdge.AllocTypes E) t)
            (ContextEdge.setContextIds (ContextEdge.ContextIds E ∪ EdgeContextIdsToMove) E))
    | None =>
        t ← computeAllocType g EdgeContextIdsToMove;
        CalleeToUse ← deref CalleeToUse;
        let '(NewEdge, g) := makeEdge g CalleeToUse NewCallee t EdgeContextIdsToMove in
        if decide (NewCallee = OldCallee) then ub
        else
          g ← pushCalleeEdge g NewCallee NewEdge;
          pushCallerEdge g CalleeToUse NewEdge
    end.

Definition moveEdgeToExistingCalleeClone (g : CallsiteContextGraph) (Edge : EdgeId)
    (NewCallee : NodeId) (NewClone : bool) (ContextIdsToMove : gset N)
    : Res CallsiteContextGraph :=
  E ← getEdge g Edge;
  let EdgeIsRecursive := bool_decide (ContextEdge.Callee E = ContextEdge.Caller E) in
  let OldCallee := ContextEdge.Callee E in
  (* We might already have an edge to the new callee from earlier cloning
     for a different allocation. If one exists we will reuse it. *)
  ExistingEdgeToNewCallee ← findEdgeFromCaller g NewCallee (ContextEdge.Caller E);
  (* Callers will pass an empty ContextIdsToMove set when they want to move
     the edge. Copy in Edge's ids for simplicity. *)
  let ContextIdsToMove :=
    if decide (ContextIdsToMove = ∅) then ContextEdge.ContextIds E else ContextIdsToMove in
  g ← (if decide (size (ContextEdge.ContextIds E) = size ContextIdsToMove) then
         (* Moving the whole Edge. *)
         g ← updNode g NewCallee (fun n =>
                ContextNode.setAllocTypes
                  (N.lor (ContextNode.AllocTypes n) (ContextEdge.AllocTypes E)) n);
         match ExistingEdgeToNewCallee with
         | Some Existing =>
             (* Since we already have an edge to NewCallee, simply move the
                ids onto it, and remove the existing Edge. *)
             g ← updEdge g Existing (fun X =>
                    ContextEdge.setAllocTypes
                      (N.lor (ContextEdge.AllocTypes X) (ContextEdge.AllocTypes E))
                      (ContextEdge.setContextIds
                         (ContextEdge.ContextIds X ∪ ContextIdsToMove) X));
             (* assert(Edge->ContextIds == ContextIdsToMove) *)
             removeEdgeFromGraph g Edge
         | None =>
             (* Otherwise just reconnect Edge to NewCallee. *)
             g ← updEdge g Edge (ContextEdge.setCallee (Some NewCallee));
             g ← pushCallerEdge g NewCallee Edge;
             OldCallee ← deref OldCallee;
             eraseCallerEdge g OldCallee Edge
         end
       else
         (* Only moving a subset of Edge's ids. *)
         CallerEdgeAllocType ← computeAllocType g ContextIdsToMove;
         g ← match ExistingEdgeToNewCallee with
             | Some Existing =>
                 updEdge g Existing (fun X =>
                   ContextEdge.setAllocTypes
                     (N.lor (ContextEdge.AllocTypes X) CallerEdgeAllocType)
                     (ContextEdge.setContextIds
                        (ContextEdge.ContextIds X ∪ ContextIdsToMove) X))
             | None =>
                 Caller ← deref (ContextEdge.Caller E);
                 let '(NewEdge, g) :=
                   makeEdge g NewCallee Caller CallerEdgeAllocType ContextIdsToMove in
                 g ← pushCalleeEdge g Caller NewEdge;
                 pushCallerEdge g NewCallee NewEdge
             end;
         g ← updNode g NewCallee (fun n =>
                ContextNode.setAllocTypes
                  (N.lor (ContextNode.AllocTypes n) CallerEdgeAllocType) n);
         g ← updEdge g Edge (fun E =>
                ContextEdge.setContextIds (ContextEdge.ContextIds E ∖ ContextIdsToMove) E);
         E ← getEdge g Edge;
         t ← computeAllocType g (ContextEdge.ContextIds E);
         updEdge g Edge (ContextEdge.setAllocTypes t));
  (* Now walk the old callee node's callee edges and move Edge's context
     ids over to the corresponding edge into the clone. *)
  OldCallee ← deref OldCallee;
  oc ← getNode g OldCallee;
  g ← foldlM (moveEdgeToExistingCalleeClone_calleeEdge OldCallee NewCallee
                EdgeIsRecursive NewClone ContextIdsToMove)
             (ContextNode.CalleeEdges oc) g;
  (* Recompute the node alloc type now that its callee edges have been
     updated (since we will compute from those edges). *)
  oc ← getNode g OldCallee;
  t ← ContextNode_computeAllocType g oc;
  (* assert((OldCallee->AllocTypes == None) == OldCallee->emptyContextIds()) *)
  updNode g OldCallee (ContextNode.setAllocTypes t).

(** [moveEdgeToNewCalleeClone]; asserts [NodeToCallingFunc.count(Node)]. *)
Definition moveEdgeToNewCalleeClone (g : CallsiteContextGraph) (Edge : EdgeId)
    (ContextIdsToMove : gset N) : Res (NodeId * CallsiteContextGraph) :=
  E ← getEdge g Edge;
  Node ← deref (ContextEdge.Callee E);
  n ← getNode g Node;
  let '(Clone, g) :=
    createNewNode g (ContextNode.IsAllocation n) (NodeToCallingFunc g !! Node)
                  (ContextNode.Call n) in
  g ← addClone g Node Clone;
  n ← getNode g Node;
  g ← updNode g Clone (ContextNode.setMatchingCalls (ContextNode.MatchingCalls n));
  g ← moveEdgeToExistingCalleeClone g Edge Clone true ContextIdsToMove;
  Ok (Clone, g).

(** ** Clone identification *)

(** The table [AllocTypeCloningPriority] of [identifyClones]. *)
Definition AllocTypeCloningPriority : list N :=
  [ (*None*) 3; (*NotCold*) 4; (*Cold*) 1; (*NotColdCold*) 2 ].

(** The first id of the iteration over the context ids of an edge,
    [*Edge->ContextIds.begin()].  [DenseSet] is not among the sources, and
    the ids of a set do not determine the order of its iteration, which
    follows the buckets of the hash table and so depends on how the set was
    built.  It is a parameter: for the edge and its set of ids, the id that
    the iteration starts with. *)
Variable ContextIds_begin : EdgeId -> gset N -> N.

(** The comparison that [identifyClones] sorts the caller edges with, on
    the edges [a] and [b] of the edge store and their contents. *)
Definition callerEdgeLess (a b : EdgeId) (A B : ContextEdge.t) : Res bool :=
  (* Nodes with non-empty context ids should be sorted before those with
     empty context ids. *)
  if decide (ContextEdge.ContextIds A = ∅) then Ok false
  else if decide (ContextEdge.ContextIds B = ∅) then Ok true
  else if N.eqb (ContextEdge.AllocTypes A) (ContextEdge.AllocTypes B) then
    (* Use the first context id for each edge as a tie-breaker. *)
    Ok (N.ltb (ContextIds_begin a (ContextEdge.ContextIds A))
              (ContextIds_begin b (ContextEdge.ContextIds B)))
  else
    pa ← deref (AllocTypeCloningPriority !! N.to_nat (ContextEdge.AllocTypes A));
    pb ← deref (AllocTypeCloningPriority !! N.to_nat (ContextEdge.AllocTypes B));
    Ok (N.ltb pa pb).

(** [llvm::stable_sort], modelled by its contract: the result is ordered
    by the comparison and elements that compare equivalent keep their
    relative order.  Each element is inserted, from the last to the first,
    in front of the sorted elements that are not less than it. *)
Fixpoint stable_sort_insert {A : Type} (less : A -> A -> Res bool) (x : A)
    (l : list A) : Res (list A) :=
  match l with
  | [] => Ok [x]
  | y :: l' =>
      b ← less y x;
      if (b : bool) then r ← stable_sort_insert less x l'; Ok (y :: r)
      else Ok (x :: y :: l')
  end.

Fixpoint stable_sort {A : Type} (less : A -> A -> Res bool) (l : list A)
    : Res (list A) :=
  match l with
  | [] => Ok []
  | x :: l' => s ← stable_sort less l'; stable_sort_insert less x s
  end.

Definition sortCallerEdges (g : CallsiteContextGraph) (Edges : list EdgeId)
    : Res (list EdgeId) :=
  stable_sort (fun A B => EA ← getEdge g A; EB ← getEdge g B; callerEdgeLess A B EA EB)
              Edges.

(** The context ids that show up on more than one of the given edges. *)
Definition idsOnMultipleEdges (g : CallsiteContextGraph) (Edges : list EdgeId)
    : Res (gset N) :=
  r ← foldlM (fun (st : gset N * gset N) CE =>
                E ← getEdge g CE;
                let '(AllCallerContextIds, RecursiveContextIds) := st in
                Ok (AllCallerContextIds ∪ ContextEdge.ContextIds E,
                    RecursiveContextIds ∪ (ContextEdge.ContextIds E ∩ AllCallerContextIds)))
             Edges (∅, ∅);
  Ok r.2.

(** The alloc types of the callee edges of [Node] restricted to the ids of
    the caller edge at hand. *)
Definition calleeEdgeAllocTypesForCallerEdge (g : CallsiteContextGraph)
    (CalleeEdges : list EdgeId) (CallerEdgeContextsForAlloc : gset N)
    : Res (list N) :=
  foldlM (fun acc CalleeEdge =>
            E ← getEdge g CalleeEdge;
            t ← intersectAllocTypes g (ContextEdge.ContextIds E) CallerEdgeContextsForAlloc;
            Ok (acc ++ [t]))
         CalleeEdges [].

(** The search for an existing clone that the caller edge can move to. *)
Fixpoint findCloneToReuse (g : CallsiteContextGraph) (Clones : list NodeId)
    (CallerAllocTypeForAlloc : N) (CalleeEdgeAllocTypesForCallerEdge : list N)
    : Res (option NodeId) :=
  match Clones with
  | [] => Ok None
  | CurClone :: Clones' =>
      c ← getNode g CurClone;
      if negb (N.eqb (allocTypeToUse (ContextNode.AllocTypes c))
                     (allocTypeToUse CallerAllocTypeForAlloc))
      then findCloneToReuse g Clones' CallerAllocTypeForAlloc
                            CalleeEdgeAllocTypesForCallerEdge
      else
        let BothSingleAlloc :=
          hasSingleAllocType (ContextNode.AllocTypes c)
          && hasSingleAllocType CallerAllocTypeForAlloc in
        (* assert(!BothSingleAlloc ||
                  CurClone->AllocTypes == CallerAllocTypeForAlloc) *)
        m ← (if BothSingleAlloc then Ok true
             else allocTypesMatchClone g CalleeEdgeAllocTypesForCallerEdge CurClone);
        if (m : bool) then Ok (Some CurClone)
        else findCloneToReuse g Clones' CallerAllocTypeForAlloc
                              CalleeEdgeAllocTypesForCallerEdge
  end.

(** After the deferred cloning of a backedge's caller: the search, among
    the caller edges of [Node], for the new edge from a clone of that
    caller which took over context ids of the backedge.  [Snapshot] is the
    copy of the caller edges that the enclosing loop walks. *)
Fixpoint findUpdatedBackedge (g : CallsiteContextGraph) (Edges : list EdgeId)
    (CallerEdgeCaller : option NodeId) (CallerEdgeContextsForAlloc : gset N)
    (Snapshot : list EdgeId) : Res (option (EdgeId * gset N)) :=
  match Edges with
  | [] => Ok None
  | E :: Edges' =>
      EE ← getEdge g E;
      ECaller ← deref (ContextEdge.Caller EE);
      ec ← getNode g ECaller;
      (* Only interested in clones of the current edges caller. *)
      if negb (bool_decide (ContextNode.CloneOf ec = CallerEdgeCaller)) then
        findUpdatedBackedge g Edges' CallerEdgeCaller CallerEdgeContextsForAlloc Snapshot
      else
        let CallerEdgeContextsForAllocNew :=
          CallerEdgeContextsForAlloc ∩ ContextEdge.ContextIds EE in
        if decide (CallerEdgeContextsForAllocNew = ∅) then
          findUpdatedBackedge g Edges' CallerEdgeCaller CallerEdgeContextsForAlloc Snapshot
        else if decide (E ∈ Snapshot) then
          findUpdatedBackedge g Edges' CallerEdgeCaller CallerEdgeContextsForAlloc Snapshot
        else Ok (Some (E, CallerEdgeContextsForAllocNew))
  end.

(** How an iteration of a loop ends. *)
Inductive LoopCtl (S : Type) := Continue (s : S) | Break (s : S).
Arguments Continue {S} s.
Arguments Break {S} s.

Definition CloneState : Type := CallsiteContextGraph * gset NodeId.

(** One iteration of the cloning loop of [identifyClones] for the caller
    edge [CallerEdge]; [Done] and [Rest] are the entries of the copy
    [CallerEdges] before and after it.  The entry itself may be replaced
    (the loop variable is a reference into the copy): the result carries
    the entry as the iteration leaves it.  [rec] is the recursive call. *)
Definition identifyClones_iteration
    (rec : NodeId -> gset N -> CloneState -> Res CloneState)
    (Node : NodeId) (AllocContextIds RecursiveContextIds : gset N)
    (Done Rest : list EdgeId) (st : CloneState) (CallerEdge : EdgeId)
    : Res (LoopCtl (CloneState * EdgeId)) :=
  let '(g, Visited) := st in
  CE ← getEdge g CallerEdge;
  (* Skip any that have been removed by an earlier recursive call. *)
  if ContextEdge.isRemoved CE then Ok (Continue (st, CallerEdge)) else
  (* assert(CallerEdge->Callee == Node) *)
  n ← getNode g Node;
  (* See if cloning the prior caller edge left this node with a single alloc
     type or a single caller. In that case no more cloning of Node is
     needed. *)
  if hasSingleAllocType (ContextNode.AllocTypes n)
     || bool_decide (length (ContextNode.CallerEdges n) <= 1)%nat
  then Ok (Break (st, CallerEdge)) else
  (* If the caller was not successfully matched to a call in the IR/summary,
     there is no point in trying to clone for it as we can't update that
     call. *)
  Caller ← deref (ContextEdge.Caller CE);
  c ← getNode g Caller;
  if negb (ContextNode.hasCall c) then Ok (Continue (st, CallerEdge)) else
  (* Only need to process the ids along this edge pertaining to the given
     allocation. *)
  let CallerEdgeContextsForAlloc := ContextEdge.ContextIds CE ∩ AllocContextIds in
  let CallerEdgeContextsForAlloc :=
    if decide (RecursiveContextIds = ∅) then CallerEdgeContextsForAlloc
    else CallerEdgeContextsForAlloc ∖ RecursiveContextIds in
  if decide (CallerEdgeContextsForAlloc = ∅) then Ok (Continue (st, CallerEdge)) else
  CallerAllocTypeForAlloc ← computeAllocType g CallerEdgeContextsForAlloc;
  CalleeEdgeAllocTypesForCallerEdge ←
    calleeEdgeAllocTypesForCallerEdge g (ContextNode.CalleeEdges n)
                                      CallerEdgeContextsForAlloc;
  (* Don't clone if doing so will not disambiguate any alloc types amongst
     caller edges (including the callee edges that would be cloned).
     assert(CallerEdge->AllocTypes != None); assert(Node->AllocTypes != None) *)
  NoDisambiguation ←
    (if negb (ContextEdge.IsBackedge CE)
        && N.eqb (allocTypeToUse CallerAllocTypeForAlloc)
                 (allocTypeToUse (ContextNode.AllocTypes n))
     then allocTypesMatch g CalleeEdgeAllocTypesForCallerEdge (ContextNode.CalleeEdges n)
     else Ok false);
  if (NoDisambiguation : bool) then Ok (Continue (st, CallerEdge)) else
  (* If this is a backedge, we now do recursive cloning starting from its
     caller since we may have moved unambiguous caller contexts to a clone
     of this Node in a previous iteration of the current loop. *)
  r ← (if ContextEdge.IsBackedge CE
          && negb (bool_decide (is_Some (ContextNode.CloneOf c)))
          && negb (bool_decide (Caller ∈ Visited))
       then
         let OrigIdCount := size (ContextEdge.ContextIds CE) in
         (* Now do the recursive cloning of this backedge's caller, which was
            deferred earlier. *)
         '(g, Visited) ← rec Caller CallerEdgeContextsForAlloc (g, Visited);
         CE ← getEdge g CallerEdge;
         Caller ← deref (ContextEdge.Caller CE);
         g ← removeNoneTypeCalleeEdges g Caller;
         (* See if the recursive call to identifyClones moved the context ids
            to a new edge from this node to a clone of caller, and switch to
            looking at that new edge so that we clone Node for the new caller
            clone. *)
         CE ← getEdge g CallerEdge;
         n ← getNode g Node;
         Updated ←
           (if decide (size (ContextEdge.ContextIds CE) < OrigIdCount)%nat
            then findUpdatedBackedge g (ContextNode.CallerEdges n)
                   (ContextEdge.Caller CE) CallerEdgeContextsForAlloc
                   (Done ++ CallerEdge :: Rest)
            else Ok None);
         let '(CallerEdge, CallerEdgeContextsForAlloc, UpdatedEdge) :=
           match Updated with
           | Some (E, New) => (E, New, true)
           | None => (CallerEdge, CallerEdgeContextsForAlloc, false)
           end in
         CE ← getEdge g CallerEdge;
         (* If cloning removed this edge (and we didn't update it to a new
            edge above), we're done with this edge. *)
         if ContextEdge.isRemoved CE then Ok (inl ((g, Visited), CallerEdge)) else
         let CallerEdgeContextsForAlloc :=
           if UpdatedEdge then CallerEdgeContextsForAlloc
           else CallerEdgeContextsForAlloc ∩ ContextEdge.ContextIds CE in
         if negb UpdatedEdge && bool_decide (CallerEdgeContextsForAlloc = ∅)
         then Ok (inl ((g, Visited), CallerEdge)) else
         (* Update the other information that depends on the edges and on the
            now updated CallerEdgeContextsForAlloc. *)
         CallerAllocTypeForAlloc ← computeAllocType g CallerEdgeContextsForAlloc;
         n ← getNode g Node;
         CalleeEdgeAllocTypesForCallerEdge ←
           calleeEdgeAllocTypesForCallerEdge g (ContextNode.CalleeEdges n)
                                             CallerEdgeContextsForAlloc;
         Ok (inr (g, Visited, CallerEdge, CallerEdgeContextsForAlloc,
                  CallerAllocTypeForAlloc, CalleeEdgeAllocTypesForCallerEdge))
       else Ok (inr (g, Visited, CallerEdge, CallerEdgeContextsForAlloc,
                     CallerAllocTypeForAlloc, CalleeEdgeAllocTypesForCallerEdge)));
  match r with
  | inl s => Ok (Continue s)
  | inr (g, Visited, CallerEdge, CallerEdgeContextsForAlloc,
         CallerAllocTypeForAlloc, CalleeEdgeAllocTypesForCallerEdge) =>
      (* First see if we can use an existing clone. Check each clone and its
         callee edges for matching alloc types. *)
      n ← getNode g Node;
      Clone ← findCloneToReuse g (ContextNode.Clones n) CallerAllocTypeForAlloc
                               CalleeEdgeAllocTypesForCallerEdge;
      g ← match Clone with
          | Some Clone =>
              moveEdgeToExistingCalleeClone g CallerEdge Clone false
                                            CallerEdgeContextsForAlloc
          | None =>
              r ← moveEdgeToNewCalleeClone g CallerEdge CallerEdgeContextsForAlloc;
              Ok r.2
          end;
      (* assert(Clone->AllocTypes != None) *)
      Ok (Continue ((g, Visited), CallerEdge))
  end.

(** The cloning loop over the copy of the caller edges. *)
Fixpoint identifyClones_loop
    (rec : NodeId -> gset N -> CloneState -> Res CloneState)
    (Node : NodeId) (AllocContextIds RecursiveContextIds : gset N)
    (Done Rest : list EdgeId) (st : CloneState) : Res CloneState :=
  match Rest with
  | [] => Ok st
  | CallerEdge :: Rest' =>
      r ← identifyClones_iteration rec Node AllocContextIds RecursiveContextIds
                                   Done Rest' st CallerEdge;
      match r with
      | Break (st, _) => Ok st
      | Continue (st, CallerEdge) =>
          identifyClones_loop rec Node AllocContextIds RecursiveContextIds
                              (Done ++ [CallerEdge]) Rest' st
      end
  end.

(** The first loop of [identifyClones]: the callers are visited first. *)
Definition identifyClones_callers
    (rec : NodeId -> gset N -> CloneState -> Res CloneState)
    (AllocContextIds : gset N) (st : CloneState) (Edge : EdgeId) : Res CloneState :=
  let '(g, Visited) := st in
  E ← getEdge g Edge;
  (* Skip any that have been removed by an earlier recursive call. *)
  if ContextEdge.isRemoved E then Ok st else
  (* Defer backedges. assert(CloneRecursiveContexts) *)
  if ContextEdge.IsBackedge E then Ok st else
  (* Ignore any caller we previously visited via another edge. *)
  match ContextEdge.Caller E with
  | Some Caller =>
      if decide (Caller ∈ Visited) then Ok st
      else
        c ← getNode g Caller;
        if bool_decide (is_Some (ContextNode.CloneOf c)) then Ok st
        else rec Caller AllocContextIds st
  | None => ub
  end.

(** [identifyClones(Node, Visited, AllocContextIds)]; [fuel] bounds the
    depth of the recursion.  Under [VerifyNodes] the source calls
    [checkNode] on entry and on exit, which changes nothing; it asserts
    [!Node->CloneOf], that the node was not visited before, and at the end
    [!Node->emptyContextIds()] and [Node->AllocTypes != None]. *)
Fixpoint identifyClones_node (fuel : nat) (Node : NodeId) (AllocContextIds : gset N)
    (st : CloneState) : Res CloneState :=
  match fuel with
  | O => Err OutOfFuel
  | S fuel =>
      let '(g, Visited) := st in
      n ← getNode g Node;
      (* If Node as a null call, then either it wasn't found in the module
         (regular LTO) or summary index (ThinLTO), or there were other
         conditions blocking cloning (e.g. recursion, calls multiple
         targets, etc). *)
      if negb (ContextNode.hasCall n) then Ok st else
      (* No need to look at any callers if allocation type already
         unambiguous. *)
      if hasSingleAllocType (ContextNode.AllocTypes n) then Ok st else
      let Visited := Visited ∪ {[Node]} in
      '(g, Visited) ← foldlM (identifyClones_callers (identifyClones_node fuel)
                                AllocContextIds)
                             (ContextNode.CallerEdges n) (g, Visited);
      n ← getNode g Node;
      (* Check if we reached an unambiguous call or have have only a single
         caller. *)
      if hasSingleAllocType (ContextNode.AllocTypes n)
         || bool_decide (length (ContextNode.CallerEdges n) <= 1)%nat
      then Ok (g, Visited) else
      (* We need to clone. *)
      sorted ← sortCallerEdges g (ContextNode.CallerEdges n);
      g ← updNode g Node (ContextNode.setCallerEdges sorted);
      (* assert(Node->AllocTypes != None);
         assert(AllowRecursiveContexts || !CloneRecursiveContexts) *)
      RecursiveContextIds ←
        (if AllowRecursiveCallsites opts && negb (AllowRecursiveContexts opts)
         then idsOnMultipleEdges g sorted
         else Ok ∅);
      identifyClones_loop (identifyClones_node fuel) Node AllocContextIds
                          RecursiveContextIds [] sorted (g, Visited)
  end.

(** The recursive helper of [markBackedges]: the standard DFS based backedge
    discovery.  The state is the graph with [Visited] and [CurrentStack];
    [fuel] bounds the depth of the recursion. *)
Fixpoint markBackedges_node (fuel : nat) (Node : NodeId)
    (st : CallsiteContextGraph * gset NodeId * gset NodeId)
    : Res (CallsiteContextGraph * gset NodeId * gset NodeId) :=
  match fuel with
  | O => Err OutOfFuel
  | S fuel =>
      let '(g, Visited, CurrentStack) := st in
      (* We should only call this for unvisited nodes. *)
      let Visited := Visited ∪ {[Node]} in
      n ← getNode g Node;
      foldlM (fun (st : CallsiteContextGraph * gset NodeId * gset NodeId) CalleeEdge =>
                let '(g, Visited, CurrentStack) := st in
                E ← getEdge g CalleeEdge;
                Callee ← deref (ContextEdge.Callee E);
                if decide (Callee ∈ Visited) then
                  (* Since this was already visited we need to check if it is
                     currently on the recursive stack in which case it is a
                     backedge. *)
                  if decide (Callee ∈ CurrentStack) then
                    g ← updEdge g CalleeEdge (ContextEdge.setIsBackedge true);
                    Ok (g, Visited, CurrentStack)
                  else Ok st
                else
                  '(g, Visited, CurrentStack) ←
                    markBackedges_node fuel Callee (g, Visited, CurrentStack ∪ {[Callee]});
                  Ok (g, Visited, CurrentStack ∖ {[Callee]}))
             (ContextNode.CalleeEdges n) (g, Visited, CurrentStack)
  end.

(** [markBackedges()]: find and mark backedges from all root callers. *)
Definition markBackedges (g : CallsiteContextGraph) : Res CallsiteContextGraph :=
  if negb (CloneRecursiveContexts opts) then Ok g else
  '(g, _, _) ←
    foldlM (fun (st : CallsiteContextGraph * gset NodeId * gset NodeId)
                (Entry : CallInfo * NodeId) =>
              let Node := Entry.2 in
              n ← getNode st.1.1 Node;
              if ContextNode_isRemoved n then Ok st
              (* It is a root if it doesn't have callers. *)
              else if negb (bool_decide (ContextNode.CallerEdges n = [])) then Ok st
              else markBackedges_node (S (length (NodeOwner g))) Node st)
           (NonAllocationCallToContextNodeMap g) (g, ∅, ∅);
  Ok g.

(** [recursivelyRemoveNoneTypeCalleeEdges]; [fuel] bounds the depth of the
    recursion. *)
Fixpoint recursivelyRemoveNoneTypeCalleeEdges (fuel : nat) (Node : NodeId)
    (st : CloneState) : Res CloneState :=
  match fuel with
  | O => Err OutOfFuel
  | S fuel =>
      let '(g, Visited) := st in
      if decide (Node ∈ Visited) then Ok st else
      let Visited := Visited ∪ {[Node]} in
      g ← removeNoneTypeCalleeEdges g Node;
      n ← getNode g Node;
      st ← foldlM (fun st Clone => recursivelyRemoveNoneTypeCalleeEdges fuel Clone st)
                  (ContextNode.Clones n) (g, Visited);
      (* The recursive call may remove some of this Node's caller edges.
         Iterate over a copy and skip any that were removed. *)
      n ← getNode st.1 Node;
      foldlM (fun (st : CloneState) Edge =>
                E ← getEdge st.1 Edge;
                if ContextEdge.isRemoved E then Ok st
                else
                  Caller ← deref (ContextEdge.Caller E);
                  recursivelyRemoveNoneTypeCalleeEdges fuel Caller st)
             (ContextNode.CallerEdges n) st
  end.

(** [identifyClones()]; under [VerifyCCG] it ends with [check()], which
    changes nothing.  A recursion never goes deeper than there are nodes,
    which is the fuel each of them gets. *)
Definition identifyClones (g : CallsiteContextGraph) : Res CallsiteContextGraph :=
  g ← foldlM (fun g (Entry : CallInfo * NodeId) =>
                n ← getNode g Entry.2;
                AllocContextIds ← ContextNode_getContextIds g n;
                '(g, _) ← identifyClones_node (S (length (NodeOwner g))) Entry.2
                            AllocContextIds (g, ∅);
                Ok g)
             (AllocationCallToContextNodeMap g) g;
  '(g, _) ← foldlM (fun (st : CloneState) (Entry : CallInfo * NodeId) =>
                      recursivelyRemoveNoneTypeCalleeEdges
                        (S (length (NodeOwner st.1))) Entry.2 st)
                   (AllocationCallToContextNodeMap g) (g, ∅);
  Ok g.

(** ** Verification *)





End WithOptions.

(** ** The search through tail calls (IR graph) *)

(** What a call may target: a function, an alias, a constant cast of a
    constant, another constant, or a value computed at run time. *)
Inductive Value :=
  | VFunction (F : FuncTy)
  | VGlobalAlias (Aliasee : Value)
  | VPointerCast (V : Value)
  | VOtherConstant
  | VOther.

#[global] Instance Value_eq_dec : EqDecision Value.
Proof. solve_decision. Defined.

(** [Value::stripPointerCasts] *)
Fixpoint stripPointerCasts (V : Value) : Value :=
  match V with
  | VPointerCast V' => stripPointerCasts V'
  | _ => V
  end.

(** [dyn_cast<Function>] *)
Definition dyn_cast_Function (V : Value) : option FuncTy :=
  match V with
  | VFunction F => Some F
  | _ => None
  end.

(** [GlobalAlias::getAliaseeObject]: the object behind casts and further
    aliases. *)
Fixpoint getAliaseeObject (Aliasee : Value) : Value :=
  match Aliasee with
  | VPointerCast V' => getAliaseeObject V'
  | VGlobalAlias V' => getAliaseeObject V'
  | _ => Aliasee
  end.

(** An instruction: its identity, whether it is a [CallBase], and for a
    call whether it is a tail call and what it calls. *)
Record Instruction := mkInstruction {
  InstId : N;
  isCallBase : bool;
  isTailCall : bool;
  getCalledOperand : Value
}.

#[global] Instance Instruction_eq_dec : EqDecision Instruction.
Proof. solve_decision. Defined.

(** [CallBase::getCalledFunction]: the operand when it is a function. *)
Definition getCalledFunction (Inst : Instruction) : option FuncTy :=
  dyn_cast_Function (getCalledOperand Inst).

(** [CallBase::isIndirectCall] *)
Definition isIndirectCall (Inst : Instruction) : bool :=
  match getCalledOperand Inst with
  | VOther => true
  | _ => false
  end.

(** The function that the body of the loop of
    [findProfiledCalleeThroughTailCalls] resolves for the instruction, or
    [None] where it says [continue]. *)
Definition tailCallTarget (Inst : Instruction) : option FuncTy :=
  if negb (isCallBase Inst) || negb (isTailCall Inst) then None
  else
    let CalledValue := getCalledOperand Inst in
    let CalledFunction := getCalledFunction Inst in
    let '(CalledValue, CalledFunction) :=
      match CalledFunction with
      | None =>
          (* Stripping pointer casts can reveal a called function. *)
          (stripPointerCasts CalledValue,
           dyn_cast_Function (stripPointerCasts CalledValue))
      | Some _ => (CalledValue, CalledFunction)
      end in
    (* Check if this is an alias to a function. If so, get the called
       aliasee for the checks below. *)
    match CalledValue with
    | VGlobalAlias Aliasee => dyn_cast_Function (getAliaseeObject Aliasee)
    | _ => CalledFunction
    end.

Section TailCalls.
Variable opts : Options.
(** The module: the basic blocks of each function (none for a
    declaration). *)
Variable Mod : FuncTy -> list (list Instruction).

(** The chain found so far and the flag [FoundMultipleCalleeChains], both
    passed by reference. *)
Definition SearchState : Type := list (Instruction * FuncTy) * bool.

(** The loop over the instructions of [CalleeFunc]; a [return] of the
    enclosing function is [inl]. *)
Fixpoint findProfiledCallee_loop
    (rec : Value -> SearchState -> Res (bool * SearchState))
    (ProfiledCallee CalleeFunc : FuncTy) (Insts : list Instruction)
    (FoundSingleCalleeChain : bool) (st : SearchState)
    : Res (bool * SearchState) :=
  match Insts with
  | [] => Ok (FoundSingleCalleeChain, st)
  | Inst :: Insts' =>
      match tailCallTarget Inst with
      | None =>
          findProfiledCallee_loop rec ProfiledCallee CalleeFunc Insts'
                                  FoundSingleCalleeChain st
      | Some CalledFunction =>
          if decide (CalledFunction = ProfiledCallee) then
            if FoundSingleCalleeChain then Ok (false, (st.1, true))
            else
              (* SaveCallsiteInfo(&I, CalleeFunc) *)
              findProfiledCallee_loop rec ProfiledCallee CalleeFunc Insts'
                                      true (st.1 ++ [(Inst, CalleeFunc)], st.2)
          else
            r ← rec (VFunction CalledFunction) st;
            let '(found, st) := r in
            if (found : bool) then
              (* assert(!FoundMultipleCalleeChains) *)
              if FoundSingleCalleeChain then Ok (false, (st.1, true))
              else
                findProfiledCallee_loop rec ProfiledCallee CalleeFunc Insts'
                                        true (st.1 ++ [(Inst, CalleeFunc)], st.2)
            else if st.2 then Ok (false, st)
            else
              findProfiledCallee_loop rec ProfiledCallee CalleeFunc Insts'
                                      FoundSingleCalleeChain st
      end
  end.

(** [ModuleCallsiteContextGraph::findProfiledCalleeThroughTailCalls];
    [fuel] bounds the depth of the recursion.  The statistics that the
    source updates when it finds the profiled callee are left out. *)
Fixpoint findProfiledCalleeThroughTailCalls (fuel : nat) (ProfiledCallee : FuncTy)
    (CurCallee : Value) (Depth : N) (st : SearchState) : Res (bool * SearchState) :=
  (* Stop recursive search if we have already explored the maximum specified
     depth. *)
  if N.ltb (TailCallSearchDepth opts) Depth then Ok (false, st)
  else
    match fuel with
    | O => Err OutOfFuel
    | S fuel =>
        CalleeFunc ←
          match CurCallee with
          | VFunction F => Ok F
          | VGlobalAlias Aliasee => deref (dyn_cast_Function Aliasee)
          | _ => ub
          end;
        findProfiledCallee_loop
          (fun CalledFunction st =>
             findProfiledCalleeThroughTailCalls fuel ProfiledCallee CalledFunction
                                                (wrap32 (Depth + 1)) st)
          ProfiledCallee CalleeFunc (concat (Mod CalleeFunc)) false st
    end.

(** [ModuleCallsiteContextGraph::calleeMatchesFunc]: the chain it passes to
    the search starts empty in [calleesMatch]. *)
Definition calleeMatchesFunc (fuel : nat) (Call : Instruction) (Func : FuncTy)
    (FoundCalleeChain : list (Instruction * FuncTy))
    : Res (bool * list (Instruction * FuncTy)) :=
  if isIndirectCall Call then Ok (false, FoundCalleeChain)
  else
    let CalleeVal := stripPointerCasts (getCalledOperand Call) in
    let CalleeFunc := dyn_cast_Function CalleeVal in
    if decide (CalleeFunc = Some Func) then Ok (true, FoundCalleeChain)
    else
      let AliasMatches :=
        match CalleeVal with
        | VGlobalAlias Aliasee => bool_decide (Aliasee = VFunction Func)
        | _ => false
        end in
      if AliasMatches then Ok (true, FoundCalleeChain)
      else
        (* Recursively search for the profiled callee through tail calls
           starting with the actual Callee. *)
        let Depth := 1 in
        let FoundMultipleCalleeChains := false in
        r ← findProfiledCalleeThroughTailCalls fuel Func CalleeVal Depth
              (FoundCalleeChain, FoundMultipleCalleeChains);
        Ok (r.1, r.2.1).

(** *** What the search is specified against *)

(** The chains of at most [k] tail calls that lead from function [F] to
    [ProfiledCallee], each listed from the callee end as the source saves
    it: the call that reaches [ProfiledCallee] first, the call in [F]
    last. *)
Fixpoint tailCallChains (k : nat) (ProfiledCallee F : FuncTy)
    : list (list (Instruction * FuncTy)) :=
  match k with
  | O => []
  | S k =>
      concat (map (fun Inst =>
                     match tailCallTarget Inst with
                     | None => []
                     | Some G =>
                         if decide (G = ProfiledCallee) then [[(Inst, F)]]
                         else map (fun c => c ++ [(Inst, F)])
                                  (tailCallChains k ProfiledCallee G)
                     end)
                  (concat (Mod F)))
  end.

(** The same chains, as a relation. *)
Inductive TailCallChain (ProfiledCallee : FuncTy)
    : nat -> FuncTy -> list (Instruction * FuncTy) -> Prop :=
  | TailCallChain_direct k F Inst :
      Inst ∈ concat (Mod F) ->
      tailCallTarget Inst = Some ProfiledCallee ->
      TailCallChain ProfiledCallee (S k) F [(Inst, F)]
  | TailCallChain_step k F Inst G c :
      Inst ∈ concat (Mod F) ->
      tailCallTarget Inst = Some G ->
      G ≠ ProfiledCallee ->
      TailCallChain ProfiledCallee k G c ->
      TailCallChain ProfiledCallee (S k) F (c ++ [(Inst, F)]).

End TailCalls.

(* ================================================================== *)
(** * Vocabulary of the statements                                     *)
(* ================================================================== *)

(** ** The order of the caller edges *)

(** The rank that [callerEdgeLess] gives an edge: the entry of
    [AllocTypeCloningPriority] for edges that carry context ids, and a rank
    behind all of them for the edges that carry none. *)
Definition callerEdgeRank (E : ContextEdge.t) : N :=
  if decide (ContextEdge.ContextIds E = ∅) then 5
  else default 0 (AllocTypeCloningPriority !! N.to_nat (ContextEdge.AllocTypes E)).

(** The first context id of an edge in the iteration over its set, as
    [ContextIds_begin] gives it; edges without ids all get the same. *)
Definition firstContextId (ContextIds_begin : EdgeId -> gset N -> N)
    (e : EdgeId) (E : ContextEdge.t) : N :=
  if decide (ContextEdge.ContextIds E = ∅) then 0
  else ContextIds_begin e (ContextEdge.ContextIds E).

(** Rank first, first context id second. *)
Definition callerEdgeKey (ContextIds_begin : EdgeId -> gset N -> N)
    (e : EdgeId) (E : ContextEdge.t) : N * N :=
  (callerEdgeRank E, firstContextId ContextIds_begin e E).

Definition keyLt (k1 k2 : N * N) : Prop :=
  k1.1 < k2.1 \/ (k1.1 = k2.1 /\ k1.2 < k2.2).

Definition keyLtb (k1 k2 : N * N) : bool :=
  N.ltb k1.1 k2.1 || (N.eqb k1.1 k2.1 && N.ltb k1.2 k2.2).

(** The key of an edge of the graph (of a dangling index: the least key). *)
Definition edgeKey (ContextIds_begin : EdgeId -> gset N -> N)
    (g : CallsiteContextGraph) (e : EdgeId) : N * N :=
  match EdgeStore g !! e with
  | Some E => callerEdgeKey ContextIds_begin e E
  | None => (0, 0)
  end.

(** The order that claim C5 words: by the priority of the allocation type
    alone, [Cold] before [NotCold|Cold] before [None] before [NotCold]. *)
Definition orderedByAllocTypePriority (g : CallsiteContextGraph) (l : list EdgeId)
    : Prop :=
  forall (i j : nat) a b A B pa pb,
    (i < j)%nat -> l !! i = Some a -> l !! j = Some b ->
    EdgeStore g !! a = Some A -> EdgeStore g !! b = Some B ->
    AllocTypeCloningPriority !! N.to_nat (ContextEdge.AllocTypes A) = Some pa ->
    AllocTypeCloningPriority !! N.to_nat (ContextEdge.AllocTypes B) = Some pb ->
    pa <= pb.

(** A graph with two caller edges into node 0: edge 0 has lost its context
    ids and has type [None], edge 1 is [NotCold] with context id 1. *)
Definition sortExample : CallsiteContextGraph :=
  setEdgeStore
    [ContextEdge.mk (Some 0%nat) (Some 1%nat) AllocationType.None false ∅;
     ContextEdge.mk (Some 0%nat) (Some 2%nat) AllocationType.NotCold false {[1]}]
    emptyGraph.

(** The smallest of the context ids of a set (of the empty set: 0). *)
Definition smallestContextId (S : gset N) : N :=
  foldr N.min (default 0 (head (elements S))) (elements S).

(** The tie-break that claim C5 words: of two edges with context ids and
    the same allocation type, the one whose smallest context id is smaller
    comes first. *)
Definition tiesBySmallestContextId (g : CallsiteContextGraph) (l : list EdgeId)
    : Prop :=
  forall (i j : nat) a b A B,
    (i < j)%nat -> l !! i = Some a -> l !! j = Some b ->
    EdgeStore g !! a = Some A -> EdgeStore g !! b = Some B ->
    ContextEdge.ContextIds A <> ∅ -> ContextEdge.ContextIds B <> ∅ ->
    ContextEdge.AllocTypes A = ContextEdge.AllocTypes B ->
    smallestContextId (ContextEdge.ContextIds A)
      <= smallestContextId (ContextEdge.ContextIds B).

(** Modelled from the spec: the iteration of [DenseSet<uint32_t>], of LLVM's
    ADT library and not among the sources, over a set whose ids sit in
    different buckets: the buckets are visited in order, and an id [v] sits
    in the bucket [v * 37 mod NumBuckets], the hash of an [unsigned] key
    being [v * 37U].  A set that never held 48 ids has a power of two
    between 4 and 64 as its [NumBuckets]. *)
Definition bucketOf (NumBuckets v : N) : N := wrap32 (v * 37) mod NumBuckets.

(** The id in the first bucket in use. *)
Definition bucketBegin (NumBuckets : N) (S : gset N) : N :=
  foldr (fun v first => if N.ltb (bucketOf NumBuckets v) (bucketOf NumBuckets first)
                        then v else first)
        (default 0 (head (elements S))) (elements S).

(** Two [Cold] caller edges into node 0: edge 0 with the context ids 1 and
    64, edge 1 with the context id 2. *)
Definition tieExample : CallsiteContextGraph :=
  setEdgeStore
    [ContextEdge.mk (Some 0%nat) (Some 1%nat) AllocationType.Cold false {[1; 64]};
     ContextEdge.mk (Some 0%nat) (Some 2%nat) AllocationType.Cold false {[2]}]
    emptyGraph.

(** ** Well-formed graphs *)

(** The two edge lists of the nodes and the two pointers of the edges agree
    and name live objects, no list names an edge twice, clones point to
    originals, the context ids on the edges of the graph are in the table
    of allocation types with a type that the edge's aggregate includes, the
    table holds [NotCold] and [Cold] only, for ids up to the last one that
    was handed out, every aggregate is within
    [NotCold|Cold], and the maps of the graph name nodes of the graph
    (allocation calls: original nodes). *)
Record WF (g : CallsiteContextGraph) : Prop := mkWF {
  wf_callee : forall n Nd e,
    NodeOwner g !! n = Some Nd -> e ∈ ContextNode.CalleeEdges Nd ->
    exists E d D,
      EdgeStore g !! e = Some E /\ ContextEdge.Caller E = Some n
      /\ ContextEdge.Callee E = Some d /\ NodeOwner g !! d = Some D
      /\ e ∈ ContextNode.CallerEdges D;
  wf_caller : forall n Nd e,
    NodeOwner g !! n = Some Nd -> e ∈ ContextNode.CallerEdges Nd ->
    exists E c C,
      EdgeStore g !! e = Some E /\ ContextEdge.Callee E = Some n
      /\ ContextEdge.Caller E = Some c /\ NodeOwner g !! c = Some C
      /\ e ∈ ContextNode.CalleeEdges C;
  wf_nodup_callee : forall n Nd,
    NodeOwner g !! n = Some Nd -> NoDup (ContextNode.CalleeEdges Nd);
  wf_nodup_caller : forall n Nd,
    NodeOwner g !! n = Some Nd -> NoDup (ContextNode.CallerEdges Nd);
  wf_cloneOf : forall n Nd o,
    NodeOwner g !! n = Some Nd -> ContextNode.CloneOf Nd = Some o ->
    exists O, NodeOwner g !! o = Some O /\ ContextNode.CloneOf O = None;
  wf_clones : forall n Nd c,
    NodeOwner g !! n = Some Nd -> c ∈ ContextNode.Clones Nd ->
    exists C, NodeOwner g !! c = Some C /\ ContextNode.CloneOf C = Some n;
  wf_ids : forall n Nd e E id,
    NodeOwner g !! n = Some Nd -> e ∈ ContextNode.CallerEdges Nd ->
    EdgeStore g !! e = Some E -> id ∈ ContextEdge.ContextIds E ->
    exists t, ContextIdToAllocationType g !! id = Some t
              /\ N.lor (ContextEdge.AllocTypes E) t = ContextEdge.AllocTypes E;
  wf_table : forall id t,
    ContextIdToAllocationType g !! id = Some t ->
    (t = AllocationType.NotCold \/ t = AllocationType.Cold) /\ id <= LastContextId g;
  wf_node_types : forall n Nd,
    NodeOwner g !! n = Some Nd -> ContextNode.AllocTypes Nd <= 3;
  wf_edge_types : forall e E,
    EdgeStore g !! e = Some E -> ContextEdge.AllocTypes E <= 3;
  wf_alloc_map : forall C a,
    (C, a) ∈ AllocationCallToContextNodeMap g ->
    exists A, NodeOwner g !! a = Some A /\ ContextNode.CloneOf A = None;
  wf_stack_map : forall s n,
    StackEntryIdToContextNodeMap g !! s = Some n -> is_Some (NodeOwner g !! n)
}.

(** The parts of the graph that cloning leaves alone. *)
Definition sameMaps (g g' : CallsiteContextGraph) : Prop :=
  ContextIdToAllocationType g' = ContextIdToAllocationType g
  /\ AllocationCallToContextNodeMap g' = AllocationCallToContextNodeMap g
  /\ StackEntryIdToContextNodeMap g' = StackEntryIdToContextNodeMap g
  /\ LastContextId g' = LastContextId g
  /\ NonAllocationCallToContextNodeMap g' = NonAllocationCallToContextNodeMap g
  /\ FuncToCallsWithMetadata g' = FuncToCallsWithMetadata g
  /\ DotAllocContextIds g' = DotAllocContextIds g.

(** Two states of a node that differ at most in the edge lists and in the
    aggregate type. *)
Definition sameNodeInfo (Nd Nd' : ContextNode.t) : Prop :=
  ContextNode.IsAllocation Nd' = ContextNode.IsAllocation Nd
  /\ ContextNode.Recursive Nd' = ContextNode.Recursive Nd
  /\ ContextNode.Call Nd' = ContextNode.Call Nd
  /\ ContextNode.MatchingCalls Nd' = ContextNode.MatchingCalls Nd
  /\ ContextNode.OrigStackOrAllocId Nd' = ContextNode.OrigStackOrAllocId Nd
  /\ ContextNode.Clones Nd' = ContextNode.Clones Nd
  /\ ContextNode.CloneOf Nd' = ContextNode.CloneOf Nd.

(** The context ids of an edge are in the table, with types that the given
    aggregate includes. *)
Definition idsTyped (g : CallsiteContextGraph) (t : N) (S : gset N) : Prop :=
  forall id, id ∈ S ->
    exists ty, ContextIdToAllocationType g !! id = Some ty /\ N.lor t ty = t.

(** [g'] is [g] with one more edge, from [c] to [d], at the end of the
    callee edges of [c] and of the caller edges of [d]. *)
Definition edgeAdded (g g' : CallsiteContextGraph) (c d : NodeId) (t : N)
    (S : gset N) : Prop :=
  sameMaps g g'
  /\ EdgeStore g' = EdgeStore g ++ [ContextEdge.mk (Some d) (Some c) t false S]
  /\ length (NodeOwner g') = length (NodeOwner g)
  /\ forall n Nd, NodeOwner g !! n = Some Nd ->
       exists Nd', NodeOwner g' !! n = Some Nd' /\ sameNodeInfo Nd Nd'
         /\ ContextNode.AllocTypes Nd' = ContextNode.AllocTypes Nd
         /\ ContextNode.CalleeEdges Nd' =
            ContextNode.CalleeEdges Nd
            ++ (if decide (n = c) then [length (EdgeStore g)] else [])
         /\ ContextNode.CallerEdges Nd' =
            ContextNode.CallerEdges Nd
            ++ (if decide (n = d) then [length (EdgeStore g)] else []).

(** ** Assigning callsite clones to function clones *)

Arguments Continue {S} s.
Arguments Break {S} s.

(** [FuncCloneInfo]: the information for a single clone of a function, the
    function clone and the remappings of each call of interest. *)
Record FuncCloneInfo := mkFuncCloneInfo {
  FuncClone : FuncInfo;
  CallMap : list (CallInfo * CallInfo)
}.

(** [std::map::operator[]] on a map of calls: the entry of a key that is
    missing is made, with a null call. *)
Definition callMapIndex (k : CallInfo) (m : list (CallInfo * CallInfo))
    : CallInfo * list (CallInfo * CallInfo) :=
  match mapVectorLookup k m with
  | Some v => (v, m)
  | None => (nullCallInfo, m ++ [(k, nullCallInfo)])
  end.

(** [IndexCallsiteContextGraph::cloneFunctionForCallsite], without the
    entries it adds to the summary: the clone keeps the function and gets
    the clone number, and every call with metadata is mapped to itself with
    that number. *)
Definition IndexCallsiteContextGraph_cloneFunctionForCallsite
    (Func : FuncInfo) (Call : CallInfo) (CallsWithMetadataInFunc : list CallInfo)
    (CloneNo : N) : FuncInfo * list (CallInfo * CallInfo) :=
  (mkFuncInfo (func Func) CloneNo,
   fold_left (fun m Inst => mapVectorSet Inst (mkCallInfo (call Inst) CloneNo) m)
             CallsWithMetadataInFunc []).

(** The state of [assignFunctions] while it handles one call of a
    function: the graph, [CallsiteToCalleeFuncCloneMap], the function's
    [FuncCloneInfos], the call's [FuncCloneToCurNodeCloneMap], the worklist
    of clones with the count of those taken from it, and [Changed]. *)
Record AssignState := mkAssignState {
  graph : CallsiteContextGraph;
  CallsiteToCalleeFuncCloneMap : gmap NodeId FuncInfo;
  FuncCloneInfos : list FuncCloneInfo;
  FuncCloneToCurNodeCloneMap : list (FuncInfo * NodeId);
  ClonesWorklist : list NodeId;
  NodeCloneCount : N;
  Changed : bool
}.

Definition setGraph (v : CallsiteContextGraph) (s : AssignState) : AssignState :=
  mkAssignState v (CallsiteToCalleeFuncCloneMap s) (FuncCloneInfos s)
                (FuncCloneToCurNodeCloneMap s) (ClonesWorklist s) (NodeCloneCount s)
                (Changed s).
Definition setCallsiteToCalleeFuncCloneMap (v : gmap NodeId FuncInfo) (s : AssignState)
    : AssignState :=
  mkAssignState (graph s) v (FuncCloneInfos s) (FuncCloneToCurNodeCloneMap s)
                (ClonesWorklist s) (NodeCloneCount s) (Changed s).
Definition setFuncCloneInfos (v : list FuncCloneInfo) (s : AssignState) : AssignState :=
  mkAssignState (graph s) (CallsiteToCalleeFuncCloneMap s) v
                (FuncCloneToCurNodeCloneMap s) (ClonesWorklist s) (NodeCloneCount s)
                (Changed s).
Definition setFuncCloneToCurNodeCloneMap (v : list (FuncInfo * NodeId)) (s : AssignState)
    : AssignState :=
  mkAssignState (graph s) (CallsiteToCalleeFuncCloneMap s) (FuncCloneInfos s) v
                (ClonesWorklist s) (NodeCloneCount s) (Changed s).
Definition setClonesWorklist (v : list NodeId) (s : AssignState) : AssignState :=
  mkAssignState (graph s) (CallsiteToCalleeFuncCloneMap s) (FuncCloneInfos s)
                (FuncCloneToCurNodeCloneMap s) v (NodeCloneCount s) (Changed s).
Definition setNodeCloneCount (v : N) (s : AssignState) : AssignState :=
  mkAssignState (graph s) (CallsiteToCalleeFuncCloneMap s) (FuncCloneInfos s)
                (FuncCloneToCurNodeCloneMap s) (ClonesWorklist s) v (Changed s).
Definition setChanged (v : bool) (s : AssignState) : AssignState :=
  mkAssignState (graph s) (CallsiteToCalleeFuncCloneMap s) (FuncCloneInfos s)
                (FuncCloneToCurNodeCloneMap s) (ClonesWorklist s) (NodeCloneCount s) v.

Section AssignFunctions.
Variable opts : Options.

(** The derived graph's [cloneFunctionForCallsite]; it returns the new
    function clone with the [CallMap] it has filled. *)
Variable cloneFunctionForCallsite :
  FuncInfo -> CallInfo -> list CallInfo -> N -> FuncInfo * list (CallInfo * CallInfo).

(** The function, the call and the node that the loops of [assignFunctions]
    are at, and the calls of the function. *)
Variable OrigFunc : FuncInfo.
Variable CallsWithMetadata : list CallInfo.
Variable Call : CallInfo.
Variable Node : NodeId.

(** The lambda [RecordCalleeFuncOfCallsite]; asserts [Caller->hasCall()]. *)
Definition RecordCalleeFuncOfCallsite (st : AssignState) (Caller : NodeId)
    (CalleeFunc : FuncInfo) : AssignState :=
  setCallsiteToCalleeFuncCloneMap
    (<[Caller := CalleeFunc]> (CallsiteToCalleeFuncCloneMap st)) st.

(** The call that a [CallMap] has for a call, the call itself if it has
    none. *)
Definition callClone (CallMap : list (CallInfo * CallInfo)) (C : CallInfo) : CallInfo :=
  match mapVectorLookup C CallMap with
  | Some CallClone => CallClone
  | None => C
  end.

(** The lambda [AssignCallsiteCloneToFuncClone]; asserts
    [FuncCloneInfos.size() > FuncClone.cloneNo()]. *)
Definition AssignCallsiteCloneToFuncClone (st : AssignState) (FuncClone : FuncInfo)
    (CallsiteClone : NodeId) : Res AssignState :=
  (* Record the clone of callsite node assigned to this function clone. *)
  let st := setFuncCloneToCurNodeCloneMap
              (mapVectorSet FuncClone CallsiteClone (FuncCloneToCurNodeCloneMap st)) st in
  Info ← deref (FuncCloneInfos st !! N.to_nat (funcCloneNo FuncClone));
  g ← updNode (graph st) CallsiteClone (ContextNode.setCall (callClone (CallMap Info) Call));
  (* Need to do the same for all matching calls. *)
  g ← updNode g Node (fun n =>
         ContextNode.setMatchingCalls
           (map (callClone (CallMap Info)) (ContextNode.MatchingCalls n)) n);
  Ok (setGraph g st).

(** The loops [for (auto &CE : Clone->CallerEdges)] that record a function
    for the callers of a clone. *)
Definition recordCallers (st : AssignState) (Clone : NodeId) (Func : FuncInfo)
    : Res AssignState :=
  c ← getNode (graph st) Clone;
  foldlM (fun st CE =>
            E ← getEdge (graph st) CE;
            Caller ← deref (ContextEdge.Caller E);
            cn ← getNode (graph st) Caller;
            (* Ignore any caller that does not have a recorded callsite Call. *)
            if negb (ContextNode.hasCall cn) then Ok st
            else Ok (RecordCalleeFuncOfCallsite st Caller Func))
         (ContextNode.CallerEdges c) st.

(** [llvm::find_if] over the caller edges, for one whose caller is in
    [CallsiteToCalleeFuncCloneMap]. *)
Fixpoint findAssignedCaller (st : AssignState) (Edges : list EdgeId)
    : Res (option NodeId) :=
  match Edges with
  | [] => Ok None
  | Edge :: Edges' =>
      E ← getEdge (graph st) Edge;
      match ContextEdge.Caller E with
      | Some Caller =>
          if decide (is_Some (CallsiteToCalleeFuncCloneMap st !! Caller))
          then Ok (Some Caller)
          else findAssignedCaller st Edges'
      | None => findAssignedCaller st Edges'
      end
  end.

(** The lambda [FindFirstAvailFuncClone]; it asserts that there is one, and
    returns nothing if there is none. *)
Fixpoint FindFirstAvailFuncClone_loop (Cur : list (FuncInfo * NodeId))
    (Infos : list FuncCloneInfo) : Res FuncInfo :=
  match Infos with
  | [] => ub
  | CF :: Infos' =>
      match mapVectorLookup (FuncClone CF) Cur with
      | None => Ok (FuncClone CF)
      | Some _ => FindFirstAvailFuncClone_loop Cur Infos'
      end
  end.

Definition FindFirstAvailFuncClone (st : AssignState) : Res FuncInfo :=
  FindFirstAvailFuncClone_loop (FuncCloneToCurNodeCloneMap st) (FuncCloneInfos st).

(** The body of the loop over the other callees of a caller that is moved to
    the new function clone. *)
Definition cloneOtherCallee (Clone : NodeId) (NewFuncClone : FuncInfo)
    (st : AssignState) (CalleeEdge : EdgeId) : Res AssignState :=
  E ← getEdge (graph st) CalleeEdge;
  (* Skip any that have been removed on an earlier iteration when cleaning up
     newly None type callee edges. *)
  if ContextEdge.isRemoved E then Ok st else
  Callee ← deref (ContextEdge.Callee E);
  callee ← getNode (graph st) Callee;
  (* Skip the current callsite, we are looking for other callsites Caller
     calls, as well as any that does not have a recorded callsite Call. *)
  if bool_decide (Callee = Clone) || negb (ContextNode.hasCall callee) then Ok st else
  (* Skip direct recursive calls. *)
  if bool_decide (Some Callee = ContextEdge.Caller E) then Ok st else
  '(NewClone, g) ← moveEdgeToNewCalleeClone opts (graph st) CalleeEdge ∅;
  g ← removeNoneTypeCalleeEdges g NewClone;
  (* Moving the edge may have resulted in some none type callee edges on the
     original Callee. *)
  g ← removeNoneTypeCalleeEdges g Callee;
  let st := setGraph g st in
  (* If the Callee node was already assigned to call a specific function
     version, make sure its new clone is assigned to call that same function
     clone. *)
  let st := match CallsiteToCalleeFuncCloneMap st !! Callee with
            | Some F => RecordCalleeFuncOfCallsite st NewClone F
            | None => st
            end in
  (* Update NewClone with the new Call clone of this callsite's Call created
     for the new function clone created earlier. *)
  callee ← getNode (graph st) Callee;
  orig ← getNode (graph st) (getOrigNode Callee callee);
  let OrigCall := mkCallInfo (call (ContextNode.Call orig)) 0 in
  Info ← deref (FuncCloneInfos st !! N.to_nat (funcCloneNo NewFuncClone));
  let '(NewCall, CallMap) := callMapIndex OrigCall (CallMap Info) in
  g ← updNode (graph st) NewClone (ContextNode.setCall NewCall);
  (* Need to do the same for all matching calls. *)
  newClone ← getNode g NewClone;
  let '(Calls, CallMap) :=
    fold_left (fun (acc : list CallInfo * list (CallInfo * CallInfo)) MatchingCall =>
                 let '(NewCall, CallMap) :=
                   callMapIndex (mkCallInfo (call MatchingCall) 0) acc.2 in
                 (acc.1 ++ [NewCall], CallMap))
              (ContextNode.MatchingCalls newClone) ([], CallMap) in
  g ← updNode g NewClone (ContextNode.setMatchingCalls Calls);
  Ok (setFuncCloneInfos
        (<[N.to_nat (funcCloneNo NewFuncClone) := mkFuncCloneInfo (FuncClone Info) CallMap]>
           (FuncCloneInfos st))
        (setGraph g st)).

(** The body of the loop over a copy of the caller edges of a clone for
    which the function has been cloned again: the callers that called
    [PreviousAssignedFuncClone] now call [NewFuncClone]. *)
Definition reassignCaller (Clone : NodeId)
    (PreviousAssignedFuncClone NewFuncClone : FuncInfo)
    (st : AssignState) (CE : EdgeId) : Res AssignState :=
  E ← getEdge (graph st) CE;
  (* Skip any that have been removed on an earlier iteration. *)
  if ContextEdge.isRemoved E then Ok st else
  Caller ← deref (ContextEdge.Caller E);
  caller ← getNode (graph st) Caller;
  (* Ignore any caller that does not have a recorded callsite Call. *)
  if negb (ContextNode.hasCall caller) then Ok st else
  if negb (bool_decide (CallsiteToCalleeFuncCloneMap st !! Caller
                        = Some PreviousAssignedFuncClone))
  then Ok st else
  let st := RecordCalleeFuncOfCallsite st Caller NewFuncClone in
  (* Iterate over a copy and skip any that were removed. *)
  foldlM (cloneOtherCallee Clone NewFuncClone) (ContextNode.CalleeEdges caller) st.

(** The part of the loop body for a clone that needs one more function clone
    than there are: [Some] state when the loop goes on to the next clone,
    [None] when it falls through to the handling of the callers. *)
Definition newFunctionClone (Clone : NodeId) (st : AssignState)
    : Res (LoopCtl AssignState) :=
  (* If this is the first callsite copy, assign to original function. *)
  if N.eqb (NodeCloneCount st) 1 then
    (* Initialize with empty call map, assign Clone to original function and
       its callers, and skip to the next clone. *)
    let st := setFuncCloneInfos (FuncCloneInfos st ++ [mkFuncCloneInfo OrigFunc []]) st in
    st ← AssignCallsiteCloneToFuncClone st OrigFunc Clone;
    st ← recordCallers st Clone OrigFunc;
    Ok (Continue st)
  else
    (* First locate which copy of OrigFunc to clone again. *)
    c ← getNode (graph st) Clone;
    EI ← findAssignedCaller st (ContextNode.CallerEdges c);
    (* Clone function and save it along with the CallInfo map created during
       cloning in the FuncCloneInfos. *)
    let CloneNo := wrap32 (N.of_nat (length (FuncCloneInfos st))) in
    let '(NewFuncClone, NewCallMap) :=
      cloneFunctionForCallsite OrigFunc Call CallsWithMetadata CloneNo in
    let st := setFuncCloneInfos
                (FuncCloneInfos st ++ [mkFuncCloneInfo NewFuncClone NewCallMap]) st in
    let st := setChanged true st in
    match EI with
    | None =>
        (* If no caller callsites were already assigned to a clone of this
           function, we can simply assign this clone to the new func clone
           and update all callers to it, then skip to the next clone. *)
        st ← AssignCallsiteCloneToFuncClone st NewFuncClone Clone;
        st ← recordCallers st Clone NewFuncClone;
        Ok (Continue st)
    | Some Caller =>
        PreviousAssignedFuncClone ← deref (CallsiteToCalleeFuncCloneMap st !! Caller);
        (* Iterate over a copy and skip any that were removed. *)
        c ← getNode (graph st) Clone;
        st ← foldlM (reassignCaller Clone PreviousAssignedFuncClone NewFuncClone)
                    (ContextNode.CallerEdges c) st;
        (* Fall through to handling below to perform the recording of the
           function for this callsite clone. *)
        Ok (Break st)
    end.

(** The body of the loop over a copy of the caller edges of a clone; the
    state has [FuncCloneToNewCallsiteCloneMap] and
    [FuncCloneAssignedToCurCallsiteClone] too. *)
Definition assignForCaller (Clone : NodeId)
    (s : AssignState * list (FuncInfo * NodeId) * FuncInfo) (Edge : EdgeId)
    : Res (AssignState * list (FuncInfo * NodeId) * FuncInfo) :=
  let '(st, FuncCloneToNewCallsiteCloneMap, FuncCloneAssignedToCurCallsiteClone) := s in
  E ← getEdge (graph st) Edge;
  (* Skip removed edges. *)
  if ContextEdge.isRemoved E then Ok s else
  Caller ← deref (ContextEdge.Caller E);
  caller ← getNode (graph st) Caller;
  (* Ignore any caller that does not have a recorded callsite Call. *)
  if negb (ContextNode.hasCall caller) then Ok s else
  match CallsiteToCalleeFuncCloneMap st !! Caller with
  | Some FuncCloneCalledByCaller =>
      (* If this caller already assigned to call a version of OrigFunc, need
         to ensure we can assign this callsite clone to that function
         clone. *)
      if match mapVectorLookup FuncCloneCalledByCaller (FuncCloneToCurNodeCloneMap st) with
         | Some n => negb (bool_decide (n = Clone))
         | None => false
         end
         || (bool_decide (is_Some (func FuncCloneAssignedToCurCallsiteClone))
             && negb (bool_decide (FuncCloneAssignedToCurCallsiteClone
                                   = FuncCloneCalledByCaller)))
      then
        '(st, FuncCloneToNewCallsiteCloneMap) ←
          match mapVectorLookup FuncCloneCalledByCaller FuncCloneToNewCallsiteCloneMap with
          | Some NewClone =>
              g ← moveEdgeToExistingCalleeClone opts (graph st) Edge NewClone false ∅;
              (* Cleanup any none type edges cloned over. *)
              g ← removeNoneTypeCalleeEdges g NewClone;
              Ok (setGraph g st, FuncCloneToNewCallsiteCloneMap)
          | None =>
              (* Create a new callsite clone. *)
              '(NewClone, g) ← moveEdgeToNewCalleeClone opts (graph st) Edge ∅;
              g ← removeNoneTypeCalleeEdges g NewClone;
              (* Add to list of clones and process later. *)
              Ok (setClonesWorklist (ClonesWorklist st ++ [NewClone]) (setGraph g st),
                  mapVectorSet FuncCloneCalledByCaller NewClone
                               FuncCloneToNewCallsiteCloneMap)
          end;
        (* Moving the caller edge may have resulted in some none type callee
           edges. *)
        g ← removeNoneTypeCalleeEdges (graph st) Clone;
        Ok (setGraph g st, FuncCloneToNewCallsiteCloneMap,
            FuncCloneAssignedToCurCallsiteClone)
      else
        (* Otherwise, we can use the function clone already assigned to this
           caller. *)
        if negb (bool_decide (is_Some (func FuncCloneAssignedToCurCallsiteClone))) then
          st ← AssignCallsiteCloneToFuncClone st FuncCloneCalledByCaller Clone;
          Ok (st, FuncCloneToNewCallsiteCloneMap, FuncCloneCalledByCaller)
        else Ok s
  | None =>
      (* We have not already assigned this caller to a version of OrigFunc. Do
         the assignment now. *)
      '(st, FuncCloneAssignedToCurCallsiteClone) ←
        (if negb (bool_decide (is_Some (func FuncCloneAssignedToCurCallsiteClone))) then
           F ← FindFirstAvailFuncClone st;
           st ← AssignCallsiteCloneToFuncClone st F Clone;
           Ok (st, F)
         else Ok (st, FuncCloneAssignedToCurCallsiteClone));
      (* Update callers to record function version called. *)
      Ok (RecordCalleeFuncOfCallsite st Caller FuncCloneAssignedToCurCallsiteClone,
          FuncCloneToNewCallsiteCloneMap, FuncCloneAssignedToCurCallsiteClone)
  end.

(** The handling of the callers of a clone, after the function clones it
    needs exist. *)
Definition assignCallers (Clone : NodeId) (st : AssignState) : Res AssignState :=
  (* Iterate over a copy of Clone's caller edges. *)
  c ← getNode (graph st) Clone;
  '(st, _, FuncCloneAssignedToCurCallsiteClone) ←
    foldlM (assignForCaller Clone) (ContextNode.CallerEdges c)
           (st, [], mkFuncInfo None 0);
  (* If we didn't assign a function clone to this callsite clone yet, e.g.
     none of its callers has a non-null call, do the assignment here. *)
  if negb (bool_decide (is_Some (func FuncCloneAssignedToCurCallsiteClone))) then
    F ← FindFirstAvailFuncClone st;
    AssignCallsiteCloneToFuncClone st F Clone
  else Ok st.

(** One turn of [while (!ClonesWorklist.empty())], for the clone at the
    front of the worklist.  Under [VerifyNodes] the source calls
    [checkNode], which changes nothing. *)
Definition assignFunctions_clone (Clone : NodeId) (st : AssignState) : Res AssignState :=
  let st := setNodeCloneCount (wrap32 (NodeCloneCount st + 1)) st in
  (* Need to create a new function clone if we have more callsite clones than
     existing function clones. *)
  if N.ltb (N.of_nat (length (FuncCloneInfos st))) (NodeCloneCount st) then
    r ← newFunctionClone Clone st;
    match r with
    | Continue st => Ok st
    | Break st => assignCallers Clone st
    end
  else assignCallers Clone st.

(** [while (!ClonesWorklist.empty())]; [fuel] bounds the number of turns. *)
Fixpoint assignFunctions_worklist (fuel : nat) (st : AssignState) : Res AssignState :=
  match fuel with
  | O => Err OutOfFuel
  | S fuel =>
      match ClonesWorklist st with
      | [] => Ok st
      | Clone :: Worklist =>
          st ← assignFunctions_clone Clone (setClonesWorklist Worklist st);
          assignFunctions_worklist fuel st
      end
  end.

(** The worklist that the handling of a call starts with: the node, unless
    all of its contexts have moved to clones, and its clones. *)
Definition initialWorklist (g : CallsiteContextGraph) : Res (list NodeId) :=
  n ← getNode g Node;
  (* Ignore original Node if we moved all of its contexts to clones. *)
  e ← ContextNode_emptyContextIds opts g n;
  Ok ((if (e : bool) then [] else [Node]) ++ ContextNode.Clones n).

End AssignFunctions.

(** The body of [for (auto &Call : CallsWithMetadata)]: the state is the
    graph with [CallsiteToCalleeFuncCloneMap], [FuncCloneInfos] and
    [Changed].  Under [VerifyCCG] the source ends with calls of
    [checkNode]. *)
Definition assignFunctions_call (opts : Options)
    (cloneFunctionForCallsite :
       FuncInfo -> CallInfo -> list CallInfo -> N -> FuncInfo * list (CallInfo * CallInfo))
    (fuel : nat) (OrigFunc : FuncInfo) (CallsWithMetadata : list CallInfo)
    (st : AssignState) (Call : CallInfo) : Res AssignState :=
  match getNodeForInst (graph st) Call with
  | None => Ok st
  | Some Node =>
      n ← getNode (graph st) Node;
      (* Skip call if we did not create any clones for it. *)
      if bool_decide (ContextNode.Clones n = []) then Ok st else
      Worklist ← initialWorklist opts Node (graph st);
      assignFunctions_worklist opts cloneFunctionForCallsite OrigFunc CallsWithMetadata
        Call Node fuel
        (setNodeCloneCount 0
           (setClonesWorklist Worklist (setFuncCloneToCurNodeCloneMap [] st)))
  end.

(** The body of [for (auto &[Func, CallsWithMetadata] :
    FuncToCallsWithMetadata)]: the calls of one function, starting without
    function clones. *)
Definition assignFunctions_func (opts : Options)
    (cloneFunctionForCallsite :
       FuncInfo -> CallInfo -> list CallInfo -> N -> FuncInfo * list (CallInfo * CallInfo))
    (fuel : nat) (st : AssignState) (Entry : FuncTy * list CallInfo) : Res AssignState :=
  let OrigFunc := mkFuncInfo (Some Entry.1) 0 in
  foldlM (assignFunctions_call opts cloneFunctionForCallsite fuel OrigFunc Entry.2)
         Entry.2 (setFuncCloneInfos [] st).

(** ** Updating the calls *)

(** Modelled from the spec: [ContextTotalSize], declared in
    [llvm/IR/ModuleSummaryIndex.h]: the full stack id of a profiled context
    and the bytes allocated in it, both [uint64_t]. *)
Record ContextTotalSize := mkContextTotalSize {
  FullStackId : N;
  TotalSize : N
}.

Definition UINT64_MOD : N := 2 ^ 64.
Definition wrap64 (n : N) : N := n mod UINT64_MOD.

(** What [UpdateCalls] asks of the derived graph, in the order of the
    calls: [updateAllocationCall(Call, AllocType)] and
    [updateCall(CallerCall, CalleeFunc)]. *)
Inductive CallUpdate :=
  | UpdateAllocationCall (Call : CallInfo) (AllocType : N)
  | UpdateCall (CallerCall : CallInfo) (CalleeFunc : FuncInfo).

Section UpdateCalls.
Variable opts : Options.

(** [ContextIdToContextSizeInfos] *)
Variable ContextIdToContextSizeInfos : gmap N (list ContextTotalSize).

(** [CallsiteToCalleeFuncCloneMap], as the assignment has left it. *)
Variable CallsiteToCalleeFuncCloneMap : gmap NodeId FuncInfo.

(** The loop over the context ids of an ambiguous allocation node: the
    bytes of its cold contexts and of all its contexts.  The source asserts
    that the id is in [ContextIdToAllocationType] and reads the entry for
    each size record of the id. *)
Definition coldByteTotals (g : CallsiteContextGraph) (Ids : gset N) : Res (N * N) :=
  foldlM (fun (acc : N * N) Id =>
            let TypeI := ContextIdToAllocationType g !! Id in
            match ContextIdToContextSizeInfos !! Id with
            | Some CSI =>
                foldlM (fun (acc : N * N) Info =>
                          let '(TotalCold, Total) := acc in
                          let Total := wrap64 (Total + TotalSize Info) in
                          t ← deref TypeI;
                          Ok (if N.eqb t AllocationType.Cold
                              then wrap64 (TotalCold + TotalSize Info)
                              else TotalCold,
                              Total))
                       CSI acc
            | None => Ok acc
            end)
         (elements Ids) (0, 0).

(** The allocation type that [UpdateCalls] hands to [updateAllocationCall]
    for an allocation node. *)
Definition allocationCallType (g : CallsiteContextGraph) (n : ContextNode.t) : Res N :=
  let AT := allocTypeToUse (ContextNode.AllocTypes n) in
  (* If the allocation type is ambiguous, and more aggressive hinting has
     been enabled via the MinClonedColdBytePercent flag, see if this
     allocation should be hinted cold anyway because its fraction cold bytes
     allocated is at least the given threshold. *)
  if N.eqb (ContextNode.AllocTypes n) BothTypes
     && N.ltb (MinClonedColdBytePercent opts) 100
     && negb (bool_decide (ContextIdToContextSizeInfos = ∅))
  then
    Ids ← ContextNode_getContextIds opts g n;
    '(TotalCold, Total) ← coldByteTotals g Ids;
    if N.leb (wrap64 (Total * MinClonedColdBytePercent opts)) (wrap64 (TotalCold * 100))
    then Ok AllocationType.Cold
    else Ok AT
  else Ok AT.

(** The recursive lambda [UpdateCalls] of [assignFunctions]; the state is
    [Visited] with the updates made so far, and [fuel] bounds the depth of
    the recursion.  Asserts [Node->MatchingCalls.empty()] for an
    allocation. *)
Fixpoint UpdateCalls (fuel : nat) (g : CallsiteContextGraph) (Node : NodeId)
    (st : gset NodeId * list CallUpdate) : Res (gset NodeId * list CallUpdate) :=
  match fuel with
  | O => Err OutOfFuel
  | S fuel =>
      if decide (Node ∈ st.1) then Ok st else
      let st := (st.1 ∪ {[Node]}, st.2) in
      n ← getNode g Node;
      st ← foldlM (fun st Clone => UpdateCalls fuel g Clone st) (ContextNode.Clones n) st;
      st ← foldlM (fun st Edge =>
                     E ← getEdge g Edge;
                     Caller ← deref (ContextEdge.Caller E);
                     UpdateCalls fuel g Caller st)
                  (ContextNode.CallerEdges n) st;
      (* Skip if either no call to update, or if we ended up with no context
         ids (we moved all edges onto other clones). *)
      if negb (ContextNode.hasCall n) then Ok st else
      empty ← ContextNode_emptyContextIds opts g n;
      if (empty : bool) then Ok st else
      if ContextNode.IsAllocation n then
        AT ← allocationCallType g n;
        Ok (st.1, st.2 ++ [UpdateAllocationCall (ContextNode.Call n) AT])
      else
        match CallsiteToCalleeFuncCloneMap !! Node with
        | None => Ok st
        | Some CalleeFunc =>
            (* Update all the matching calls as well. *)
            Ok (st.1,
                st.2 ++ UpdateCall (ContextNode.Call n) CalleeFunc
                     :: map (fun Call => UpdateCall Call CalleeFunc)
                            (ContextNode.MatchingCalls n))
        end
  end.

(** The end of [assignFunctions]: a DFS traversal starting from the
    allocation nodes updates the calls to reflect the cloning decisions. *)
Definition updateCalls (fuel : nat) (g : CallsiteContextGraph) : Res (list CallUpdate) :=
  '(_, Updates) ← foldlM (fun st (Entry : CallInfo * NodeId) =>
                            UpdateCalls fuel g Entry.2 st)
                         (AllocationCallToContextNodeMap g) (∅, []);
  Ok Updates.

End UpdateCalls.

(** ** Callsites with multiple targets *)

Section HandleCallsites.

(** [partitionCallsByCallee(Node, AllCalls, NewCallToNode)] and
    [calleesMatch(Call, EI, TailCallToContextNodeMap)], which look for the
    callees of the calls and may add nodes and move edges, are parameters
    here; [EI] is the position of the callee edge among the callee edges of
    the node, which [calleesMatch] may change. *)
Variable partitionCallsByCallee :
  CallsiteContextGraph -> NodeId -> list CallInfo -> list (CallInfo * NodeId) ->
  Res (bool * CallsiteContextGraph * list (CallInfo * NodeId)).
Variable calleesMatch :
  CallsiteContextGraph -> list (CallInfo * NodeId) -> option CallTy -> NodeId -> nat ->
  Res (bool * CallsiteContextGraph * list (CallInfo * NodeId) * nat).

(** The derived graph's [sameCallee]. *)
Variable sameCallee : option CallTy -> option CallTy -> bool.

(** The loop over the callee edges of the node for one of its calls: does
    the call match every callee that has a call?  [fuel] bounds the number
    of turns; asserts [NodeToCallingFunc.count(Edge->Callee)]. *)
Fixpoint matchCallees (fuel : nat) (g : CallsiteContextGraph)
    (TailCallToContextNodeMap : list (CallInfo * NodeId)) (ThisCall : option CallTy)
    (Node : NodeId) (EI : nat)
    : Res (bool * CallsiteContextGraph * list (CallInfo * NodeId)) :=
  match fuel with
  | O => Err OutOfFuel
  | S fuel =>
      n ← getNode g Node;
      if decide (EI = length (ContextNode.CalleeEdges n))
      then Ok (true, g, TailCallToContextNodeMap) else
      Edge ← deref (ContextNode.CalleeEdges n !! EI);
      E ← getEdge g Edge;
      Callee ← deref (ContextEdge.Callee E);
      c ← getNode g Callee;
      if negb (ContextNode.hasCall c)
      then matchCallees fuel g TailCallToContextNodeMap ThisCall Node (S EI) else
      (* Check if the called function matches that of the callee node. *)
      '(m, g, TailCallToContextNodeMap, EI) ←
        calleesMatch g TailCallToContextNodeMap ThisCall Node EI;
      if (m : bool)
      then matchCallees fuel g TailCallToContextNodeMap ThisCall Node (S EI)
      else Ok (false, g, TailCallToContextNodeMap)
  end.

(** Iterate through the calls until we find the first that matches: the
    result has the call with the calls after it, or [None] at the end of
    [AllCalls]. *)
Fixpoint findMatchingCall (fuel : nat) (g : CallsiteContextGraph)
    (TailCallToContextNodeMap : list (CallInfo * NodeId)) (Node : NodeId)
    (Calls : list CallInfo)
    : Res (option (CallInfo * list CallInfo) * CallsiteContextGraph
           * list (CallInfo * NodeId)) :=
  match Calls with
  | [] => Ok (None, g, TailCallToContextNodeMap)
  | ThisCall :: Calls' =>
      '(Match, g, TailCallToContextNodeMap) ←
        matchCallees fuel g TailCallToContextNodeMap (call ThisCall) Node 0;
      (* Found a call that matches the callee nodes, we can quit now. *)
      if (Match : bool) then Ok (Some (ThisCall, Calls'), g, TailCallToContextNodeMap)
      else findMatchingCall fuel g TailCallToContextNodeMap Node Calls'
  end.

(** The body of the loop of [handleCallsitesWithMultipleTargets] over
    [NonAllocationCallToContextNodeMap]; the state is the graph with
    [TailCallToContextNodeMap] and [NewCallToNode].  Asserts
    [Node->Clones.empty()]. *)
Definition handleCallsitesWithMultipleTargets_node (fuel : nat)
    (st : CallsiteContextGraph * list (CallInfo * NodeId) * list (CallInfo * NodeId))
    (Entry : CallInfo * NodeId)
    : Res (CallsiteContextGraph * list (CallInfo * NodeId) * list (CallInfo * NodeId)) :=
  let '(g, TailCallToContextNodeMap, NewCallToNode) := st in
  let Node := Entry.2 in
  n ← getNode g Node;
  (* We need to check all of the calls recorded in this Node. *)
  let AllCalls := ContextNode.Call n :: ContextNode.MatchingCalls n in
  (* First see if we can partition the calls by callee function. *)
  '(partitioned, g, NewCallToNode) ← partitionCallsByCallee g Node AllCalls NewCallToNode;
  if (partitioned : bool) then Ok (g, TailCallToContextNodeMap, NewCallToNode) else
  '(It, g, TailCallToContextNodeMap) ←
    findMatchingCall fuel g TailCallToContextNodeMap Node AllCalls;
  '(g, NewCallToNode) ←
    match It with
    | Some (ThisCall, _) =>
        n ← getNode g Node;
        (* If the first match is not the primary call on the Node, update it
           now. *)
        if decide (ContextNode.Call n = ThisCall) then Ok (g, NewCallToNode)
        else
          g ← updNode g Node (ContextNode.setCall ThisCall);
          Ok (g, NewCallToNode ++ [(ThisCall, Node)])
    | None => Ok (g, NewCallToNode)
    end;
  (* We will update this list below (or leave it cleared if there was no
     match found above). *)
  g ← updNode g Node (ContextNode.setMatchingCalls []);
  match It with
  | None =>
      (* If we hit the end of the AllCalls vector, no call matching the
         callee nodes was found, clear the call information in the node.
         Work around by setting Node to have a null call, so it gets skipped
         during cloning. *)
      g ← updNode g Node (ContextNode.setCall nullCallInfo);
      Ok (g, TailCallToContextNodeMap, NewCallToNode)
  | Some (_, Calls) =>
      (* Now add back any matching calls that call the same function as the
         matching primary call on Node. *)
      n ← getNode g Node;
      g ← updNode g Node
            (ContextNode.setMatchingCalls
               (List.filter (fun ThisCall =>
                               sameCallee (call (ContextNode.Call n)) (call ThisCall))
                            Calls));
      Ok (g, TailCallToContextNodeMap, NewCallToNode)
  end.

(** The [remove_if] on [NonAllocationCallToContextNodeMap]: an entry goes
    when its node has no call, or another call than the entry's. *)
Fixpoint removeMismatched (g : CallsiteContextGraph) (m : list (CallInfo * NodeId))
    : Res (list (CallInfo * NodeId)) :=
  match m with
  | [] => Ok []
  | it :: m' =>
      n ← getNode g it.2;
      m' ← removeMismatched g m';
      if negb (ContextNode.hasCall n) || negb (bool_decide (ContextNode.Call n = it.1))
      then Ok m' else Ok (it :: m')
  end.

(** [handleCallsitesWithMultipleTargets] *)
Definition handleCallsitesWithMultipleTargets (fuel : nat) (g : CallsiteContextGraph)
    : Res CallsiteContextGraph :=
  '(g, TailCallToContextNodeMap, NewCallToNode) ←
    foldlM (handleCallsitesWithMultipleTargets_node fuel)
           (NonAllocationCallToContextNodeMap g) (g, [], []);
  (* Remove all mismatched nodes identified in the above loop from the node
     map (checking whether they have a null call which is set above). *)
  m ← removeMismatched g (NonAllocationCallToContextNodeMap g);
  (* Add entries for any new primary calls recorded above. *)
  let m := fold_left (fun m (p : CallInfo * NodeId) => mapVectorSet p.1 p.2 m)
                     NewCallToNode m in
  (* Add the new nodes after the above loop so that the iteration is not
     invalidated. *)
  let m := fold_left (fun m (p : CallInfo * NodeId) => mapVectorSet p.1 p.2 m)
                     TailCallToContextNodeMap m in
  Ok (setNonAllocationCallToContextNodeMap m g).

End HandleCallsites.

(** ** Vocabulary for the consistency of a node with its edges *)

(** The context ids of edge [e] of the graph. *)
Definition edgeIds (g : CallsiteContextGraph) (e : EdgeId) : gset N :=
  from_option ContextEdge.ContextIds ∅ (EdgeStore g !! e).

(** The union of the context ids of the edges of a list. *)
Definition unionIds (g : CallsiteContextGraph) (l : list EdgeId) : gset N :=
  ⋃ (edgeIds g <$> l).

(** The OR of the allocation types that the table gives to the ids of a
    set. *)
Definition orOfIdTypes (g : CallsiteContextGraph) (S : gset N) : N :=
  foldr (fun id acc => N.lor (default 0 (ContextIdToAllocationType g !! id)) acc)
        0 (elements S).



(** An allocation with two profiled contexts: a cold one, id 1, through the
    frames 10, 10 and 20, and a not cold one, id 2, through the frames 10 and
    20.  Node 0 is the allocation, node 1 the frame 10, which calls itself
    on the cold context, and node 2 the frame 20.  Every node has a call, and
    edge 1, the recursive one, is marked as a backedge. *)
Definition recursionExample : CallsiteContextGraph :=
  mkCCG
    [ ContextNode.mk true false 3 (mkCallInfo (Some 1) 0) [] 0 [] [0%nat] [] None;
      ContextNode.mk false false 3 (mkCallInfo (Some 2) 0) [] 10
                     [0%nat; 1%nat] [1%nat; 2%nat] [] None;
      ContextNode.mk false false 3 (mkCallInfo (Some 3) 0) [] 20 [2%nat] [] [] None ]
    [ ContextEdge.mk (Some 0%nat) (Some 1%nat) 3 false {[1; 2]};
      ContextEdge.mk (Some 1%nat) (Some 1%nat) 2 true {[1]};
      ContextEdge.mk (Some 1%nat) (Some 2%nat) 3 false {[1; 2]} ]
    {[1 := AllocationType.Cold; 2 := AllocationType.NotCold]} 2
    {[0%nat := 100]} {[10 := 1%nat; 20 := 2%nat]}
    [(mkCallInfo (Some 1) 0, 0%nat)]
    [(mkCallInfo (Some 2) 0, 1%nat); (mkCallInfo (Some 3) 0, 2%nat)]
    [] ∅.

(** The calls of [recursionExample], which the matching of the stack nodes
    with the calls of the module assigns. *)
Definition recursionExample_calls (g : CallsiteContextGraph) : Res CallsiteContextGraph :=
  g ← updNode g 1%nat (ContextNode.setCall (mkCallInfo (Some 2) 0));
  g ← updNode g 2%nat (ContextNode.setCall (mkCallInfo (Some 3) 0));
  Ok (setNonAllocationCallToContextNodeMap
        [(mkCallInfo (Some 2) 0, 1%nat); (mkCallInfo (Some 3) 0, 2%nat)] g).

(** How the graph builder gets to [recursionExample]. *)
Definition recursionExample_build : Res CallsiteContextGraph :=
  '(a, g) ← addAllocNode emptyGraph (mkCallInfo (Some 1) 0) 100;
  g ← addStackNodesForMIB defaultOptions id g a [10; 10; 20] AllocationType.Cold;
  g ← addStackNodesForMIB defaultOptions id g a [10; 20] AllocationType.NotCold;
  g ← recursionExample_calls g;
  markBackedges defaultOptions g.

(** A graph without recursion: an allocation with a cold context, id 1,
    through the frames 10 and 20, and a not cold one, id 2, through the
    frames 10 and 30. *)
Definition plainExample : CallsiteContextGraph :=
  mkCCG
    [ ContextNode.mk true false 3 (mkCallInfo (Some 1) 0) [] 0 [] [0%nat] [] None;
      ContextNode.mk false false 3 (mkCallInfo (Some 2) 0) [] 10
                     [0%nat] [1%nat; 2%nat] [] None;
      ContextNode.mk false false 2 (mkCallInfo (Some 3) 0) [] 20 [1%nat] [] [] None;
      ContextNode.mk false false 1 (mkCallInfo (Some 4) 0) [] 30 [2%nat] [] [] None ]
    [ ContextEdge.mk (Some 0%nat) (Some 1%nat) 3 false {[1; 2]};
      ContextEdge.mk (Some 1%nat) (Some 2%nat) 2 false {[1]};
      ContextEdge.mk (Some 1%nat) (Some 3%nat) 1 false {[2]} ]
    {[1 := AllocationType.Cold; 2 := AllocationType.NotCold]} 2
    {[0%nat := 100]} {[10 := 1%nat; 20 := 2%nat; 30 := 3%nat]}
    [(mkCallInfo (Some 1) 0, 0%nat)]
    [(mkCallInfo (Some 2) 0, 1%nat); (mkCallInfo (Some 3) 0, 2%nat);
     (mkCallInfo (Some 4) 0, 3%nat)]
    [] ∅.

(** [recursionExample] after clone identification: node 3 is the clone of
    node 1 that took over the recursive edge, node 4 the cold clone of the
    allocation; edge 1 has been removed. *)
Definition recursionExample_cloned : CallsiteContextGraph :=
  mkCCG
    [ ContextNode.mk true false 1 (mkCallInfo (Some 1) 0) [] 0 [] [0%nat] [4%nat] None;
      ContextNode.mk false false 3 (mkCallInfo (Some 2) 0) [] 10
                     [0%nat] [2%nat] [3%nat] None;
      ContextNode.mk false false 3 (mkCallInfo (Some 3) 0) [] 20 [2%nat] [] [] None;
      ContextNode.mk false false 2 (mkCallInfo (Some 2) 0) [] 0
                     [3%nat; 4%nat] [4%nat] [] (Some 1%nat);
      ContextNode.mk true false 2 (mkCallInfo (Some 1) 0) [] 0 [] [3%nat] []
                     (Some 0%nat) ]
    [ ContextEdge.mk (Some 0%nat) (Some 1%nat) 1 false {[2]};
      ContextEdge.mk None None 0 true ∅;
      ContextEdge.mk (Some 1%nat) (Some 2%nat) 3 false {[1; 2]};
      ContextEdge.mk (Some 4%nat) (Some 3%nat) 2 false {[1]};
      ContextEdge.mk (Some 3%nat) (Some 3%nat) 2 false {[1]} ]
    {[1 := AllocationType.Cold; 2 := AllocationType.NotCold]} 2
    {[0%nat := 100; 4%nat := 100]} {[10 := 1%nat; 20 := 2%nat]}
    [(mkCallInfo (Some 1) 0, 0%nat)]
    [(mkCallInfo (Some 2) 0, 1%nat); (mkCallInfo (Some 3) 0, 2%nat)]
    [] ∅.

(** An aggregate of allocation types without the [Hot] bit. *)
Definition noHotBit (t : N) : Prop := N.land t AllocationType.Hot = 0.

(** A graph with one allocation node, before its profiled contexts are
    added. *)
Definition allocExample : CallsiteContextGraph :=
  mkCCG [ContextNode.mk true false 0 (mkCallInfo (Some 1) 0) [] 0 [] [] [] None]
        [] ∅ 0 {[0%nat := 100]} ∅ [(mkCallInfo (Some 1) 0, 0%nat)] [] [] ∅.

(** ** Vocabulary for the duplication of context ids *)

(** The [k] context ids that follow [L]. *)
Definition freshIds (L : N) (k : nat) : list N :=
  (fun i => L + 1 + N.of_nat i) <$> seq 0 k.

(** An edge with the duplicates of its context ids added. *)
Definition addNewIds (OldToNewContextIds : gmap N (gset N)) (E : ContextEdge.t)
    : ContextEdge.t :=
  ContextEdge.setContextIds
    (ContextEdge.ContextIds E
     ∪ GetNewIds OldToNewContextIds (ContextEdge.ContextIds E)) E.

(** The caller edges that [UpdateCallers] reaches from a node: the caller
    edges of the node itself, and those of the caller of a reached edge
    that carries an id with duplicates. *)
Inductive reachFrom (g : CallsiteContextGraph) (M : gmap N (gset N)) (n : NodeId)
    : EdgeId -> Prop :=
| reach_direct e Nd :
    NodeOwner g !! n = Some Nd -> e ∈ ContextNode.CallerEdges Nd ->
    reachFrom g M n e
| reach_step e1 E1 m Nm e :
    reachFrom g M n e1 -> EdgeStore g !! e1 = Some E1 ->
    GetNewIds M (ContextEdge.ContextIds E1) <> ∅ ->
    ContextEdge.Caller E1 = Some m ->
    NodeOwner g !! m = Some Nm -> e ∈ ContextNode.CallerEdges Nm ->
    reachFrom g M n e.

(** The edges reached from the allocation nodes. *)
Definition reachFromAlloc (g : CallsiteContextGraph) (M : gmap N (gset N))
    (e : EdgeId) : Prop :=
  exists C a, (C, a) ∈ AllocationCallToContextNodeMap g /\ reachFrom g M a e.

(** The caller edges through which a context id goes up from a node: the
    caller edges of the node that carry the id, and the caller edges with
    the id of the caller of such an edge. *)
Inductive carriedFrom (g : CallsiteContextGraph) (id : N) (n : NodeId)
    : EdgeId -> Prop :=
| carried_direct e Nd E :
    NodeOwner g !! n = Some Nd -> e ∈ ContextNode.CallerEdges Nd ->
    EdgeStore g !! e = Some E -> id ∈ ContextEdge.ContextIds E ->
    carriedFrom g id n e
| carried_step e1 E1 m Nm e E :
    carriedFrom g id n e1 -> EdgeStore g !! e1 = Some E1 ->
    ContextEdge.Caller E1 = Some m ->
    NodeOwner g !! m = Some Nm -> e ∈ ContextNode.CallerEdges Nm ->
    EdgeStore g !! e = Some E -> id ∈ ContextEdge.ContextIds E ->
    carriedFrom g id n e.

(** The ancestor caller edges of the allocation nodes that a context id
    reaches. *)
Definition carriedFromAlloc (g : CallsiteContextGraph) (id : N) (e : EdgeId) : Prop :=
  exists C a, (C, a) ∈ AllocationCallToContextNodeMap g /\ carriedFrom g id a e.

(** The ancestor caller edges of a node: its caller edges and those of the
    callers of its ancestor caller edges. *)
Inductive ancestorEdge (g : CallsiteContextGraph) (n : NodeId) : EdgeId -> Prop :=
| ancestor_direct e Nd :
    NodeOwner g !! n = Some Nd -> e ∈ ContextNode.CallerEdges Nd ->
    ancestorEdge g n e
| ancestor_step e1 E1 m Nm e :
    ancestorEdge g n e1 -> EdgeStore g !! e1 = Some E1 ->
    ContextEdge.Caller E1 = Some m ->
    NodeOwner g !! m = Some Nm -> e ∈ ContextNode.CallerEdges Nm ->
    ancestorEdge g n e.

Definition ancestorOfAlloc (g : CallsiteContextGraph) (e : EdgeId) : Prop :=
  exists C a, (C, a) ∈ AllocationCallToContextNodeMap g /\ ancestorEdge g a e.

(** Every context id is a path: an id on an ancestor caller edge of the
    allocation nodes has come there from an allocation node through caller
    edges that all carry it. *)
Definition contextsArePaths (g : CallsiteContextGraph) : Prop :=
  forall e E id,
    ancestorOfAlloc g e -> EdgeStore g !! e = Some E ->
    id ∈ ContextEdge.ContextIds E -> carriedFromAlloc g id e.

(** The graph [g] is [g0] with the duplicates added on the edges of [V]. *)
Definition duplicatesAdded (g0 : CallsiteContextGraph) (M : gmap N (gset N))
    (V : gset EdgeId) (g : CallsiteContextGraph) : Prop :=
  NodeOwner g = NodeOwner g0 /\ sameMaps g0 g
  /\ length (EdgeStore g) = length (EdgeStore g0)
  /\ forall e E, EdgeStore g0 !! e = Some E ->
       EdgeStore g !! e = Some (if decide (e ∈ V) then addNewIds M E else E).

(** ** A checker for well-formedness *)

Definition WFb_calleeEdge (g : CallsiteContextGraph) (n : NodeId) (e : EdgeId) : bool :=
  match EdgeStore g !! e with
  | Some E =>
      bool_decide (ContextEdge.Caller E = Some n)
      && match ContextEdge.Callee E with
         | Some d =>
             match NodeOwner g !! d with
             | Some D => bool_decide (e ∈ ContextNode.CallerEdges D)
             | None => false
             end
         | None => false
         end
  | None => false
  end.

Definition WFb_callerEdge (g : CallsiteContextGraph) (n : NodeId) (e : EdgeId) : bool :=
  match EdgeStore g !! e with
  | Some E =>
      bool_decide (ContextEdge.Callee E = Some n)
      && match ContextEdge.Caller E with
         | Some c =>
             match NodeOwner g !! c with
             | Some C => bool_decide (e ∈ ContextNode.CalleeEdges C)
             | None => false
             end
         | None => false
         end
      && forallb (fun id =>
                    match ContextIdToAllocationType g !! id with
                    | Some t => N.eqb (N.lor (ContextEdge.AllocTypes E) t)
                                      (ContextEdge.AllocTypes E)
                    | None => false
                    end)
                 (elements (ContextEdge.ContextIds E))
  | None => false
  end.

Definition WFb_node (g : CallsiteContextGraph) (n : NodeId) (Nd : ContextNode.t) : bool :=
  forallb (WFb_calleeEdge g n) (ContextNode.CalleeEdges Nd)
  && forallb (WFb_callerEdge g n) (ContextNode.CallerEdges Nd)
  && bool_decide (NoDup (ContextNode.CalleeEdges Nd))
  && bool_decide (NoDup (ContextNode.CallerEdges Nd))
  && match ContextNode.CloneOf Nd with
     | Some o =>
         match NodeOwner g !! o with
         | Some Orig => bool_decide (ContextNode.CloneOf Orig = None)
         | None => false
         end
     | None => true
     end
  && forallb (fun c =>
                match NodeOwner g !! c with
                | Some C => bool_decide (ContextNode.CloneOf C = Some n)
                | None => false
                end)
             (ContextNode.Clones Nd)
  && N.leb (ContextNode.AllocTypes Nd) 3.

Definition WFb (g : CallsiteContextGraph) : bool :=
  forallb (fun p : nat * ContextNode.t => WFb_node g p.1 p.2)
          (imap pair (NodeOwner g))
  && forallb (fun E => N.leb (ContextEdge.AllocTypes E) 3) (EdgeStore g)
  && forallb (fun p : N * N =>
                (N.eqb p.2 AllocationType.NotCold || N.eqb p.2 AllocationType.Cold)
                && N.leb p.1 (LastContextId g))
             (map_to_list (ContextIdToAllocationType g))
  && forallb (fun p : CallInfo * NodeId =>
                match NodeOwner g !! p.2 with
                | Some A => bool_decide (ContextNode.CloneOf A = None)
                | None => false
                end)
             (AllocationCallToContextNodeMap g)
  && forallb (fun p : N * NodeId => bool_decide (is_Some (NodeOwner g !! p.2)))
             (map_to_list (StackEntryIdToContextNodeMap g)).

(** The state in which [assignFunctions] comes to the call of the
    allocation of [recursionExample_cloned], the first call of its
    function: no function clones yet, and the clone of the allocation node
    left on the worklist after the node itself was taken from it. *)
Definition assignExample : AssignState :=
  mkAssignState recursionExample_cloned ∅ [] [] [4%nat] 0 false.

(** A node without a call: node 1 of [plainExample] after its call has been
    cleared. *)
Definition unmatchedExample : CallsiteContextGraph :=
  setNodeOwner (<[1%nat := ContextNode.mk false false 3 nullCallInfo [] 10
                             [0%nat] [1%nat; 2%nat] [] None]> (NodeOwner plainExample))
               plainExample.

(* ================================================================== *)
(** * The cloning step: parts and vocabulary                           *)
(* ================================================================== *)

(** The definitions below serve the theorems on the graph operations of
    the cloning step. *)

(** ** Well-formedness with the edge store

    [WF] speaks of the edges in the lists of the nodes.  The cloning step
    also reads edges by their references from the copies it took of these
    lists: for it every edge of the store that is not removed has to be in
    the lists of its two nodes. *)
Record WFS (g : CallsiteContextGraph) : Prop := {
  wfs_wf : WF g;
  wfs_store : forall e E,
    EdgeStore g !! e = Some E ->
    ContextEdge.isRemoved E = true
    \/ exists c d C D,
         ContextEdge.Caller E = Some c /\ ContextEdge.Callee E = Some d
         /\ NodeOwner g !! c = Some C /\ e ∈ ContextNode.CalleeEdges C
         /\ NodeOwner g !! d = Some D /\ e ∈ ContextNode.CallerEdges D
}.

(** A checker for [WFS]. *)
Definition WFSb (g : CallsiteContextGraph) : bool :=
  WFb g
  && forallb (fun p : nat * ContextEdge.t =>
                ContextEdge.isRemoved p.2
                || match ContextEdge.Caller p.2, ContextEdge.Callee p.2 with
                   | Some c, Some d =>
                       match NodeOwner g !! c, NodeOwner g !! d with
                       | Some C, Some D =>
                           bool_decide (p.1 ∈ ContextNode.CalleeEdges C)
                           && bool_decide (p.1 ∈ ContextNode.CallerEdges D)
                       | _, _ => false
                       end
                   | _, _ => false
                   end)
             (imap pair (EdgeStore g)).

(** ** The parts of the cloning step

    The two halves of [moveEdgeToExistingCalleeClone] and the two ends of an
    iteration of the cloning loop, named so that each has a specification of
    its own; the functions above are these parts put together
    ([moveEdgeToExistingCalleeClone_parts], [identifyClones_iteration_parts]). *)

(** The first half of [moveEdgeToExistingCalleeClone]: the context ids move
    from the caller edge [Edge], whose fields on entry are [E], to an edge
    from the same caller into [NewCallee]. *)
Definition moveEdgeToExistingCalleeClone_callerEdge (g : CallsiteContextGraph)
    (Edge : EdgeId) (E : ContextEdge.t) (NewCallee : NodeId)
    (ExistingEdgeToNewCallee : option EdgeId) (ContextIdsToMove : gset N)
    : Res CallsiteContextGraph :=
  let OldCallee := ContextEdge.Callee E in
  if decide (size (ContextEdge.ContextIds E) = size ContextIdsToMove) then
    (* Moving the whole Edge. *)
    g ← updNode g NewCallee (fun n =>
           ContextNode.setAllocTypes
             (N.lor (ContextNode.AllocTypes n) (ContextEdge.AllocTypes E)) n);
    match ExistingEdgeToNewCallee with
    | Some Existing =>
        (* Since we already have an edge to NewCallee, simply move the
           ids onto it, and remove the existing Edge. *)
        g ← updEdge g Existing (fun X =>
               ContextEdge.setAllocTypes
                 (N.lor (ContextEdge.AllocTypes X) (ContextEdge.AllocTypes E))
                 (ContextEdge.setContextIds
                    (ContextEdge.ContextIds X ∪ ContextIdsToMove) X));
        (* assert(Edge->ContextIds == ContextIdsToMove) *)
        removeEdgeFromGraph g Edge
    | None =>
        (* Otherwise just reconnect Edge to NewCallee. *)
        g ← updEdge g Edge (ContextEdge.setCallee (Some NewCallee));
        g ← pushCallerEdge g NewCallee Edge;
        OldCallee ← deref OldCallee;
        eraseCallerEdge g OldCallee Edge
    end
  else
    (* Only moving a subset of Edge's ids. *)
    CallerEdgeAllocType ← computeAllocType g ContextIdsToMove;
    g ← match ExistingEdgeToNewCallee with
        | Some Existing =>
            updEdge g Existing (fun X =>
              ContextEdge.setAllocTypes
                (N.lor (ContextEdge.AllocTypes X) CallerEdgeAllocType)
                (ContextEdge.setContextIds
                   (ContextEdge.ContextIds X ∪ ContextIdsToMove) X))
        | None =>
            Caller ← deref (ContextEdge.Caller E);
            let '(NewEdge, g) :=
              makeEdge g NewCallee Caller CallerEdgeAllocType ContextIdsToMove in
            g ← pushCalleeEdge g Caller NewEdge;
            pushCallerEdge g NewCallee NewEdge
        end;
    g ← updNode g NewCallee (fun n =>
           ContextNode.setAllocTypes
             (N.lor (ContextNode.AllocTypes n) CallerEdgeAllocType) n);
    g ← updEdge g Edge (fun E =>
           ContextEdge.setContextIds (ContextEdge.ContextIds E ∖ ContextIdsToMove) E);
    E ← getEdge g Edge;
    t ← computeAllocType g (ContextEdge.ContextIds E);
    updEdge g Edge (ContextEdge.setAllocTypes t).

(** The part of an iteration for a backedge whose caller has not been
    visited: the recursive cloning of that caller, which was deferred, and
    what follows from it for the iteration.  The result is [inl] when the
    iteration ends here, and otherwise the graph, the caller edge to go on
    with, its context ids for the allocation, their type and the types of
    the callee edges for them. *)
Definition identifyClones_backedge
    (rec : NodeId -> gset N -> CloneState -> Res CloneState)
    (Node : NodeId) (Done Rest : list EdgeId) (st : CloneState) (CallerEdge : EdgeId)
    (CE : ContextEdge.t) (Caller : NodeId) (CallerEdgeContextsForAlloc : gset N)
    : Res ((CloneState * EdgeId)
           + (CallsiteContextGraph * gset NodeId * EdgeId * gset N * N * list N)) :=
  let OrigIdCount := size (ContextEdge.ContextIds CE) in
  (* Now do the recursive cloning of this backedge's caller, which was
     deferred earlier. *)
  '(g, Visited) ← rec Caller CallerEdgeContextsForAlloc st;
  CE ← getEdge g CallerEdge;
  Caller ← deref (ContextEdge.Caller CE);
  g ← removeNoneTypeCalleeEdges g Caller;
  (* See if the recursive call to identifyClones moved the context ids
     to a new edge from this node to a clone of caller, and switch to
     looking at that new edge so that we clone Node for the new caller
     clone. *)
  CE ← getEdge g CallerEdge;
  n ← getNode g Node;
  Updated ←
    (if decide (size (ContextEdge.ContextIds CE) < OrigIdCount)%nat
     then findUpdatedBackedge g (ContextNode.CallerEdges n)
            (ContextEdge.Caller CE) CallerEdgeContextsForAlloc
            (Done ++ CallerEdge :: Rest)
     else Ok None);
  let '(CallerEdge, CallerEdgeContextsForAlloc, UpdatedEdge) :=
    match Updated with
    | Some (E, New) => (E, New, true)
    | None => (CallerEdge, CallerEdgeContextsForAlloc, false)
    end in
  CE ← getEdge g CallerEdge;
  (* If cloning removed this edge (and we didn't update it to a new
     edge above), we're done with this edge. *)
  if ContextEdge.isRemoved CE then Ok (inl ((g, Visited), CallerEdge)) else
  let CallerEdgeContextsForAlloc :=
    if UpdatedEdge then CallerEdgeContextsForAlloc
    else CallerEdgeContextsForAlloc ∩ ContextEdge.ContextIds CE in
  if negb UpdatedEdge && bool_decide (CallerEdgeContextsForAlloc = ∅)
  then Ok (inl ((g, Visited), CallerEdge)) else
  (* Update the other information that depends on the edges and on the
     now updated CallerEdgeContextsForAlloc. *)
  CallerAllocTypeForAlloc ← computeAllocType g CallerEdgeContextsForAlloc;
  n ← getNode g Node;
  CalleeEdgeAllocTypesForCallerEdge ←
    calleeEdgeAllocTypesForCallerEdge g (ContextNode.CalleeEdges n)
                                      CallerEdgeContextsForAlloc;
  Ok (inr (g, Visited, CallerEdge, CallerEdgeContextsForAlloc,
           CallerAllocTypeForAlloc, CalleeEdgeAllocTypesForCallerEdge)).

(** The end of an iteration: the caller edge moves to a clone of [Node],
    an existing one that fits or a new one. *)
Definition identifyClones_move (opts : Options) (Node : NodeId)
    (g : CallsiteContextGraph)
    (Visited : gset NodeId) (CallerEdge : EdgeId)
    (CallerEdgeContextsForAlloc : gset N) (CallerAllocTypeForAlloc : N)
    (CalleeEdgeAllocTypesForCallerEdge : list N)
    : Res (LoopCtl (CloneState * EdgeId)) :=
  (* First see if we can use an existing clone. Check each clone and its
     callee edges for matching alloc types. *)
  n ← getNode g Node;
  Clone ← findCloneToReuse g (ContextNode.Clones n) CallerAllocTypeForAlloc
                           CalleeEdgeAllocTypesForCallerEdge;
  g ← match Clone with
      | Some Clone =>
          moveEdgeToExistingCalleeClone opts g CallerEdge Clone false
                                        CallerEdgeContextsForAlloc
      | None =>
          r ← moveEdgeToNewCalleeClone opts g CallerEdge CallerEdgeContextsForAlloc;
          Ok r.2
      end;
  (* assert(Clone->AllocTypes != None) *)
  Ok (Continue ((g, Visited), CallerEdge)).

(** ** Conservation of context ids *)

(** The original node that the node [d] of the graph is, or is a clone
    of. *)
Definition famOf (g : CallsiteContextGraph) (d : NodeId) : option NodeId :=
  getOrigNode d <$> NodeOwner g !! d.

(** The edge [E] goes into a node of the family of [o]. *)
Definition edgeInto (g : CallsiteContextGraph) (E : ContextEdge.t) (o : NodeId) : Prop :=
  exists d, ContextEdge.Callee E = Some d /\ famOf g d = Some o.

(** The context id [id] is on an edge into a node of the family of the
    original node [o]: into [o] itself or into one of its clones. *)
Definition carries (g : CallsiteContextGraph) (o : NodeId) (id : N) : Prop :=
  exists e E,
    EdgeStore g !! e = Some E /\ edgeInto g E o /\ id ∈ ContextEdge.ContextIds E.

(** The context ids on the caller edges of the nodes of the family of
    [o]. *)
Definition familyCallerIds (g : CallsiteContextGraph) (o : NodeId) : gset N :=
  ⋃ (imap (fun d D => if decide (getOrigNode d D = o)
                      then unionIds g (ContextNode.CallerEdges D) else ∅)
          (NodeOwner g)).

(** What a node is, whatever cloning does to its edges and its type. *)
Definition sameNodeKind (Nd Nd' : ContextNode.t) : Prop :=
  ContextNode.IsAllocation Nd' = ContextNode.IsAllocation Nd
  /\ ContextNode.Call Nd' = ContextNode.Call Nd
  /\ ContextNode.CloneOf Nd' = ContextNode.CloneOf Nd.

(** What every step of cloning keeps: the tables, the nodes with their
    kind, the edges, and that a removed edge stays removed; a new node is a
    clone. *)
Definition persists (g g' : CallsiteContextGraph) : Prop :=
  sameMaps g g'
  /\ (forall n Nd, NodeOwner g !! n = Some Nd ->
        exists Nd', NodeOwner g' !! n = Some Nd' /\ sameNodeKind Nd Nd')
  /\ (forall n Nd', NodeOwner g' !! n = Some Nd' -> NodeOwner g !! n = None ->
        is_Some (ContextNode.CloneOf Nd'))
  /\ (forall e E, EdgeStore g !! e = Some E ->
        exists E', EdgeStore g' !! e = Some E'
                   /\ (ContextEdge.isRemoved E = true -> ContextEdge.isRemoved E' = true)).

(** A step of cloning that neither loses nor invents a context id of a
    family. *)
Definition evolves (g g' : CallsiteContextGraph) : Prop :=
  persists g g' /\ forall o id, carries g' o id <-> carries g o id.

(** The edges that [P] selects keep their two ends. *)
Definition linksKept (P : EdgeId -> Prop) (g g' : CallsiteContextGraph) : Prop :=
  forall e E, P e -> EdgeStore g !! e = Some E ->
    exists E', EdgeStore g' !! e = Some E'
      /\ ContextEdge.Callee E' = ContextEdge.Callee E
      /\ ContextEdge.Caller E' = ContextEdge.Caller E.

(** The edges into the nodes of [V] keep their two ends or are removed, and
    the ones that are removed did not come from a node of [W]. *)
Definition prot (V W : gset NodeId) (g g' : CallsiteContextGraph) : Prop :=
  forall e E d, EdgeStore g !! e = Some E -> ContextEdge.Callee E = Some d -> d ∈ V ->
    exists E', EdgeStore g' !! e = Some E'
      /\ ((ContextEdge.Callee E' = ContextEdge.Callee E
           /\ ContextEdge.Caller E' = ContextEdge.Caller E)
          \/ (ContextEdge.isRemoved E' = true
              /\ forall c, ContextEdge.Caller E = Some c -> c ∉ W)).

(** [U] are the original nodes of the graph, the ones that are not
    clones. *)
Definition originals (g : CallsiteContextGraph) (U : gset NodeId) : Prop :=
  forall n, n ∈ U <->
    exists Nd, NodeOwner g !! n = Some Nd /\ ContextNode.CloneOf Nd = None.

(** The nodes of the graph. *)
Definition nodeIds (g : CallsiteContextGraph) : gset NodeId :=
  list_to_set (seq 0 (length (NodeOwner g))).

(** The original nodes of the graph as a set. *)
Definition originalNodes (g : CallsiteContextGraph) : gset NodeId :=
  list_to_set
    (filter (fun n => ContextNode.CloneOf <$> NodeOwner g !! n = Some None)
            (seq 0 (length (NodeOwner g)))).

(** The OR of the allocation types of the edges of a list. *)
Definition orOfEdgeTypes (g : CallsiteContextGraph) (l : list EdgeId) : N :=
  foldr (fun e acc => N.lor (from_option ContextEdge.AllocTypes 0 (EdgeStore g !! e)) acc)
        0 l.

(** [g'] is [g] with some more edges marked as backedges: nothing else
    differs, and no mark is taken away. *)
Definition backedgesMarked (g g' : CallsiteContextGraph) : Prop :=
  g' = setEdgeStore (EdgeStore g') g
  /\ length (EdgeStore g') = length (EdgeStore g)
  /\ forall e E, EdgeStore g !! e = Some E ->
       exists b, EdgeStore g' !! e = Some (ContextEdge.setIsBackedge b E)
                 /\ (ContextEdge.IsBackedge E = true -> b = true).

(** [g'] is [g] without the edge [e]: the edge is cleared and is in no
    list any more. *)
Definition edgeRemoved (g g' : CallsiteContextGraph) (e : EdgeId) : Prop :=
  sameMaps g g'
  /\ (exists E, EdgeStore g !! e = Some E
                /\ EdgeStore g' = <[e := ContextEdge.clear E]> (EdgeStore g))
  /\ length (NodeOwner g') = length (NodeOwner g)
  /\ forall n Nd, NodeOwner g !! n = Some Nd ->
       exists Nd', NodeOwner g' !! n = Some Nd' /\ sameNodeInfo Nd Nd'
         /\ ContextNode.AllocTypes Nd' = ContextNode.AllocTypes Nd
         /\ ContextNode.CalleeEdges Nd' = filter (fun x => x <> e) (ContextNode.CalleeEdges Nd)
         /\ ContextNode.CallerEdges Nd' = filter (fun x => x <> e) (ContextNode.CallerEdges Nd).

(** [g'] is [g] with the edge [e] taken out of the lists of the nodes: the
    edge itself is as it was. *)
Definition edgeUnlinked (g g' : CallsiteContextGraph) (e : EdgeId) : Prop :=
  sameMaps g g'
  /\ EdgeStore g' = EdgeStore g
  /\ length (NodeOwner g') = length (NodeOwner g)
  /\ forall n Nd, NodeOwner g !! n = Some Nd ->
       exists Nd', NodeOwner g' !! n = Some Nd' /\ sameNodeInfo Nd Nd'
         /\ ContextNode.AllocTypes Nd' = ContextNode.AllocTypes Nd
         /\ ContextNode.CalleeEdges Nd' = filter (fun x => x <> e) (ContextNode.CalleeEdges Nd)
         /\ ContextNode.CallerEdges Nd' = filter (fun x => x <> e) (ContextNode.CallerEdges Nd).

(** [g'] is [g] with the edge [e] now into the node [nc], at the end of
    its caller edges. *)
Definition edgeRepointed (g g' : CallsiteContextGraph) (e : EdgeId) (nc : NodeId) : Prop :=
  sameMaps g g'
  /\ (exists E, EdgeStore g !! e = Some E
                /\ EdgeStore g' = <[e := ContextEdge.setCallee (Some nc) E]> (EdgeStore g))
  /\ length (NodeOwner g') = length (NodeOwner g)
  /\ forall n Nd, NodeOwner g !! n = Some Nd ->
       exists Nd', NodeOwner g' !! n = Some Nd' /\ sameNodeInfo Nd Nd'
         /\ ContextNode.AllocTypes Nd' = ContextNode.AllocTypes Nd
         /\ ContextNode.CalleeEdges Nd' = ContextNode.CalleeEdges Nd
         /\ ContextNode.CallerEdges Nd' =
            filter (fun x => x <> e) (ContextNode.CallerEdges Nd)
            ++ (if decide (n = nc) then [e] else []).

(** Every edge keeps its two ends, or is removed and came from the node
    [Node]. *)
Definition removesFrom (Node : NodeId) (g g' : CallsiteContextGraph) : Prop :=
  forall e E, EdgeStore g !! e = Some E ->
    exists E', EdgeStore g' !! e = Some E'
      /\ ((ContextEdge.Callee E' = ContextEdge.Callee E
           /\ ContextEdge.Caller E' = ContextEdge.Caller E)
          \/ (ContextEdge.isRemoved E' = true /\ ContextEdge.Caller E = Some Node)).

(** [g'] is [g] with one more node, [cl], a clone of the original node
    [orig] that has no edges yet. *)
Definition cloneAdded (g g' : CallsiteContextGraph) (orig cl : NodeId) : Prop :=
  sameMaps g g' /\ EdgeStore g' = EdgeStore g
  /\ cl = length (NodeOwner g)
  /\ length (NodeOwner g') = S (length (NodeOwner g))
  /\ (exists Orig, NodeOwner g !! orig = Some Orig /\ ContextNode.CloneOf Orig = None)
  /\ (forall n Nd, NodeOwner g !! n = Some Nd ->
        exists Nd', NodeOwner g' !! n = Some Nd' /\ sameNodeKind Nd Nd'
          /\ ContextNode.AllocTypes Nd' = ContextNode.AllocTypes Nd
          /\ ContextNode.CalleeEdges Nd' = ContextNode.CalleeEdges Nd
          /\ ContextNode.CallerEdges Nd' = ContextNode.CallerEdges Nd
          /\ ContextNode.Clones Nd' =
             ContextNode.Clones Nd ++ (if decide (n = orig) then [cl] else []))
  /\ (exists CL, NodeOwner g' !! cl = Some CL
        /\ ContextNode.CalleeEdges CL = [] /\ ContextNode.CallerEdges CL = []
        /\ ContextNode.Clones CL = [] /\ ContextNode.AllocTypes CL = AllocationType.None
        /\ ContextNode.CloneOf CL = Some orig).

(** The entries of the copy of the caller edges of [Node] that the cloning
    loop still has to look at: each is an edge into [Node], unless it has
    been removed. *)
Definition pendingEdges (Node : NodeId) (l : list EdgeId) (g : CallsiteContextGraph)
    : Prop :=
  forall e, e ∈ l ->
    exists E, EdgeStore g !! e = Some E
      /\ (ContextEdge.isRemoved E = true \/ ContextEdge.Callee E = Some Node).

(** What the recursive call of [identifyClones] is known to do, for the
    original nodes [U] of the graph, on a node that was not visited, when
    [Vmin] has been visited before: it returns, keeps the graph well formed
    and the context ids with their families, forgets no visited node, and
    leaves the edges into the visited nodes alone, apart from removing edges
    from nodes that were not visited. *)
Definition recSpec (U Vmin : gset NodeId)
    (rec : NodeId -> gset N -> CloneState -> Res CloneState) : Prop :=
  forall M Ids g V,
    WFS g -> originals g U -> M ∈ U -> M ∉ V -> Vmin ⊆ V ->
    exists g' V', rec M Ids (g, V) = Ok (g', V')
      /\ WFS g' /\ evolves g g' /\ V ⊆ V' /\ prot V (V ∪ {[M]}) g g'.

(** What an iteration of the cloning loop for [Node], started in the graph
    [g] with the visited nodes [V], leaves behind: for the sets [Vp] and
    [Wp] of nodes that were visited before the loop. *)
Definition loopPost (Vp Wp : gset NodeId) (Node : NodeId) (Rest : list EdgeId)
    (g : CallsiteContextGraph) (V : gset NodeId) (st' : CloneState) : Prop :=
  WFS st'.1 /\ evolves g st'.1 /\ V ⊆ st'.2 /\ prot Vp Wp g st'.1
  /\ pendingEdges Node Rest st'.1.

(** [plainExample] after the context id 2 has been taken off the edge from
    frame 30 into frame 10: the edge is left without ids and without a
    type, still in the lists of both nodes. *)
Definition emptiedEdgeExample : CallsiteContextGraph :=
  mkCCG
    [ ContextNode.mk true false 3 (mkCallInfo (Some 1) 0) [] 0 [] [0%nat] [] None;
      ContextNode.mk false false 3 (mkCallInfo (Some 2) 0) [] 10
                     [0%nat] [1%nat; 2%nat] [] None;
      ContextNode.mk false false 2 (mkCallInfo (Some 3) 0) [] 20 [1%nat] [] [] None;
      ContextNode.mk false false 0 (mkCallInfo (Some 4) 0) [] 30 [2%nat] [] [] None ]
    [ ContextEdge.mk (Some 0%nat) (Some 1%nat) 3 false {[1; 2]};
      ContextEdge.mk (Some 1%nat) (Some 2%nat) 2 false {[1]};
      ContextEdge.mk (Some 1%nat) (Some 3%nat) 0 false ∅ ]
    {[1 := AllocationType.Cold; 2 := AllocationType.NotCold]} 2
    {[0%nat := 100]} {[10 := 1%nat; 20 := 2%nat; 30 := 3%nat]}
    [(mkCallInfo (Some 1) 0, 0%nat)]
    [(mkCallInfo (Some 2) 0, 1%nat); (mkCallInfo (Some 3) 0, 2%nat);
     (mkCallInfo (Some 4) 0, 3%nat)]
    [] ∅.
(* ================================================================== *)
(** * Part II: properties                                              *)
(* ================================================================== *)

(** ** Allocation types *)

Lemma le3_cases (t : N) : t <= 3 -> t = 0 \/ t = 1 \/ t = 2 \/ t = 3.
Proof. lia. Qed.

Lemma hasSingleAllocType_le3 (t : N) :
  t <= 3 ->
  hasSingleAllocType t = true <-> t = AllocationType.NotCold \/ t = AllocationType.Cold.
Proof.
  intros Hle.
  destruct (le3_cases t Hle) as [-> | [-> | [-> | ->]]];
    vm_compute; intuition congruence.
Qed.


(** ** The search through tail calls *)

Section TailCallProofs.
Variable opts : Options.
Variable Mod : FuncTy -> list (list Instruction).

(** What a search must return on a state [st], given the chains there are. *)
Definition SearchSpec (chains : list (list (Instruction * FuncTy)))
    (st : SearchState) (r : bool * SearchState) : Prop :=
  match chains with
  | [] => r = (false, st)
  | [c] => r = (true, (st.1 ++ c, st.2))
  | _ :: _ :: _ => r.1 = false /\ r.2.2 = true
  end.

(** The chains that start with one of the given instructions of [F]. *)
Definition chainsThrough (k : nat) (P F : FuncTy) (Insts : list Instruction)
    : list (list (Instruction * FuncTy)) :=
  concat (map (fun Inst =>
                 match tailCallTarget Inst with
                 | None => []
                 | Some G =>
                     if decide (G = P) then [[(Inst, F)]]
                     else map (fun c => c ++ [(Inst, F)]) (tailCallChains Mod k P G)
                 end) Insts).

Lemma tailCallChains_S k P F :
  tailCallChains Mod (S k) P F = chainsThrough k P F (concat (Mod F)).
Proof. reflexivity. Qed.

Lemma chainsThrough_cons k P F Inst Insts :
  chainsThrough k P F (Inst :: Insts) =
  match tailCallTarget Inst with
  | None => []
  | Some G =>
      if decide (G = P) then [[(Inst, F)]]
      else map (fun c => c ++ [(Inst, F)]) (tailCallChains Mod k P G)
  end ++ chainsThrough k P F Insts.
Proof. reflexivity. Qed.

(** The loop, given that the recursive calls meet the specification. *)
Lemma findProfiledCallee_loop_spec
    (rec : Value -> SearchState -> Res (bool * SearchState)) k P F :
  (forall G st, st.2 = false ->
     exists r, rec (VFunction G) st = Ok r /\ SearchSpec (tailCallChains Mod k P G) st r) ->
  forall Insts found st st0 (prev : list (list (Instruction * FuncTy))),
    st0.2 = false ->
    (found = false /\ prev = [] /\ st = st0
     \/ exists c, found = true /\ prev = [c] /\ st = (st0.1 ++ c, false)) ->
    exists r, findProfiledCallee_loop rec P F Insts found st = Ok r
              /\ SearchSpec (prev ++ chainsThrough k P F Insts) st0 r.
Proof.
  intros Hrec Insts. induction Insts as [|Inst Insts IH]; intros found st st0 prev Hst0 Hprev.
  - simpl. eexists; split; [reflexivity|].
    unfold chainsThrough; simpl. rewrite app_nil_r.
    destruct Hprev as [(-> & -> & ->) | (c & -> & -> & ->)]; simpl; [done|].
    by rewrite Hst0.
  - rewrite chainsThrough_cons. simpl.
    destruct (tailCallTarget Inst) as [G|] eqn:HG; [|by apply IH].
    destruct (decide (G = P)) as [->|Hne].
    + destruct Hprev as [(-> & -> & ->) | (c & -> & -> & ->)].
      * simpl. destruct (IH true (st0.1 ++ [(Inst, F)], st0.2) st0 [[(Inst, F)]] Hst0)
          as (r & Hr & Hspec).
        { right. exists [(Inst, F)]. by rewrite Hst0. }
        exists r. split; [done|]. exact Hspec.
      * simpl. eexists; split; [reflexivity|]. simpl. done.
    + assert (st.2 = false) as Hst2.
      { destruct Hprev as [(-> & -> & ->) | (c & -> & -> & ->)]; done. }
      destruct (Hrec G st Hst2) as (r & Hr & Hspec). rewrite Hr. simpl.
      destruct r as [fnd st']. unfold SearchSpec in Hspec.
      destruct (tailCallChains Mod k P G) as [|c1 [|c2 cs]] eqn:Hch.
      * injection Hspec as -> ->. rewrite Hst2. simpl. by apply IH.
      * injection Hspec as -> ->. simpl.
        destruct Hprev as [(-> & -> & ->) | (c & -> & -> & ->)].
        -- simpl.
           destruct (IH true ((st0.1 ++ c1) ++ [(Inst, F)], st0.2) st0
                       [c1 ++ [(Inst, F)]] Hst0) as (r & Hr' & Hspec').
           { right. exists (c1 ++ [(Inst, F)]). rewrite Hst0, app_assoc. done. }
           exists r. split; done.
        -- simpl. eexists; split; [reflexivity|]. simpl. done.
      * simpl in Hspec. destruct Hspec as [-> Hm]. rewrite Hm.
        eexists; split; [reflexivity|].
        destruct Hprev as [(-> & -> & ->) | (c & -> & -> & ->)]; simpl; done.
Qed.

Lemma wrap32_small n : n < UINT32_MOD -> wrap32 n = n.
Proof. intros. unfold wrap32. by apply N.mod_small. Qed.

(** The search on a function, at a depth from which [k] more levels fit
    under the limit. *)
Lemma findProfiledCalleeThroughTailCalls_spec (k : nat) :
  forall (fuel : nat) P F Depth st,
    TailCallSearchDepth opts + 1 < UINT32_MOD ->
    N.of_nat k + Depth = TailCallSearchDepth opts + 1 ->
    (k <= fuel)%nat ->
    st.2 = false ->
    exists r, findProfiledCalleeThroughTailCalls opts Mod fuel P (VFunction F) Depth st = Ok r
              /\ SearchSpec (tailCallChains Mod k P F) st r.
Proof.
  induction k as [|k IH]; intros fuel P F Depth st Hlim Hk Hfuel Hst.
  - assert (TailCallSearchDepth opts < Depth) as Hd by lia.
    apply N.ltb_lt in Hd.
    destruct fuel; simpl; rewrite Hd; eexists; split; done.
  - destruct fuel as [|fuel]; [lia|].
    assert (Depth <= TailCallSearchDepth opts) as Hd by lia.
    simpl. destruct (N.ltb_spec (TailCallSearchDepth opts) Depth) as [?|_]; [lia|].
    simpl.
    destruct (findProfiledCallee_loop_spec
                (fun CalledFunction st =>
                   findProfiledCalleeThroughTailCalls opts Mod fuel P CalledFunction
                     (wrap32 (Depth + 1)) st)
                k P F) with (Insts := concat (Mod F)) (found := false) (st := st)
                            (st0 := st) (prev := @nil (list (Instruction * FuncTy)))
      as (r & Hr & Hspec).
    + intros G st' Hst'. apply IH; try done; try lia.
      rewrite wrap32_small by lia. lia.
    + done.
    + left. done.
    + exists r. split; [exact Hr|]. exact Hspec.
Qed.

(** The chains the enumeration lists are the chains of the relation. *)
Lemma tailCallChains_sound k P F c :
  c ∈ tailCallChains Mod k P F -> TailCallChain Mod P k F c.
Proof.
  revert F c. induction k as [|k IH]; intros F c Hc; [by apply elem_of_nil in Hc|].
  rewrite tailCallChains_S in Hc. unfold chainsThrough in Hc.
  apply list_elem_of_In, in_concat in Hc as (l & Hl & Hcl).
  apply in_map_iff in Hl as (Inst & <- & HInst).
  apply list_elem_of_In in HInst.
  destruct (tailCallTarget Inst) as [G|] eqn:HG; [|destruct Hcl].
  destruct (decide (G = P)) as [->|Hne].
  - destruct Hcl as [<-|[]]. by constructor.
  - apply in_map_iff in Hcl as (c' & <- & Hc').
    eapply TailCallChain_step; eauto. apply IH. by apply list_elem_of_In.
Qed.

Lemma tailCallChains_complete k P F c :
  TailCallChain Mod P k F c -> c ∈ tailCallChains Mod k P F.
Proof.
  induction 1 as [k F Inst HInst HG | k F Inst G c HInst HG Hne Hc IH].
  - rewrite tailCallChains_S. unfold chainsThrough.
    apply list_elem_of_In, in_concat. eexists. split.
    + apply in_map_iff. exists Inst. split; [reflexivity|]. by apply list_elem_of_In.
    + rewrite HG. rewrite decide_True by done. by left.
  - rewrite tailCallChains_S. unfold chainsThrough.
    apply list_elem_of_In, in_concat. eexists. split.
    + apply in_map_iff. exists Inst. split; [reflexivity|]. by apply list_elem_of_In.
    + rewrite HG. rewrite decide_False by done.
      apply in_map_iff. exists c. split; [done|]. by apply list_elem_of_In.
Qed.

End TailCallProofs.

(** C6. The search through tail calls fails as soon as [Depth] exceeds
    [TailCallSearchDepth]; below the limit, with enough fuel for the levels
    left, it returns: it succeeds exactly when there is one chain of tail
    calls to the profiled callee within the limit, which it appends to the
    chain found so far, and when there is more than one chain it fails and
    sets [FoundMultipleCalleeChains]; without a chain it fails and leaves
    the state as it was. *)
Theorem findProfiledCalleeThroughTailCalls_bounded_unique
    (opts : Options) (Mod : FuncTy -> list (list Instruction))
    (ProfiledCallee F : FuncTy) (Depth : N) (fuel : nat)
    (FoundCalleeChain : list (Instruction * FuncTy)) :
  TailCallSearchDepth opts + 1 < UINT32_MOD ->
  Depth <= TailCallSearchDepth opts + 1 ->
  (N.to_nat (TailCallSearchDepth opts + 1 - Depth) <= fuel)%nat ->
  exists r,
    findProfiledCalleeThroughTailCalls opts Mod fuel ProfiledCallee (VFunction F) Depth
      (FoundCalleeChain, false) = Ok r
    /\ (TailCallSearchDepth opts < Depth -> r = (false, (FoundCalleeChain, false)))
    /\ (r.1 = true <->
        exists c, tailCallChains Mod (N.to_nat (TailCallSearchDepth opts + 1 - Depth))
                    ProfiledCallee F = [c])
    /\ (forall c,
          tailCallChains Mod (N.to_nat (TailCallSearchDepth opts + 1 - Depth))
            ProfiledCallee F = [c] ->
          r = (true, (FoundCalleeChain ++ c, false)))
    /\ ((2 <= length (tailCallChains Mod (N.to_nat (TailCallSearchDepth opts + 1 - Depth))
                        ProfiledCallee F))%nat ->
        r.1 = false /\ r.2.2 = true)
    /\ (tailCallChains Mod (N.to_nat (TailCallSearchDepth opts + 1 - Depth))
          ProfiledCallee F = [] ->
        r = (false, (FoundCalleeChain, false))).
Proof.
  intros Hlim HD Hfuel.
  set (k := N.to_nat (TailCallSearchDepth opts + 1 - Depth)) in *.
  destruct (findProfiledCalleeThroughTailCalls_spec opts Mod k fuel ProfiledCallee F Depth
              (FoundCalleeChain, false)) as (r & Hr & Hspec); try done.
  { unfold k. lia. }
  exists r. split; [exact Hr|].
  unfold SearchSpec in Hspec; simpl in Hspec.
  split.
  { intros Hd. assert (k = 0%nat) as Hk0 by (unfold k; lia).
    rewrite Hk0 in Hspec. simpl in Hspec. done. }
  destruct (tailCallChains Mod k ProfiledCallee F) as [|c1 [|c2 cs]].
  - subst r. simpl. split; [|split; [|split]].
    + split; [done|]. intros [c Hc]. done.
    + intros c Hc. done.
    + simpl. lia.
    + done.
  - subst r. simpl. split; [|split; [|split]].
    + split; [eauto|done].
    + intros c [= ->]. done.
    + simpl. lia.
    + done.
  - destruct Hspec as [H1 H2]. split; [|split; [|split]].
    + rewrite H1. split; [done|]. intros [c Hc]. done.
    + intros c Hc. done.
    + done.
    + done.
Qed.

(** A module where [f] (1) tail calls [g] (2), and [g] tail calls the
    profiled callee [p] (3): one chain, found at depth 1. *)
Definition tailCallExample (F : FuncTy) : list (list Instruction) :=
  if N.eqb F 1 then [[mkInstruction 10 true true (VFunction 2)]]
  else if N.eqb F 2 then [[mkInstruction 20 true false (VFunction 7);
                           mkInstruction 21 true true (VFunction 3)]]
  else [].

Lemma findProfiledCalleeThroughTailCalls_bounded_unique_witness :
  exists r,
    findProfiledCalleeThroughTailCalls defaultOptions tailCallExample 5 3 (VFunction 1) 1
      ([], false) = Ok r
    /\ r = (true, ([(mkInstruction 21 true true (VFunction 3), 2);
                    (mkInstruction 10 true true (VFunction 2), 1)], false)).
Proof.
  destruct (findProfiledCalleeThroughTailCalls_bounded_unique defaultOptions
              tailCallExample 3 1 1 5 [])
    as (r & Hr & _ & _ & Hone & _).
  - vm_compute. reflexivity.
  - vm_compute. discriminate.
  - vm_compute. lia.
  - exists r. split; [exact Hr|]. apply (Hone _ eq_refl).
Defined.

(** ** The stable sort *)

Lemma keyLtb_spec k1 k2 : keyLtb k1 k2 = true <-> keyLt k1 k2.
Proof.
  unfold keyLtb, keyLt.
  rewrite orb_true_iff, andb_true_iff, !N.ltb_lt, N.eqb_eq. done.
Qed.

Lemma keyLtb_false k1 k2 : keyLtb k1 k2 = false <-> ~ keyLt k1 k2.
Proof. rewrite <- keyLtb_spec. destruct (keyLtb k1 k2); split; congruence. Qed.

Lemma filter_none {A : Type} (P : A -> Prop) `{forall x, Decision (P x)} (l : list A) :
  (forall y, y ∈ l -> ~ P y) -> filter P l = [].
Proof.
  induction l as [|y l IH]; intros Hl; [done|].
  rewrite filter_cons_False by (apply Hl, list_elem_of_here).
  apply IH. intros z Hz. apply Hl. by apply list_elem_of_further.
Qed.

Section StableSort.
Context {A : Type} (less : A -> A -> Res bool) (key : A -> N * N).

(** Insertion into a sorted list puts the element behind the elements
    that are less than it and in front of all others. *)
Lemma stable_sort_insert_spec (x : A) (l : list A) :
  (forall y, y ∈ l -> less y x = Ok (keyLtb (key y) (key x))) ->
  (forall (i j : nat) a b, (i < j)%nat -> l !! i = Some a -> l !! j = Some b ->
     ~ keyLt (key b) (key a)) ->
  exists l1 l2,
    stable_sort_insert less x l = Ok (l1 ++ x :: l2)
    /\ l = l1 ++ l2
    /\ (forall y, y ∈ l1 -> keyLt (key y) (key x))
    /\ (forall y, y ∈ l2 -> ~ keyLt (key y) (key x)).
Proof.
  induction l as [|y l IH]; intros Hless Hsorted.
  - exists [], []. simpl. repeat split; try done; intros ? []%elem_of_nil.
  - simpl. rewrite (Hless y) by apply list_elem_of_here. simpl.
    destruct (keyLtb (key y) (key x)) eqn:Hyx.
    + destruct IH as (l1 & l2 & Hins & -> & H1 & H2).
      * intros z Hz. apply Hless. by apply list_elem_of_further.
      * intros i j a b Hij Ha Hb. apply (Hsorted (S i) (S j) a b); [lia|done|done].
      * exists (y :: l1), l2. rewrite Hins. simpl. repeat split; try done.
        intros z [->|Hz]%elem_of_cons; [by apply keyLtb_spec|by apply H1].
    + exists [], (y :: l). simpl. repeat split; try done.
      * intros ? []%elem_of_nil.
      * intros z [->|Hz]%elem_of_cons; [by apply keyLtb_false|].
        apply list_elem_of_lookup in Hz as [j Hj].
        specialize (Hsorted 0%nat (S j) y z ltac:(lia) eq_refl Hj).
        apply keyLtb_false in Hyx. unfold keyLt in *. lia.
Qed.

(** The sort returns a sorted permutation in which the elements of equal
    key keep their order. *)
Lemma stable_sort_spec (l : list A) :
  (forall x y, x ∈ l -> y ∈ l -> less x y = Ok (keyLtb (key x) (key y))) ->
  exists s,
    stable_sort less l = Ok s
    /\ s ≡ₚ l
    /\ (forall (i j : nat) a b, (i < j)%nat -> s !! i = Some a -> s !! j = Some b ->
          ~ keyLt (key b) (key a))
    /\ (forall k, filter (fun x => key x = k) s = filter (fun x => key x = k) l).
Proof.
  induction l as [|x l IH]; intros Hless.
  - exists []. simpl. repeat split; try done.
  - destruct IH as (s & Hs & Hperm & Hsorted & Hstable).
    { intros a b Ha Hb. apply Hless; by apply list_elem_of_further. }
    destruct (stable_sort_insert_spec x s) as (l1 & l2 & Hins & -> & H1 & H2).
    { intros y Hy. apply Hless; [|apply list_elem_of_here].
      apply list_elem_of_further. by rewrite <- Hperm. }
    { exact Hsorted. }
    exists (l1 ++ x :: l2). simpl. rewrite Hs. simpl. split; [exact Hins|].
    split; [|split].
    + rewrite <- Hperm. by rewrite Permutation_middle.
    + intros i j a b Hij Ha Hb.
      destruct (decide (i < length l1)%nat) as [Hi|Hi].
      * rewrite lookup_app_l in Ha by done.
        destruct (decide (j < length l1)%nat) as [Hj|Hj].
        -- rewrite lookup_app_l in Hb by done.
           apply (Hsorted i j a b Hij); by rewrite lookup_app_l.
        -- rewrite lookup_app_r in Hb by lia.
           assert (keyLt (key a) (key x)) as Hax.
           { apply H1. eapply list_elem_of_lookup_2; eauto. }
           destruct (j - length l1)%nat as [|j'] eqn:Hj'.
           ++ simpl in Hb. injection Hb as <-. unfold keyLt in *. lia.
           ++ simpl in Hb.
              assert (~ keyLt (key b) (key x)) as Hbx.
              { apply H2. eapply list_elem_of_lookup_2; eauto. }
              unfold keyLt in *. lia.
      * rewrite lookup_app_r in Ha by lia. rewrite lookup_app_r in Hb by lia.
        destruct (i - length l1)%nat as [|i'] eqn:Hi'.
        -- simpl in Ha. injection Ha as <-.
           destruct (j - length l1)%nat as [|j'] eqn:Hj'; [lia|].
           simpl in Hb. apply H2. eapply list_elem_of_lookup_2; eauto.
        -- simpl in Ha.
           destruct (j - length l1)%nat as [|j'] eqn:Hj'; [lia|].
           simpl in Hb.
           apply (Hsorted (length l1 + i') (length l1 + j') a b)%nat; [lia| |].
           ++ rewrite lookup_app_r by lia. rewrite <- Ha. f_equal. lia.
           ++ rewrite lookup_app_r by lia. rewrite <- Hb. f_equal. lia.
    + intros k. rewrite (filter_cons _ x l), <- (Hstable k).
      rewrite !filter_app, filter_cons.
      destruct (decide (key x = k)) as [Hk|Hk]; [|done].
      assert (filter (fun y => key y = k) l1 = []) as ->; [|done].
      apply filter_none. intros y Hy Hyk. apply H1 in Hy.
      unfold keyLt in Hy. rewrite Hyk, Hk in Hy. lia.
Qed.
End StableSort.

(** ** The order of the caller edges *)

Lemma AllocTypeCloningPriority_lookup (t : N) :
  t < 4 -> exists p, AllocTypeCloningPriority !! N.to_nat t = Some p /\ 1 <= p <= 4.
Proof.
  intros Ht.
  assert (t = 0 \/ t = 1 \/ t = 2 \/ t = 3) as [-> | [-> | [-> | ->]]] by lia;
    simpl; eexists; (split; [reflexivity|lia]).
Qed.

Lemma AllocTypeCloningPriority_inj (t1 t2 p : N) :
  AllocTypeCloningPriority !! N.to_nat t1 = Some p ->
  AllocTypeCloningPriority !! N.to_nat t2 = Some p ->
  t1 = t2.
Proof.
  intros H1 H2.
  assert (N.to_nat t1 < 4)%nat as L1 by (apply lookup_lt_Some in H1; simpl in H1; lia).
  assert (N.to_nat t2 < 4)%nat as L2 by (apply lookup_lt_Some in H2; simpl in H2; lia).
  assert (t1 = 0 \/ t1 = 1 \/ t1 = 2 \/ t1 = 3) as [-> | [-> | [-> | ->]]] by lia;
  assert (t2 = 0 \/ t2 = 1 \/ t2 = 2 \/ t2 = 3) as [-> | [-> | [-> | ->]]] by lia;
    simpl in *; congruence.
Qed.

Lemma keyLtb_eq k1 k2 (b : bool) : (b = true <-> keyLt k1 k2) -> b = keyLtb k1 k2.
Proof.
  intros Hb. destruct (keyLtb k1 k2) eqn:Hk.
  - apply Hb. by apply keyLtb_spec.
  - apply keyLtb_false in Hk. destruct b; [|done]. exfalso. apply Hk, Hb. done.
Qed.

(** On edges whose types index the priority table, the comparison of the
    source is the order of the keys. *)
Lemma callerEdgeLess_key (ContextIds_begin : EdgeId -> gset N -> N)
    (a b : EdgeId) (A B : ContextEdge.t) :
  ContextEdge.AllocTypes A < 4 -> ContextEdge.AllocTypes B < 4 ->
  callerEdgeLess ContextIds_begin a b A B
  = Ok (keyLtb (callerEdgeKey ContextIds_begin a A) (callerEdgeKey ContextIds_begin b B)).
Proof.
  intros HA HB. unfold callerEdgeLess, callerEdgeKey, callerEdgeRank, firstContextId.
  destruct (AllocTypeCloningPriority_lookup _ HA) as (pa & Hpa & Hpa').
  destruct (AllocTypeCloningPriority_lookup _ HB) as (pb & Hpb & Hpb').
  rewrite Hpa, Hpb. cbn [default from_option Datatypes.id].
  destruct (decide (ContextEdge.ContextIds A = ∅)) as [HAe|HAe];
    destruct (decide (ContextEdge.ContextIds B = ∅)) as [HBe|HBe].
  - reflexivity.
  - f_equal. apply keyLtb_eq. unfold keyLt. cbn [fst snd]. split; [done|lia].
  - f_equal. apply keyLtb_eq. unfold keyLt. cbn [fst snd]. split; [intros _; lia|done].
  - destruct (N.eqb_spec (ContextEdge.AllocTypes A) (ContextEdge.AllocTypes B)) as [Heq|Hne].
    + f_equal. apply keyLtb_eq. unfold keyLt. cbn [fst snd].
      rewrite Heq in Hpa. assert (pa = pb) as -> by congruence.
      rewrite N.ltb_lt. lia.
    + cbn [mbind Res_bind deref]. f_equal. apply keyLtb_eq. unfold keyLt. cbn [fst snd].
      assert (pa ≠ pb) as Hp.
      { intros ->. apply Hne. eapply AllocTypeCloningPriority_inj; eauto. }
      rewrite N.ltb_lt. lia.
Qed.

(** C5, as the code has it.  [identifyClones] sorts the caller edges with a
    stable sort: the edges that carry context ids come before the edges
    that carry none; among the former the order is [Cold], [NotCold|Cold],
    [None], [NotCold] by [AllocTypeCloningPriority]; two of them with the
    same allocation type are ordered by the id that the iteration over the
    context ids of each starts with, whatever the order of that iteration
    is; edges that compare equal keep the order they had. *)
Theorem sortCallerEdges_order (ContextIds_begin : EdgeId -> gset N -> N)
    (g : CallsiteContextGraph) (Edges : list EdgeId) :
  (forall e, e ∈ Edges ->
     exists E, EdgeStore g !! e = Some E /\ ContextEdge.AllocTypes E < 4) ->
  exists sorted,
    sortCallerEdges ContextIds_begin g Edges = Ok sorted
    /\ sorted ≡ₚ Edges
    /\ (forall (i j : nat) a b A B,
          (i < j)%nat -> sorted !! i = Some a -> sorted !! j = Some b ->
          EdgeStore g !! a = Some A -> EdgeStore g !! b = Some B ->
          (ContextEdge.ContextIds A = ∅ -> ContextEdge.ContextIds B = ∅)
          /\ (ContextEdge.ContextIds A ≠ ∅ -> ContextEdge.ContextIds B ≠ ∅ ->
              (forall pa pb,
                 AllocTypeCloningPriority !! N.to_nat (ContextEdge.AllocTypes A) = Some pa ->
                 AllocTypeCloningPriority !! N.to_nat (ContextEdge.AllocTypes B) = Some pb ->
                 pa <= pb)
              /\ (ContextEdge.AllocTypes A = ContextEdge.AllocTypes B ->
                  ContextIds_begin a (ContextEdge.ContextIds A)
                    <= ContextIds_begin b (ContextEdge.ContextIds B))))
    /\ (forall k, filter (fun e => edgeKey ContextIds_begin g e = k) sorted
                  = filter (fun e => edgeKey ContextIds_begin g e = k) Edges).
Proof.
  intros Hedges.
  destruct (stable_sort_spec
              (fun A B => EA ← getEdge g A; EB ← getEdge g B;
                          callerEdgeLess ContextIds_begin A B EA EB)
              (edgeKey ContextIds_begin g) Edges) as (s & Hs & Hperm & Hsorted & Hstable).
  { intros x y Hx Hy.
    destruct (Hedges x Hx) as (X & HX & HtX). destruct (Hedges y Hy) as (Y & HY & HtY).
    unfold getEdge, edgeKey. rewrite HX, HY. simpl. by apply callerEdgeLess_key. }
  exists s. split; [exact Hs|]. split; [exact Hperm|]. split; [|exact Hstable].
  intros i j a b A B Hij Ha Hb HA HB.
  specialize (Hsorted i j a b Hij Ha Hb).
  unfold edgeKey in Hsorted. rewrite HA, HB in Hsorted.
  unfold keyLt, callerEdgeKey, callerEdgeRank, firstContextId in Hsorted.
  cbn [fst snd] in Hsorted.
  assert (ContextEdge.AllocTypes A < 4) as HtA.
  { destruct (Hedges a) as (A' & HA' & Ht); [|congruence].
    rewrite <- Hperm. eapply list_elem_of_lookup_2; eauto. }
  assert (ContextEdge.AllocTypes B < 4) as HtB.
  { destruct (Hedges b) as (B' & HB' & Ht); [|congruence].
    rewrite <- Hperm. eapply list_elem_of_lookup_2; eauto. }
  destruct (AllocTypeCloningPriority_lookup _ HtA) as (pa & Hpa & Hpa').
  destruct (AllocTypeCloningPriority_lookup _ HtB) as (pb & Hpb & Hpb').
  rewrite Hpa, Hpb in Hsorted. cbn [default from_option Datatypes.id] in Hsorted.
  destruct (decide (ContextEdge.ContextIds A = ∅)) as [HAe|HAe];
    destruct (decide (ContextEdge.ContextIds B = ∅)) as [HBe|HBe].
  - split; done.
  - exfalso. apply Hsorted. left. lia.
  - split; done.
  - split; [done|]. intros _ _. split.
    + intros pa' pb' Hpa2 Hpb2. assert (pa' = pa) as -> by congruence.
      assert (pb' = pb) as -> by congruence. lia.
    + intros Heq. rewrite Heq in Hpa. assert (pa = pb) as -> by congruence. lia.
Qed.

Lemma sortCallerEdges_order_witness :
  exists sorted, sortCallerEdges (fun _ => bucketBegin 64) tieExample [0%nat; 1%nat] = Ok sorted
                 /\ sorted ≡ₚ [0%nat; 1%nat].
Proof.
  destruct (sortCallerEdges_order (fun _ => bucketBegin 64) tieExample [0%nat; 1%nat])
    as (s & Hs & Hp & _).
  - intros e He.
    apply elem_of_cons in He as [->|He];
      [|apply elem_of_cons in He as [->|He]; [|by apply elem_of_nil in He]];
      eexists; (split; [reflexivity|]); vm_compute; reflexivity.
  - exists s. split; [exact Hs|exact Hp].
Defined.

(** C5, as the claim words it, fails twice.  The sort puts the [NotCold]
    edge in front of the edge of type [None] that has no context ids,
    although [None] has the higher priority in the table.  And of two
    [Cold] edges the one with the context ids 1 and 64 comes after the one
    with the context id 2: in a hash set of 4 to 64 buckets the iteration
    over the ids 1 and 64 starts with 64, whose bucket is the first. *)
Lemma sortCallerEdges_not_by_priority_alone :
  (forall ContextIds_begin,
     sortCallerEdges ContextIds_begin sortExample [0%nat; 1%nat] = Ok [1%nat; 0%nat])
  /\ ~ orderedByAllocTypePriority sortExample [1%nat; 0%nat]
  /\ (forall NumBuckets, NumBuckets ∈ [4; 8; 16; 32; 64] ->
        bucketBegin NumBuckets {[1; 64]} = 64
        /\ sortCallerEdges (fun _ => bucketBegin NumBuckets) tieExample [0%nat; 1%nat]
           = Ok [1%nat; 0%nat])
  /\ ~ tiesBySmallestContextId tieExample [1%nat; 0%nat].
Proof.
  split; [intros ?; vm_compute; reflexivity|].
  split.
  { intros H.
    specialize (H 0%nat 1%nat 1%nat 0%nat
                  (ContextEdge.mk (Some 0%nat) (Some 2%nat) AllocationType.NotCold false {[1]})
                  (ContextEdge.mk (Some 0%nat) (Some 1%nat) AllocationType.None false ∅)
                  4 3 ltac:(lia) eq_refl eq_refl eq_refl eq_refl eq_refl eq_refl).
    lia. }
  split.
  { intros nb Hnb. repeat (apply elem_of_cons in Hnb as [->|Hnb]);
      [..|by apply elem_of_nil in Hnb]; split; vm_compute; reflexivity. }
  intros H.
  specialize (H 0%nat 1%nat 1%nat 0%nat
                (ContextEdge.mk (Some 0%nat) (Some 2%nat) AllocationType.Cold false {[2]})
                (ContextEdge.mk (Some 0%nat) (Some 1%nat) AllocationType.Cold false {[1; 64]})
                ltac:(lia) eq_refl eq_refl eq_refl eq_refl).
  assert (smallestContextId {[2]} <= smallestContextId {[1; 64]}) as Hle.
  { apply H; [set_solver|set_solver|reflexivity]. }
  vm_compute in Hle. apply Hle. reflexivity.
Qed.

(** ** The stores of the graph *)

Lemma bind_Ok {A B : Type} (m : Res A) (f : A -> Res B) (r : B) :
  (m ≫= f) = Ok r <-> exists a, m = Ok a /\ f a = Ok r.
Proof.
  destruct m as [a|e]; simpl; split.
  - eauto.
  - intros (a' & [= ->] & H). exact H.
  - discriminate.
  - intros (a' & H & _). discriminate.
Qed.

Lemma deref_Ok {A : Type} (o : option A) (a : A) : deref o = Ok a <-> o = Some a.
Proof. unfold deref, ub. destruct o; split; congruence. Qed.

Lemma getNode_Ok g n Nd : getNode g n = Ok Nd <-> NodeOwner g !! n = Some Nd.
Proof. apply deref_Ok. Qed.

Lemma getEdge_Ok g e E : getEdge g e = Ok E <-> EdgeStore g !! e = Some E.
Proof. apply deref_Ok. Qed.

(** Inversion of the hypotheses that say a sequence of steps completed. *)
Ltac inv_Ok :=
  repeat match goal with
  | H : (_ ≫= _) = Ok _ |- _ => apply bind_Ok in H as (? & ? & H)
  | H : deref _ = Ok _ |- _ => apply deref_Ok in H
  | H : getNode _ _ = Ok _ |- _ => apply getNode_Ok in H
  | H : getEdge _ _ = Ok _ |- _ => apply getEdge_Ok in H
  | H : Ok _ = Ok _ |- _ => injection H as H
  | H : ub = Ok _ |- _ => discriminate H
  | H : Err _ = Ok _ |- _ => discriminate H
  end.

Lemma updNode_Ok g n f g' :
  updNode g n f = Ok g' <->
  exists Nd, NodeOwner g !! n = Some Nd
             /\ g' = setNodeOwner (<[n := f Nd]> (NodeOwner g)) g.
Proof.
  unfold updNode. rewrite bind_Ok. split.
  - intros (Nd & HN & [= <-]). apply getNode_Ok in HN. eauto.
  - intros (Nd & HN & ->). exists Nd. split; [by apply getNode_Ok|done].
Qed.

Lemma updEdge_Ok g e f g' :
  updEdge g e f = Ok g' <->
  exists E, EdgeStore g !! e = Some E
            /\ g' = setEdgeStore (<[e := f E]> (EdgeStore g)) g.
Proof.
  unfold updEdge. rewrite bind_Ok. split.
  - intros (E & HE & [= <-]). apply getEdge_Ok in HE. eauto.
  - intros (E & HE & ->). exists E. split; [by apply getEdge_Ok|done].
Qed.

(** What a node or an edge is after a write through a pointer. *)
Lemma lookup_insert_list {A : Type} (l : list A) (i j : nat) (x y : A) :
  l !! i = Some y ->
  <[i := x]> l !! j = if decide (j = i) then Some x else l !! j.
Proof.
  intros Hi. destruct (decide (j = i)) as [->|Hne].
  - apply list_lookup_insert_eq. by eapply lookup_lt_Some.
  - by apply list_lookup_insert_ne.
Qed.

Lemma updNode_node g n f g' m :
  updNode g n f = Ok g' ->
  NodeOwner g' !! m = if decide (m = n) then f <$> NodeOwner g !! m else NodeOwner g !! m.
Proof.
  intros (Nd & HN & ->)%updNode_Ok. simpl.
  rewrite (lookup_insert_list _ _ _ _ _ HN).
  destruct (decide (m = n)) as [->|]; [by rewrite HN|done].
Qed.

Lemma updNode_frame g n f g' :
  updNode g n f = Ok g' ->
  EdgeStore g' = EdgeStore g
  /\ ContextIdToAllocationType g' = ContextIdToAllocationType g
  /\ LastContextId g' = LastContextId g
  /\ NodeToCallingFunc g' = NodeToCallingFunc g
  /\ StackEntryIdToContextNodeMap g' = StackEntryIdToContextNodeMap g
  /\ AllocationCallToContextNodeMap g' = AllocationCallToContextNodeMap g
  /\ NonAllocationCallToContextNodeMap g' = NonAllocationCallToContextNodeMap g
  /\ FuncToCallsWithMetadata g' = FuncToCallsWithMetadata g
  /\ DotAllocContextIds g' = DotAllocContextIds g
  /\ length (NodeOwner g') = length (NodeOwner g).
Proof.
  intros (Nd & HN & ->)%updNode_Ok. simpl. rewrite length_insert. done.
Qed.

Lemma updEdge_edge g e f g' e' :
  updEdge g e f = Ok g' ->
  EdgeStore g' !! e' = if decide (e' = e) then f <$> EdgeStore g !! e' else EdgeStore g !! e'.
Proof.
  intros (E & HE & ->)%updEdge_Ok. simpl.
  rewrite (lookup_insert_list _ _ _ _ _ HE).
  destruct (decide (e' = e)) as [->|]; [by rewrite HE|done].
Qed.

Lemma updEdge_frame g e f g' :
  updEdge g e f = Ok g' ->
  NodeOwner g' = NodeOwner g
  /\ ContextIdToAllocationType g' = ContextIdToAllocationType g
  /\ LastContextId g' = LastContextId g
  /\ NodeToCallingFunc g' = NodeToCallingFunc g
  /\ StackEntryIdToContextNodeMap g' = StackEntryIdToContextNodeMap g
  /\ AllocationCallToContextNodeMap g' = AllocationCallToContextNodeMap g
  /\ NonAllocationCallToContextNodeMap g' = NonAllocationCallToContextNodeMap g
  /\ FuncToCallsWithMetadata g' = FuncToCallsWithMetadata g
  /\ DotAllocContextIds g' = DotAllocContextIds g
  /\ length (EdgeStore g') = length (EdgeStore g).
Proof.
  intros (E & HE & ->)%updEdge_Ok. simpl. rewrite length_insert. done.
Qed.

Lemma updNode_total g n f Nd :
  NodeOwner g !! n = Some Nd -> exists g', updNode g n f = Ok g'.
Proof. intros HN. eexists. apply updNode_Ok. eauto. Qed.

Lemma updEdge_total g e f E :
  EdgeStore g !! e = Some E -> exists g', updEdge g e f = Ok g'.
Proof. intros HE. eexists. apply updEdge_Ok. eauto. Qed.

(** ** Edits that keep a graph well formed *)

Lemma lor_le3 (a b : N) : a <= 3 -> b <= 3 -> N.lor a b <= 3.
Proof.
  intros Ha Hb.
  destruct (le3_cases a Ha) as [-> | [-> | [-> | ->]]];
  destruct (le3_cases b Hb) as [-> | [-> | [-> | ->]]]; vm_compute; congruence.
Qed.

Lemma lor_absorb_lor (a b t : N) : N.lor a t = a -> N.lor (N.lor a b) t = N.lor a b.
Proof.
  intros H. rewrite <- N.lor_assoc, (N.lor_comm b t), N.lor_assoc, H. done.
Qed.

Lemma lor_absorb_lor_r (a b t : N) : N.lor b t = b -> N.lor (N.lor a b) t = N.lor a b.
Proof. intros H. rewrite <- N.lor_assoc, H. done. Qed.

Lemma sameMaps_refl g : sameMaps g g.
Proof. repeat split. Qed.

Lemma sameMaps_trans g1 g2 g3 : sameMaps g1 g2 -> sameMaps g2 g3 -> sameMaps g1 g3.
Proof. intros (?&?&?&?&?&?&?) (?&?&?&?&?&?&?). repeat split; congruence. Qed.

Lemma updNode_sameMaps g n f g' : updNode g n f = Ok g' -> sameMaps g g'.
Proof. intros (Nd & HN & ->)%updNode_Ok. repeat split. Qed.

Lemma updEdge_sameMaps g e f g' : updEdge g e f = Ok g' -> sameMaps g g'.
Proof. intros (E & HE & ->)%updEdge_Ok. repeat split. Qed.

(** An edge keeps its two ends and gets context ids and a type that fit. *)
Lemma WF_updEdge_info g e f g' E :
  WF g -> EdgeStore g !! e = Some E -> updEdge g e f = Ok g' ->
  ContextEdge.Callee (f E) = ContextEdge.Callee E ->
  ContextEdge.Caller (f E) = ContextEdge.Caller E ->
  ContextEdge.AllocTypes (f E) <= 3 ->
  (forall id, id ∈ ContextEdge.ContextIds (f E) ->
     exists t, ContextIdToAllocationType g !! id = Some t
               /\ N.lor (ContextEdge.AllocTypes (f E)) t = ContextEdge.AllocTypes (f E)) ->
  WF g'.
Proof.
  intros Hwf HE Hupd Hcallee Hcaller Hty Hids.
  pose proof (updEdge_frame _ _ _ _ Hupd) as (Hnodes & Htbl & Hlast & _ & Hstack & Halloc & _).
  assert (forall e' E', EdgeStore g !! e' = Some E' ->
            exists E'', EdgeStore g' !! e' = Some E''
                        /\ ContextEdge.Callee E'' = ContextEdge.Callee E'
                        /\ ContextEdge.Caller E'' = ContextEdge.Caller E') as Hkeep.
  { intros e' E' HE'. rewrite (updEdge_edge _ _ _ _ e' Hupd).
    destruct (decide (e' = e)) as [->|]; [|eauto].
    rewrite HE' in HE. injection HE as ->. rewrite HE'. simpl. eauto. }
  split; rewrite ?Hnodes, ?Htbl, ?Hstack, ?Halloc, ?Hlast.
  - intros n Nd e' HN He'.
    destruct (wf_callee g Hwf n Nd e' HN He') as (E' & d & D & HE' & Hc & Hd & HD & Hin).
    destruct (Hkeep e' E' HE') as (E'' & HE'' & Hcl & Hcr).
    exists E'', d, D. repeat split; try done; congruence.
  - intros n Nd e' HN He'.
    destruct (wf_caller g Hwf n Nd e' HN He') as (E' & c & C & HE' & Hc & Hd & HC & Hin).
    destruct (Hkeep e' E' HE') as (E'' & HE'' & Hcl & Hcr).
    exists E'', c, C. repeat split; try done; congruence.
  - apply (wf_nodup_callee g Hwf).
  - apply (wf_nodup_caller g Hwf).
  - apply (wf_cloneOf g Hwf).
  - apply (wf_clones g Hwf).
  - intros n Nd e' E' id HN He' HE' Hid.
    rewrite (updEdge_edge _ _ _ _ e' Hupd) in HE'.
    destruct (decide (e' = e)) as [->|].
    + rewrite HE in HE'. simpl in HE'. injection HE' as <-. by apply Hids.
    + eapply (wf_ids g Hwf); eauto.
  - apply (wf_table g Hwf).
  - apply (wf_node_types g Hwf).
  - intros e' E' HE'. rewrite (updEdge_edge _ _ _ _ e' Hupd) in HE'.
    destruct (decide (e' = e)) as [->|].
    + rewrite HE in HE'. simpl in HE'. by injection HE' as <-.
    + eapply (wf_edge_types g Hwf); eauto.
  - apply (wf_alloc_map g Hwf).
  - apply (wf_stack_map g Hwf).
Qed.

(** A node keeps its clone links and its edges, possibly in another order,
    and gets a type within [NotCold|Cold]. *)
Lemma WF_updNode_info g n f g' Nd :
  WF g -> NodeOwner g !! n = Some Nd -> updNode g n f = Ok g' ->
  ContextNode.CalleeEdges (f Nd) ≡ₚ ContextNode.CalleeEdges Nd ->
  ContextNode.CallerEdges (f Nd) ≡ₚ ContextNode.CallerEdges Nd ->
  ContextNode.Clones (f Nd) = ContextNode.Clones Nd ->
  ContextNode.CloneOf (f Nd) = ContextNode.CloneOf Nd ->
  ContextNode.AllocTypes (f Nd) <= 3 ->
  WF g'.
Proof.
  intros Hwf HN Hupd Hce Hcr Hcl Hco Hty.
  pose proof (updNode_frame _ _ _ _ Hupd) as (Hedges & Htbl & Hlast & _ & Hstack & Halloc & _).
  assert (forall m M', NodeOwner g' !! m = Some M' ->
            exists M, NodeOwner g !! m = Some M
                      /\ ContextNode.CalleeEdges M' ≡ₚ ContextNode.CalleeEdges M
                      /\ ContextNode.CallerEdges M' ≡ₚ ContextNode.CallerEdges M
                      /\ ContextNode.Clones M' = ContextNode.Clones M
                      /\ ContextNode.CloneOf M' = ContextNode.CloneOf M
                      /\ ContextNode.AllocTypes M' <= 3) as Hback.
  { intros m M' HM'. rewrite (updNode_node _ _ _ _ m Hupd) in HM'.
    destruct (decide (m = n)) as [->|].
    - rewrite HN in HM'. simpl in HM'. injection HM' as <-. exists Nd. done.
    - exists M'. repeat split; try done. eapply (wf_node_types g Hwf); eauto. }
  assert (forall m M, NodeOwner g !! m = Some M ->
            exists M', NodeOwner g' !! m = Some M'
                      /\ ContextNode.CalleeEdges M' ≡ₚ ContextNode.CalleeEdges M
                      /\ ContextNode.CallerEdges M' ≡ₚ ContextNode.CallerEdges M
                      /\ ContextNode.Clones M' = ContextNode.Clones M
                      /\ ContextNode.CloneOf M' = ContextNode.CloneOf M) as Hfwd.
  { intros m M HM. rewrite (updNode_node _ _ _ _ m Hupd).
    destruct (decide (m = n)) as [->|].
    - rewrite HN in HM. injection HM as <-. rewrite HN. simpl.
      exists (f Nd). repeat split; done.
    - exists M. repeat split; done. }
  split; rewrite ?Hedges, ?Htbl, ?Hstack, ?Halloc, ?Hlast.
  - intros m M' e HM' He.
    destruct (Hback m M' HM') as (M & HM & Hp1 & Hp2 & _).
    rewrite Hp1 in He.
    destruct (wf_callee g Hwf m M e HM He) as (E & d & D & HE & Hc & Hd & HD & Hin).
    destruct (Hfwd d D HD) as (D' & HD' & _ & Hq & _).
    exists E, d, D'. repeat split; try done. by rewrite Hq.
  - intros m M' e HM' He.
    destruct (Hback m M' HM') as (M & HM & Hp1 & Hp2 & _).
    rewrite Hp2 in He.
    destruct (wf_caller g Hwf m M e HM He) as (E & c & C & HE & Hc & Hd & HC & Hin).
    destruct (Hfwd c C HC) as (C' & HC' & Hq & _).
    exists E, c, C'. repeat split; try done. by rewrite Hq.
  - intros m M' HM'. destruct (Hback m M' HM') as (M & HM & Hp1 & _).
    rewrite Hp1. eapply (wf_nodup_callee g Hwf); eauto.
  - intros m M' HM'. destruct (Hback m M' HM') as (M & HM & _ & Hp2 & _).
    rewrite Hp2. eapply (wf_nodup_caller g Hwf); eauto.
  - intros m M' o HM' Ho. destruct (Hback m M' HM') as (M & HM & _ & _ & _ & Hco' & _).
    rewrite Hco' in Ho.
    destruct (wf_cloneOf g Hwf m M o HM Ho) as (O & HO & HOo).
    destruct (Hfwd o O HO) as (O' & HO' & _ & _ & _ & Hco'').
    exists O'. split; [done|congruence].
  - intros m M' c HM' Hc. destruct (Hback m M' HM') as (M & HM & _ & _ & Hcl' & _).
    rewrite Hcl' in Hc.
    destruct (wf_clones g Hwf m M c HM Hc) as (C & HC & HCo).
    destruct (Hfwd c C HC) as (C' & HC' & _ & _ & _ & Hco'').
    exists C'. split; [done|congruence].
  - intros m M' e E id HM' He HE Hid.
    destruct (Hback m M' HM') as (M & HM & _ & Hp2 & _). rewrite Hp2 in He.
    eapply (wf_ids g Hwf); eauto.
  - apply (wf_table g Hwf).
  - intros m M' HM'. destruct (Hback m M' HM') as (M & HM & _ & _ & _ & _ & Hle). done.
  - apply (wf_edge_types g Hwf).
  - intros C a HCa. destruct (wf_alloc_map g Hwf C a HCa) as (A & HA & HAo).
    destruct (Hfwd a A HA) as (A' & HA' & _ & _ & _ & Hco''). exists A'. split; [done|congruence].
  - intros s0 m Hs. destruct (wf_stack_map g Hwf s0 m Hs) as [M HM].
    destruct (Hfwd m M HM) as (M' & HM' & _). eauto.
Qed.

Lemma sameNodeInfo_refl Nd : sameNodeInfo Nd Nd.
Proof. repeat split. Qed.

Lemma sameNodeInfo_trans N1 N2 N3 :
  sameNodeInfo N1 N2 -> sameNodeInfo N2 N3 -> sameNodeInfo N1 N3.
Proof. unfold sameNodeInfo. intros (?&?&?&?&?&?&?) (?&?&?&?&?&?&?). repeat split; congruence. Qed.

(** Well-formedness of a graph whose nodes are those of a well-formed graph
    up to their edge lists and types, once its edges are linked. *)
Lemma WF_relink g g' :
  WF g -> sameMaps g g' ->
  (forall n Nd', NodeOwner g' !! n = Some Nd' ->
     exists Nd, NodeOwner g !! n = Some Nd /\ sameNodeInfo Nd Nd') ->
  (forall n Nd, NodeOwner g !! n = Some Nd -> is_Some (NodeOwner g' !! n)) ->
  (forall n Nd', NodeOwner g' !! n = Some Nd' ->
     ContextNode.AllocTypes Nd' <= 3
     /\ NoDup (ContextNode.CalleeEdges Nd') /\ NoDup (ContextNode.CallerEdges Nd')) ->
  (forall n Nd' e, NodeOwner g' !! n = Some Nd' -> e ∈ ContextNode.CalleeEdges Nd' ->
     exists E d D,
       EdgeStore g' !! e = Some E /\ ContextEdge.Caller E = Some n
       /\ ContextEdge.Callee E = Some d /\ NodeOwner g' !! d = Some D
       /\ e ∈ ContextNode.CallerEdges D) ->
  (forall n Nd' e, NodeOwner g' !! n = Some Nd' -> e ∈ ContextNode.CallerEdges Nd' ->
     exists E c C,
       EdgeStore g' !! e = Some E /\ ContextEdge.Callee E = Some n
       /\ ContextEdge.Caller E = Some c /\ NodeOwner g' !! c = Some C
       /\ e ∈ ContextNode.CalleeEdges C
       /\ idsTyped g (ContextEdge.AllocTypes E) (ContextEdge.ContextIds E)) ->
  (forall e E, EdgeStore g' !! e = Some E -> ContextEdge.AllocTypes E <= 3) ->
  WF g'.
Proof.
  intros Hwf (Htbl & Halloc & Hstack & Hlast & _) Hback Hfwd Hnode Hcallee Hcaller Hety.
  assert (forall n Nd, NodeOwner g !! n = Some Nd ->
            exists Nd', NodeOwner g' !! n = Some Nd' /\ sameNodeInfo Nd Nd') as Hfwd'.
  { intros n Nd HN. destruct (Hfwd n Nd HN) as [Nd' HN'].
    destruct (Hback n Nd' HN') as (Nd2 & HN2 & Hs). exists Nd'. split; [done|congruence]. }
  split; rewrite ?Htbl, ?Halloc, ?Hstack, ?Hlast.
  - exact Hcallee.
  - intros n Nd' e HN' He.
    destruct (Hcaller n Nd' e HN' He) as (E & c & C & ? & ? & ? & ? & ? & _). eauto 10.
  - intros n Nd' HN'. apply (Hnode n Nd' HN').
  - intros n Nd' HN'. apply (Hnode n Nd' HN').
  - intros n Nd' o HN' Ho.
    destruct (Hback n Nd' HN') as (Nd & HN & Hs).
    destruct Hs as (_&_&_&_&_&_&Hco). rewrite Hco in Ho.
    destruct (wf_cloneOf g Hwf n Nd o HN Ho) as (O & HO & HOo).
    destruct (Hfwd' o O HO) as (O' & HO' & Hs'). exists O'. split; [done|].
    destruct Hs' as (_&_&_&_&_&_&Hco'). congruence.
  - intros n Nd' c HN' Hc.
    destruct (Hback n Nd' HN') as (Nd & HN & Hs).
    destruct Hs as (_&_&_&_&_&Hcl&_). rewrite Hcl in Hc.
    destruct (wf_clones g Hwf n Nd c HN Hc) as (C & HC & HCo).
    destruct (Hfwd' c C HC) as (C' & HC' & Hs'). exists C'. split; [done|].
    destruct Hs' as (_&_&_&_&_&_&Hco'). congruence.
  - intros n Nd' e E id HN' He HE Hid.
    destruct (Hcaller n Nd' e HN' He) as (E2 & c & C & HE2 & _ & _ & _ & _ & Hty).
    rewrite HE in HE2. injection HE2 as <-. by apply Hty.
  - apply (wf_table g Hwf).
  - intros n Nd' HN'. apply (Hnode n Nd' HN').
  - exact Hety.
  - intros C a HCa. destruct (wf_alloc_map g Hwf C a HCa) as (A & HA & HAo).
    destruct (Hfwd' a A HA) as (A' & HA' & Hs'). exists A'. split; [done|].
    destruct Hs' as (_&_&_&_&_&_&Hco'). congruence.
  - intros s0 m Hs. destruct (wf_stack_map g Hwf s0 m Hs) as [M HM]. eauto.
Qed.

(** *** A new edge *)

Lemma edgeAdded_callerFirst g c d t S C D :
  NodeOwner g !! c = Some C -> NodeOwner g !! d = Some D ->
  exists g',
    (g1 ← pushCallerEdge (makeEdge g d c t S).2 d (length (EdgeStore g));
     pushCalleeEdge g1 c (length (EdgeStore g))) = Ok g'
    /\ edgeAdded g g' c d t S.
Proof.
  intros HC HD. unfold pushCallerEdge, pushCalleeEdge, makeEdge. cbn [snd].
  set (e0 := length (EdgeStore g)).
  set (g0 := setEdgeStore _ g).
  destruct (updNode_total g0 d (fun n =>
              ContextNode.setCallerEdges (ContextNode.CallerEdges n ++ [e0]) n) D HD)
    as [g1 Hg1].
  rewrite Hg1. cbn [mbind Res_bind].
  assert (is_Some (NodeOwner g1 !! c)) as [C1 HC1].
  { rewrite (updNode_node _ _ _ _ c Hg1). case_decide; subst; simpl.
    - change (NodeOwner g0) with (NodeOwner g). rewrite HD. simpl. eauto.
    - change (NodeOwner g0) with (NodeOwner g). eauto. }
  destruct (updNode_total g1 c (fun n =>
              ContextNode.setCalleeEdges (ContextNode.CalleeEdges n ++ [e0]) n) C1 HC1)
    as [g2 Hg2].
  rewrite Hg2. exists g2. split; [done|].
  pose proof (updNode_frame _ _ _ _ Hg1) as (He1 & ? & ? & ? & ? & ? & ? & ? & ? & Hl1).
  pose proof (updNode_frame _ _ _ _ Hg2) as (He2 & ? & ? & ? & ? & ? & ? & ? & ? & Hl2).
  split; [|split; [|split]].
  - repeat split; simpl in *; congruence.
  - rewrite He2, He1. done.
  - rewrite Hl2, Hl1. done.
  - intros n Nd HN.
    rewrite (updNode_node _ _ _ _ n Hg2), (updNode_node _ _ _ _ n Hg1).
    change (NodeOwner g0) with (NodeOwner g). rewrite HN.
    repeat case_decide; subst; simpl; eexists; (split; [reflexivity|]);
      repeat split; simpl; by rewrite ?app_nil_r.
Qed.

Lemma edgeAdded_calleeFirst g c d t S C D :
  NodeOwner g !! c = Some C -> NodeOwner g !! d = Some D ->
  exists g',
    (g1 ← pushCalleeEdge (makeEdge g d c t S).2 c (length (EdgeStore g));
     pushCallerEdge g1 d (length (EdgeStore g))) = Ok g'
    /\ edgeAdded g g' c d t S.
Proof.
  intros HC HD. unfold pushCallerEdge, pushCalleeEdge, makeEdge. cbn [snd].
  set (e0 := length (EdgeStore g)).
  set (g0 := setEdgeStore _ g).
  destruct (updNode_total g0 c (fun n =>
              ContextNode.setCalleeEdges (ContextNode.CalleeEdges n ++ [e0]) n) C HC)
    as [g1 Hg1].
  rewrite Hg1. cbn [mbind Res_bind].
  assert (is_Some (NodeOwner g1 !! d)) as [D1 HD1].
  { rewrite (updNode_node _ _ _ _ d Hg1). case_decide; subst; simpl.
    - change (NodeOwner g0) with (NodeOwner g). rewrite HC. simpl. eauto.
    - change (NodeOwner g0) with (NodeOwner g). eauto. }
  destruct (updNode_total g1 d (fun n =>
              ContextNode.setCallerEdges (ContextNode.CallerEdges n ++ [e0]) n) D1 HD1)
    as [g2 Hg2].
  rewrite Hg2. exists g2. split; [done|].
  pose proof (updNode_frame _ _ _ _ Hg1) as (He1 & ? & ? & ? & ? & ? & ? & ? & ? & Hl1).
  pose proof (updNode_frame _ _ _ _ Hg2) as (He2 & ? & ? & ? & ? & ? & ? & ? & ? & Hl2).
  split; [|split; [|split]].
  - repeat split; simpl in *; congruence.
  - rewrite He2, He1. done.
  - rewrite Hl2, Hl1. done.
  - intros n Nd HN.
    rewrite (updNode_node _ _ _ _ n Hg2), (updNode_node _ _ _ _ n Hg1).
    change (NodeOwner g0) with (NodeOwner g). rewrite HN.
    repeat case_decide; subst; simpl; eexists; (split; [reflexivity|]);
      repeat split; simpl; by rewrite ?app_nil_r.
Qed.

Lemma edge_in_callee_lt g n Nd e :
  WF g -> NodeOwner g !! n = Some Nd -> e ∈ ContextNode.CalleeEdges Nd ->
  (e < length (EdgeStore g))%nat.
Proof.
  intros Hwf HN He. destruct (wf_callee g Hwf n Nd e HN He) as (E & ? & ? & HE & _).
  by eapply lookup_lt_Some.
Qed.

Lemma edge_in_caller_lt g n Nd e :
  WF g -> NodeOwner g !! n = Some Nd -> e ∈ ContextNode.CallerEdges Nd ->
  (e < length (EdgeStore g))%nat.
Proof.
  intros Hwf HN He. destruct (wf_caller g Hwf n Nd e HN He) as (E & ? & ? & HE & _).
  by eapply lookup_lt_Some.
Qed.

Lemma nodes_back g g' n Nd' :
  length (NodeOwner g') = length (NodeOwner g) ->
  NodeOwner g' !! n = Some Nd' -> is_Some (NodeOwner g !! n).
Proof.
  intros Hl HN'. apply lookup_lt_is_Some. rewrite <- Hl. by eapply lookup_lt_Some.
Qed.

Lemma WF_edgeAdded g g' c d t S :
  WF g -> edgeAdded g g' c d t S ->
  is_Some (NodeOwner g !! c) -> is_Some (NodeOwner g !! d) ->
  t <= 3 -> idsTyped g t S ->
  WF g'.
Proof.
  intros Hwf (Hmaps & Hedges & Hlen & Hnodes) [C HC] [D HD] Ht Hty.
  set (e0 := length (EdgeStore g)) in *.
  assert (forall e E, EdgeStore g !! e = Some E -> EdgeStore g' !! e = Some E) as Hold.
  { intros e E HE. rewrite Hedges. by apply lookup_app_l_Some. }
  assert (EdgeStore g' !! e0 = Some (ContextEdge.mk (Some d) (Some c) t false S)) as Hnew.
  { rewrite Hedges. unfold e0. rewrite lookup_app_r by lia. by rewrite Nat.sub_diag. }
  apply (WF_relink g g' Hwf Hmaps).
  - intros n Nd' HN'. destruct (nodes_back _ _ _ _ Hlen HN') as [Nd HN].
    destruct (Hnodes n Nd HN) as (Nd2 & HN2 & Hs & _). exists Nd. split; [done|congruence].
  - intros n Nd HN. destruct (Hnodes n Nd HN) as (Nd' & HN' & _). eauto.
  - intros n Nd' HN'. destruct (nodes_back _ _ _ _ Hlen HN') as [Nd HN].
    destruct (Hnodes n Nd HN) as (Nd2 & HN2 & Hs & Hat & Hce & Hcr).
    assert (Nd2 = Nd') as -> by congruence.
    rewrite Hat, Hce, Hcr. split; [by eapply (wf_node_types g Hwf)|]. split.
    + apply NoDup_app. split; [by eapply (wf_nodup_callee g Hwf)|]. split.
      * intros x Hx Hx'. destruct (decide (n = c)); [|by apply elem_of_nil in Hx'].
        apply list_elem_of_singleton in Hx' as ->.
        pose proof (edge_in_callee_lt g n Nd e0 Hwf HN Hx). unfold e0 in *. lia.
      * destruct (decide (n = c)); [apply NoDup_singleton|apply NoDup_nil_2].
    + apply NoDup_app. split; [by eapply (wf_nodup_caller g Hwf)|]. split.
      * intros x Hx Hx'. destruct (decide (n = d)); [|by apply elem_of_nil in Hx'].
        apply list_elem_of_singleton in Hx' as ->.
        pose proof (edge_in_caller_lt g n Nd e0 Hwf HN Hx). unfold e0 in *. lia.
      * destruct (decide (n = d)); [apply NoDup_singleton|apply NoDup_nil_2].
  - intros n Nd' e HN' He. destruct (nodes_back _ _ _ _ Hlen HN') as [Nd HN].
    destruct (Hnodes n Nd HN) as (Nd2 & HN2 & Hs & Hat & Hce & Hcr).
    assert (Nd2 = Nd') as -> by congruence.
    rewrite Hce in He. apply elem_of_app in He as [He|He].
    + destruct (wf_callee g Hwf n Nd e HN He) as (E & d1 & D1 & HE & Hc & Hd & HD1 & Hin).
      destruct (Hnodes d1 D1 HD1) as (D1' & HD1' & _ & _ & _ & Hcr1).
      exists E, d1, D1'. repeat split; try done; [by apply Hold|].
      rewrite Hcr1. apply elem_of_app. by left.
    + destruct (decide (n = c)); [|by apply elem_of_nil in He]. subst n.
      apply list_elem_of_singleton in He as ->.
      destruct (Hnodes d D HD) as (D' & HD' & _ & _ & _ & Hcr1).
      eexists _, d, D'. repeat split; try done.
      rewrite Hcr1. apply elem_of_app. right. rewrite decide_True by done.
      by apply list_elem_of_singleton.
  - intros n Nd' e HN' He. destruct (nodes_back _ _ _ _ Hlen HN') as [Nd HN].
    destruct (Hnodes n Nd HN) as (Nd2 & HN2 & Hs & Hat & Hce & Hcr).
    assert (Nd2 = Nd') as -> by congruence.
    rewrite Hcr in He. apply elem_of_app in He as [He|He].
    + destruct (wf_caller g Hwf n Nd e HN He) as (E & c1 & C1 & HE & Hc & Hd & HC1 & Hin).
      destruct (Hnodes c1 C1 HC1) as (C1' & HC1' & _ & _ & Hce1 & _).
      exists E, c1, C1'. repeat split; try done; [by apply Hold| |].
      * rewrite Hce1. apply elem_of_app. by left.
      * intros id Hid. exact (wf_ids g Hwf n Nd e E id HN He HE Hid).
    + destruct (decide (n = d)); [|by apply elem_of_nil in He]. subst n.
      apply list_elem_of_singleton in He as ->.
      destruct (Hnodes c C HC) as (C' & HC' & _ & _ & Hce1 & _).
      eexists _, c, C'. repeat split; try done.
      rewrite Hce1. apply elem_of_app. right. rewrite decide_True by done.
      by apply list_elem_of_singleton.
  - intros e E HE. rewrite Hedges in HE. apply lookup_app_Some in HE as [HE|[Hge HE]].
    + by eapply (wf_edge_types g Hwf).
    + apply list_lookup_singleton_Some in HE as [_ <-]. done.
Qed.

(** ** The checker for well-formedness is sound *)

Lemma forallb_elem {A : Type} (f : A -> bool) (l : list A) (x : A) :
  forallb f l = true -> x ∈ l -> f x = true.
Proof.
  intros H Hx. rewrite forallb_forall in H. apply H. by apply list_elem_of_In.
Qed.

Lemma WFb_node_lookup g n Nd :
  forallb (fun p : nat * ContextNode.t => WFb_node g p.1 p.2) (imap pair (NodeOwner g)) = true ->
  NodeOwner g !! n = Some Nd -> WFb_node g n Nd = true.
Proof.
  intros H HN. apply (forallb_elem _ _ (n, Nd) H).
  apply list_elem_of_lookup. exists n. rewrite list_lookup_imap, HN. done.
Qed.

Lemma WFb_sound g : WFb g = true -> WF g.
Proof.
  unfold WFb. intros H.
  apply andb_true_iff in H as [H Hstack]. apply andb_true_iff in H as [H Halloc].
  apply andb_true_iff in H as [H Htbl]. apply andb_true_iff in H as [Hnodes Hedges].
  assert (forall n Nd, NodeOwner g !! n = Some Nd ->
    forallb (WFb_calleeEdge g n) (ContextNode.CalleeEdges Nd) = true
    /\ forallb (WFb_callerEdge g n) (ContextNode.CallerEdges Nd) = true
    /\ NoDup (ContextNode.CalleeEdges Nd) /\ NoDup (ContextNode.CallerEdges Nd)
    /\ match ContextNode.CloneOf Nd with
       | Some o => match NodeOwner g !! o with
                   | Some Orig => bool_decide (ContextNode.CloneOf Orig = None)
                   | None => false
                   end
       | None => true
       end = true
    /\ forallb (fun c => match NodeOwner g !! c with
                         | Some C => bool_decide (ContextNode.CloneOf C = Some n)
                         | None => false
                         end) (ContextNode.Clones Nd) = true
    /\ ContextNode.AllocTypes Nd <= 3) as Hnode.
  { intros n Nd HN. pose proof (WFb_node_lookup g n Nd Hnodes HN) as Hb.
    unfold WFb_node in Hb.
    apply andb_true_iff in Hb as [Hb H7]. apply andb_true_iff in Hb as [Hb H6].
    apply andb_true_iff in Hb as [Hb H5]. apply andb_true_iff in Hb as [Hb H4].
    apply andb_true_iff in Hb as [Hb H3]. apply andb_true_iff in Hb as [H1 H2].
    apply bool_decide_eq_true in H3, H4. apply N.leb_le in H7. done. }
  split.
  - intros n Nd e HN He. destruct (Hnode n Nd HN) as (H1 & _).
    pose proof (forallb_elem _ _ e H1 He) as Hb. unfold WFb_calleeEdge in Hb.
    destruct (EdgeStore g !! e) as [E|]; [|done].
    apply andb_true_iff in Hb as [Hc Hb]. apply bool_decide_eq_true in Hc.
    destruct (ContextEdge.Callee E) as [d|] eqn:Hd; [|done].
    destruct (NodeOwner g !! d) as [D|] eqn:HD; [|done].
    apply bool_decide_eq_true in Hb. exists E, d, D. done.
  - intros n Nd e HN He. destruct (Hnode n Nd HN) as (_ & H2 & _).
    pose proof (forallb_elem _ _ e H2 He) as Hb. unfold WFb_callerEdge in Hb.
    destruct (EdgeStore g !! e) as [E|]; [|done].
    apply andb_true_iff in Hb as [Hb _]. apply andb_true_iff in Hb as [Hc Hb].
    apply bool_decide_eq_true in Hc.
    destruct (ContextEdge.Caller E) as [c|] eqn:Hd; [|done].
    destruct (NodeOwner g !! c) as [C|] eqn:HC; [|done].
    apply bool_decide_eq_true in Hb. exists E, c, C. done.
  - intros n Nd HN. by destruct (Hnode n Nd HN) as (_ & _ & ? & _).
  - intros n Nd HN. by destruct (Hnode n Nd HN) as (_ & _ & _ & ? & _).
  - intros n Nd o HN Ho. destruct (Hnode n Nd HN) as (_ & _ & _ & _ & H5 & _).
    rewrite Ho in H5. destruct (NodeOwner g !! o) as [O|]; [|done].
    apply bool_decide_eq_true in H5. eauto.
  - intros n Nd c HN Hc. destruct (Hnode n Nd HN) as (_ & _ & _ & _ & _ & H6 & _).
    pose proof (forallb_elem _ _ c H6 Hc) as Hb. simpl in Hb.
    destruct (NodeOwner g !! c) as [C|]; [|done].
    apply bool_decide_eq_true in Hb. eauto.
  - intros n Nd e E id HN He HE Hid. destruct (Hnode n Nd HN) as (_ & H2 & _).
    pose proof (forallb_elem _ _ e H2 He) as Hb. unfold WFb_callerEdge in Hb.
    rewrite HE in Hb. apply andb_true_iff in Hb as [_ Hb].
    assert (id ∈ elements (ContextEdge.ContextIds E)) as Hid' by by apply elem_of_elements.
    pose proof (forallb_elem _ _ id Hb Hid') as Hb'. simpl in Hb'.
    destruct (ContextIdToAllocationType g !! id) as [t|]; [|done].
    apply N.eqb_eq in Hb'. eauto.
  - intros id t Ht.
    assert ((id, t) ∈ map_to_list (ContextIdToAllocationType g)) as Hin
      by by apply elem_of_map_to_list.
    pose proof (forallb_elem _ _ _ Htbl Hin) as Hb. simpl in Hb.
    apply andb_true_iff in Hb as [Hb1 Hb2]. apply N.leb_le in Hb2.
    split; [|done]. apply orb_true_iff in Hb1 as [Hb1|Hb1]; apply N.eqb_eq in Hb1; auto.
  - intros n Nd HN. by destruct (Hnode n Nd HN) as (_ & _ & _ & _ & _ & _ & ?).
  - intros e E HE.
    assert (E ∈ EdgeStore g) as Hin by by eapply list_elem_of_lookup_2.
    pose proof (forallb_elem _ _ _ Hedges Hin) as Hb. by apply N.leb_le in Hb.
  - intros C a HCa. pose proof (forallb_elem _ _ _ Halloc HCa) as Hb. simpl in Hb.
    destruct (NodeOwner g !! a) as [A|]; [|done].
    apply bool_decide_eq_true in Hb. eauto.
  - intros s n Hs.
    assert ((s, n) ∈ map_to_list (StackEntryIdToContextNodeMap g)) as Hin
      by by apply elem_of_map_to_list.
    pose proof (forallb_elem _ _ _ Hstack Hin) as Hb. simpl in Hb.
    by apply bool_decide_eq_true in Hb.
Qed.

Lemma WF_plainExample : WF plainExample.
Proof. apply WFb_sound. vm_compute. reflexivity. Qed.

Lemma WF_recursionExample : WF recursionExample.
Proof. apply WFb_sound. vm_compute. reflexivity. Qed.

(** ** The verification checks and the consistency of a node with its edges *)

Lemma recursionExample_built : recursionExample_build = Ok recursionExample.
Proof. vm_compute. reflexivity. Qed.

Lemma unionIds_cons g e l : unionIds g (e :: l) = edgeIds g e ∪ unionIds g l.
Proof. reflexivity. Qed.

Lemma unionIds_app g l1 l2 : unionIds g (l1 ++ l2) = unionIds g l1 ∪ unionIds g l2.
Proof. unfold unionIds. rewrite fmap_app. apply leibniz_equiv, union_list_app. Qed.

Lemma edgeIds_lookup g e E : EdgeStore g !! e = Some E -> edgeIds g e = ContextEdge.ContextIds E.
Proof. intros HE. unfold edgeIds. by rewrite HE. Qed.

Lemma getContextIds_fold g l acc S :
  foldlM (fun ContextIds Edge =>
            E ← getEdge g Edge; Ok (ContextIds ∪ ContextEdge.ContextIds E)) l acc = Ok S ->
  S = acc ∪ unionIds g l.
Proof.
  revert acc. induction l as [|e l IH]; intros acc H; simpl in H.
  - inv_Ok. unfold unionIds. simpl. set_solver.
  - apply bind_Ok in H as (acc' & H1 & H2).
    apply bind_Ok in H1 as (E & HE%getEdge_Ok & H1). inv_Ok.
    apply IH in H2. rewrite unionIds_cons, (edgeIds_lookup _ _ _ HE). set_solver.
Qed.

Lemma ContextNode_getContextIds_Ok opts g Nd S :
  ContextNode_getContextIds opts g Nd = Ok S ->
  S = unionIds g (contextInfoEdges opts Nd).
Proof. intros H%getContextIds_fold. set_solver. Qed.

Lemma ContextNode_emptyContextIds_loop_Ok g l b :
  ContextNode_emptyContextIds_loop g l = Ok b ->
  (b = true <-> unionIds g l = ∅).
Proof.
  induction l as [|e l IH]; simpl; intros H.
  - inv_Ok. by split.
  - apply bind_Ok in H as (E & HE%getEdge_Ok & H).
    rewrite unionIds_cons, (edgeIds_lookup _ _ _ HE).
    destruct (decide (ContextEdge.ContextIds E = ∅)) as [He|He].
    + rewrite He. apply IH in H. rewrite H. set_solver.
    + inv_Ok. subst b. split; [done|]. intros Hu. exfalso. apply He. set_solver.
Qed.










(** ** Building the graph keeps it well formed *)

(** Changes outside of the nodes and the edges. *)
Lemma WF_meta g g' :
  WF g ->
  NodeOwner g' = NodeOwner g -> EdgeStore g' = EdgeStore g ->
  (forall id t, ContextIdToAllocationType g !! id = Some t ->
     ContextIdToAllocationType g' !! id = Some t) ->
  (forall id t, ContextIdToAllocationType g' !! id = Some t ->
     (t = AllocationType.NotCold \/ t = AllocationType.Cold) /\ id <= LastContextId g') ->
  (forall C a, (C, a) ∈ AllocationCallToContextNodeMap g' ->
     exists A, NodeOwner g !! a = Some A /\ ContextNode.CloneOf A = None) ->
  (forall s n, StackEntryIdToContextNodeMap g' !! s = Some n ->
     is_Some (NodeOwner g !! n)) ->
  WF g'.
Proof.
  intros Hwf Hn He Htbl Htbl' Halloc Hstack.
  split; rewrite ?Hn, ?He; try done.
  - apply (wf_callee g Hwf).
  - apply (wf_caller g Hwf).
  - apply (wf_nodup_callee g Hwf).
  - apply (wf_nodup_caller g Hwf).
  - apply (wf_cloneOf g Hwf).
  - apply (wf_clones g Hwf).
  - intros n Nd e E id HN Hin HE Hid.
    destruct (wf_ids g Hwf n Nd e E id HN Hin HE Hid) as (t & Ht & Hor).
    exists t. split; [by apply Htbl|done].
  - apply (wf_node_types g Hwf).
  - apply (wf_edge_types g Hwf).
Qed.

Lemma lookup_snoc_Some {A : Type} (l : list A) (x y : A) (i : nat) :
  (l ++ [x]) !! i = Some y ->
  l !! i = Some y \/ (i = length l /\ y = x).
Proof.
  intros [H|[Hge H]]%lookup_app_Some; [by left|right].
  apply list_lookup_singleton_Some in H as [Hi <-]. split; [lia|done].
Qed.

(** A new node without edges. *)
Lemma WF_appendNode g b C :
  WF g -> WF (setNodeOwner (NodeOwner g ++ [ContextNode.new b C]) g).
Proof.
  intros Hwf.
  assert (forall n Nd, NodeOwner g !! n = Some Nd ->
            (NodeOwner g ++ [ContextNode.new b C]) !! n = Some Nd) as Hold.
  { intros n Nd HN. by apply lookup_app_l_Some. }
  split; simpl.
  - intros n Nd e [HN|[_ ->]]%lookup_snoc_Some He; [|by apply elem_of_nil in He].
    destruct (wf_callee g Hwf n Nd e HN He) as (E & d & D & HE & Hc & Hd & HD & Hin).
    exists E, d, D. repeat split; try done. by apply Hold.
  - intros n Nd e [HN|[_ ->]]%lookup_snoc_Some He; [|by apply elem_of_nil in He].
    destruct (wf_caller g Hwf n Nd e HN He) as (E & c & C' & HE & Hc & Hd & HC & Hin).
    exists E, c, C'. repeat split; try done. by apply Hold.
  - intros n Nd [HN|[_ ->]]%lookup_snoc_Some; [|apply NoDup_nil_2].
    by eapply (wf_nodup_callee g Hwf).
  - intros n Nd [HN|[_ ->]]%lookup_snoc_Some; [|apply NoDup_nil_2].
    by eapply (wf_nodup_caller g Hwf).
  - intros n Nd o [HN|[_ ->]]%lookup_snoc_Some Ho; [|done].
    destruct (wf_cloneOf g Hwf n Nd o HN Ho) as (O & HO & HOo).
    exists O. split; [by apply Hold|done].
  - intros n Nd c [HN|[_ ->]]%lookup_snoc_Some Hc; [|by apply elem_of_nil in Hc].
    destruct (wf_clones g Hwf n Nd c HN Hc) as (C' & HC & HCo).
    exists C'. split; [by apply Hold|done].
  - intros n Nd e E id [HN|[_ ->]]%lookup_snoc_Some He; [|by apply elem_of_nil in He].
    by eapply (wf_ids g Hwf).
  - apply (wf_table g Hwf).
  - intros n Nd [HN|[_ ->]]%lookup_snoc_Some; [|simpl; lia].
    by eapply (wf_node_types g Hwf).
  - apply (wf_edge_types g Hwf).
  - intros C' a HCa. destruct (wf_alloc_map g Hwf C' a HCa) as (A & HA & HAo).
    exists A. split; [by apply Hold|done].
  - intros s n Hs. destruct (wf_stack_map g Hwf s n Hs) as [Nd HN].
    exists Nd. by apply Hold.
Qed.

Lemma createNewNode_spec g b F C :
  let r := createNewNode g b F C in
  r.1 = length (NodeOwner g)
  /\ NodeOwner r.2 = NodeOwner g ++ [ContextNode.new b C]
  /\ EdgeStore r.2 = EdgeStore g
  /\ sameMaps g r.2.
Proof. unfold createNewNode. destruct F; simpl; repeat split. Qed.

Lemma WF_createNewNode g b F C : WF g -> WF (createNewNode g b F C).2.
Proof.
  intros Hwf. apply (WF_appendNode g b C) in Hwf.
  unfold createNewNode. destruct F; simpl; [|done].
  eapply WF_meta; [exact Hwf|done|done|done|..].
  - apply (wf_table _ Hwf).
  - apply (wf_alloc_map _ Hwf).
  - apply (wf_stack_map _ Hwf).
Qed.

Lemma WF_emptyGraph : WF emptyGraph.
Proof.
  split; simpl; try done.
  all: intros; try (by apply elem_of_nil in H).
Qed.

Lemma addOrUpdateCallerEdge_loop_WF g Node Nd Edges Caller ty id :
  WF g -> NodeOwner g !! Node = Some Nd ->
  (forall e, e ∈ Edges -> e ∈ ContextNode.CallerEdges Nd) ->
  ty <= 3 -> idsTyped g ty {[id]} ->
  exists r, addOrUpdateCallerEdge_loop g Edges Caller ty id = Ok r
    /\ forall g', r = Some g' ->
         WF g' /\ sameMaps g g' /\ NodeOwner g' = NodeOwner g.
Proof.
  intros Hwf HN Hsub Hty Hid.
  induction Edges as [|e l IH]; simpl.
  - eexists. split; [done|]. intros g' [=].
  - assert (e ∈ ContextNode.CallerEdges Nd) as He by (apply Hsub; left).
    destruct (wf_caller g Hwf Node Nd e HN He) as (E & c & C & HE & Hc & Hd & HC & Hin).
    unfold getEdge. rewrite HE. simpl.
    destruct (decide (ContextEdge.Caller E = Some Caller)) as [Heq|Hne].
    + destruct (updEdge_total g e (fun E =>
               ContextEdge.setContextIds (ContextEdge.ContextIds E ∪ {[id]})
                 (ContextEdge.setAllocTypes (N.lor (ContextEdge.AllocTypes E) ty) E))
               E HE) as [g' Hg'].
      rewrite Hg'. simpl. eexists. split; [done|]. intros g'' [= <-].
      split; [|split].
      * eapply WF_updEdge_info; eauto; simpl.
        -- apply lor_le3; [by eapply (wf_edge_types g Hwf)|done].
        -- intros i [Hi|Hi]%elem_of_union.
           ++ destruct (wf_ids g Hwf Node Nd e E i HN He HE Hi) as (t & Ht & Hor).
              exists t. split; [done|]. by apply lor_absorb_lor.
           ++ destruct (Hid i Hi) as (t & Ht & Hor).
              exists t. split; [done|]. by apply lor_absorb_lor_r.
      * by eapply updEdge_sameMaps.
      * by destruct (updEdge_frame _ _ _ _ Hg') as (? & _).
    + apply IH. intros e' He'. apply Hsub. by right.
Qed.

(** What [addOrUpdateCallerEdge] and the steps of [addStackNodesForMIB]
    leave as it is: the tables, and what the nodes are apart from their
    edges. *)
Lemma addOrUpdateCallerEdge_WF g Node Caller ty id :
  WF g -> is_Some (NodeOwner g !! Node) -> is_Some (NodeOwner g !! Caller) ->
  ty <= 3 -> idsTyped g ty {[id]} ->
  exists g', addOrUpdateCallerEdge g Node Caller ty id = Ok g'
    /\ WF g' /\ sameMaps g g'
    /\ length (NodeOwner g') = length (NodeOwner g).
Proof.
  intros Hwf [Nd HN] [Cr HCr] Hty Hid. unfold addOrUpdateCallerEdge.
  unfold getNode. rewrite HN. simpl.
  destruct (addOrUpdateCallerEdge_loop_WF g Node Nd (ContextNode.CallerEdges Nd)
              Caller ty id Hwf HN) as (r & Hr & Hspec); [done..|].
  rewrite Hr. simpl. destruct r as [g'|].
  - destruct (Hspec g' eq_refl) as (Hwf' & Hm & Hn).
    exists g'. split; [done|]. split; [done|]. split; [done|]. by rewrite Hn.
  - destruct (edgeAdded_callerFirst g Caller Node ty {[id]} Cr Nd HCr HN)
      as (g' & Hg' & Hadd).
    unfold makeEdge in *. simpl in *. rewrite Hg'.
    exists g'. split; [done|].
    split; [eapply WF_edgeAdded; eauto|].
    destruct Hadd as (Hm & _ & Hl & _). done.
Qed.

(** A write to a node that leaves its edges and its clone links alone. *)
Lemma updNode_WF g n f :
  WF g -> is_Some (NodeOwner g !! n) ->
  (forall Nd, ContextNode.CalleeEdges (f Nd) = ContextNode.CalleeEdges Nd
              /\ ContextNode.CallerEdges (f Nd) = ContextNode.CallerEdges Nd
              /\ ContextNode.Clones (f Nd) = ContextNode.Clones Nd
              /\ ContextNode.CloneOf (f Nd) = ContextNode.CloneOf Nd) ->
  (forall Nd, ContextNode.AllocTypes Nd <= 3 -> ContextNode.AllocTypes (f Nd) <= 3) ->
  exists g', updNode g n f = Ok g' /\ WF g' /\ sameMaps g g'
    /\ length (NodeOwner g') = length (NodeOwner g).
Proof.
  intros Hwf [Nd HN] Hf Hty.
  destruct (updNode_total g n f Nd HN) as [g' Hg']. exists g'.
  destruct (Hf Nd) as (H1 & H2 & H3 & H4).
  split; [done|]. split.
  - eapply WF_updNode_info; eauto; try by (rewrite ?H1, ?H2).
    apply Hty. by eapply (wf_node_types g Hwf).
  - split; [by eapply updNode_sameMaps|].
    by destruct (updNode_frame _ _ _ _ Hg') as (_ & _ & _ & _ & _ & _ & _ & _ & _ & ?).
Qed.

Lemma valid_length g g' n :
  length (NodeOwner g') = length (NodeOwner g) ->
  is_Some (NodeOwner g !! n) -> is_Some (NodeOwner g' !! n).
Proof. intros Hl H%lookup_lt_is_Some. apply lookup_lt_is_Some. lia. Qed.

Lemma idsTyped_sameMaps g g' t S : sameMaps g g' -> idsTyped g t S -> idsTyped g' t S.
Proof. intros (Ht & _) H id Hid. rewrite Ht. by apply H. Qed.

Section Builder.
Variable opts : Options.
Variable getStackId : N -> N.

(** The state of the loop of [addStackNodesForMIB] that its steps keep:
    the graph is well formed, [PrevNode] is a node of it, and the context
    id of the record is in the table with the record's type. *)
Definition builderInv (ty : N) (g0 g : CallsiteContextGraph) (Prev : NodeId) : Prop :=
  WF g /\ is_Some (NodeOwner g !! Prev)
  /\ ContextIdToAllocationType g = ContextIdToAllocationType g0
  /\ LastContextId g = LastContextId g0
  /\ AllocationCallToContextNodeMap g = AllocationCallToContextNodeMap g0.

Lemma addStackNodesForMIB_step_tail ty g0 g1 Prev sn (StackIdSet : gset N) (StackId : N) :
  ty <= 3 -> idsTyped g0 ty {[LastContextId g0]} ->
  builderInv ty g0 g1 Prev -> is_Some (NodeOwner g1 !! sn) ->
  exists g' StackIdSet',
    ('(g, StackIdSet) ←
       (if AllowRecursiveCallsites opts then Ok (g1, StackIdSet)
        else if decide (StackId ∈ StackIdSet)
             then g ← updNode g1 sn (ContextNode.setRecursive true);
                  Ok (g, StackIdSet)
             else Ok (g1, StackIdSet ∪ {[StackId]}));
     g ← updNode g sn (fun n =>
            ContextNode.setAllocTypes (N.lor (ContextNode.AllocTypes n) ty) n);
     g ← addOrUpdateCallerEdge g Prev sn ty (LastContextId g);
     Ok (g, sn, StackIdSet)) = Ok (g', sn, StackIdSet')
    /\ builderInv ty g0 g' sn.
Proof.
  intros Hty Hid (Hwf1 & HPrev1 & Htbl1 & Hlast1 & Halloc1) Hsn.
  assert (exists g2 set2,
    (if AllowRecursiveCallsites opts then Ok (g1, StackIdSet)
     else if decide (StackId ∈ StackIdSet)
          then g ← updNode g1 sn (ContextNode.setRecursive true); Ok (g, StackIdSet)
          else Ok (g1, StackIdSet ∪ {[StackId]})) = Ok (g2, set2)
    /\ builderInv ty g0 g2 Prev /\ is_Some (NodeOwner g2 !! sn)) as (g2 & set2 & -> & Hinv2 & Hsn2).
  { destruct (AllowRecursiveCallsites opts); [by exists g1, StackIdSet|].
    destruct (decide _); [|by eexists g1, _].
    destruct (updNode_WF g1 sn (ContextNode.setRecursive true) Hwf1 Hsn)
      as (gr & Hgr & Hwfr & Hmr & Hlr); [done|done|].
    rewrite Hgr. exists gr, StackIdSet. split; [done|].
    destruct Hmr as (Hc1 & Hc2 & _ & Hc4 & _).
    split; [split; [done|split; [|split; [|split]]]|]; try congruence.
    all: by eapply valid_length. }
  cbn [mbind Res_bind].
  destruct Hinv2 as (Hwf2 & HPrev2 & Htbl2 & Hlast2 & Halloc2).
  destruct (updNode_WF g2 sn (fun n =>
              ContextNode.setAllocTypes (N.lor (ContextNode.AllocTypes n) ty) n) Hwf2 Hsn2)
    as (g3 & Hg3 & Hwf3 & Hm3 & Hl3); [done| |].
  { intros Nd Hle. simpl. by apply lor_le3. }
  rewrite Hg3. cbn [mbind Res_bind].
  assert (LastContextId g3 = LastContextId g0) as Hlast3.
  { destruct Hm3 as (_ & _ & _ & -> & _). done. }
  assert (ContextIdToAllocationType g3 = ContextIdToAllocationType g0) as Htbl3.
  { destruct Hm3 as (-> & _). done. }
  destruct (addOrUpdateCallerEdge_WF g3 Prev sn ty (LastContextId g3) Hwf3)
    as (g4 & Hg4 & Hwf4 & Hm4 & Hl4); [by eapply valid_length|by eapply valid_length|done| |].
  { rewrite Hlast3. intros i Hi. rewrite Htbl3. by apply Hid. }
  rewrite Hg4. cbn [mbind Res_bind]. exists g4, set2. split; [done|].
  destruct Hm3 as (Ha1 & Ha2 & _ & Ha4 & _).
  destruct Hm4 as (Hb1 & Hb2 & _ & Hb4 & _).
  split; [done|split; [|split; [|split]]]; try congruence.
  eapply valid_length; [done|]. by eapply valid_length.
Qed.

Lemma addStackNodesForMIB_step_WF ty g0 g Prev StackIdSet ContextIter :
  ty <= 3 -> idsTyped g0 ty {[LastContextId g0]} ->
  builderInv ty g0 g Prev ->
  exists g' StackNode StackIdSet',
    addStackNodesForMIB_step opts getStackId ty (g, Prev, StackIdSet) ContextIter
      = Ok (g', StackNode, StackIdSet')
    /\ builderInv ty g0 g' StackNode.
Proof.
  intros Hty Hid Hinv. pose proof Hinv as (Hwf & HPrev & Htbl & Hlast & Halloc).
  unfold addStackNodesForMIB_step, getNodeForStackId.
  destruct (StackEntryIdToContextNodeMap g !! getStackId ContextIter) as [sn|] eqn:Hs.
  - cbn [mbind Res_bind].
    destruct (addStackNodesForMIB_step_tail ty g0 g Prev sn StackIdSet
                (getStackId ContextIter) Hty Hid Hinv) as (g' & set' & Hr & Hinv').
    { by eapply (wf_stack_map g Hwf). }
    exists g', sn, set'. done.
  - unfold createNewNode. cbn [fst snd].
    set (ga := setNodeOwner _ g).
    set (gb := setStackEntryIdToContextNodeMap _ ga).
    assert (WF ga) as Hwfa by by apply WF_appendNode.
    assert (NodeOwner ga !! length (NodeOwner g) = Some (ContextNode.new false nullCallInfo))
      as Hnew.
    { unfold ga. simpl. rewrite lookup_app_r by lia. by rewrite Nat.sub_diag. }
    assert (WF gb) as Hwfb.
    { eapply (WF_meta ga gb); try done.
      - apply (wf_table ga Hwfa).
      - apply (wf_alloc_map ga Hwfa).
      - intros s n. unfold gb. simpl. intros Hsn.
        apply lookup_insert_Some in Hsn as [[_ <-]|[_ Hsn]]; [by eexists|].
        by eapply (wf_stack_map ga Hwfa). }
    destruct (updNode_WF gb (length (NodeOwner g))
                (ContextNode.setOrigStackOrAllocId (getStackId ContextIter)) Hwfb)
      as (gc & Hgc & Hwfc & Hmc & Hlc); [by eexists|done|done|].
    rewrite Hgc. cbn [mbind Res_bind].
    destruct Hmc as (Hc1 & Hc2 & _ & Hc4 & _).
    assert (length (NodeOwner gc) = S (length (NodeOwner g))) as Hlen.
    { rewrite Hlc. unfold gb, ga. simpl. rewrite length_app. simpl. lia. }
    destruct (addStackNodesForMIB_step_tail ty g0 gc Prev (length (NodeOwner g)) StackIdSet
                (getStackId ContextIter) Hty Hid) as (g' & set' & Hr & Hinv').
    { split; [done|split; [|split; [|split]]].
      + apply lookup_lt_is_Some. apply lookup_lt_is_Some in HPrev. lia.
      + rewrite Hc1. done.
      + rewrite Hc4. done.
      + rewrite Hc2. done. }
    { apply lookup_lt_is_Some. lia. }
    exists g', (length (NodeOwner g)), set'. done.
Qed.

Lemma addStackNodesForMIB_fold_WF ty g0 StackContext g Prev StackIdSet :
  ty <= 3 -> idsTyped g0 ty {[LastContextId g0]} ->
  builderInv ty g0 g Prev ->
  exists g' Last StackIdSet',
    foldlM (addStackNodesForMIB_step opts getStackId ty) StackContext (g, Prev, StackIdSet)
      = Ok (g', Last, StackIdSet')
    /\ builderInv ty g0 g' Last.
Proof.
  intros Hty Hid. revert g Prev StackIdSet.
  induction StackContext as [|x l IH]; intros g Prev StackIdSet Hinv; cbn [foldlM].
  - by exists g, Prev, StackIdSet.
  - destruct (addStackNodesForMIB_step_WF ty g0 g Prev StackIdSet x Hty Hid Hinv)
      as (g1 & sn & set1 & -> & Hinv1).
    cbn [mbind Res_bind]. by apply IH.
Qed.

End Builder.

Lemma noHotBit_le3 (t : N) : t <= 3 -> noHotBit t.
Proof.
  intros H. unfold noHotBit.
  destruct (le3_cases t H) as [-> | [-> | [-> | ->]]]; reflexivity.
Qed.

Lemma WF_addAllocNode g Call F :
  WF g ->
  exists a g', addAllocNode g Call F = Ok (a, g') /\ WF g'
    /\ is_Some (NodeOwner g' !! a).
Proof.
  intros Hwf. unfold addAllocNode, createNewNode. cbn [fst snd].
  set (ga := setNodeOwner _ g).
  assert (WF ga) as Hwfa by by apply WF_appendNode.
  assert (NodeOwner ga !! length (NodeOwner g) = Some (ContextNode.new true Call)) as Hnew.
  { unfold ga. simpl. rewrite lookup_app_r by lia. by rewrite Nat.sub_diag. }
  set (gb := setAllocationCallToContextNodeMap _ _).
  assert (WF gb) as Hwfb.
  { eapply (WF_meta ga gb); try done.
    - apply (wf_table ga Hwfa).
    - intros C a. unfold gb. simpl.
      assert (forall l, (C, a) ∈ mapVectorSet Call (length (NodeOwner g)) l ->
                (C, a) ∈ l \/ a = length (NodeOwner g)) as Hset.
      { induction l as [|[k v] l IH]; simpl.
        - intros [= -> ->]%list_elem_of_singleton. by right.
        - destruct (decide (k = Call)).
          + intros [[= -> ->]|Hin]%elem_of_cons; [by right|left; by right].
          + intros [[= -> ->]|Hin]%elem_of_cons; [left; by left|].
            destruct (IH Hin); [left; by right|by right]. }
      intros [Hin| ->]%Hset.
      + by apply (wf_alloc_map ga Hwfa C a).
      + by eexists.
    - apply (wf_stack_map ga Hwfa). }
  destruct (updNode_WF gb (length (NodeOwner g))
              (ContextNode.setOrigStackOrAllocId (LastContextId gb)) Hwfb)
    as (gc & Hgc & Hwfc & Hmc & Hlc); [by eexists|done|done|].
  rewrite Hgc. cbn [mbind Res_bind].
  destruct (updNode_WF gc (length (NodeOwner g))
              (ContextNode.setAllocTypes AllocationType.None) Hwfc)
    as (gd & Hgd & Hwfd & Hmd & Hld).
  { eapply valid_length; [done|]. by eexists. }
  { done. }
  { intros Nd _. simpl. unfold AllocationType.None. lia. }
  rewrite Hgd. cbn [mbind Res_bind]. eexists _, _. split; [done|]. split; [done|].
  eapply valid_length; [done|]. eapply valid_length; [done|]. by eexists.
Qed.

(** Claim C10: [addStackNodesForMIB] records a [Hot] record as [NotCold].
    On a well-formed graph, for a record of type [NotCold], [Cold] or [Hot]
    and while the next context id is below the two keys that the hash
    containers reserve, it returns a well-formed graph whose table has one
    more entry, for the next context id, with the type of the record, or
    [NotCold] if that was [Hot]; the table maps every context id to
    [NotCold] or [Cold], and no aggregate of a node or of an edge has the
    [Hot] bit. *)
Theorem addStackNodesForMIB_hot_as_notcold (opts : Options) (getStackId : N -> N)
    (g : CallsiteContextGraph) (AllocNode : NodeId) (StackContext : list N)
    (AllocType : N) :
  WF g -> is_Some (NodeOwner g !! AllocNode) ->
  AllocType = AllocationType.NotCold \/ AllocType = AllocationType.Cold
    \/ AllocType = AllocationType.Hot ->
  LastContextId g + 1 < UINT32_MOD - 2 ->
  exists g',
    addStackNodesForMIB opts getStackId g AllocNode StackContext AllocType = Ok g'
    /\ WF g'
    /\ LastContextId g' = LastContextId g + 1
    /\ ContextIdToAllocationType g' =
         <[LastContextId g + 1 :=
             if N.eqb AllocType AllocationType.Hot then AllocationType.NotCold
             else AllocType]> (ContextIdToAllocationType g)
    /\ (AllocType = AllocationType.Hot ->
        ContextIdToAllocationType g' !! LastContextId g' = Some AllocationType.NotCold)
    /\ (forall id t, ContextIdToAllocationType g' !! id = Some t ->
          t = AllocationType.NotCold \/ t = AllocationType.Cold)
    /\ (forall n Nd, NodeOwner g' !! n = Some Nd -> noHotBit (ContextNode.AllocTypes Nd))
    /\ (forall e E, EdgeStore g' !! e = Some E -> noHotBit (ContextEdge.AllocTypes E)).
Proof.
  intros Hwf Ha Hty Hno. unfold addStackNodesForMIB.
  set (ty := if N.eqb AllocType AllocationType.Hot then AllocationType.NotCold
             else AllocType).
  assert (ty = AllocationType.NotCold \/ ty = AllocationType.Cold) as Hty'.
  { unfold ty. destruct Hty as [-> | [-> | ->]]; simpl; auto. }
  assert (ty <= 3) as Hle.
  { destruct Hty' as [-> | ->]; unfold AllocationType.NotCold, AllocationType.Cold; lia. }
  assert (LastContextId g + 1 < UINT32_MOD) as Hno'.
  { unfold UINT32_MOD in *. simpl in *. lia. }
  rewrite (wrap32_small (LastContextId g + 1)) by done.
  set (g1 := setLastContextId _ g).
  assert (denseKey (LastContextId g1) = Ok (LastContextId g + 1)) as ->.
  { unfold denseKey, denseKeyReserved, g1. simpl LastContextId.
    destruct (N.leb_spec (UINT32_MOD - 2) (LastContextId g + 1)); [lia|done]. }
  cbn [mbind Res_bind].
  set (g2 := setContextIdToAllocationType _ g1).
  assert (ContextIdToAllocationType g !! (LastContextId g + 1) = None) as Hfresh.
  { destruct (ContextIdToAllocationType g !! (LastContextId g + 1)) as [t|] eqn:Ht; [|done].
    apply (wf_table g Hwf) in Ht as [_ Ht]. lia. }
  assert (WF g2) as Hwf2.
  { eapply (WF_meta g g2); try done.
    - intros id t Ht. unfold g2, g1. simpl. rewrite lookup_insert_ne; [done|].
      intros <-. congruence.
    - intros id t. unfold g2, g1. simpl.
      intros [[<- <-]|[_ Ht]]%lookup_insert_Some; [split; [done|lia]|].
      apply (wf_table g Hwf) in Ht as [? ?]. split; [done|lia].
    - apply (wf_alloc_map g Hwf).
    - apply (wf_stack_map g Hwf). }
  destruct (updNode_WF g2 AllocNode (fun n =>
              ContextNode.setAllocTypes (N.lor (ContextNode.AllocTypes n) ty) n) Hwf2 Ha)
    as (g3 & Hg3 & Hwf3 & Hm3 & Hl3); [done| |].
  { intros Nd Hn. simpl. by apply lor_le3. }
  rewrite Hg3. cbn [mbind Res_bind].
  assert (idsTyped g3 ty {[LastContextId g3]}) as Hid.
  { intros i ->%elem_of_singleton. exists ty.
    destruct Hm3 as (-> & _ & _ & -> & _). unfold g2, g1. simpl.
    rewrite lookup_insert_eq. split; [done|]. apply N.lor_diag. }
  destruct (addStackNodesForMIB_fold_WF opts getStackId ty g3 StackContext g3 AllocNode ∅
              Hle Hid) as (g4 & Last & set4 & Hg4 & Hwf4 & _ & Htbl4 & Hlast4 & _).
  { split; [done|]. split; [by eapply valid_length|done]. }
  rewrite Hg4. cbn [mbind Res_bind]. exists g4. split; [done|]. split; [done|].
  destruct Hm3 as (Ht3 & _ & _ & Hlast3 & _).
  assert (LastContextId g4 = LastContextId g + 1) as HL by (rewrite Hlast4, Hlast3; done).
  assert (ContextIdToAllocationType g4 = <[LastContextId g + 1 := ty]>
            (ContextIdToAllocationType g)) as HT by (rewrite Htbl4, Ht3; done).
  split; [done|]. split; [done|]. split; [|split; [|split]].
  - intros ->. rewrite HT, HL, lookup_insert_eq. done.
  - intros id t Ht. by apply (wf_table g4 Hwf4) in Ht as [? _].
  - intros n Nd HN. apply noHotBit_le3. by eapply (wf_node_types g4 Hwf4).
  - intros e E HE. apply noHotBit_le3. by eapply (wf_edge_types g4 Hwf4).
Qed.

Lemma allocExample_built :
  addAllocNode emptyGraph (mkCallInfo (Some 1) 0) 100 = Ok (0%nat, allocExample).
Proof. vm_compute. reflexivity. Qed.

Lemma WF_allocExample : WF allocExample.
Proof.
  destruct (WF_addAllocNode emptyGraph (mkCallInfo (Some 1) 0) 100 WF_emptyGraph)
    as (a & g' & H & Hwf & _).
  rewrite allocExample_built in H. by injection H as <- <-.
Defined.

Lemma addStackNodesForMIB_hot_as_notcold_witness :
  exists g',
    addStackNodesForMIB defaultOptions id allocExample 0%nat [10; 20] AllocationType.Hot
      = Ok g'
    /\ ContextIdToAllocationType g' !! 1 = Some AllocationType.NotCold.
Proof.
  destruct (addStackNodesForMIB_hot_as_notcold defaultOptions id allocExample 0%nat
              [10; 20] AllocationType.Hot) as (g' & H & _ & HL & _ & Hhot & _).
  - exact WF_allocExample.
  - simpl. eauto.
  - right. right. reflexivity.
  - vm_compute. reflexivity.
  - exists g'. split; [exact H|].
    replace 1 with (LastContextId g') by (rewrite HL; reflexivity).
    apply Hhot. reflexivity.
Defined.

(** ** Duplicating context ids *)

Lemma freshIds_S L k : freshIds L (S k) = (L + 1) :: freshIds (L + 1) k.
Proof.
  unfold freshIds. simpl. f_equal; [lia|].
  rewrite <- fmap_S_seq, <- list_fmap_compose. apply list_fmap_ext.
  intros i x _. simpl. lia.
Qed.

Lemma freshIds_lookup L k i n :
  freshIds L k !! i = Some n <-> n = L + 1 + N.of_nat i /\ (i < k)%nat.
Proof.
  unfold freshIds. rewrite list_lookup_fmap. split.
  - intros H. destruct (seq 0 k !! i) as [j|] eqn:Hj; [|done].
    apply lookup_seq in Hj as [-> ?]. simpl in H. injection H as <-. done.
  - intros [-> Hi]. rewrite lookup_seq_lt by done. done.
Qed.

Lemma duplicateContextIds_step_spec g M New x tx :
  ContextIdToAllocationType g !! x = Some tx ->
  LastContextId g + 1 < UINT32_MOD - 2 ->
  exists g',
    duplicateContextIds_step (g, M, New) x
    = Ok (g', <[x := default ∅ (M !! x) ∪ {[LastContextId g + 1]}]> M,
          New ∪ {[LastContextId g + 1]})
    /\ LastContextId g' = LastContextId g + 1
    /\ ContextIdToAllocationType g'
       = <[LastContextId g + 1 := tx]> (ContextIdToAllocationType g)
    /\ NodeOwner g' = NodeOwner g /\ EdgeStore g' = EdgeStore g.
Proof.
  intros Htx Hno. unfold duplicateContextIds_step.
  destruct g as [nodes edges tbl L f2c stk am nam fc dot]. simpl in *.
  assert (L + 1 < UINT32_MOD) as Hno' by (unfold UINT32_MOD in *; simpl in *; lia).
  rewrite (wrap32_small (L + 1)) by done.
  assert (denseKey (L + 1) = Ok (L + 1)) as ->.
  { unfold denseKey, denseKeyReserved.
    destruct (N.leb_spec (UINT32_MOD - 2) (L + 1)); [lia|done]. }
  cbn [mbind Res_bind]. rewrite Htx. simpl. rewrite Htx. simpl.
  destruct (decide (x ∈ dot)); simpl; eexists; repeat split.
Qed.

Lemma duplicateContextIds_fold l :
  forall g M New,
  NoDup l ->
  (forall id t, ContextIdToAllocationType g !! id = Some t -> id <= LastContextId g) ->
  (forall old, old ∈ l -> is_Some (ContextIdToAllocationType g !! old)) ->
  LastContextId g + N.of_nat (length l) < UINT32_MOD - 2 ->
  exists g' M',
    foldlM duplicateContextIds_step l (g, M, New)
    = Ok (g', M', New ∪ list_to_set (freshIds (LastContextId g) (length l)))
    /\ LastContextId g' = LastContextId g + N.of_nat (length l)
    /\ (forall i old, l !! i = Some old ->
          M' !! old = Some (default ∅ (M !! old) ∪ {[LastContextId g + 1 + N.of_nat i]})
          /\ ContextIdToAllocationType g' !! (LastContextId g + 1 + N.of_nat i)
             = ContextIdToAllocationType g !! old)
    /\ (forall old, old ∉ l -> M' !! old = M !! old)
    /\ (forall id, id <= LastContextId g ->
          ContextIdToAllocationType g' !! id = ContextIdToAllocationType g !! id)
    /\ (forall id t, ContextIdToAllocationType g' !! id = Some t ->
          id <= LastContextId g')
    /\ NodeOwner g' = NodeOwner g /\ EdgeStore g' = EdgeStore g.
Proof.
  induction l as [|x l IH]; intros g M New Hnd Hkeys Hin Hno; cbn [foldlM].
  - exists g, M. simpl. split; [f_equal; f_equal; set_solver|]. split; [lia|]. split; [done|].
    split; [done|]. split; [done|]. split; [apply Hkeys|]. done.
  - apply NoDup_cons in Hnd as [Hx Hnd].
    destruct (Hin x) as [tx Htx]; [by left|].
    pose proof (Hkeys _ _ Htx) as Hxle.
    cbn [length] in Hno.
    set (L := LastContextId g) in *.
    destruct (duplicateContextIds_step_spec g M New x tx Htx)
      as (g1 & Hstep & HL1 & HT1 & Hn1 & He1).
    { fold L. lia. }
    fold L in HL1, HT1, Hstep. rewrite Hstep. cbn [mbind Res_bind].
    specialize (IH g1 (<[x := default ∅ (M !! x) ∪ {[L + 1]}]> M) (New ∪ {[L + 1]}) Hnd).
    destruct IH as (g' & M' & Hr & I1 & I3 & I4 & I5 & I6 & I7 & I8).
    + intros id t. rewrite HT1, HL1. intros [[<- _]|[_ Ht]]%lookup_insert_Some; [lia|].
      apply Hkeys in Ht. fold L in Ht. lia.
    + intros old Hold. rewrite HT1. destruct (Hin old) as [t Ht]; [by right|].
      exists t. rewrite lookup_insert_ne; [done|].
      intros <-. apply Hkeys in Ht. fold L in Ht. lia.
    + rewrite HL1. lia.
    + rewrite HL1 in *. exists g', M'. split.
      { rewrite Hr. f_equal. f_equal. cbn [length]. rewrite freshIds_S. set_solver. }
      split; [cbn [length]; lia|].
      split.
      { intros [|i] old Hi; simpl in Hi.
        - injection Hi as <-. rewrite (I4 x Hx), lookup_insert_eq.
          split; [f_equal; f_equal; f_equal; lia|].
          replace (L + 1 + N.of_nat 0) with (L + 1) by lia.
          rewrite I5 by lia. rewrite HT1, lookup_insert_eq. done.
        - destruct (I3 i old Hi) as [J1 J2].
          assert (old <> x) as Hne.
          { intros ->. apply Hx. by eapply list_elem_of_lookup_2. }
          replace (L + 1 + N.of_nat (S i)) with (L + 1 + 1 + N.of_nat i) by lia.
          rewrite J1, J2, HT1. rewrite lookup_insert_ne by done.
          split; [done|]. apply lookup_insert_ne.
          destruct (Hin old) as [t Ht]; [right; by eapply list_elem_of_lookup_2|].
          intros <-. apply Hkeys in Ht. fold L in Ht. lia. }
      split.
      { intros old Hold. apply not_elem_of_cons in Hold as [Hne Hold].
        rewrite (I4 old Hold). by apply lookup_insert_ne. }
      split.
      { intros id Hid. rewrite I5 by lia. rewrite HT1. apply lookup_insert_ne. lia. }
      split; [done|]. split; congruence.
Qed.

(** ** Propagating the duplicates to the callers *)

Lemma GetNewIds_fold (M : gmap N (gset N)) (l : list N) (acc : gset N) (x : N) :
  x ∈ foldl (fun NewIds Id =>
               match M !! Id with
               | Some New => NewIds ∪ New
               | None => NewIds
               end) acc l
  <-> x ∈ acc \/ exists id New, id ∈ l /\ M !! id = Some New /\ x ∈ New.
Proof.
  revert acc. induction l as [|i l IH]; intros acc; simpl.
  - split; [by left|]. intros [H|(id & New & Hin & _)]; [done|].
    by apply elem_of_nil in Hin.
  - rewrite IH. destruct (M !! i) as [New|] eqn:Hi.
    + rewrite elem_of_union. split.
      * intros [[H|H]|(id & N' & Hin & HM & Hx)]; [by left| |].
        -- right. exists i, New. split; [by left|done].
        -- right. exists id, N'. split; [by right|done].
      * intros [H|(id & N' & [->|Hin]%elem_of_cons & HM & Hx)].
        -- left. by left.
        -- left. right. congruence.
        -- right. eauto.
    + split.
      * intros [H|(id & N' & Hin & HM & Hx)]; [by left|].
        right. exists id, N'. split; [by right|done].
      * intros [H|(id & N' & [->|Hin]%elem_of_cons & HM & Hx)]; [by left|congruence|].
        right. eauto.
Qed.

Lemma elem_of_GetNewIds M S x :
  x ∈ GetNewIds M S <-> exists id New, id ∈ S /\ M !! id = Some New /\ x ∈ New.
Proof.
  unfold GetNewIds. rewrite GetNewIds_fold. split.
  - intros [H|(id & New & Hin%elem_of_elements & H)]; [set_solver|eauto].
  - intros (id & New & Hin & H). right. exists id, New.
    split; [by apply elem_of_elements|done].
Qed.

(** The edges of the graph that are not in [V]: their number bounds the
    depth of the recursion. *)
Lemma unvisited_mono (n : nat) (V V' : gset nat) :
  V ⊆ V' -> (size (set_seq 0 n ∖ V' : gset nat) <= size (set_seq 0 n ∖ V : gset nat))%nat.
Proof. intros H. apply subseteq_size. set_solver. Qed.

Lemma unvisited_insert (n : nat) (V : gset nat) (e : nat) :
  (e < n)%nat -> e ∉ V ->
  (size (set_seq 0 n ∖ (V ∪ {[e]}) : gset nat) < size (set_seq 0 n ∖ V : gset nat))%nat.
Proof.
  intros Hlt He. apply subset_size. apply strict_spec_alt. split; [set_solver|].
  intros Heq. assert (e ∈ (set_seq 0 n ∖ V : gset nat)) as Hin.
  { apply elem_of_difference. split; [|done]. apply elem_of_set_seq. lia. }
  rewrite <- Heq in Hin. set_solver.
Qed.

Lemma addNewIds_Caller M E : ContextEdge.Caller (addNewIds M E) = ContextEdge.Caller E.
Proof. reflexivity. Qed.

Lemma addNewIds_none M E :
  GetNewIds M (ContextEdge.ContextIds E) = ∅ -> addNewIds M E = E.
Proof.
  intros H. unfold addNewIds. rewrite H. destruct E. unfold ContextEdge.setContextIds.
  simpl. f_equal. set_solver.
Qed.

Lemma reachFrom_trans g M n e E m e' :
  reachFrom g M n e -> EdgeStore g !! e = Some E ->
  GetNewIds M (ContextEdge.ContextIds E) <> ∅ ->
  ContextEdge.Caller E = Some m ->
  reachFrom g M m e' -> reachFrom g M n e'.
Proof.
  intros Hr HE Hne Hc H. induction H as [e' Nd HN Hin|e1 E1 m1 Nm e' H1 IH HE1 Hne1 Hc1 HN Hin].
  - eapply reach_step; eauto.
  - eapply reach_step; [exact IH|eauto..].
Qed.

Lemma duplicatesAdded_visit g0 M g V e E :
  duplicatesAdded g0 M V g -> e ∉ V -> EdgeStore g0 !! e = Some E ->
  EdgeStore g !! e = Some E
  /\ (GetNewIds M (ContextEdge.ContextIds E) = ∅ -> duplicatesAdded g0 M (V ∪ {[e]}) g)
  /\ exists g', updEdge g e (fun E0 => ContextEdge.setContextIds
                   (ContextEdge.ContextIds E0 ∪ GetNewIds M (ContextEdge.ContextIds E)) E0)
                = Ok g'
       /\ duplicatesAdded g0 M (V ∪ {[e]}) g'.
Proof.
  intros (Hn & Hm & Hl & Hedges) He HE.
  pose proof (Hedges e E HE) as HEg. rewrite decide_False in HEg by done.
  split; [done|]. split.
  - intros Hnone. split; [done|]. split; [done|]. split; [done|].
    intros e' E' HE'. rewrite (Hedges e' E' HE').
    destruct (decide (e' = e)) as [->|Hne].
    + rewrite decide_False by done. rewrite decide_True by set_solver.
      assert (E' = E) as -> by congruence. by rewrite addNewIds_none.
    + destruct (decide (e' ∈ V)).
      * rewrite decide_True by set_solver. done.
      * rewrite decide_False by set_solver. done.
  - destruct (updEdge_total g e (fun E0 => ContextEdge.setContextIds
                   (ContextEdge.ContextIds E0 ∪ GetNewIds M (ContextEdge.ContextIds E)) E0)
                E HEg) as [g' Hg'].
    exists g'. split; [done|].
    pose proof (updEdge_frame _ _ _ _ Hg') as (F1 & F2 & F3 & F4 & F5 & F6 & F7 & F8 & F9 & F10).
    split; [congruence|]. split.
    { destruct Hm as (?&?&?&?&?&?&?). repeat split; congruence. }
    split; [congruence|].
    intros e' E' HE'. rewrite (updEdge_edge _ _ _ _ e' Hg'), (Hedges e' E' HE').
    destruct (decide (e' = e)) as [->|Hne].
    + rewrite decide_False by done. rewrite decide_True by set_solver.
      assert (E' = E) as -> by congruence. done.
    + destruct (decide (e' ∈ V)).
      * rewrite decide_True by set_solver. done.
      * rewrite decide_False by set_solver. done.
Qed.

Section Propagate.
Variable g0 : CallsiteContextGraph.
Variable M : gmap N (gset N).
Hypothesis Hwf : WF g0.

Lemma UpdateCallers_spec (fuel : nat) :
  forall n g V,
  duplicatesAdded g0 M V g -> is_Some (NodeOwner g0 !! n) ->
  (size (set_seq 0 (length (EdgeStore g0)) ∖ V : gset nat) < fuel)%nat ->
  exists g' V',
    UpdateCallers fuel M n (g, V) = Ok (g', V')
    /\ duplicatesAdded g0 M V' g' /\ V ⊆ V'
    /\ (forall Nd e, NodeOwner g0 !! n = Some Nd -> e ∈ ContextNode.CallerEdges Nd -> e ∈ V')
    /\ (forall e E m Nm e', e ∈ V' -> e ∉ V -> EdgeStore g0 !! e = Some E ->
          GetNewIds M (ContextEdge.ContextIds E) <> ∅ ->
          ContextEdge.Caller E = Some m -> NodeOwner g0 !! m = Some Nm ->
          e' ∈ ContextNode.CallerEdges Nm -> e' ∈ V')
    /\ (forall e, e ∈ V' -> e ∉ V -> reachFrom g0 M n e).
Proof using Hwf.
  induction fuel as [|fuel IHf]; intros n g V Hadd [Nd HN] Hfuel; [lia|].
  cbn [UpdateCallers]. cbn [fst].
  assert (NodeOwner g !! n = Some Nd) as HNg by (destruct Hadd as (-> & _); done).
  unfold getNode at 1. rewrite HNg. cbn [mbind Res_bind deref].
  set (body := fun (st : CallsiteContextGraph * gset EdgeId) (Edge : EdgeId) => _).
  assert (forall l g1 V1,
    (forall e, e ∈ l -> e ∈ ContextNode.CallerEdges Nd) ->
    duplicatesAdded g0 M V1 g1 -> V ⊆ V1 ->
    (forall e E m Nm e', e ∈ V1 -> e ∉ V -> EdgeStore g0 !! e = Some E ->
          GetNewIds M (ContextEdge.ContextIds E) <> ∅ ->
          ContextEdge.Caller E = Some m -> NodeOwner g0 !! m = Some Nm ->
          e' ∈ ContextNode.CallerEdges Nm -> e' ∈ V1) ->
    (forall e, e ∈ V1 -> e ∉ V -> reachFrom g0 M n e) ->
    exists g' V',
      foldlM body l (g1, V1) = Ok (g', V')
      /\ duplicatesAdded g0 M V' g' /\ V1 ⊆ V'
      /\ (forall e, e ∈ l -> e ∈ V')
      /\ (forall e E m Nm e', e ∈ V' -> e ∉ V -> EdgeStore g0 !! e = Some E ->
            GetNewIds M (ContextEdge.ContextIds E) <> ∅ ->
            ContextEdge.Caller E = Some m -> NodeOwner g0 !! m = Some Nm ->
            e' ∈ ContextNode.CallerEdges Nm -> e' ∈ V')
      /\ (forall e, e ∈ V' -> e ∉ V -> reachFrom g0 M n e)) as Hloop.
  { induction l as [|e l IHl]; intros g1 V1 Hsub Hadd1 HV Hclo Hsound; cbn [foldlM].
    - exists g1, V1. split; [done|]. split; [done|]. split; [done|].
      split; [intros e He; by apply elem_of_nil in He|]. done.
    - assert (e ∈ ContextNode.CallerEdges Nd) as Hin by (apply Hsub; left).
      assert (forall e', e' ∈ l -> e' ∈ ContextNode.CallerEdges Nd) as Hsub'
        by (intros e' He'; apply Hsub; by right).
      set (rest := foldlM body l). unfold body. cbn beta iota.
      destruct (decide (e ∈ V1)) as [HeV|HeV].
      { cbn [mbind Res_bind].
        destruct (IHl g1 V1 Hsub' Hadd1 HV Hclo Hsound)
          as (g' & V' & Hr & Hadd' & HV' & Hl' & Hclo' & Hsound').
        exists g', V'. split; [done|]. split; [done|]. split; [done|].
        split; [|done]. intros e' [->|He']%elem_of_cons; [set_solver|auto]. }
      destruct (wf_caller g0 Hwf n Nd e HN Hin) as (E & m & Nm & HE & Hcallee & Hcaller & HNm & _).
      destruct (duplicatesAdded_visit g0 M g1 V1 e E Hadd1 HeV HE) as (HEg & Hnone & g2 & Hg2 & Hadd2).
      unfold getEdge. rewrite HEg. cbn [mbind Res_bind deref].
      assert (forall e0, e0 ∈ V1 ∪ {[e]} -> e0 ∉ V -> reachFrom g0 M n e0) as Hsound1.
      { intros e0 [H0| ->%elem_of_singleton]%elem_of_union HnV; [auto|].
        by eapply reach_direct. }
      destruct (decide (GetNewIds M (ContextEdge.ContextIds E) = ∅)) as [Hemp|Hnemp].
      { cbn [mbind Res_bind].
        destruct (IHl g1 (V1 ∪ {[e]}) Hsub' (Hnone Hemp)) as (g' & V' & Hr & Hadd' & HV' & Hl' & Hclo' & Hsound');
          [set_solver| |done|].
        { intros e1 E1 m1 Nm1 e' [H1| ->%elem_of_singleton]%elem_of_union HnV HE1 Hne1 Hc1 HN1 He'.
          - apply elem_of_union. left. eapply Hclo; eauto.
          - congruence. }
        exists g', V'. split; [done|]. split; [done|]. split; [set_solver|].
        split; [|done]. intros e' [->|He']%elem_of_cons; [set_solver|auto]. }
      rewrite Hg2. cbn [mbind Res_bind]. rewrite Hcaller. cbn [deref mbind Res_bind].
      assert ((e < length (EdgeStore g0))%nat) as Helt by (by eapply lookup_lt_Some).
      destruct (IHf m g2 (V1 ∪ {[e]}) Hadd2) as (g3 & V3 & Hr3 & Hadd3 & HV3 & Hall3 & Hclo3 & Hsound3).
      { by eexists. }
      { pose proof (unvisited_insert (length (EdgeStore g0)) V1 e Helt HeV).
        pose proof (unvisited_mono (length (EdgeStore g0)) V V1 HV). lia. }
      fold body. rewrite Hr3. cbn [mbind Res_bind].
      destruct (IHl g3 V3 Hsub' Hadd3) as (g' & V' & Hr & Hadd' & HV' & Hl' & Hclo' & Hsound');
        [set_solver| | |].
      { intros e1 E1 m1 Nm1 e' H1 HnV HE1 Hne1 Hc1 HN1 He'.
        destruct (decide (e1 ∈ V1 ∪ {[e]})) as [Hin1|Hnin1].
        - apply elem_of_union in Hin1 as [Hin1| ->%elem_of_singleton].
          + apply HV3. apply elem_of_union. left. eapply Hclo; eauto.
          + assert (E1 = E) as -> by congruence.
            assert (m1 = m) as -> by congruence.
            eapply Hall3; eauto.
        - eapply Hclo3; eauto. }
      { intros e1 H1 HnV.
        destruct (decide (e1 ∈ V1 ∪ {[e]})) as [Hin1|Hnin1]; [auto|].
        eapply reachFrom_trans; [by eapply reach_direct|exact HE|done|exact Hcaller|].
        by apply Hsound3. }
      exists g', V'. split; [done|]. split; [done|]. split; [set_solver|].
      split; [|done]. intros e' [->|He']%elem_of_cons; [set_solver|auto]. }
  destruct (Hloop (ContextNode.CallerEdges Nd) g V) as (g' & V' & Hr & Hadd' & HV' & Hl' & Hclo' & Hsound');
    [done|done|done| | |].
  { intros e E m Nm e' H1 H2. done. }
  { intros e H1 H2. done. }
  exists g', V'. split; [done|]. split; [done|]. split; [done|].
  split; [|done]. intros Nd' e HN' He. apply Hl'. congruence.
Qed.

End Propagate.

Lemma duplicatesAdded_start g M : duplicatesAdded g M ∅ g.
Proof.
  split; [done|]. split; [apply sameMaps_refl|]. split; [done|].
  intros e E HE. by rewrite decide_False by set_solver.
Qed.

Lemma propagateDuplicateContextIds_spec g M fuel :
  WF g -> (length (EdgeStore g) < fuel)%nat ->
  exists g',
    propagateDuplicateContextIds fuel g M = Ok g'
    /\ NodeOwner g' = NodeOwner g /\ sameMaps g g'
    /\ length (EdgeStore g') = length (EdgeStore g)
    /\ forall e E, EdgeStore g !! e = Some E ->
         (reachFromAlloc g M e -> EdgeStore g' !! e = Some (addNewIds M E))
         /\ (~ reachFromAlloc g M e -> EdgeStore g' !! e = Some E)
         /\ (EdgeStore g' !! e = Some E \/ EdgeStore g' !! e = Some (addNewIds M E)).
Proof.
  intros Hwf Hfuel. unfold propagateDuplicateContextIds.
  assert (forall l g1 V1,
    (forall x, x ∈ l -> x ∈ AllocationCallToContextNodeMap g) ->
    duplicatesAdded g M V1 g1 ->
    (forall e E m Nm e', e ∈ V1 -> EdgeStore g !! e = Some E ->
          GetNewIds M (ContextEdge.ContextIds E) <> ∅ ->
          ContextEdge.Caller E = Some m -> NodeOwner g !! m = Some Nm ->
          e' ∈ ContextNode.CallerEdges Nm -> e' ∈ V1) ->
    (forall e, e ∈ V1 -> reachFromAlloc g M e) ->
    exists g' V',
      foldlM (fun st (Entry : CallInfo * NodeId) => UpdateCallers fuel M Entry.2 st)
             l (g1, V1) = Ok (g', V')
      /\ duplicatesAdded g M V' g' /\ V1 ⊆ V'
      /\ (forall C a Nd e, (C, a) ∈ l -> NodeOwner g !! a = Some Nd ->
            e ∈ ContextNode.CallerEdges Nd -> e ∈ V')
      /\ (forall e E m Nm e', e ∈ V' -> EdgeStore g !! e = Some E ->
            GetNewIds M (ContextEdge.ContextIds E) <> ∅ ->
            ContextEdge.Caller E = Some m -> NodeOwner g !! m = Some Nm ->
            e' ∈ ContextNode.CallerEdges Nm -> e' ∈ V')
      /\ (forall e, e ∈ V' -> reachFromAlloc g M e)) as Hloop.
  { induction l as [|[C a] l IHl]; intros g1 V1 Hsub Hadd1 Hclo Hsound; cbn [foldlM].
    - exists g1, V1. split; [done|]. split; [done|]. split; [done|].
      split; [|done]. intros C a Nd e Hin. by apply elem_of_nil in Hin.
    - assert ((C, a) ∈ AllocationCallToContextNodeMap g) as Hin by (apply Hsub; left).
      destruct (wf_alloc_map g Hwf C a Hin) as (A & HA & _).
      destruct (UpdateCallers_spec g M Hwf fuel a g1 V1 Hadd1)
        as (g2 & V2 & Hr2 & Hadd2 & HV2 & Hall2 & Hclo2 & Hsound2).
      { by eexists. }
      { pose proof (unvisited_mono (length (EdgeStore g)) ∅ V1) as Hm.
        assert (size (set_seq 0 (length (EdgeStore g)) ∖ ∅ : gset nat)
                = length (EdgeStore g)) as Hsz.
        { rewrite difference_empty_L. apply size_set_seq. }
        specialize (Hm ltac:(set_solver)). lia. }
      cbn [snd]. rewrite Hr2. cbn [mbind Res_bind].
      destruct (IHl g2 V2) as (g' & V' & Hr & Hadd' & HV' & Hl' & Hclo' & Hsound').
      { intros x Hx. apply Hsub. by right. }
      { done. }
      { intros e E m Nm e' He HE Hne Hc HN He'.
        destruct (decide (e ∈ V1)); [apply HV2; eapply Hclo; eauto|].
        eapply Hclo2; eauto. }
      { intros e He. destruct (decide (e ∈ V1)); [auto|].
        exists C, a. split; [done|]. by apply Hsound2. }
      exists g', V'. split; [done|]. split; [done|]. split; [set_solver|].
      split; [|done].
      intros C' a' Nd e [[= -> ->]|Hin']%elem_of_cons HN He.
      + apply HV'. eapply Hall2; eauto.
      + eapply Hl'; eauto. }
  destruct (Hloop (AllocationCallToContextNodeMap g) g ∅)
    as (g' & V' & Hr & Hadd' & _ & Hl' & Hclo' & Hsound').
  { done. }
  { apply duplicatesAdded_start. }
  { intros e E m Nm e' He. set_solver. }
  { intros e He. set_solver. }
  rewrite Hr. cbn [mbind Res_bind]. exists g'. split; [done|].
  destruct Hadd' as (Hn & Hm & Hlen & Hedges).
  split; [done|]. split; [done|]. split; [done|].
  assert (forall e, reachFromAlloc g M e -> e ∈ V') as Hcomplete.
  { intros e (C & a & Hin & Hreach).
    induction Hreach as [e Nd HN He|e1 E1 m Nm e H1 IH HE1 Hne Hc HN He].
    - eapply Hl'; eauto.
    - eapply Hclo'; eauto. }
  intros e E HE. rewrite (Hedges e E HE). split; [|split].
  - intros Hr'. rewrite decide_True; [done|]. by apply Hcomplete.
  - intros Hr'. rewrite decide_False; [done|]. intros HV. apply Hr'. by apply Hsound'.
  - destruct (decide (e ∈ V')); [by right|by left].
Qed.

Lemma carriedFrom_carries g id n e :
  carriedFrom g id n e ->
  exists E, EdgeStore g !! e = Some E /\ id ∈ ContextEdge.ContextIds E.
Proof. intros [? ? E ? ? HE Hid|? ? ? ? ? E ? ? ? ? ? HE Hid]; eauto. Qed.

Lemma carriedFrom_ancestor g id n e : carriedFrom g id n e -> ancestorEdge g n e.
Proof.
  induction 1 as [e Nd E HN He HE Hid|e1 E1 m Nm e E H1 IH HE1 Hc HN He HE Hid].
  - by eapply ancestor_direct.
  - by eapply ancestor_step.
Qed.

(** The walk of [UpdateCallers] follows every context id that has
    duplicates. *)
Lemma carriedFrom_reach g M id New n e :
  M !! id = Some New -> New <> ∅ ->
  carriedFrom g id n e -> reachFrom g M n e.
Proof.
  intros HM Hne.
  induction 1 as [e Nd E HN He HE Hid|e1 E1 m Nm e E H1 IH HE1 Hc HN He HE Hid].
  - by eapply reach_direct.
  - eapply reach_step; [exact IH|exact HE1| |exact Hc|exact HN|exact He].
    destruct (carriedFrom_carries _ _ _ _ H1) as (E1' & HE1' & Hid1).
    assert (E1' = E1) as -> by congruence.
    intros Hemp. apply Hne. apply leibniz_equiv. intros x. split; [|set_solver].
    intros Hx. rewrite <- Hemp. apply elem_of_GetNewIds. eauto.
Qed.

(** Claim C8.  [duplicateContextIds] walks its set of old ids, given as the
    sequence [l] of the iteration: while the new ids stay below the two
    keys that the hash containers reserve, it returns, and the old id at
    position [i] gets the context id [LastContextId + 1 + i], an id above
    every id in use; the counter ends [length l] higher; each new id is
    added to the entry of its old id in the map from old to new ids and
    entered in the table with the allocation type of its old id; the
    entries of other old ids, the table below the counter, the nodes and
    the edges stay as they are.
    [propagateDuplicateContextIds] then returns, given enough fuel, a graph
    with the same nodes and maps in which every caller edge that [UpdateCallers]
    reaches from an allocation node has the duplicates of its ids added and
    every other edge is unchanged; so every ancestor caller edge that an
    old id reaches from an allocation node, through caller edges that carry
    it, holds the new ids of that old id; and when every context id is
    such a path, so does every ancestor caller edge of the allocation nodes
    that carries the old id. *)
Theorem duplicateContextIds_propagated :
  (forall (g : CallsiteContextGraph) (l : list N) (M : gmap N (gset N)),
     WF g -> NoDup l ->
     (forall id, id ∈ l -> is_Some (ContextIdToAllocationType g !! id)) ->
     LastContextId g + N.of_nat (length l) < UINT32_MOD - 2 ->
     let L := LastContextId g in
     exists g' M' New,
       duplicateContextIds g l M = Ok (g', M', New)
       /\ LastContextId g' = L + N.of_nat (length l)
       /\ New = list_to_set (freshIds L (length l))
       /\ (forall n, n ∈ New -> L < n /\ ContextIdToAllocationType g !! n = None)
       /\ (forall i old, l !! i = Some old ->
             M' !! old = Some (default ∅ (M !! old) ∪ {[L + 1 + N.of_nat i]})
             /\ ContextIdToAllocationType g' !! (L + 1 + N.of_nat i)
                = ContextIdToAllocationType g !! old)
       /\ (forall old, old ∉ l -> M' !! old = M !! old)
       /\ (forall id, id <= L ->
             ContextIdToAllocationType g' !! id = ContextIdToAllocationType g !! id)
       /\ NodeOwner g' = NodeOwner g /\ EdgeStore g' = EdgeStore g)
  /\ (forall (g : CallsiteContextGraph) (M : gmap N (gset N)) (fuel : nat),
        WF g -> (length (EdgeStore g) < fuel)%nat ->
        exists g',
          propagateDuplicateContextIds fuel g M = Ok g'
          /\ NodeOwner g' = NodeOwner g /\ sameMaps g g'
          /\ length (EdgeStore g') = length (EdgeStore g)
          /\ (forall e E, EdgeStore g !! e = Some E ->
                (reachFromAlloc g M e -> EdgeStore g' !! e = Some (addNewIds M E))
                /\ (~ reachFromAlloc g M e -> EdgeStore g' !! e = Some E))
          /\ (forall e old New, carriedFromAlloc g old e -> M !! old = Some New ->
                exists E', EdgeStore g' !! e = Some E'
                  /\ old ∈ ContextEdge.ContextIds E' /\ New ⊆ ContextEdge.ContextIds E')
          /\ (contextsArePaths g ->
              forall e E old New, ancestorOfAlloc g e -> EdgeStore g !! e = Some E ->
                old ∈ ContextEdge.ContextIds E -> M !! old = Some New ->
                exists E', EdgeStore g' !! e = Some E'
                  /\ old ∈ ContextEdge.ContextIds E' /\ New ⊆ ContextEdge.ContextIds E')).
Proof.
  split.
  - intros g l M Hwf Hnd Hin Hno L. unfold duplicateContextIds.
    destruct (duplicateContextIds_fold l g M ∅ Hnd)
      as (g' & M' & Hr & H1 & H3 & H4 & H5 & H6 & H7 & H8).
    { intros id t Ht. by apply (wf_table g Hwf) in Ht as [_ ?]. }
    { done. }
    { done. }
    exists g', M', (list_to_set (freshIds L (length l))).
    split; [rewrite Hr; f_equal; f_equal; set_solver|].
    split; [done|]. split; [done|]. split.
    { intros n Hn.
      apply elem_of_list_to_set, list_elem_of_lookup in Hn as [i Hi].
      apply freshIds_lookup in Hi as [-> Hi]. split; [lia|].
      destruct (ContextIdToAllocationType g !! (L + 1 + N.of_nat i)) as [t|] eqn:Ht; [|done].
      apply (wf_table g Hwf) in Ht as [_ Ht]. fold L in Ht. lia. }
    split; [done|]. split; [done|]. done.
  - intros g M fuel Hwf Hfuel.
    destruct (propagateDuplicateContextIds_spec g M fuel Hwf Hfuel)
      as (g' & Hr & Hn & Hm & Hl & Hedges).
    exists g'. split; [done|]. split; [done|]. split; [done|]. split; [done|].
    split; [intros e E HE; destruct (Hedges e E HE) as (? & ? & _); done|].
    assert (forall e old New, carriedFromAlloc g old e -> M !! old = Some New ->
              exists E', EdgeStore g' !! e = Some E'
                /\ old ∈ ContextEdge.ContextIds E' /\ New ⊆ ContextEdge.ContextIds E')
      as Hcarried.
    { intros e old New (C & a & Hin & Hc) HM.
      destruct (carriedFrom_carries _ _ _ _ Hc) as (E & HE & Hold).
      destruct (Hedges e E HE) as (Hyes & Hno & Hor).
      destruct (decide (New = ∅)) as [->|Hne].
      - destruct Hor as [Hsame|Hadd].
        + exists E. split; [done|]. split; [done|set_solver].
        + exists (addNewIds M E). split; [done|]. split; [|set_solver].
          unfold addNewIds. simpl. set_solver.
      - exists (addNewIds M E). split.
        + apply Hyes. exists C, a. split; [done|]. by eapply carriedFrom_reach.
        + split; [unfold addNewIds; simpl; set_solver|].
          intros x Hx. unfold addNewIds. simpl.
          apply elem_of_union. right. apply elem_of_GetNewIds. eauto. }
    split; [exact Hcarried|].
    intros Hpaths e E old New Hanc HE Hold HM.
    apply (Hcarried e old New); [|done]. by eapply Hpaths.
Qed.

Lemma duplicateContextIds_propagated_witness :
  (exists g' M', duplicateContextIds plainExample [1; 2] ∅ = Ok (g', M', {[3; 4]})
                 /\ M' !! 1 = Some {[3]} /\ M' !! 2 = Some {[4]})
  /\ exists g', propagateDuplicateContextIds 4 plainExample {[1 := {[3]}; 2 := {[4]}]}
               = Ok g'.
Proof.
  split.
  - destruct (proj1 duplicateContextIds_propagated plainExample [1; 2] ∅)
      as (g' & M' & New & Hr & _ & HNew & _ & HM & _).
    + exact WF_plainExample.
    + apply (bool_decide_unpack _). vm_compute. reflexivity.
    + intros id Hid. repeat (apply elem_of_cons in Hid as [->|Hid]);
        [..|by apply elem_of_nil in Hid]; vm_compute; eauto.
    + vm_compute. reflexivity.
    + exists g', M'. split.
      * rewrite Hr. f_equal. f_equal. rewrite HNew. apply leibniz_equiv.
        intros x. vm_compute freshIds. set_solver.
      * destruct (HM 0%nat 1 eq_refl) as [H1 _].
        destruct (HM 1%nat 2 eq_refl) as [H2 _].
        split; [rewrite H1|rewrite H2]; f_equal; apply leibniz_equiv;
          rewrite lookup_empty; simpl; set_solver.
  - destruct (proj2 duplicateContextIds_propagated plainExample
                {[1 := {[3]}; 2 := {[4]}]} 4%nat) as (g' & H & _).
    + exact WF_plainExample.
    + simpl. lia.
    + exists g'. exact H.
Defined.

(** ** The first callsite clone is assigned to the original function *)

Lemma recordCallers_fold g Func l :
  forall st,
  graph st = g ->
  (forall e, e ∈ l -> exists E c Cn, EdgeStore g !! e = Some E
     /\ ContextEdge.Caller E = Some c /\ NodeOwner g !! c = Some Cn) ->
  exists st',
    foldlM (fun st CE =>
              E ← getEdge (graph st) CE;
              Caller ← deref (ContextEdge.Caller E);
              cn ← getNode (graph st) Caller;
              if negb (ContextNode.hasCall cn) then Ok st
              else Ok (RecordCalleeFuncOfCallsite st Caller Func)) l st = Ok st'
    /\ graph st' = g
    /\ FuncCloneInfos st' = FuncCloneInfos st
    /\ FuncCloneToCurNodeCloneMap st' = FuncCloneToCurNodeCloneMap st
    /\ ClonesWorklist st' = ClonesWorklist st
    /\ NodeCloneCount st' = NodeCloneCount st
    /\ Changed st' = Changed st
    /\ (forall c, CallsiteToCalleeFuncCloneMap st !! c = Some Func ->
          CallsiteToCalleeFuncCloneMap st' !! c = Some Func)
    /\ (forall e E c Cn, e ∈ l -> EdgeStore g !! e = Some E ->
          ContextEdge.Caller E = Some c -> NodeOwner g !! c = Some Cn ->
          ContextNode.hasCall Cn = true ->
          CallsiteToCalleeFuncCloneMap st' !! c = Some Func)
    /\ (forall c,
          (forall e E Cn, e ∈ l -> EdgeStore g !! e = Some E ->
             ContextEdge.Caller E = Some c -> NodeOwner g !! c = Some Cn ->
             ContextNode.hasCall Cn = false) ->
          CallsiteToCalleeFuncCloneMap st' !! c = CallsiteToCalleeFuncCloneMap st !! c).
Proof.
  induction l as [|e l IH]; intros st Hg Hvalid; cbn [foldlM].
  - exists st. repeat split; try done.
    intros e E c Cn He. by apply elem_of_nil in He.
  - destruct (Hvalid e) as (E & c & Cn & HE & Hc & HCn); [by left|].
    cbn beta.
    assert (getEdge (graph st) e = Ok E) as -> by (apply getEdge_Ok; by rewrite Hg).
    cbn [mbind Res_bind]. rewrite Hc. cbn [mbind Res_bind deref].
    assert (getNode (graph st) c = Ok Cn) as -> by (apply getNode_Ok; by rewrite Hg).
    cbn [mbind Res_bind].
    destruct (ContextNode.hasCall Cn) eqn:Hcall; cbn [negb].
    + destruct (IH (RecordCalleeFuncOfCallsite st c Func)) as (st' & Hr & H1 & H2 & H3 & H4 & H5 & H6 & H7 & H8 & H9).
      { done. }
      { intros e' He'. apply Hvalid. by right. }
      exists st'. split; [exact Hr|]. repeat split; try done.
      * intros c' Hc'. apply H7. simpl.
        destruct (decide (c' = c)) as [->|]; [apply lookup_insert_eq|].
        by rewrite lookup_insert_ne.
      * intros e' E' c' Cn' [->|He']%elem_of_cons HE' Hc' HCn' Hcall'.
        -- assert (E' = E) as -> by congruence. assert (c' = c) as -> by congruence.
           apply H7. simpl. apply lookup_insert_eq.
        -- eauto.
      * intros c' Hc'. rewrite H9.
        -- simpl. apply lookup_insert_ne. intros ->.
           specialize (Hc' e E Cn (ltac:(by left)) HE Hc HCn). congruence.
        -- intros e2 E2 Cn2 He2. apply Hc'. by right.
    + destruct (IH st) as (st' & Hr & H1 & H2 & H3 & H4 & H5 & H6 & H7 & H8 & H9).
      { done. }
      { intros e' He'. apply Hvalid. by right. }
      exists st'. split; [exact Hr|]. repeat split; try done.
      * intros e' E' c' Cn' [->|He']%elem_of_cons HE' Hc' HCn' Hcall'.
        -- assert (E' = E) as -> by congruence. assert (c' = c) as -> by congruence.
           congruence.
        -- eauto.
      * intros c' Hc'. apply H9. intros e2 E2 Cn2 He2. apply Hc'. by right.
Qed.

(** Claim C9: when a function has no function clones yet, the first
    callsite clone taken from the worklist of a call is assigned to the
    original function, and every caller of that clone that has a call is
    recorded as calling the original function.  The turn of the loop
    returns; it changes no edge and no edge list, sets the call of the
    clone to the call, leaves the entry of every other node in
    [CallsiteToCalleeFuncCloneMap] as it was, and makes the original
    function the only entry of [FuncCloneInfos]. *)
Theorem assignFunctions_first_clone (opts : Options)
    (cloneFunctionForCallsite :
       FuncInfo -> CallInfo -> list CallInfo -> N -> FuncInfo * list (CallInfo * CallInfo))
    (OrigFunc : FuncInfo) (CallsWithMetadata : list CallInfo) (Call : CallInfo)
    (Node Clone : NodeId) (st : AssignState) :
  WF (graph st) ->
  is_Some (NodeOwner (graph st) !! Node) -> is_Some (NodeOwner (graph st) !! Clone) ->
  funcCloneNo OrigFunc = 0 ->
  NodeCloneCount st = 0 -> FuncCloneInfos st = [] ->
  exists st',
    assignFunctions_clone opts cloneFunctionForCallsite OrigFunc CallsWithMetadata
      Call Node Clone st = Ok st'
    /\ FuncCloneInfos st' = [mkFuncCloneInfo OrigFunc []]
    /\ mapVectorLookup OrigFunc (FuncCloneToCurNodeCloneMap st') = Some Clone
    /\ NodeCloneCount st' = 1
    /\ ClonesWorklist st' = ClonesWorklist st /\ Changed st' = Changed st
    /\ EdgeStore (graph st') = EdgeStore (graph st)
    /\ (forall n Nd, NodeOwner (graph st) !! n = Some Nd ->
          exists Nd', NodeOwner (graph st') !! n = Some Nd'
            /\ ContextNode.CalleeEdges Nd' = ContextNode.CalleeEdges Nd
            /\ ContextNode.CallerEdges Nd' = ContextNode.CallerEdges Nd
            /\ ContextNode.Clones Nd' = ContextNode.Clones Nd
            /\ ContextNode.CloneOf Nd' = ContextNode.CloneOf Nd
            /\ ContextNode.AllocTypes Nd' = ContextNode.AllocTypes Nd
            /\ ContextNode.Call Nd' = if decide (n = Clone) then Call else ContextNode.Call Nd)
    /\ (forall Cl e E c Cn,
          NodeOwner (graph st') !! Clone = Some Cl -> e ∈ ContextNode.CallerEdges Cl ->
          EdgeStore (graph st') !! e = Some E -> ContextEdge.Caller E = Some c ->
          NodeOwner (graph st') !! c = Some Cn -> ContextNode.hasCall Cn = true ->
          CallsiteToCalleeFuncCloneMap st' !! c = Some OrigFunc)
    /\ (forall c,
          CallsiteToCalleeFuncCloneMap st' !! c = Some OrigFunc
          \/ CallsiteToCalleeFuncCloneMap st' !! c = CallsiteToCalleeFuncCloneMap st !! c).
Proof.
  intros Hwf [Nd HNode] [Cl HClone] Hno Hcount Hinfos.
  unfold assignFunctions_clone.
  cbn [NodeCloneCount setNodeCloneCount FuncCloneInfos]. rewrite Hcount, Hinfos.
  change (wrap32 (0 + 1)) with 1. change (N.of_nat (length []) <? 1) with true.
  cbn iota. unfold newFunctionClone.
  cbn [NodeCloneCount setNodeCloneCount FuncCloneInfos]. rewrite Hinfos.
  change (1 =? 1) with true. cbn iota.
  unfold AssignCallsiteCloneToFuncClone.
  cbn [FuncCloneInfos setFuncCloneInfos setFuncCloneToCurNodeCloneMap graph app].
  rewrite Hno. change ([mkFuncCloneInfo OrigFunc []] !! N.to_nat 0)
    with (Some (mkFuncCloneInfo OrigFunc [])).
  cbn [deref mbind Res_bind CallMap].
  change (graph (setNodeCloneCount 1 st)) with (graph st).
  change (callClone [] Call) with Call.
  destruct (updNode_WF (graph st) Clone (ContextNode.setCall Call) Hwf)
    as (g1 & Hg1 & Hwf1 & Hm1 & Hl1); [by eexists|done|done|].
  rewrite Hg1. cbn [mbind Res_bind].
  set (f2 := fun n : ContextNode.t => ContextNode.setMatchingCalls _ n).
  destruct (updNode_WF g1 Node f2 Hwf1) as (g2 & Hg2 & Hwf2 & Hm2 & Hl2);
    [by eapply valid_length; [|eexists]|done|done|].
  rewrite Hg2. cbn [mbind Res_bind].
  pose proof (updNode_frame _ _ _ _ Hg1) as (He1 & _).
  pose proof (updNode_frame _ _ _ _ Hg2) as (He2 & _).
  assert (forall n Nd0, NodeOwner (graph st) !! n = Some Nd0 ->
            exists Nd', NodeOwner g2 !! n = Some Nd'
              /\ ContextNode.CalleeEdges Nd' = ContextNode.CalleeEdges Nd0
              /\ ContextNode.CallerEdges Nd' = ContextNode.CallerEdges Nd0
              /\ ContextNode.Clones Nd' = ContextNode.Clones Nd0
              /\ ContextNode.CloneOf Nd' = ContextNode.CloneOf Nd0
              /\ ContextNode.AllocTypes Nd' = ContextNode.AllocTypes Nd0
              /\ ContextNode.Call Nd' = if decide (n = Clone) then Call
                                        else ContextNode.Call Nd0) as Hnodes.
  { intros n Nd0 HN.
    rewrite (updNode_node _ _ _ _ n Hg2), (updNode_node _ _ _ _ n Hg1), HN.
    destruct (decide (n = Node)), (decide (n = Clone)); simpl;
      eexists; (split; [reflexivity|]); repeat split. }
  unfold recordCallers.
  destruct (Hnodes Clone Cl HClone) as (Cl2 & HCl2 & _ & Hcr2 & _).
  set (st1 := setGraph g2 _).
  assert (getNode (graph st1) Clone = Ok Cl2) as -> by (by apply getNode_Ok).
  cbn [mbind Res_bind].
  destruct (recordCallers_fold g2 OrigFunc (ContextNode.CallerEdges Cl2) st1)
    as (st' & Hr & H1 & H2 & H3 & H4 & H5 & H6 & H7 & H8 & H9).
  { done. }
  { intros e He. destruct (wf_caller g2 Hwf2 Clone Cl2 e HCl2 He)
      as (E & c & Cn & HE & _ & Hc & HCn & _). by exists E, c, Cn. }
  rewrite Hr. cbn [mbind Res_bind]. exists st'. split; [done|].
  split; [by rewrite H2|]. split.
  { rewrite H3. unfold st1. cbn.
    clear. induction (FuncCloneToCurNodeCloneMap st) as [|[k v] l IH]; simpl.
    - by rewrite decide_True.
    - destruct (decide (k = OrigFunc)); simpl.
      + by rewrite decide_True.
      + by rewrite decide_False. }
  split; [by rewrite H5|]. split; [by rewrite H4|]. split; [by rewrite H6|].
  rewrite H1. split; [congruence|]. split; [exact Hnodes|]. split.
  - intros Cl' e E c Cn HCl' He HE Hc HCn Hcall.
    assert (Cl' = Cl2) as -> by congruence. eapply H8; eauto.
  - intros c.
    destruct (CallsiteToCalleeFuncCloneMap st' !! c) as [F|] eqn:HF.
    + destruct (decide (F = OrigFunc)) as [->|Hne]; [by left|]. right.
      rewrite <- HF. apply H9. intros e E Cn He HE Hc HCn.
      destruct (ContextNode.hasCall Cn) eqn:Hcall; [|done].
      rewrite (H8 e E c Cn He HE Hc HCn Hcall) in HF. congruence.
    + right. rewrite <- HF. apply H9. intros e E Cn He HE Hc HCn.
      destruct (ContextNode.hasCall Cn) eqn:Hcall; [|done].
      rewrite (H8 e E c Cn He HE Hc HCn Hcall) in HF. congruence.
Qed.

Lemma WF_recursionExample_cloned : WF recursionExample_cloned.
Proof. apply WFb_sound. vm_compute. reflexivity. Qed.

Lemma assignFunctions_first_clone_witness :
  exists st',
    assignFunctions_clone defaultOptions IndexCallsiteContextGraph_cloneFunctionForCallsite
      (mkFuncInfo (Some 100) 0) [mkCallInfo (Some 1) 0] (mkCallInfo (Some 1) 0)
      0%nat 0%nat assignExample = Ok st'
    /\ CallsiteToCalleeFuncCloneMap st' !! 1%nat = Some (mkFuncInfo (Some 100) 0).
Proof.
  destruct (assignFunctions_first_clone defaultOptions
              IndexCallsiteContextGraph_cloneFunctionForCallsite
              (mkFuncInfo (Some 100) 0) [mkCallInfo (Some 1) 0] (mkCallInfo (Some 1) 0)
              0%nat 0%nat assignExample)
    as (st' & Hr & _ & _ & _ & _ & _ & He & Hn & Hcallers & _).
  - exact WF_recursionExample_cloned.
  - simpl. eauto.
  - simpl. eauto.
  - reflexivity.
  - reflexivity.
  - reflexivity.
  - exists st'. split; [exact Hr|].
    destruct (Hn 0%nat _ eq_refl) as (Cl & HCl & _ & Hcr & _).
    destruct (Hn 1%nat _ eq_refl) as (Cn & HCn & _ & _ & _ & _ & _ & Hcall).
    eapply (Hcallers Cl 0%nat _ 1%nat Cn HCl).
    + rewrite Hcr. simpl. by left.
    + rewrite He. reflexivity.
    + reflexivity.
    + exact HCn.
    + unfold ContextNode.hasCall. rewrite Hcall. reflexivity.
Defined.

(** ** Call sites without a matching call *)





(* ================================================================== *)
(** * Part III: the graph operations of the cloning step               *)
(* ================================================================== *)

(** ** Well-formedness with the edge store *)

Lemma isRemoved_links (E E' : ContextEdge.t) :
  ContextEdge.Callee E' = ContextEdge.Callee E ->
  ContextEdge.Caller E' = ContextEdge.Caller E ->
  ContextEdge.isRemoved E' = ContextEdge.isRemoved E.
Proof. unfold ContextEdge.isRemoved. by intros -> ->. Qed.

Lemma isRemoved_false (E : ContextEdge.t) c :
  ContextEdge.Caller E = Some c -> ContextEdge.isRemoved E = false.
Proof.
  unfold ContextEdge.isRemoved. intros ->. rewrite bool_decide_true; [done|]. right. eauto.
Qed.

Lemma isRemoved_true (E : ContextEdge.t) :
  ContextEdge.isRemoved E = true ->
  ContextEdge.Callee E = None /\ ContextEdge.Caller E = None.
Proof.
  unfold ContextEdge.isRemoved. case_bool_decide as H; [done|]. intros _.
  destruct (ContextEdge.Callee E), (ContextEdge.Caller E); try done;
    exfalso; apply H; eauto.
Qed.

(** The fields of [WF], from [WFS]. *)
Lemma wfs_callee g :
  WFS g ->
  forall n Nd e,
    NodeOwner g !! n = Some Nd -> e ∈ ContextNode.CalleeEdges Nd ->
    exists E d D,
      EdgeStore g !! e = Some E /\ ContextEdge.Caller E = Some n
      /\ ContextEdge.Callee E = Some d /\ NodeOwner g !! d = Some D
      /\ e ∈ ContextNode.CallerEdges D.
Proof. intros H. exact (wf_callee g (wfs_wf g H)). Qed.

Lemma wfs_caller g :
  WFS g ->
  forall n Nd e,
    NodeOwner g !! n = Some Nd -> e ∈ ContextNode.CallerEdges Nd ->
    exists E c C,
      EdgeStore g !! e = Some E /\ ContextEdge.Callee E = Some n
      /\ ContextEdge.Caller E = Some c /\ NodeOwner g !! c = Some C
      /\ e ∈ ContextNode.CalleeEdges C.
Proof. intros H. exact (wf_caller g (wfs_wf g H)). Qed.

Lemma wfs_nodup_callee g :
  WFS g ->
  forall n Nd,
    NodeOwner g !! n = Some Nd -> NoDup (ContextNode.CalleeEdges Nd).
Proof. intros H. exact (wf_nodup_callee g (wfs_wf g H)). Qed.

Lemma wfs_nodup_caller g :
  WFS g ->
  forall n Nd,
    NodeOwner g !! n = Some Nd -> NoDup (ContextNode.CallerEdges Nd).
Proof. intros H. exact (wf_nodup_caller g (wfs_wf g H)). Qed.

Lemma wfs_cloneOf g :
  WFS g ->
  forall n Nd o,
    NodeOwner g !! n = Some Nd -> ContextNode.CloneOf Nd = Some o ->
    exists O, NodeOwner g !! o = Some O /\ ContextNode.CloneOf O = None.
Proof. intros H. exact (wf_cloneOf g (wfs_wf g H)). Qed.

Lemma wfs_clones g :
  WFS g ->
  forall n Nd c,
    NodeOwner g !! n = Some Nd -> c ∈ ContextNode.Clones Nd ->
    exists C, NodeOwner g !! c = Some C /\ ContextNode.CloneOf C = Some n.
Proof. intros H. exact (wf_clones g (wfs_wf g H)). Qed.

Lemma wfs_ids g :
  WFS g ->
  forall n Nd e E id,
    NodeOwner g !! n = Some Nd -> e ∈ ContextNode.CallerEdges Nd ->
    EdgeStore g !! e = Some E -> id ∈ ContextEdge.ContextIds E ->
    exists t, ContextIdToAllocationType g !! id = Some t
              /\ N.lor (ContextEdge.AllocTypes E) t = ContextEdge.AllocTypes E.
Proof. intros H. exact (wf_ids g (wfs_wf g H)). Qed.

Lemma wfs_table g :
  WFS g ->
  forall id t,
    ContextIdToAllocationType g !! id = Some t ->
    (t = AllocationType.NotCold \/ t = AllocationType.Cold) /\ id <= LastContextId g.
Proof. intros H. exact (wf_table g (wfs_wf g H)). Qed.

Lemma wfs_node_types g :
  WFS g ->
  forall n Nd,
    NodeOwner g !! n = Some Nd -> ContextNode.AllocTypes Nd <= 3.
Proof. intros H. exact (wf_node_types g (wfs_wf g H)). Qed.

Lemma wfs_edge_types g :
  WFS g ->
  forall e E,
    EdgeStore g !! e = Some E -> ContextEdge.AllocTypes E <= 3.
Proof. intros H. exact (wf_edge_types g (wfs_wf g H)). Qed.

Lemma wfs_alloc_map g :
  WFS g ->
  forall C a,
    (C, a) ∈ AllocationCallToContextNodeMap g ->
    exists A, NodeOwner g !! a = Some A /\ ContextNode.CloneOf A = None.
Proof. intros H. exact (wf_alloc_map g (wfs_wf g H)). Qed.

Lemma wfs_stack_map g :
  WFS g ->
  forall s n,
    StackEntryIdToContextNodeMap g !! s = Some n -> is_Some (NodeOwner g !! n).
Proof. intros H. exact (wf_stack_map g (wfs_wf g H)). Qed.

(** An edge keeps its two ends and gets context ids and a type that fit. *)
Lemma WFS_updEdge_info g e f g' E :
  WFS g -> EdgeStore g !! e = Some E -> updEdge g e f = Ok g' ->
  ContextEdge.Callee (f E) = ContextEdge.Callee E ->
  ContextEdge.Caller (f E) = ContextEdge.Caller E ->
  ContextEdge.AllocTypes (f E) <= 3 ->
  (forall id, id ∈ ContextEdge.ContextIds (f E) ->
     exists t, ContextIdToAllocationType g !! id = Some t
               /\ N.lor (ContextEdge.AllocTypes (f E)) t = ContextEdge.AllocTypes (f E)) ->
  WFS g'.
Proof.
  intros Hwf HE Hupd Hcallee Hcaller Hty Hids.
  split; [by eapply (WF_updEdge_info g e f g' E); [apply Hwf|..]|].
  pose proof (updEdge_frame _ _ _ _ Hupd) as (Hnodes & _). rewrite Hnodes.
  intros e' E' HE'. rewrite (updEdge_edge _ _ _ _ e' Hupd) in HE'.
  destruct (decide (e' = e)) as [->|].
  - rewrite HE in HE'. simpl in HE'. injection HE' as <-.
    rewrite (isRemoved_links E (f E)), Hcallee, Hcaller by done.
    apply (wfs_store g Hwf e E HE).
  - apply (wfs_store g Hwf e' E' HE').
Qed.

(** A node keeps its clone links and its edges, possibly in another order,
    and gets a type within [NotCold|Cold]. *)
Lemma WFS_updNode_info g n f g' Nd :
  WFS g -> NodeOwner g !! n = Some Nd -> updNode g n f = Ok g' ->
  ContextNode.CalleeEdges (f Nd) ≡ₚ ContextNode.CalleeEdges Nd ->
  ContextNode.CallerEdges (f Nd) ≡ₚ ContextNode.CallerEdges Nd ->
  ContextNode.Clones (f Nd) = ContextNode.Clones Nd ->
  ContextNode.CloneOf (f Nd) = ContextNode.CloneOf Nd ->
  ContextNode.AllocTypes (f Nd) <= 3 ->
  WFS g'.
Proof.
  intros Hwf HN Hupd Hce Hcr Hcl Hco Hty.
  split; [by eapply (WF_updNode_info g n f g' Nd); [apply Hwf|..]|].
  pose proof (updNode_frame _ _ _ _ Hupd) as (Hedges & _). rewrite Hedges.
  intros e E HE.
  destruct (wfs_store g Hwf e E HE)
    as [Hr|(c & d & C & D & Hc & Hd & HC & HeC & HD & HeD)]; [by left|right].
  assert (forall m M, NodeOwner g !! m = Some M ->
            exists M', NodeOwner g' !! m = Some M'
                      /\ ContextNode.CalleeEdges M' ≡ₚ ContextNode.CalleeEdges M
                      /\ ContextNode.CallerEdges M' ≡ₚ ContextNode.CallerEdges M) as Hfwd.
  { intros m M HM. rewrite (updNode_node _ _ _ _ m Hupd).
    destruct (decide (m = n)) as [->|].
    - rewrite HN in HM. injection HM as <-. rewrite HN. simpl.
      exists (f Nd). repeat split; done.
    - exists M. repeat split; done. }
  destruct (Hfwd c C HC) as (C' & HC' & Hp1 & _).
  destruct (Hfwd d D HD) as (D' & HD' & _ & Hp2).
  exists c, d, C', D'. rewrite Hp1, Hp2. done.
Qed.

(** Well-formedness of a graph whose nodes are those of a well-formed graph
    up to their edge lists and types, once its edges are linked. *)
Lemma WFS_relink g g' :
  WFS g -> sameMaps g g' ->
  (forall n Nd', NodeOwner g' !! n = Some Nd' ->
     exists Nd, NodeOwner g !! n = Some Nd /\ sameNodeInfo Nd Nd') ->
  (forall n Nd, NodeOwner g !! n = Some Nd -> is_Some (NodeOwner g' !! n)) ->
  (forall n Nd', NodeOwner g' !! n = Some Nd' ->
     ContextNode.AllocTypes Nd' <= 3
     /\ NoDup (ContextNode.CalleeEdges Nd') /\ NoDup (ContextNode.CallerEdges Nd')) ->
  (forall n Nd' e, NodeOwner g' !! n = Some Nd' -> e ∈ ContextNode.CalleeEdges Nd' ->
     exists E d D,
       EdgeStore g' !! e = Some E /\ ContextEdge.Caller E = Some n
       /\ ContextEdge.Callee E = Some d /\ NodeOwner g' !! d = Some D
       /\ e ∈ ContextNode.CallerEdges D) ->
  (forall n Nd' e, NodeOwner g' !! n = Some Nd' -> e ∈ ContextNode.CallerEdges Nd' ->
     exists E c C,
       EdgeStore g' !! e = Some E /\ ContextEdge.Callee E = Some n
       /\ ContextEdge.Caller E = Some c /\ NodeOwner g' !! c = Some C
       /\ e ∈ ContextNode.CalleeEdges C
       /\ idsTyped g (ContextEdge.AllocTypes E) (ContextEdge.ContextIds E)) ->
  (forall e E, EdgeStore g' !! e = Some E -> ContextEdge.AllocTypes E <= 3) ->
  (forall e E, EdgeStore g' !! e = Some E ->
     ContextEdge.isRemoved E = true
     \/ exists c d C D,
          ContextEdge.Caller E = Some c /\ ContextEdge.Callee E = Some d
          /\ NodeOwner g' !! c = Some C /\ e ∈ ContextNode.CalleeEdges C
          /\ NodeOwner g' !! d = Some D /\ e ∈ ContextNode.CallerEdges D) ->
  WFS g'.
Proof.
  intros Hwf Hmaps Hback Hfwd Hnode Hcallee Hcaller Hety Hst.
  split; [|exact Hst]. by apply (WF_relink g g' (wfs_wf g Hwf) Hmaps).
Qed.

Lemma WFS_edgeAdded g g' c d t S :
  WFS g -> edgeAdded g g' c d t S ->
  is_Some (NodeOwner g !! c) -> is_Some (NodeOwner g !! d) ->
  t <= 3 -> idsTyped g t S ->
  WFS g'.
Proof.
  intros Hwf Hadd Hc Hd Ht Hty.
  split; [by apply (WF_edgeAdded g g' c d t S (wfs_wf g Hwf))|].
  destruct Hadd as (Hmaps & Hedges & Hlen & Hnodes). destruct Hc as [C HC], Hd as [D HD].
  set (e0 := length (EdgeStore g)) in *.
  intros e E HE. rewrite Hedges in HE. apply lookup_app_Some in HE as [HE|[Hge HE]].
  - destruct (wfs_store g Hwf e E HE)
      as [Hr|(c1 & d1 & C1 & D1 & Hc & Hd & HC1 & HeC & HD1 & HeD)]; [by left|right].
    destruct (Hnodes c1 C1 HC1) as (C1' & HC1' & _ & _ & Hce1 & _).
    destruct (Hnodes d1 D1 HD1) as (D1' & HD1' & _ & _ & _ & Hcr1).
    exists c1, d1, C1', D1'. rewrite Hce1, Hcr1.
    repeat split; try done; apply elem_of_app; by left.
  - apply list_lookup_singleton_Some in HE as [Hz <-]. right.
    assert (e = e0) as -> by (unfold e0; lia).
    destruct (Hnodes c C HC) as (C' & HC' & _ & _ & Hce1 & _).
    destruct (Hnodes d D HD) as (D' & HD' & _ & _ & _ & Hcr1).
    exists c, d, C', D'. rewrite Hce1, Hcr1, !decide_True by done.
    repeat split; try done; apply elem_of_app; right; by apply list_elem_of_singleton.
Qed.

(** The checker for [WFS] is sound. *)
Lemma WFSb_sound g : WFSb g = true -> WFS g.
Proof.
  unfold WFSb. intros [H Hstore]%andb_true_iff.
  split; [by apply WFb_sound|].
  intros e E HE.
  assert ((e, E) ∈ imap pair (EdgeStore g)) as Hin.
  { apply list_elem_of_lookup. exists e. rewrite list_lookup_imap, HE. done. }
  pose proof (forallb_elem _ _ _ Hstore Hin) as Hb. simpl in Hb.
  apply orb_true_iff in Hb as [Hb|Hb]; [by left|right].
  destruct (ContextEdge.Caller E) as [c|] eqn:Hc; [|done].
  destruct (ContextEdge.Callee E) as [d|] eqn:Hd; [|done].
  destruct (NodeOwner g !! c) as [C|] eqn:HC; [|done].
  destruct (NodeOwner g !! d) as [D|] eqn:HD; [|done].
  apply andb_true_iff in Hb as [Hb1 Hb2].
  apply bool_decide_eq_true in Hb1, Hb2. exists c, d, C, D. repeat split; done.
Qed.

Lemma WFS_plainExample : WFS plainExample.
Proof. apply WFSb_sound. vm_compute. reflexivity. Qed.

Lemma WFS_recursionExample : WFS recursionExample.
Proof. apply WFSb_sound. vm_compute. reflexivity. Qed.

Lemma WFS_unmatchedExample : WFS unmatchedExample.
Proof. apply WFSb_sound. vm_compute. reflexivity. Qed.

(** ** The parts of the cloning step put together *)

Lemma moveEdgeToExistingCalleeClone_parts opts g Edge NewCallee NewClone
    (ContextIdsToMove : gset N) :
  moveEdgeToExistingCalleeClone opts g Edge NewCallee NewClone ContextIdsToMove
  = (
    E ← getEdge g Edge;
    let EdgeIsRecursive := bool_decide (ContextEdge.Callee E = ContextEdge.Caller E) in
    let OldCallee := ContextEdge.Callee E in
    (* We might already have an edge to the new callee from earlier cloning
       for a different allocation. If one exists we will reuse it. *)
    ExistingEdgeToNewCallee ← findEdgeFromCaller g NewCallee (ContextEdge.Caller E);
    (* Callers will pass an empty ContextIdsToMove set when they want to move
       the edge. Copy in Edge's ids for simplicity. *)
    let ContextIdsToMove :=
      if decide (ContextIdsToMove = ∅) then ContextEdge.ContextIds E else ContextIdsToMove in
    (* If we are moving all of Edge's ids, then just move the whole Edge.
       Otherwise only move the specified subset, to a new edge if needed. *)
    g ← moveEdgeToExistingCalleeClone_callerEdge g Edge E NewCallee
           ExistingEdgeToNewCallee ContextIdsToMove;
    (* Now walk the old callee node's callee edges and move Edge's context
       ids over to the corresponding edge into the clone. *)
    OldCallee ← deref OldCallee;
    oc ← getNode g OldCallee;
    g ← foldlM (moveEdgeToExistingCalleeClone_calleeEdge OldCallee NewCallee
                  EdgeIsRecursive NewClone ContextIdsToMove)
               (ContextNode.CalleeEdges oc) g;
    (* Recompute the node alloc type now that its callee edges have been
       updated (since we will compute from those edges). *)
    oc ← getNode g OldCallee;
    t ← ContextNode_computeAllocType opts g oc;
    (* assert((OldCallee->AllocTypes == None) == OldCallee->emptyContextIds()) *)
    updNode g OldCallee (ContextNode.setAllocTypes t)).
Proof. reflexivity. Qed.

Lemma identifyClones_iteration_parts opts rec Node (AllocContextIds RecursiveContextIds : gset N)
    Done Rest g Visited CallerEdge :
  identifyClones_iteration opts rec Node AllocContextIds RecursiveContextIds
                           Done Rest (g, Visited) CallerEdge
  = (
    CE ← getEdge g CallerEdge;
    (* Skip any that have been removed by an earlier recursive call. *)
    if ContextEdge.isRemoved CE then Ok (Continue ((g, Visited), CallerEdge)) else
    (* assert(CallerEdge->Callee == Node) *)
    n ← getNode g Node;
    (* See if cloning the prior caller edge left this node with a single alloc
       type or a single caller. In that case no more cloning of Node is
       needed. *)
    if hasSingleAllocType (ContextNode.AllocTypes n)
       || bool_decide (length (ContextNode.CallerEdges n) <= 1)%nat
    then Ok (Break ((g, Visited), CallerEdge)) else
    (* If the caller was not successfully matched to a call in the IR/summary,
       there is no point in trying to clone for it as we can't update that
       call. *)
    Caller ← deref (ContextEdge.Caller CE);
    c ← getNode g Caller;
    if negb (ContextNode.hasCall c) then Ok (Continue ((g, Visited), CallerEdge)) else
    (* Only need to process the ids along this edge pertaining to the given
       allocation. *)
    let CallerEdgeContextsForAlloc := ContextEdge.ContextIds CE ∩ AllocContextIds in
    let CallerEdgeContextsForAlloc :=
      if decide (RecursiveContextIds = ∅) then CallerEdgeContextsForAlloc
      else CallerEdgeContextsForAlloc ∖ RecursiveContextIds in
    if decide (CallerEdgeContextsForAlloc = ∅) then Ok (Continue ((g, Visited), CallerEdge)) else
    CallerAllocTypeForAlloc ← computeAllocType g CallerEdgeContextsForAlloc;
    CalleeEdgeAllocTypesForCallerEdge ←
      calleeEdgeAllocTypesForCallerEdge g (ContextNode.CalleeEdges n)
                                        CallerEdgeContextsForAlloc;
    (* Don't clone if doing so will not disambiguate any alloc types amongst
       caller edges (including the callee edges that would be cloned).
       assert(CallerEdge->AllocTypes != None); assert(Node->AllocTypes != None) *)
    NoDisambiguation ←
      (if negb (ContextEdge.IsBackedge CE)
          && N.eqb (allocTypeToUse CallerAllocTypeForAlloc)
                   (allocTypeToUse (ContextNode.AllocTypes n))
       then allocTypesMatch g CalleeEdgeAllocTypesForCallerEdge (ContextNode.CalleeEdges n)
       else Ok false);
    if (NoDisambiguation : bool) then Ok (Continue ((g, Visited), CallerEdge)) else
    (* If this is a backedge, we now do recursive cloning starting from its
       caller since we may have moved unambiguous caller contexts to a clone
       of this Node in a previous iteration of the current loop. *)
    r ← (if ContextEdge.IsBackedge CE
            && negb (bool_decide (is_Some (ContextNode.CloneOf c)))
            && negb (bool_decide (Caller ∈ Visited))
         then identifyClones_backedge rec Node Done Rest (g, Visited) CallerEdge CE Caller
                                      CallerEdgeContextsForAlloc
         else Ok (inr (g, Visited, CallerEdge, CallerEdgeContextsForAlloc,
                       CallerAllocTypeForAlloc, CalleeEdgeAllocTypesForCallerEdge)));
    match r with
    | inl s => Ok (Continue s)
    | inr (g, Visited, CallerEdge, CallerEdgeContextsForAlloc,
           CallerAllocTypeForAlloc, CalleeEdgeAllocTypesForCallerEdge) =>
        identifyClones_move opts Node g Visited CallerEdge CallerEdgeContextsForAlloc
                            CallerAllocTypeForAlloc CalleeEdgeAllocTypesForCallerEdge
    end).
Proof. reflexivity. Qed.

(** ** The queries of clone identification return *)

(** A loop whose body keeps an invariant returns a state with it. *)
Lemma foldlM_inv {A S : Type} (f : S -> A -> Res S) (I : S -> Prop) (l : list A) (s : S) :
  I s ->
  (forall s x, x ∈ l -> I s -> exists s', f s x = Ok s' /\ I s') ->
  exists s', foldlM f l s = Ok s' /\ I s'.
Proof.
  revert s. induction l as [|x l IH]; intros s Hs Hstep; simpl; [eauto|].
  destruct (Hstep s x) as (s1 & Hf & Hs1); [left|done|].
  rewrite Hf. simpl. apply IH; [done|].
  intros s2 y Hy. apply Hstep. by right.
Qed.

(** The same with an invariant that knows the elements still to come. *)
Lemma foldlM_inv_rest {A S : Type} (f : S -> A -> Res S) (I : list A -> S -> Prop)
    (l : list A) (s : S) :
  I l s ->
  (forall s x rest, I (x :: rest) s -> exists s', f s x = Ok s' /\ I rest s') ->
  exists s', foldlM f l s = Ok s' /\ I [] s'.
Proof.
  revert s. induction l as [|x l IH]; intros s Hs Hstep; simpl; [eauto|].
  destruct (Hstep s x l Hs) as (s1 & Hf & Hs1).
  rewrite Hf. simpl. by apply IH.
Qed.

Lemma lor_3_le (t : N) : t <= 3 -> N.lor 3 t = 3.
Proof.
  intros Ht. destruct (le3_cases t Ht) as [-> | [-> | [-> | ->]]]; reflexivity.
Qed.

Lemma lor_absorb_part (a b r : N) :
  N.lor r (N.lor a b) = r -> N.lor r a = r /\ N.lor r b = r.
Proof.
  intros H. split; apply N.bits_inj; intros n;
    pose proof (f_equal (fun x => N.testbit x n) H) as Hn; simpl in Hn;
    rewrite !N.lor_spec in *;
    destruct (N.testbit r n), (N.testbit a n), (N.testbit b n); simpl in *; congruence.
Qed.


Lemma computeAllocType_loop_spec (tbl : gmap N N) (Ids : list N) (acc : N) :
  (forall id, id ∈ Ids -> exists t, tbl !! id = Some t /\ t <= 3) -> acc <= 3 ->
  exists r, computeAllocType_loop tbl Ids acc = Ok r /\ r <= 3 /\ N.lor r acc = r
    /\ forall id, id ∈ Ids -> exists t, tbl !! id = Some t /\ N.lor r t = r.
Proof.
  revert acc. induction Ids as [|id Ids IH]; intros acc Hids Hacc; simpl.
  - exists acc. split; [done|]. split; [done|]. split; [apply N.lor_diag|].
    intros ? []%elem_of_nil.
  - destruct (Hids id) as (t & Ht & Hle); [left|]. rewrite Ht. simpl.
    pose proof (lor_le3 acc t Hacc Hle) as Hle'.
    destruct (N.eqb_spec (N.lor acc t) BothTypes) as [Heq|Hne].
    + exists (N.lor acc t). rewrite Heq. change BothTypes with 3.
      split; [done|]. split; [done|]. split; [by apply lor_3_le|].
      intros id' Hid'. destruct (Hids id' Hid') as (t' & Ht' & Hle2).
      exists t'. split; [done|]. by apply lor_3_le.
    + destruct (IH (N.lor acc t)) as (r & Hr & Hr3 & Habs & Hall); [|done|].
      { intros id' Hid'. apply Hids. by right. }
      exists r. split; [done|]. split; [done|].
      apply lor_absorb_part in Habs as [Ha Hb]. split; [done|].
      intros id' [->|Hid']%elem_of_cons; [eauto|by apply Hall].
Qed.

Lemma computeAllocType_spec g (S : gset N) :
  WFS g -> (forall id, id ∈ S -> is_Some (ContextIdToAllocationType g !! id)) ->
  exists r, computeAllocType g S = Ok r /\ r <= 3 /\ idsTyped g r S.
Proof.
  intros Hwf Hin. unfold computeAllocType.
  destruct (computeAllocType_loop_spec (ContextIdToAllocationType g) (elements S) 0)
    as (r & Hr & Hr3 & _ & Hall); [|lia|].
  - intros id Hid%elem_of_elements. destruct (Hin id Hid) as [t Ht]. exists t.
    split; [done|]. destruct (wfs_table g Hwf id t Ht) as [[-> | ->] _]; vm_compute; congruence.
  - exists r. split; [done|]. split; [done|].
    intros id Hid. apply Hall. by apply elem_of_elements.
Qed.

(** An edge that is not removed is in the lists of its two nodes. *)
Lemma WFS_edge_linked g e E :
  WFS g -> EdgeStore g !! e = Some E -> ContextEdge.isRemoved E = false ->
  exists c d C D,
    ContextEdge.Caller E = Some c /\ ContextEdge.Callee E = Some d
    /\ NodeOwner g !! c = Some C /\ e ∈ ContextNode.CalleeEdges C
    /\ NodeOwner g !! d = Some D /\ e ∈ ContextNode.CallerEdges D.
Proof.
  intros Hwf HE Hr. destruct (wfs_store g Hwf e E HE) as [Hr'|H]; [congruence|done].
Qed.

Lemma isRemoved_false_callee (E : ContextEdge.t) d :
  ContextEdge.Callee E = Some d -> ContextEdge.isRemoved E = false.
Proof.
  unfold ContextEdge.isRemoved. intros ->. rewrite bool_decide_true; [done|]. left. eauto.
Qed.

Lemma WFS_edge_idsTyped g e E :
  WFS g -> EdgeStore g !! e = Some E -> ContextEdge.isRemoved E = false ->
  idsTyped g (ContextEdge.AllocTypes E) (ContextEdge.ContextIds E).
Proof.
  intros Hwf HE Hr.
  destruct (WFS_edge_linked g e E Hwf HE Hr) as (c & d & C & D & _ & _ & _ & _ & HD & HeD).
  intros id Hid. exact (wfs_ids g Hwf d D e E id HD HeD HE Hid).
Qed.

Lemma idsTyped_in_table g t (S : gset N) id :
  idsTyped g t S -> id ∈ S -> is_Some (ContextIdToAllocationType g !! id).
Proof. intros H Hid. destruct (H id Hid) as (ty & Hty & _). eauto. Qed.

Lemma idsTyped_subseteq g t (S S' : gset N) : idsTyped g t S -> S' ⊆ S -> idsTyped g t S'.
Proof. intros H Hsub id Hid. apply H. set_solver. Qed.

(** [intersectAllocTypes] looks up the ids that are in both sets only. *)
Lemma intersectAllocTypesImpl_loop_Ok (tbl : gmap N N) (Ids : list N) (S2 : gset N) (acc : N) :
  (forall id, id ∈ Ids -> id ∈ S2 -> is_Some (tbl !! id)) ->
  exists r, intersectAllocTypesImpl_loop tbl Ids S2 acc = Ok r.
Proof.
  revert acc. induction Ids as [|id Ids IH]; intros acc Hin; simpl; [eauto|].
  assert (forall id', id' ∈ Ids -> id' ∈ S2 -> is_Some (tbl !! id')) as Hin'.
  { intros id' Hid'. apply Hin. by right. }
  destruct (decide (id ∈ S2)) as [Hid|Hid]; [|by apply IH].
  destruct (Hin id) as [t Ht]; [left|done|]. rewrite Ht. simpl.
  destruct (N.eqb _ _); [eauto|by apply IH].
Qed.

Lemma intersectAllocTypes_Ok g (S1 S2 : gset N) :
  (forall id, id ∈ S1 -> id ∈ S2 -> is_Some (ContextIdToAllocationType g !! id)) ->
  exists r, intersectAllocTypes g S1 S2 = Ok r.
Proof.
  intros Hin. unfold intersectAllocTypes, intersectAllocTypesImpl.
  destruct (decide _); apply intersectAllocTypesImpl_loop_Ok;
    intros id Hid%elem_of_elements Hid'; by apply Hin.
Qed.

Lemma calleeEdgeAllocTypesForCallerEdge_Ok g (l : list EdgeId) (S : gset N) :
  (forall e, e ∈ l -> is_Some (EdgeStore g !! e)) ->
  (forall id, id ∈ S -> is_Some (ContextIdToAllocationType g !! id)) ->
  exists r, calleeEdgeAllocTypesForCallerEdge g l S = Ok r /\ length r = length l.
Proof.
  intros Hl HS. unfold calleeEdgeAllocTypesForCallerEdge.
  assert (forall acc, exists r,
    foldlM (fun acc CalleeEdge =>
              E ← getEdge g CalleeEdge;
              t ← intersectAllocTypes g (ContextEdge.ContextIds E) S;
              Ok (acc ++ [t])) l acc = Ok r
    /\ length r = (length acc + length l)%nat) as H.
  { induction l as [|e l IH]; intros acc; simpl.
    - exists acc. split; [done|lia].
    - destruct (Hl e) as [E HE]; [left|].
      assert (getEdge g e = Ok E) as -> by by apply getEdge_Ok. simpl.
      destruct (intersectAllocTypes_Ok g (ContextEdge.ContextIds E) S) as [t Ht].
      { intros id _ Hid. by apply HS. }
      rewrite Ht. simpl.
      destruct (IH (fun e' He' => Hl e' (list_elem_of_further _ _ _ He')) (acc ++ [t]))
        as (r & Hr & Hlen).
      exists r. split; [done|]. rewrite Hlen, length_app. simpl. lia. }
  destruct (H []) as (r & Hr & Hlen). exists r. split; [done|]. by rewrite Hlen.
Qed.

Lemma allocTypesMatch_Ok g (In : list N) (l : list EdgeId) :
  (forall e, e ∈ l -> is_Some (EdgeStore g !! e)) ->
  exists b, allocTypesMatch g In l = Ok b.
Proof.
  revert In. induction l as [|e l IH]; intros In Hl; destruct In as [|t In]; simpl; eauto.
  destruct (Hl e) as [E HE]; [left|].
  assert (getEdge g e = Ok E) as -> by by apply getEdge_Ok. simpl.
  destruct (_ || _); [|eauto]. apply IH. intros e' He'. apply Hl. by right.
Qed.
Lemma sortCallerEdges_perm ContextIds_begin g (Edges : list EdgeId) :
  (forall e, e ∈ Edges ->
     exists E, EdgeStore g !! e = Some E /\ ContextEdge.AllocTypes E < 4) ->
  exists sorted, sortCallerEdges ContextIds_begin g Edges = Ok sorted /\ sorted ≡ₚ Edges.
Proof.
  intros Hedges.
  destruct (stable_sort_spec
              (fun A B => EA ← getEdge g A; EB ← getEdge g B;
                          callerEdgeLess ContextIds_begin A B EA EB)
              (edgeKey ContextIds_begin g) Edges) as (s & Hs & Hperm & _).
  { intros x y Hx Hy.
    destruct (Hedges x Hx) as (X & HX & HtX). destruct (Hedges y Hy) as (Y & HY & HtY).
    unfold getEdge, edgeKey. rewrite HX, HY. simpl. by apply callerEdgeLess_key. }
  exists s. done.
Qed.

Lemma idsOnMultipleEdges_Ok g (Edges : list EdgeId) :
  (forall e, e ∈ Edges -> is_Some (EdgeStore g !! e)) ->
  exists r, idsOnMultipleEdges g Edges = Ok r.
Proof.
  intros Hl. unfold idsOnMultipleEdges.
  destruct (foldlM_inv
    (fun (st : gset N * gset N) CE =>
       E ← getEdge g CE;
       let '(AllCallerContextIds, RecursiveContextIds) := st in
       Ok (AllCallerContextIds ∪ ContextEdge.ContextIds E,
           RecursiveContextIds ∪ (ContextEdge.ContextIds E ∩ AllCallerContextIds)))
    (fun _ => True) Edges (∅, ∅)) as (r & Hr & _); [done| |].
  - intros [a b] e He _. destruct (Hl e He) as [E HE].
    assert (getEdge g e = Ok E) as -> by by apply getEdge_Ok. simpl. eauto.
  - rewrite Hr. simpl. eauto.
Qed.

Lemma findEdgeFromCaller_loop_spec g (Edges : list EdgeId) (Caller : option NodeId) :
  (forall e, e ∈ Edges -> is_Some (EdgeStore g !! e)) ->
  exists r, findEdgeFromCaller_loop g Edges Caller = Ok r
    /\ (forall e, r = Some e ->
          e ∈ Edges /\ exists E, EdgeStore g !! e = Some E /\ ContextEdge.Caller E = Caller)
    /\ (r = None -> forall e E, e ∈ Edges -> EdgeStore g !! e = Some E ->
          ContextEdge.Caller E ≠ Caller).
Proof.
  induction Edges as [|e l IH]; intros Hl; simpl.
  - exists None. split; [done|]. split; [done|]. intros _ e E []%elem_of_nil.
  - destruct (Hl e) as [E HE]; [left|].
    assert (getEdge g e = Ok E) as -> by by apply getEdge_Ok. simpl.
    destruct (decide (ContextEdge.Caller E = Caller)) as [Heq|Hne].
    + exists (Some e). split; [done|]. split; [|done].
      intros e' [= <-]. split; [left|eauto].
    + destruct IH as (r & Hr & H1 & H2).
      { intros e' He'. apply Hl. by right. }
      exists r. split; [done|]. split.
      * intros e' He'. destruct (H1 e' He') as [Hin HE']. split; [by right|done].
      * intros Hn e' E' [->|Hin]%elem_of_cons HE'; [congruence|]. by eapply H2.
Qed.

Lemma findEdgeFromCallee_loop_spec g (Edges : list EdgeId) (Callee : option NodeId) :
  (forall e, e ∈ Edges -> is_Some (EdgeStore g !! e)) ->
  exists r, findEdgeFromCallee_loop g Edges Callee = Ok r
    /\ (forall e, r = Some e ->
          e ∈ Edges /\ exists E, EdgeStore g !! e = Some E /\ ContextEdge.Callee E = Callee)
    /\ (r = None -> forall e E, e ∈ Edges -> EdgeStore g !! e = Some E ->
          ContextEdge.Callee E ≠ Callee).
Proof.
  induction Edges as [|e l IH]; intros Hl; simpl.
  - exists None. split; [done|]. split; [done|]. intros _ e E []%elem_of_nil.
  - destruct (Hl e) as [E HE]; [left|].
    assert (getEdge g e = Ok E) as -> by by apply getEdge_Ok. simpl.
    destruct (decide (ContextEdge.Callee E = Callee)) as [Heq|Hne].
    + exists (Some e). split; [done|]. split; [|done].
      intros e' [= <-]. split; [left|eauto].
    + destruct IH as (r & Hr & H1 & H2).
      { intros e' He'. apply Hl. by right. }
      exists r. split; [done|]. split.
      * intros e' He'. destruct (H1 e' He') as [Hin HE']. split; [by right|done].
      * intros Hn e' E' [->|Hin]%elem_of_cons HE'; [congruence|]. by eapply H2.
Qed.

Lemma WFS_callee_edges g n Nd e :
  WFS g -> NodeOwner g !! n = Some Nd -> e ∈ ContextNode.CalleeEdges Nd ->
  is_Some (EdgeStore g !! e).
Proof.
  intros Hwf HN He. destruct (wfs_callee g Hwf n Nd e HN He) as (E & ? & ? & HE & _). eauto.
Qed.

Lemma WFS_caller_edges g n Nd e :
  WFS g -> NodeOwner g !! n = Some Nd -> e ∈ ContextNode.CallerEdges Nd ->
  is_Some (EdgeStore g !! e).
Proof.
  intros Hwf HN He. destruct (wfs_caller g Hwf n Nd e HN He) as (E & ? & ? & HE & _). eauto.
Qed.

Lemma findEdgeFromCaller_spec g Node Nd (Caller : option NodeId) :
  WFS g -> NodeOwner g !! Node = Some Nd ->
  exists r, findEdgeFromCaller g Node Caller = Ok r
    /\ (forall e, r = Some e ->
          e ∈ ContextNode.CallerEdges Nd
          /\ exists E, EdgeStore g !! e = Some E /\ ContextEdge.Caller E = Caller)
    /\ (r = None -> forall e E, e ∈ ContextNode.CallerEdges Nd ->
          EdgeStore g !! e = Some E -> ContextEdge.Caller E ≠ Caller).
Proof.
  intros Hwf HN. unfold findEdgeFromCaller.
  assert (getNode g Node = Ok Nd) as -> by by apply getNode_Ok. simpl.
  apply findEdgeFromCaller_loop_spec. intros e He. by eapply WFS_caller_edges.
Qed.

Lemma findEdgeFromCallee_spec g Node Nd (Callee : option NodeId) :
  WFS g -> NodeOwner g !! Node = Some Nd ->
  exists r, findEdgeFromCallee g Node Callee = Ok r
    /\ (forall e, r = Some e ->
          e ∈ ContextNode.CalleeEdges Nd
          /\ exists E, EdgeStore g !! e = Some E /\ ContextEdge.Callee E = Callee)
    /\ (r = None -> forall e E, e ∈ ContextNode.CalleeEdges Nd ->
          EdgeStore g !! e = Some E -> ContextEdge.Callee E ≠ Callee).
Proof.
  intros Hwf HN. unfold findEdgeFromCallee.
  assert (getNode g Node = Ok Nd) as -> by by apply getNode_Ok. simpl.
  apply findEdgeFromCallee_loop_spec. intros e He. by eapply WFS_callee_edges.
Qed.

Lemma allocTypesMatchClone_loop_Ok (g : CallsiteContextGraph) (m : gmap (option NodeId) N) (In : list N)
    (I : nat) (Edges : list EdgeId) :
  (forall e, e ∈ Edges -> is_Some (EdgeStore g !! e)) ->
  (I + length Edges <= length In)%nat ->
  exists b, allocTypesMatchClone_loop g m In I Edges = Ok b.
Proof.
  revert I. induction Edges as [|e l IH]; intros I Hl Hlen; simpl; [eauto|].
  destruct (Hl e) as [E HE]; [left|].
  assert (getEdge g e = Ok E) as -> by by apply getEdge_Ok. simpl.
  simpl in Hlen.
  assert (exists b, allocTypesMatchClone_loop g m In (S I) l = Ok b) as Hrec.
  { apply IH; [|lia]. intros e' He'. apply Hl. by right. }
  destruct (m !! ContextEdge.Callee E) as [t|]; [|done].
  destruct (lookup_lt_is_Some_2 In I) as [InI HInI]; [lia|].
  rewrite HInI. simpl. destruct (_ || _); [done|]. destruct (N.eqb _ _); [done|eauto].
Qed.

Lemma allocTypesMatchClone_Ok g (In : list N) Node Nd Clone :
  WFS g -> NodeOwner g !! Node = Some Nd -> Clone ∈ ContextNode.Clones Nd ->
  length In = length (ContextNode.CalleeEdges Nd) ->
  exists b, allocTypesMatchClone g In Clone = Ok b.
Proof.
  intros Hwf HN Hc Hlen. unfold allocTypesMatchClone.
  destruct (wfs_clones g Hwf Node Nd Clone HN Hc) as (C & HC & HCo).
  assert (getNode g Clone = Ok C) as -> by by apply getNode_Ok. simpl.
  rewrite HCo. simpl.
  assert (getNode g Node = Ok Nd) as -> by by apply getNode_Ok. simpl.
  destruct (foldlM_inv
    (fun (m : gmap (option NodeId) N) Edge =>
       E ← getEdge g Edge;
       Ok (<[ContextEdge.Callee E := ContextEdge.AllocTypes E]> m))
    (fun _ => True) (ContextNode.CalleeEdges C) ∅) as (m & Hm & _); [done| |].
  - intros m e He _. destruct (WFS_callee_edges g Clone C e Hwf HC He) as [E HE].
    assert (getEdge g e = Ok E) as -> by by apply getEdge_Ok. simpl. eauto.
  - rewrite Hm. simpl. apply allocTypesMatchClone_loop_Ok; [|lia].
    intros e He. exact (WFS_callee_edges g Node Nd e Hwf HN He).
Qed.

Lemma findCloneToReuse_spec g Node Nd (Clones : list NodeId) (t : N) (In : list N) :
  WFS g -> NodeOwner g !! Node = Some Nd ->
  (forall c, c ∈ Clones -> c ∈ ContextNode.Clones Nd) ->
  length In = length (ContextNode.CalleeEdges Nd) ->
  exists r, findCloneToReuse g Clones t In = Ok r
    /\ forall c, r = Some c -> c ∈ Clones.
Proof.
  intros Hwf HN Hsub Hlen. induction Clones as [|c l IH]; simpl.
  - exists None. done.
  - destruct IH as (r & Hr & Hin).
    { intros c' Hc'. apply Hsub. by right. }
    assert (exists r', findCloneToReuse g l t In = Ok r' /\
              forall c', r' = Some c' -> c' ∈ c :: l) as Hrest.
    { exists r. split; [done|]. intros c' Hc'. right. by apply Hin. }
    destruct (wfs_clones g Hwf Node Nd c HN) as (C & HC & HCo); [apply Hsub; left|].
    assert (getNode g c = Ok C) as -> by by apply getNode_Ok. simpl.
    destruct (negb _); [done|].
    destruct (hasSingleAllocType (ContextNode.AllocTypes C) && hasSingleAllocType t).
    + simpl. exists (Some c). split; [done|]. intros c' [= <-]. left.
    + destruct (allocTypesMatchClone_Ok g In Node Nd c Hwf HN) as [b Hb];
        [apply Hsub; left|done|].
      rewrite Hb. simpl. destruct b; [|done].
      exists (Some c). split; [done|]. intros c' [= <-]. left.
Qed.

Section Queries.
Variable opts : Options.

Lemma ContextNode_computeAllocType_loop_spec g (Edges : list EdgeId) (acc : N) :
  WFS g -> (forall e, e ∈ Edges -> is_Some (EdgeStore g !! e)) -> acc <= 3 ->
  exists r, ContextNode_computeAllocType_loop g Edges acc = Ok r /\ r <= 3.
Proof.
  intros Hwf. revert acc. induction Edges as [|e l IH]; intros acc Hl Hacc; simpl; [eauto|].
  destruct (Hl e) as [E HE]; [left|].
  assert (getEdge g e = Ok E) as -> by by apply getEdge_Ok. simpl.
  pose proof (lor_le3 acc _ Hacc (wfs_edge_types g Hwf e E HE)) as Hle.
  destruct (N.eqb _ _); [eauto|]. apply IH; [|done]. intros e' He'. apply Hl. by right.
Qed.

Lemma contextInfoEdges_valid g n Nd e :
  WFS g -> NodeOwner g !! n = Some Nd -> e ∈ contextInfoEdges opts Nd ->
  is_Some (EdgeStore g !! e).
Proof.
  intros Hwf HN. unfold contextInfoEdges. intros [He|He]%elem_of_app.
  - by eapply WFS_callee_edges.
  - destruct (useCallerEdgesForContextInfo opts Nd); [|by apply elem_of_nil in He].
    by eapply WFS_caller_edges.
Qed.

Lemma ContextNode_computeAllocType_spec g n Nd :
  WFS g -> NodeOwner g !! n = Some Nd ->
  exists r, ContextNode_computeAllocType opts g Nd = Ok r /\ r <= 3.
Proof.
  intros Hwf HN. unfold ContextNode_computeAllocType.
  apply ContextNode_computeAllocType_loop_spec; [done| |done].
  intros e He. by eapply contextInfoEdges_valid.
Qed.

Lemma ContextNode_getContextIds_total g n Nd :
  WFS g -> NodeOwner g !! n = Some Nd ->
  exists S, ContextNode_getContextIds opts g Nd = Ok S.
Proof.
  intros Hwf HN. unfold ContextNode_getContextIds.
  destruct (foldlM_inv
    (fun ContextIds Edge => E ← getEdge g Edge; Ok (ContextIds ∪ ContextEdge.ContextIds E))
    (fun _ => True) (contextInfoEdges opts Nd) ∅) as (r & Hr & _); [done| |eauto].
  intros S e He _. destruct (contextInfoEdges_valid g n Nd e Hwf HN He) as [E HE].
  assert (getEdge g e = Ok E) as -> by by apply getEdge_Ok. simpl. eauto.
Qed.
End Queries.

(** The search for the edge that took over context ids of a backedge. *)
Lemma findUpdatedBackedge_spec g Node Nd (Edges : list EdgeId) (c : option NodeId)
    (S : gset N) (Snapshot : list EdgeId) :
  WFS g -> NodeOwner g !! Node = Some Nd ->
  (forall e, e ∈ Edges -> e ∈ ContextNode.CallerEdges Nd) ->
  exists r, findUpdatedBackedge g Edges c S Snapshot = Ok r
    /\ forall e New, r = Some (e, New) ->
         e ∈ Edges /\ (e ∉ Snapshot) /\ New ≠ ∅
         /\ exists E, EdgeStore g !! e = Some E /\ New = S ∩ ContextEdge.ContextIds E.
Proof.
  intros Hwf HN. induction Edges as [|e l IH]; intros Hsub; simpl.
  - exists None. done.
  - destruct IH as (r & Hr & Hspec).
    { intros e' He'. apply Hsub. by right. }
    assert (exists r', findUpdatedBackedge g l c S Snapshot = Ok r' /\
      forall e' New, r' = Some (e', New) ->
        e' ∈ e :: l /\ (e' ∉ Snapshot) /\ New ≠ ∅
        /\ exists E, EdgeStore g !! e' = Some E /\ New = S ∩ ContextEdge.ContextIds E) as Hrest.
    { exists r. split; [done|]. intros e' New H'.
      destruct (Hspec e' New H') as (? & ? & ? & ?). split; [by right|done]. }
    destruct (wfs_caller g Hwf Node Nd e HN) as (E & cr & C & HE & Hc & Hd & HC & Hin);
      [apply Hsub; left|].
    assert (getEdge g e = Ok E) as -> by by apply getEdge_Ok. simpl.
    rewrite Hd. simpl.
    assert (getNode g cr = Ok C) as -> by by apply getNode_Ok. simpl.
    destruct (negb _); [done|].
    destruct (decide (S ∩ ContextEdge.ContextIds E = ∅)) as [He|He]; [done|].
    destruct (decide (e ∈ Snapshot)) as [Hs|Hs]; [done|].
    eexists. split; [done|]. intros e' New [= <- <-].
    split; [left|]. split; [done|]. split; [done|]. eauto.
Qed.

(** ** Steps of cloning *)

Lemma sameNodeKind_refl Nd : sameNodeKind Nd Nd.
Proof. repeat split. Qed.

Lemma sameNodeKind_trans N1 N2 N3 :
  sameNodeKind N1 N2 -> sameNodeKind N2 N3 -> sameNodeKind N1 N3.
Proof. unfold sameNodeKind. intros (?&?&?) (?&?&?). repeat split; congruence. Qed.

Lemma sameNodeInfo_kind Nd Nd' : sameNodeInfo Nd Nd' -> sameNodeKind Nd Nd'.
Proof. intros (?&?&?&?&?&?&?). repeat split; done. Qed.

Lemma persists_refl g : persists g g.
Proof.
  split; [apply sameMaps_refl|]. split; [|split].
  - intros n Nd HN. exists Nd. split; [done|apply sameNodeKind_refl].
  - intros n Nd' HN' HN. congruence.
  - intros e E HE. eauto.
Qed.

Lemma persists_trans g1 g2 g3 : persists g1 g2 -> persists g2 g3 -> persists g1 g3.
Proof.
  intros (Hm1 & Hn1 & Hc1 & He1) (Hm2 & Hn2 & Hc2 & He2).
  split; [by eapply sameMaps_trans|]. split; [|split].
  - intros n Nd HN. destruct (Hn1 n Nd HN) as (Nd2 & HN2 & Hk).
    destruct (Hn2 n Nd2 HN2) as (Nd3 & HN3 & Hk'). exists Nd3.
    split; [done|by eapply sameNodeKind_trans].
  - intros n Nd3 HN3 HN1. destruct (NodeOwner g2 !! n) as [Nd2|] eqn:HN2.
    + destruct (Hn2 n Nd2 HN2) as (Nd3' & HN3' & (_ & _ & Hco)).
      assert (Nd3' = Nd3) as -> by congruence. rewrite Hco. by eapply Hc1.
    + by eapply Hc2.
  - intros e E HE. destruct (He1 e E HE) as (E2 & HE2 & Hr).
    destruct (He2 e E2 HE2) as (E3 & HE3 & Hr'). exists E3. split; [done|]. auto.
Qed.

Lemma evolves_refl g : evolves g g.
Proof. split; [apply persists_refl|done]. Qed.

Lemma evolves_trans g1 g2 g3 : evolves g1 g2 -> evolves g2 g3 -> evolves g1 g3.
Proof.
  intros [Hp1 Hc1] [Hp2 Hc2]. split; [by eapply persists_trans|].
  intros o id. by rewrite Hc2, Hc1.
Qed.

Lemma linksKept_refl P g : linksKept P g g.
Proof. intros e E _ HE. eauto. Qed.

Lemma linksKept_trans P g1 g2 g3 :
  linksKept P g1 g2 -> linksKept P g2 g3 -> linksKept P g1 g3.
Proof.
  intros H1 H2 e E HP HE. destruct (H1 e E HP HE) as (E2 & HE2 & Hc & Hd).
  destruct (H2 e E2 HP HE2) as (E3 & HE3 & Hc' & Hd'). exists E3.
  split; [done|]. split; congruence.
Qed.

Lemma linksKept_mono (P Q : EdgeId -> Prop) g g' :
  (forall e, Q e -> P e) -> linksKept P g g' -> linksKept Q g g'.
Proof. intros HPQ H e E HQ HE. apply H; auto. Qed.

Lemma prot_refl V W g : prot V W g g.
Proof. intros e E d HE Hd HV. exists E. split; [done|]. by left. Qed.

Lemma prot_trans V W g1 g2 g3 :
  persists g2 g3 -> prot V W g1 g2 -> prot V W g2 g3 -> prot V W g1 g3.
Proof.
  intros (_ & _ & _ & Hedges) H1 H2 e E d HE Hd HV.
  destruct (H1 e E d HE Hd HV) as (E2 & HE2 & [[Hc Hr]|[Hrem Hw]]).
  - destruct (H2 e E2 d HE2) as (E3 & HE3 & [[Hc' Hr']|[Hrem Hw]]); [congruence|done|..].
    + exists E3. split; [done|]. left. split; congruence.
    + exists E3. split; [done|]. right. split; [done|].
      intros c Hcr. apply Hw. congruence.
  - destruct (Hedges e E2 HE2) as (E3 & HE3 & Hmono).
    exists E3. split; [done|]. right. split; [by apply Hmono|done].
Qed.

Lemma prot_mono (V V' W W' : gset NodeId) g g' :
  V' ⊆ V -> W' ⊆ W -> prot V W g g' -> prot V' W' g g'.
Proof.
  intros HV HW H e E d HE Hd Hin.
  destruct (H e E d HE Hd) as (E' & HE' & [Hk|[Hrem Hw]]); [set_solver|..].
  - exists E'. split; [done|]. by left.
  - exists E'. split; [done|]. right. split; [done|].
    intros c Hc Hin'. apply (Hw c Hc). set_solver.
Qed.

Lemma prot_of_linksKept (P : EdgeId -> Prop) (V W : gset NodeId) g g' :
  linksKept P g g' ->
  (forall e E d, EdgeStore g !! e = Some E -> ContextEdge.Callee E = Some d -> d ∈ V -> P e) ->
  prot V W g g'.
Proof.
  intros Hk HP e E d HE Hd HV.
  destruct (Hk e E (HP e E d HE Hd HV) HE) as (E' & HE' & Hc & Hr).
  exists E'. split; [done|]. by left.
Qed.

Lemma originals_persists g g' (U : gset NodeId) :
  persists g g' -> originals g U -> originals g' U.
Proof.
  intros (_ & Hn & Hnew & _) HU n. rewrite (HU n). split.
  - intros (Nd & HN & Hco). destruct (Hn n Nd HN) as (Nd' & HN' & (_ & _ & Hco')).
    exists Nd'. split; [done|congruence].
  - intros (Nd' & HN' & Hco'). destruct (NodeOwner g !! n) as [Nd|] eqn:HN.
    + destruct (Hn n Nd HN) as (Nd2 & HN2 & (_ & _ & Hco)).
      exists Nd. split; [done|congruence].
    + destruct (Hnew n Nd' HN' HN) as [o Ho]. congruence.
Qed.

Lemma originals_size g (U : gset NodeId) :
  originals g U -> (size U <= length (NodeOwner g))%nat.
Proof.
  intros HU.
  assert (U ⊆ set_seq 0 (length (NodeOwner g))) as Hsub.
  { intros n Hn. apply HU in Hn as (Nd & HN & _). apply elem_of_set_seq.
    apply lookup_lt_Some in HN. lia. }
  apply subseteq_size in Hsub. by rewrite size_set_seq in Hsub.
Qed.

Lemma persists_valid g g' n :
  persists g g' -> is_Some (NodeOwner g !! n) -> is_Some (NodeOwner g' !! n).
Proof. intros (_ & Hn & _) [Nd HN]. destruct (Hn n Nd HN) as (Nd' & HN' & _). eauto. Qed.

Lemma persists_edge g g' e :
  persists g g' -> is_Some (EdgeStore g !! e) -> is_Some (EdgeStore g' !! e).
Proof. intros (_ & _ & _ & He) [E HE]. destruct (He e E HE) as (E' & HE' & _). eauto. Qed.

(** *** Families *)

Lemma famOf_Some g d o :
  famOf g d = Some o <-> exists D, NodeOwner g !! d = Some D /\ getOrigNode d D = o.
Proof.
  unfold famOf. destruct (NodeOwner g !! d) as [D|]; simpl.
  - split; [intros [= <-]; eauto|]. intros (D' & [= <-] & <-). done.
  - split; [done|]. intros (D' & [=] & _).
Qed.

Lemma famOf_kind g g' d :
  (forall n Nd, NodeOwner g !! n = Some Nd ->
     exists Nd', NodeOwner g' !! n = Some Nd' /\ sameNodeKind Nd Nd') ->
  is_Some (NodeOwner g !! d) -> famOf g' d = famOf g d.
Proof.
  intros Hn [D HD]. destruct (Hn d D HD) as (D' & HD' & (_ & _ & Hco)).
  unfold famOf, getOrigNode. rewrite HD, HD'. simpl. by rewrite Hco.
Qed.

Lemma famOf_length g g' d :
  (forall n Nd, NodeOwner g !! n = Some Nd ->
     exists Nd', NodeOwner g' !! n = Some Nd' /\ sameNodeKind Nd Nd') ->
  length (NodeOwner g') = length (NodeOwner g) -> famOf g' d = famOf g d.
Proof.
  intros Hn Hlen. destruct (NodeOwner g !! d) as [D|] eqn:HD.
  - apply famOf_kind; eauto.
  - unfold famOf. rewrite HD.
    assert (NodeOwner g' !! d = None) as ->; [|done].
    apply lookup_ge_None. apply lookup_ge_None in HD. lia.
Qed.

Lemma edgeInto_fam g g' E o :
  (forall d, famOf g' d = famOf g d) -> edgeInto g' E o <-> edgeInto g E o.
Proof. intros Hf. unfold edgeInto. by setoid_rewrite Hf. Qed.
Lemma edgeInto_callee g (E E' : ContextEdge.t) o :
  ContextEdge.Callee E' = ContextEdge.Callee E -> edgeInto g E' o <-> edgeInto g E o.
Proof. intros H. unfold edgeInto. by rewrite H. Qed.

(** *** The effect of a change of one edge on what the families carry *)

Lemma carries_change g g' e E E' :
  (forall d, famOf g' d = famOf g d) ->
  EdgeStore g !! e = Some E -> EdgeStore g' !! e = Some E' ->
  (forall e', e' <> e -> EdgeStore g' !! e' = EdgeStore g !! e') ->
  forall o id,
    carries g' o id <->
      (edgeInto g E' o /\ id ∈ ContextEdge.ContextIds E')
      \/ (exists e' E0, e' <> e /\ EdgeStore g !! e' = Some E0 /\ edgeInto g E0 o
                        /\ id ∈ ContextEdge.ContextIds E0).
Proof.
  intros Hfam HE HE' Hother o id. split.
  - intros (e1 & E1 & HE1 & Hinto & Hid). apply (edgeInto_fam g g' _ _ Hfam) in Hinto.
    destruct (decide (e1 = e)) as [->|Hne].
    + left. assert (E1 = E') as -> by congruence. done.
    + right. exists e1, E1. rewrite Hother in HE1 by done. done.
  - intros [[Hinto Hid]|(e1 & E1 & Hne & HE1 & Hinto & Hid)].
    + exists e, E'. split; [done|]. split; [|done]. by apply (edgeInto_fam g g' _ _ Hfam).
    + exists e1, E1. rewrite Hother by done. split; [done|]. split; [|done].
      by apply (edgeInto_fam g g' _ _ Hfam).
Qed.

Lemma carries_split g e E :
  EdgeStore g !! e = Some E ->
  forall o id,
    carries g o id <->
      (edgeInto g E o /\ id ∈ ContextEdge.ContextIds E)
      \/ (exists e' E0, e' <> e /\ EdgeStore g !! e' = Some E0 /\ edgeInto g E0 o
                        /\ id ∈ ContextEdge.ContextIds E0).
Proof. intros HE. by apply (carries_change g g e E E). Qed.

(** The edge gets more context ids. *)
Lemma carries_grow g g' e E E' (K : gset N) :
  (forall d, famOf g' d = famOf g d) ->
  EdgeStore g !! e = Some E -> EdgeStore g' !! e = Some E' ->
  (forall e', e' <> e -> EdgeStore g' !! e' = EdgeStore g !! e') ->
  ContextEdge.Callee E' = ContextEdge.Callee E ->
  ContextEdge.ContextIds E' = ContextEdge.ContextIds E ∪ K ->
  forall o id, carries g' o id <-> carries g o id \/ (edgeInto g E o /\ id ∈ K).
Proof.
  intros Hfam HE HE' Hother Hc Hids o id.
  rewrite (carries_change g g' e E E' Hfam HE HE' Hother), (carries_split g e E HE).
  rewrite (edgeInto_callee g E E' o Hc), Hids. set_solver.
Qed.

(** The edge loses context ids. *)
Lemma carries_shrink g g' e E E' (K : gset N) :
  (forall d, famOf g' d = famOf g d) ->
  EdgeStore g !! e = Some E -> EdgeStore g' !! e = Some E' ->
  (forall e', e' <> e -> EdgeStore g' !! e' = EdgeStore g !! e') ->
  ContextEdge.Callee E' = ContextEdge.Callee E ->
  ContextEdge.ContextIds E' = ContextEdge.ContextIds E ∖ K ->
  forall o id,
    carries g o id <->
    carries g' o id \/ (edgeInto g E o /\ id ∈ ContextEdge.ContextIds E /\ id ∈ K).
Proof.
  intros Hfam HE HE' Hother Hc Hids o id.
  rewrite (carries_change g g' e E E' Hfam HE HE' Hother), (carries_split g e E HE).
  rewrite (edgeInto_callee g E E' o Hc), Hids.
  destruct (decide (id ∈ K)); set_solver.
Qed.

(** The edge keeps its callee and its context ids. *)
Lemma carries_keep g g' e E E' :
  (forall d, famOf g' d = famOf g d) ->
  EdgeStore g !! e = Some E -> EdgeStore g' !! e = Some E' ->
  (forall e', e' <> e -> EdgeStore g' !! e' = EdgeStore g !! e') ->
  ContextEdge.Callee E' = ContextEdge.Callee E ->
  ContextEdge.ContextIds E' = ContextEdge.ContextIds E ->
  forall o id, carries g' o id <-> carries g o id.
Proof.
  intros Hfam HE HE' Hother Hc Hids o id.
  rewrite (carries_change g g' e E E' Hfam HE HE' Hother), (carries_split g e E HE).
  by rewrite (edgeInto_callee g E E' o Hc), Hids.
Qed.

(** The edge goes into another node of the same family. *)
Lemma carries_repoint g g' e E E' oc nc :
  (forall d, famOf g' d = famOf g d) ->
  EdgeStore g !! e = Some E -> EdgeStore g' !! e = Some E' ->
  (forall e', e' <> e -> EdgeStore g' !! e' = EdgeStore g !! e') ->
  ContextEdge.Callee E = Some oc -> ContextEdge.Callee E' = Some nc ->
  famOf g nc = famOf g oc ->
  ContextEdge.ContextIds E' = ContextEdge.ContextIds E ->
  forall o id, carries g' o id <-> carries g o id.
Proof.
  intros Hfam HE HE' Hother Hoc Hnc Hf Hids o id.
  rewrite (carries_change g g' e E E' Hfam HE HE' Hother), (carries_split g e E HE).
  assert (edgeInto g E' o <-> edgeInto g E o) as ->; [|by rewrite Hids].
  unfold edgeInto. rewrite Hoc, Hnc. split; intros (d & [= <-] & Hd); eexists; split; eauto; congruence.
Qed.

(** The edge is cleared. *)
Lemma carries_clear g g' e E :
  (forall d, famOf g' d = famOf g d) ->
  EdgeStore g !! e = Some E -> EdgeStore g' !! e = Some (ContextEdge.clear E) ->
  (forall e', e' <> e -> EdgeStore g' !! e' = EdgeStore g !! e') ->
  forall o id,
    carries g o id <->
    carries g' o id \/ (edgeInto g E o /\ id ∈ ContextEdge.ContextIds E).
Proof.
  intros Hfam HE HE' Hother o id.
  rewrite (carries_change g g' e E _ Hfam HE HE' Hother), (carries_split g e E HE).
  simpl. set_solver.
Qed.

(** There is one more edge. *)
Lemma carries_append g g' (En : ContextEdge.t) :
  (forall d, famOf g' d = famOf g d) ->
  EdgeStore g' = EdgeStore g ++ [En] ->
  forall o id,
    carries g' o id <->
    carries g o id \/ (edgeInto g En o /\ id ∈ ContextEdge.ContextIds En).
Proof.
  intros Hfam Hedges o id. unfold carries. rewrite Hedges. split.
  - intros (e & E & HE & Hinto & Hid). apply (edgeInto_fam g g' _ _ Hfam) in Hinto.
    apply lookup_snoc_Some in HE as [HE|[_ ->]]; [left; eauto|by right].
  - intros [(e & E & HE & Hinto & Hid)|[Hinto Hid]].
    + exists e, E. split; [by apply lookup_app_l_Some|].
      split; [by apply (edgeInto_fam g g' _ _ Hfam)|done].
    + exists (length (EdgeStore g)), En. split.
      * rewrite lookup_app_r by lia. by rewrite Nat.sub_diag.
      * split; [by apply (edgeInto_fam g g' _ _ Hfam)|done].
Qed.

(** The nodes change, the edges do not. *)
Lemma carries_nodes g g' :
  WFS g -> EdgeStore g' = EdgeStore g ->
  (forall n Nd, NodeOwner g !! n = Some Nd ->
     exists Nd', NodeOwner g' !! n = Some Nd' /\ sameNodeKind Nd Nd') ->
  forall o id, carries g' o id <-> carries g o id.
Proof.
  intros Hwf Hedges Hn o id. unfold carries. rewrite Hedges.
  assert (forall E e, EdgeStore g !! e = Some E -> edgeInto g' E o <-> edgeInto g E o) as Hinto.
  { intros E e HE. unfold edgeInto. split; intros (d & Hd & Hf); exists d; (split; [done|]).
    - destruct (WFS_edge_linked g e E Hwf HE (isRemoved_false_callee E d Hd))
        as (c1 & d1 & C1 & D1 & _ & Hd1 & _ & _ & HD1 & _).
      assert (d1 = d) as -> by congruence.
      rewrite <- Hf. symmetry. apply famOf_kind; eauto.
    - destruct (proj1 (famOf_Some g d o) Hf) as (D & HD & _).
      rewrite <- Hf. apply famOf_kind; eauto. }
  split; intros (e & E & HE & Hi & Hid); exists e, E; (split; [done|]); (split; [|done]);
    by eapply Hinto.
Qed.

(** *** The steps *)

Lemma persists_same_length g g' :
  sameMaps g g' -> length (NodeOwner g') = length (NodeOwner g) ->
  (forall n Nd, NodeOwner g !! n = Some Nd ->
     exists Nd', NodeOwner g' !! n = Some Nd' /\ sameNodeKind Nd Nd') ->
  (forall e E, EdgeStore g !! e = Some E ->
     exists E', EdgeStore g' !! e = Some E'
                /\ (ContextEdge.isRemoved E = true -> ContextEdge.isRemoved E' = true)) ->
  persists g g'.
Proof.
  intros Hm Hlen Hn He. split; [done|]. split; [done|]. split; [|done].
  intros n Nd' HN' HN. apply lookup_ge_None in HN. apply lookup_lt_Some in HN'. lia.
Qed.

(** A write to an edge that keeps its two ends. *)
Lemma step_updEdge g e f E :
  WFS g -> EdgeStore g !! e = Some E ->
  ContextEdge.Callee (f E) = ContextEdge.Callee E ->
  ContextEdge.Caller (f E) = ContextEdge.Caller E ->
  ContextEdge.AllocTypes (f E) <= 3 ->
  idsTyped g (ContextEdge.AllocTypes (f E)) (ContextEdge.ContextIds (f E)) ->
  exists g', updEdge g e f = Ok g' /\ WFS g' /\ persists g g'
    /\ linksKept (fun _ => True) g g'
    /\ NodeOwner g' = NodeOwner g
    /\ EdgeStore g' !! e = Some (f E)
    /\ (forall e', e' <> e -> EdgeStore g' !! e' = EdgeStore g !! e')
    /\ length (EdgeStore g') = length (EdgeStore g).
Proof.
  intros Hwf HE Hc Hr Ht Hids.
  destruct (updEdge_total g e f E HE) as [g' Hg']. exists g'. split; [done|].
  pose proof (updEdge_frame _ _ _ _ Hg') as (Hnodes & _ & _ & _ & _ & _ & _ & _ & _ & Hlen).
  assert (EdgeStore g' !! e = Some (f E)) as Hnew.
  { rewrite (updEdge_edge _ _ _ _ e Hg'), decide_True by done. by rewrite HE. }
  assert (forall e', e' <> e -> EdgeStore g' !! e' = EdgeStore g !! e') as Hother.
  { intros e' Hne. by rewrite (updEdge_edge _ _ _ _ e' Hg'), decide_False. }
  assert (forall e1 E1, EdgeStore g !! e1 = Some E1 ->
            exists E', EdgeStore g' !! e1 = Some E'
              /\ ContextEdge.Callee E' = ContextEdge.Callee E1
              /\ ContextEdge.Caller E' = ContextEdge.Caller E1) as Hk.
  { intros e1 E1 HE1. destruct (decide (e1 = e)) as [->|Hne].
    - exists (f E). assert (E1 = E) as -> by congruence. done.
    - exists E1. by rewrite Hother. }
  split; [by eapply WFS_updEdge_info|]. split.
  - apply persists_same_length; [by eapply updEdge_sameMaps|by rewrite Hnodes| |].
    + intros n Nd HN. exists Nd. rewrite Hnodes. split; [done|apply sameNodeKind_refl].
    + intros e1 E1 HE1. destruct (Hk e1 E1 HE1) as (E' & HE' & Hc' & Hr').
      exists E'. split; [done|]. by rewrite (isRemoved_links E1 E').
  - split; [intros e1 E1 _ HE1; by apply Hk|]. done.
Qed.

(** A write to a node that keeps what its edges are. *)
Lemma step_updNode g n f Nd :
  WFS g -> NodeOwner g !! n = Some Nd ->
  ContextNode.CalleeEdges (f Nd) ≡ₚ ContextNode.CalleeEdges Nd ->
  ContextNode.CallerEdges (f Nd) ≡ₚ ContextNode.CallerEdges Nd ->
  ContextNode.Clones (f Nd) = ContextNode.Clones Nd ->
  sameNodeKind Nd (f Nd) ->
  ContextNode.AllocTypes (f Nd) <= 3 ->
  exists g', updNode g n f = Ok g' /\ WFS g' /\ evolves g g'
    /\ linksKept (fun _ => True) g g'
    /\ EdgeStore g' = EdgeStore g
    /\ length (NodeOwner g') = length (NodeOwner g)
    /\ NodeOwner g' !! n = Some (f Nd)
    /\ (forall m, m <> n -> NodeOwner g' !! m = NodeOwner g !! m).
Proof.
  intros Hwf HN Hp1 Hp2 Hcl Hk Ht.
  destruct (updNode_total g n f Nd HN) as [g' Hg']. exists g'. split; [done|].
  pose proof (updNode_frame _ _ _ _ Hg') as (Hedges & _ & _ & _ & _ & _ & _ & _ & _ & Hlen).
  assert (NodeOwner g' !! n = Some (f Nd)) as Hnew.
  { rewrite (updNode_node _ _ _ _ n Hg'), decide_True by done. by rewrite HN. }
  assert (forall m, m <> n -> NodeOwner g' !! m = NodeOwner g !! m) as Hother.
  { intros m Hne. by rewrite (updNode_node _ _ _ _ m Hg'), decide_False. }
  assert (forall m M, NodeOwner g !! m = Some M ->
            exists M', NodeOwner g' !! m = Some M' /\ sameNodeKind M M') as Hn.
  { intros m M HM. destruct (decide (m = n)) as [->|Hne].
    - exists (f Nd). assert (M = Nd) as -> by congruence. done.
    - exists M. rewrite Hother by done. split; [done|apply sameNodeKind_refl]. }
  assert (WFS g') as Hwf'.
  { eapply WFS_updNode_info; eauto. by destruct Hk as (_ & _ & ?). }
  split; [done|]. split; [split|].
  - apply persists_same_length; [by eapply updNode_sameMaps|done|done|].
    intros e E HE. exists E. by rewrite Hedges.
  - by apply carries_nodes.
  - split; [|done]. intros e E _ HE. exists E. by rewrite Hedges.
Qed.

(** *** A new edge, as a step *)

Lemma step_edgeAdded g g' c d t S :
  WFS g -> edgeAdded g g' c d t S ->
  is_Some (NodeOwner g !! c) -> is_Some (NodeOwner g !! d) ->
  t <= 3 -> idsTyped g t S ->
  WFS g' /\ persists g g' /\ linksKept (fun _ => True) g g'
  /\ length (NodeOwner g') = length (NodeOwner g)
  /\ (forall d', famOf g' d' = famOf g d')
  /\ (forall o id, carries g' o id <-> carries g o id \/ (famOf g d = Some o /\ id ∈ S))
  /\ (forall e E, EdgeStore g !! e = Some E -> EdgeStore g' !! e = Some E)
  /\ EdgeStore g' !! length (EdgeStore g) = Some (ContextEdge.mk (Some d) (Some c) t false S).
Proof.
  intros Hwf Hadd HC HD Ht Hty.
  pose proof (WFS_edgeAdded g g' c d t S Hwf Hadd HC HD Ht Hty) as Hwf'.
  destruct Hadd as (Hmaps & Hedges & Hlen & Hnodes).
  assert (forall e E, EdgeStore g !! e = Some E -> EdgeStore g' !! e = Some E) as Hold.
  { intros e E HE. rewrite Hedges. by apply lookup_app_l_Some. }
  assert (forall n Nd, NodeOwner g !! n = Some Nd ->
            exists Nd', NodeOwner g' !! n = Some Nd' /\ sameNodeKind Nd Nd') as Hn.
  { intros n Nd HN. destruct (Hnodes n Nd HN) as (Nd' & HN' & Hs & _).
    exists Nd'. split; [done|by apply sameNodeInfo_kind]. }
  assert (forall d', famOf g' d' = famOf g d') as Hfam.
  { intros d'. by apply famOf_length. }
  split; [done|]. split; [|split; [|split; [|split; [|split; [|split]]]]]; try done.
  - apply persists_same_length; try done.
    intros e E HE. exists E. split; [by apply Hold|done].
  - intros e E _ HE. exists E. split; [by apply Hold|done].
  - intros o id. rewrite (carries_append g g' _ Hfam Hedges). simpl.
    unfold edgeInto. simpl. split; (intros [H|H]; [by left|right]).
    + destruct H as [(d' & [= <-] & Hf) Hid]. done.
    + destruct H as [Hf Hid]. split; [|done]. exists d. done.
  - rewrite Hedges, lookup_app_r by lia. by rewrite Nat.sub_diag.
Qed.

(** *** The removal of an edge *)

Lemma filter_id {A : Type} (P : A -> Prop) `{forall x, Decision (P x)} (l : list A) :
  (forall y, y ∈ l -> P y) -> filter P l = l.
Proof.
  induction l as [|y l IH]; intros Hl; [done|].
  rewrite filter_cons_True by (apply Hl; left). f_equal.
  apply IH. intros z Hz. apply Hl. by right.
Qed.

Lemma eraseFirst_NoDup (x : EdgeId) (l : list EdgeId) :
  NoDup l -> x ∈ l -> eraseFirst x l = Some (filter (fun y => y <> x) l).
Proof.
  induction l as [|y l IH]; intros Hnd Hx; [by apply elem_of_nil in Hx|].
  apply NoDup_cons in Hnd as [Hy Hnd]. simpl.
  destruct (decide (y = x)) as [->|Hne].
  - rewrite filter_cons_False by (intros H; by apply H).
    f_equal. symmetry. apply filter_id. intros z Hz ->. done.
  - rewrite filter_cons_True by done.
    apply elem_of_cons in Hx as [->|Hx]; [done|].
    rewrite (IH Hnd Hx). done.
Qed.

Lemma filter_middle_NoDup (x : EdgeId) (l1 l2 : list EdgeId) :
  NoDup (l1 ++ x :: l2) -> filter (fun y => y <> x) (l1 ++ x :: l2) = l1 ++ l2.
Proof.
  intros Hnd. apply NoDup_app in Hnd as (H1 & Hx & H2).
  apply NoDup_cons in H2 as [Hx2 H2].
  rewrite filter_app, filter_cons_False by (intros H; by apply H).
  rewrite !filter_id; [done|..].
  - intros y Hy ->. done.
  - intros y Hy ->. apply (Hx x Hy). left.
Qed.

Lemma WFS_edgeRemoved g g' e :
  WFS g -> edgeRemoved g g' e -> WFS g'.
Proof.
  intros Hwf (Hmaps & (E & HE & Hedges) & Hlen & Hnodes).
  assert (forall e1, e1 <> e -> EdgeStore g' !! e1 = EdgeStore g !! e1) as Hother.
  { intros e1 Hne. rewrite Hedges. by apply list_lookup_insert_ne. }
  assert (EdgeStore g' !! e = Some (ContextEdge.clear E)) as Hcl.
  { rewrite Hedges. apply list_lookup_insert_eq. by eapply lookup_lt_Some. }
  assert (forall n Nd', NodeOwner g' !! n = Some Nd' ->
            exists Nd, NodeOwner g !! n = Some Nd /\ sameNodeInfo Nd Nd'
              /\ ContextNode.AllocTypes Nd' = ContextNode.AllocTypes Nd
              /\ ContextNode.CalleeEdges Nd' = filter (fun x => x <> e) (ContextNode.CalleeEdges Nd)
              /\ ContextNode.CallerEdges Nd' = filter (fun x => x <> e) (ContextNode.CallerEdges Nd))
    as Hback.
  { intros n Nd' HN'. destruct (nodes_back _ _ _ _ Hlen HN') as [Nd HN].
    destruct (Hnodes n Nd HN) as (Nd2 & HN2 & H). exists Nd.
    assert (Nd2 = Nd') as -> by congruence. done. }
  apply (WFS_relink g g' Hwf Hmaps).
  - intros n Nd' HN'. destruct (Hback n Nd' HN') as (Nd & HN & Hs & _). eauto.
  - intros n Nd HN. destruct (Hnodes n Nd HN) as (Nd' & HN' & _). eauto.
  - intros n Nd' HN'. destruct (Hback n Nd' HN') as (Nd & HN & Hs & Ht & Hce & Hcr).
    rewrite Ht, Hce, Hcr. split; [by eapply (wfs_node_types g Hwf)|].
    split; apply NoDup_filter; [by eapply (wfs_nodup_callee g Hwf)|by eapply (wfs_nodup_caller g Hwf)].
  - intros n Nd' e1 HN' He1. destruct (Hback n Nd' HN') as (Nd & HN & Hs & Ht & Hce & Hcr).
    rewrite Hce in He1. apply list_elem_of_filter in He1 as [Hne He1].
    destruct (wfs_callee g Hwf n Nd e1 HN He1) as (E1 & d1 & D1 & HE1 & Hc & Hd & HD1 & Hin).
    destruct (Hnodes d1 D1 HD1) as (D1' & HD1' & _ & _ & _ & Hcr1).
    exists E1, d1, D1'. rewrite Hother by done. repeat split; try done.
    rewrite Hcr1. by apply list_elem_of_filter.
  - intros n Nd' e1 HN' He1. destruct (Hback n Nd' HN') as (Nd & HN & Hs & Ht & Hce & Hcr).
    rewrite Hcr in He1. apply list_elem_of_filter in He1 as [Hne He1].
    destruct (wfs_caller g Hwf n Nd e1 HN He1) as (E1 & c1 & C1 & HE1 & Hc & Hd & HC1 & Hin).
    destruct (Hnodes c1 C1 HC1) as (C1' & HC1' & _ & _ & Hce1 & _).
    exists E1, c1, C1'. rewrite Hother by done. repeat split; try done.
    + rewrite Hce1. by apply list_elem_of_filter.
    + intros id Hid. exact (wfs_ids g Hwf n Nd e1 E1 id HN He1 HE1 Hid).
  - intros e1 E1 HE1. destruct (decide (e1 = e)) as [->|Hne].
    + rewrite Hcl in HE1. injection HE1 as <-. simpl. unfold AllocationType.None. lia.
    + rewrite Hother in HE1 by done. by eapply (wfs_edge_types g Hwf).
  - intros e1 E1 HE1. destruct (decide (e1 = e)) as [->|Hne].
    + rewrite Hcl in HE1. injection HE1 as <-. by left.
    + rewrite Hother in HE1 by done.
      destruct (wfs_store g Hwf e1 E1 HE1)
        as [Hr|(c1 & d1 & C1 & D1 & Hc & Hd & HC1 & HeC & HD1 & HeD)]; [by left|right].
      destruct (Hnodes c1 C1 HC1) as (C1' & HC1' & _ & _ & Hce1 & _).
      destruct (Hnodes d1 D1 HD1) as (D1' & HD1' & _ & _ & _ & Hcr1).
      exists c1, d1, C1', D1'. rewrite Hce1, Hcr1.
      repeat split; try done; by apply list_elem_of_filter.
Qed.

Lemma step_edgeRemoved g g' e E :
  WFS g -> EdgeStore g !! e = Some E -> edgeRemoved g g' e ->
  WFS g' /\ persists g g' /\ linksKept (fun x => x <> e) g g'
  /\ length (NodeOwner g') = length (NodeOwner g)
  /\ (forall d', famOf g' d' = famOf g d')
  /\ (forall o id, carries g o id <->
        carries g' o id \/ (edgeInto g E o /\ id ∈ ContextEdge.ContextIds E))
  /\ EdgeStore g' !! e = Some (ContextEdge.clear E)
  /\ (forall e', e' <> e -> EdgeStore g' !! e' = EdgeStore g !! e').
Proof.
  intros Hwf HE Hrem. pose proof (WFS_edgeRemoved g g' e Hwf Hrem) as Hwf'.
  destruct Hrem as (Hmaps & (E0 & HE0 & Hedges) & Hlen & Hnodes).
  assert (E0 = E) as -> by congruence.
  assert (forall e1, e1 <> e -> EdgeStore g' !! e1 = EdgeStore g !! e1) as Hother.
  { intros e1 Hne. rewrite Hedges. by apply list_lookup_insert_ne. }
  assert (EdgeStore g' !! e = Some (ContextEdge.clear E)) as Hcl.
  { rewrite Hedges. apply list_lookup_insert_eq. by eapply lookup_lt_Some. }
  assert (forall n Nd, NodeOwner g !! n = Some Nd ->
            exists Nd', NodeOwner g' !! n = Some Nd' /\ sameNodeKind Nd Nd') as Hn.
  { intros n Nd HN. destruct (Hnodes n Nd HN) as (Nd' & HN' & Hs & _).
    exists Nd'. split; [done|by apply sameNodeInfo_kind]. }
  assert (forall d', famOf g' d' = famOf g d') as Hfam.
  { intros d'. by apply famOf_length. }
  split; [done|]. split; [|split; [|split; [|split; [|split; [|split]]]]]; try done.
  - apply persists_same_length; try done.
    intros e1 E1 HE1. destruct (decide (e1 = e)) as [->|Hne].
    + exists (ContextEdge.clear E). split; [done|]. done.
    + exists E1. rewrite Hother by done. done.
  - intros e1 E1 Hne HE1. exists E1. rewrite Hother by done. done.
  - by apply (carries_clear g g' e E).
Qed.

(** The two ways in which the source removes an edge. *)
Lemma removeEdge_common g e E c d C D L :
  WFS g -> EdgeStore g !! e = Some E ->
  ContextEdge.Caller E = Some c -> ContextEdge.Callee E = Some d ->
  NodeOwner g !! c = Some C -> NodeOwner g !! d = Some D ->
  L = filter (fun x => x <> e) (ContextNode.CalleeEdges C) ->
  exists g1 g2 g3,
    updEdge g e ContextEdge.clear = Ok g1
    /\ eraseCallerEdge g1 d e = Ok g2
    /\ updNode g2 c (ContextNode.setCalleeEdges L) = Ok g3
    /\ (exists C2, NodeOwner g2 !! c = Some C2
                   /\ ContextNode.CalleeEdges C2 = ContextNode.CalleeEdges C)
    /\ edgeRemoved g g3 e.
Proof.
  intros Hwf HE Hc Hd HC HD ->.
  destruct (WFS_edge_linked g e E Hwf HE (isRemoved_false E c Hc))
    as (c' & d' & C' & D' & Hc' & Hd' & HC' & HeC & HD' & HeD).
  assert (c' = c) as -> by congruence. assert (d' = d) as -> by congruence.
  assert (C' = C) as -> by congruence. assert (D' = D) as -> by congruence.
  destruct (updEdge_total g e ContextEdge.clear E HE) as [g1 Hg1].
  pose proof (updEdge_frame _ _ _ _ Hg1) as (Hn1 & ? & ? & ? & ? & ? & ? & ? & ? & Hl1).
  pose proof (proj1 (updEdge_Ok _ _ _ _) Hg1) as (E0 & HE0 & Hg1').
  assert (E0 = E) as -> by congruence.
  assert (eraseFirst e (ContextNode.CallerEdges D)
          = Some (filter (fun x => x <> e) (ContextNode.CallerEdges D))) as Her.
  { apply eraseFirst_NoDup; [by eapply (wfs_nodup_caller g Hwf)|done]. }
  assert (NodeOwner g1 !! d = Some D) as HD1 by by rewrite Hn1.
  destruct (updNode_total g1 d (ContextNode.setCallerEdges
              (filter (fun x => x <> e) (ContextNode.CallerEdges D))) D HD1) as [g2 Hg2].
  assert (eraseCallerEdge g1 d e = Ok g2) as Hec.
  { unfold eraseCallerEdge.
    assert (getNode g1 d = Ok D) as -> by by apply getNode_Ok.
    cbn [mbind Res_bind]. rewrite Her. done. }
  pose proof (updNode_frame _ _ _ _ Hg2) as (He2 & ? & ? & ? & ? & ? & ? & ? & ? & Hl2).
  assert (exists C2, NodeOwner g2 !! c = Some C2
            /\ ContextNode.CalleeEdges C2 = ContextNode.CalleeEdges C
            /\ sameNodeInfo C C2 /\ ContextNode.AllocTypes C2 = ContextNode.AllocTypes C
            /\ ContextNode.CallerEdges C2
               = if decide (c = d) then filter (fun x => x <> e) (ContextNode.CallerEdges C)
                 else ContextNode.CallerEdges C) as (C2 & HC2 & HC2e & HC2s & HC2t & HC2r).
  { rewrite (updNode_node _ _ _ _ c Hg2), Hn1. destruct (decide (c = d)) as [->|Hne].
    - rewrite HD. simpl. assert (C = D) as -> by congruence.
      eexists. split; [done|]. repeat split.
    - exists C. repeat split; done. }
  destruct (updNode_total g2 c (ContextNode.setCalleeEdges
              (filter (fun x => x <> e) (ContextNode.CalleeEdges C))) C2 HC2) as [g3 Hg3].
  pose proof (updNode_frame _ _ _ _ Hg3) as (He3 & ? & ? & ? & ? & ? & ? & ? & ? & Hl3).
  exists g1, g2, g3. split; [done|]. split; [done|]. split; [done|].
  split; [eauto|].
  split; [|split; [|split]].
  - pose proof (updEdge_sameMaps _ _ _ _ Hg1). pose proof (updNode_sameMaps _ _ _ _ Hg2).
    pose proof (updNode_sameMaps _ _ _ _ Hg3).
    eapply sameMaps_trans; [|done]. by eapply sameMaps_trans.
  - exists E. split; [done|]. rewrite He3, He2, Hg1'. done.
  - rewrite Hl3, Hl2, Hn1. done.
  - intros n Nd HN.
    rewrite (updNode_node _ _ _ _ n Hg3).
    destruct (decide (n = c)) as [->|Hnc].
    + rewrite HC2. simpl. eexists. split; [done|].
      assert (Nd = C) as -> by congruence.
      split; [by destruct HC2s as (?&?&?&?&?&?&?)|]. split; [done|]. split; [done|].
      simpl. rewrite HC2r. destruct (decide (c = d)) as [Heq|Hne]; [done|].
      symmetry. apply filter_id. intros y Hy ->.
      destruct (wfs_caller g Hwf c C e HN Hy) as (E1 & c1 & C1 & HE1 & Hd1 & _).
      congruence.
    + rewrite (updNode_node _ _ _ _ n Hg2), Hn1, HN.
      assert (filter (fun x => x <> e) (ContextNode.CalleeEdges Nd) = ContextNode.CalleeEdges Nd)
        as Hfe.
      { apply filter_id. intros y Hy ->.
        destruct (wfs_callee g Hwf n Nd e HN Hy) as (E1 & d1 & D1 & HE1 & Hc1 & _). congruence. }
      destruct (decide (n = d)) as [->|Hnd]; simpl.
      * assert (Nd = D) as -> by congruence.
        eexists. split; [done|]. split; [repeat split|]. split; [done|].
        split; simpl; [by rewrite Hfe|done].
      * exists Nd. split; [done|]. split; [repeat split|]. split; [done|].
        split; [by rewrite Hfe|].
        symmetry. apply filter_id. intros y Hy ->.
        destruct (wfs_caller g Hwf n Nd e HN Hy) as (E1 & c1 & C1 & HE1 & Hd1 & _). congruence.
Qed.

Lemma removeEdgeFromGraph_spec g e E :
  WFS g -> EdgeStore g !! e = Some E -> ContextEdge.isRemoved E = false ->
  exists g', removeEdgeFromGraph g e = Ok g' /\ edgeRemoved g g' e.
Proof.
  intros Hwf HE Hr.
  destruct (WFS_edge_linked g e E Hwf HE Hr) as (c & d & C & D & Hc & Hd & HC & HeC & HD & HeD).
  destruct (removeEdge_common g e E c d C D _ Hwf HE Hc Hd HC HD eq_refl)
    as (g1 & g2 & g3 & Hg1 & Hg2 & Hg3 & (C2 & HC2 & HC2e) & Hrem).
  exists g3. split; [|done]. unfold removeEdgeFromGraph.
  assert (getEdge g e = Ok E) as -> by by apply getEdge_Ok.
  cbn [mbind Res_bind]. rewrite Hg1. cbn [mbind Res_bind]. rewrite Hd. cbn [mbind Res_bind deref].
  rewrite Hg2. cbn [mbind Res_bind]. rewrite Hc. cbn [mbind Res_bind deref].
  unfold eraseCalleeEdge.
  assert (getNode g2 c = Ok C2) as -> by by apply getNode_Ok.
  cbn [mbind Res_bind]. rewrite HC2e.
  rewrite (eraseFirst_NoDup e (ContextNode.CalleeEdges C));
    [done|by eapply (wfs_nodup_callee g Hwf)|done].
Qed.

Lemma removeEdgeFromGraph_iter_spec g e Node Nd Done Rest :
  WFS g -> NodeOwner g !! Node = Some Nd ->
  ContextNode.CalleeEdges Nd = Done ++ e :: Rest ->
  exists g', removeEdgeFromGraph_iter g e Node Done Rest true = Ok g'
    /\ edgeRemoved g g' e.
Proof.
  intros Hwf HN Hl.
  assert (e ∈ ContextNode.CalleeEdges Nd) as He.
  { rewrite Hl. apply elem_of_app. right. left. }
  destruct (wfs_callee g Hwf Node Nd e HN He) as (E & d & D & HE & Hc & Hd & HD & Hin).
  assert (Done ++ Rest = filter (fun x => x <> e) (ContextNode.CalleeEdges Nd)) as HL.
  { rewrite Hl. symmetry. apply filter_middle_NoDup. rewrite <- Hl.
    by eapply (wfs_nodup_callee g Hwf). }
  destruct (removeEdge_common g e E Node d Nd D _ Hwf HE Hc Hd HN HD HL)
    as (g1 & g2 & g3 & Hg1 & Hg2 & Hg3 & _ & Hrem).
  exists g3. split; [|done]. unfold removeEdgeFromGraph_iter.
  assert (getEdge g e = Ok E) as -> by by apply getEdge_Ok.
  cbn [mbind Res_bind]. rewrite Hg1. cbn [mbind Res_bind]. rewrite Hd, Hc.
  cbn [mbind Res_bind deref]. rewrite Hg2. cbn [mbind Res_bind].
  rewrite decide_True by done. done.
Qed.

(** *** The removal of the edges without a type *)

Lemma none_type_no_ids g e E :
  WFS g -> EdgeStore g !! e = Some E -> ContextEdge.isRemoved E = false ->
  ContextEdge.AllocTypes E = AllocationType.None -> ContextEdge.ContextIds E = ∅.
Proof.
  intros Hwf HE Hr Ht. apply leibniz_equiv. apply elem_of_equiv_empty. intros id Hid.
  destruct (WFS_edge_idsTyped g e E Hwf HE Hr id Hid) as (ty & Hty & Hor).
  rewrite Ht in Hor. destruct (wfs_table g Hwf id ty Hty) as [[-> | ->] _]; vm_compute in Hor; congruence.
Qed.

Lemma removesFrom_refl Node g : removesFrom Node g g.
Proof. intros e E HE. exists E. split; [done|]. by left. Qed.

Lemma removesFrom_trans Node g1 g2 g3 :
  removesFrom Node g1 g2 -> removesFrom Node g2 g3 -> removesFrom Node g1 g3.
Proof.
  intros H1 H2 e E HE. destruct (H1 e E HE) as (E2 & HE2 & Hk).
  destruct (H2 e E2 HE2) as (E3 & HE3 & Hk'). exists E3. split; [done|].
  destruct Hk as [[Hc Hr]|[Hrem Hn]].
  - destruct Hk' as [[Hc' Hr']|[Hrem' Hn']].
    + left. split; congruence.
    + right. split; [done|congruence].
  - right. split; [|done]. destruct Hk' as [[Hc' Hr']|[Hrem' Hn']]; [|done].
    rewrite (isRemoved_links E2 E3); done.
Qed.

Lemma removeNoneTypeCalleeEdges_loop_spec Node (Rest : list EdgeId) :
  forall (Done : list EdgeId) g Nd,
    WFS g -> NodeOwner g !! Node = Some Nd ->
    ContextNode.CalleeEdges Nd = Done ++ Rest ->
    exists g', removeNoneTypeCalleeEdges_loop g Node Done Rest = Ok g'
      /\ WFS g' /\ evolves g g'
      /\ length (NodeOwner g') = length (NodeOwner g)
      /\ removesFrom Node g g'.
Proof.
  induction Rest as [|e Rest IH]; intros Done g Nd Hwf HN Hl; simpl.
  - exists g. split; [done|]. split; [done|]. split; [apply evolves_refl|].
    split; [done|apply removesFrom_refl].
  - assert (e ∈ ContextNode.CalleeEdges Nd) as He.
    { rewrite Hl. apply elem_of_app. right. left. }
    destruct (wfs_callee g Hwf Node Nd e HN He) as (E & d & D & HE & Hc & Hd & HD & Hin).
    assert (getEdge g e = Ok E) as -> by by apply getEdge_Ok. cbn [mbind Res_bind].
    destruct (N.eqb_spec (ContextEdge.AllocTypes E) AllocationType.None) as [Ht|Ht].
    + destruct (removeEdgeFromGraph_iter_spec g e Node Nd Done Rest Hwf HN Hl)
        as (g1 & Hg1 & Hrem).
      rewrite Hg1. cbn [mbind Res_bind].
      destruct (step_edgeRemoved g g1 e E Hwf HE Hrem)
        as (Hwf1 & Hp1 & Hk1 & Hlen1 & Hfam1 & Hcar1 & Hcl1 & Hoth1).
      destruct Hrem as (_ & _ & _ & Hnodes).
      destruct (Hnodes Node Nd HN) as (Nd1 & HN1 & _ & _ & Hce1 & _).
      assert (ContextNode.CalleeEdges Nd1 = Done ++ Rest) as Hl1.
      { rewrite Hce1, Hl. apply filter_middle_NoDup. rewrite <- Hl.
        by eapply (wfs_nodup_callee g Hwf). }
      destruct (IH Done g1 Nd1 Hwf1 HN1 Hl1) as (g' & Hg' & Hwf' & Hev' & Hlen' & Hrf').
      exists g'. split; [done|]. split; [done|]. split; [|split; [congruence|]].
      * eapply evolves_trans; [|done]. split; [done|].
        intros o id. rewrite (Hcar1 o id).
        rewrite (none_type_no_ids g e E Hwf HE (isRemoved_false E Node Hc) Ht). set_solver.
      * eapply removesFrom_trans; [|done].
        intros e1 E1 HE1. destruct (decide (e1 = e)) as [->|Hne].
        -- exists (ContextEdge.clear E). split; [done|]. right. split; [done|congruence].
        -- exists E1. rewrite Hoth1 by done. split; [done|]. by left.
    + apply (IH (Done ++ [e]) g Nd Hwf HN). by rewrite <- app_assoc.
Qed.

Lemma removeNoneTypeCalleeEdges_spec g Node :
  WFS g -> is_Some (NodeOwner g !! Node) ->
  exists g', removeNoneTypeCalleeEdges g Node = Ok g'
    /\ WFS g' /\ evolves g g'
    /\ length (NodeOwner g') = length (NodeOwner g)
    /\ removesFrom Node g g'.
Proof.
  intros Hwf [Nd HN]. unfold removeNoneTypeCalleeEdges.
  assert (getNode g Node = Ok Nd) as -> by by apply getNode_Ok. cbn [mbind Res_bind].
  by apply (removeNoneTypeCalleeEdges_loop_spec Node _ [] g Nd).
Qed.

(** *** An edge goes to another callee *)

Lemma WFS_edgeRepointed g g' e E c oc nc :
  WFS g -> EdgeStore g !! e = Some E ->
  ContextEdge.Caller E = Some c -> ContextEdge.Callee E = Some oc ->
  is_Some (NodeOwner g !! nc) -> nc <> oc ->
  edgeRepointed g g' e nc -> WFS g'.
Proof.
  intros Hwf HE Hc Hd [NC HNC] Hne (Hmaps & (E0 & HE0 & Hedges) & Hlen & Hnodes).
  assert (E0 = E) as -> by congruence.
  destruct (WFS_edge_linked g e E Hwf HE (isRemoved_false E c Hc))
    as (c' & d' & C & OC & Hc' & Hd' & HC & HeC & HOC & HeOC).
  assert (c' = c) as -> by congruence. assert (d' = oc) as -> by congruence.
  assert (forall e1, e1 <> e -> EdgeStore g' !! e1 = EdgeStore g !! e1) as Hother.
  { intros e1 Hne1. rewrite Hedges. by apply list_lookup_insert_ne. }
  assert (EdgeStore g' !! e = Some (ContextEdge.setCallee (Some nc) E)) as Hnew.
  { rewrite Hedges. apply list_lookup_insert_eq. by eapply lookup_lt_Some. }
  assert (forall n Nd', NodeOwner g' !! n = Some Nd' ->
            exists Nd, NodeOwner g !! n = Some Nd /\ sameNodeInfo Nd Nd'
              /\ ContextNode.AllocTypes Nd' = ContextNode.AllocTypes Nd
              /\ ContextNode.CalleeEdges Nd' = ContextNode.CalleeEdges Nd
              /\ ContextNode.CallerEdges Nd' =
                 filter (fun x => x <> e) (ContextNode.CallerEdges Nd)
                 ++ (if decide (n = nc) then [e] else []))
    as Hback.
  { intros n Nd' HN'. destruct (nodes_back _ _ _ _ Hlen HN') as [Nd HN].
    destruct (Hnodes n Nd HN) as (Nd2 & HN2 & H). exists Nd.
    assert (Nd2 = Nd') as -> by congruence. done. }
  destruct (Hnodes nc NC HNC) as (NC' & HNC' & _ & _ & _ & HNCr).
  rewrite decide_True in HNCr by done.
  destruct (Hnodes c C HC) as (C' & HC' & _ & _ & HCe & _).
  assert (e ∈ ContextNode.CallerEdges NC') as HeNC'.
  { rewrite HNCr. apply elem_of_app. right. left. }
  assert (e ∈ ContextNode.CalleeEdges C') as HeC' by by rewrite HCe.
  apply (WFS_relink g g' Hwf Hmaps).
  - intros n Nd' HN'. destruct (Hback n Nd' HN') as (Nd & HN & Hs & _). eauto.
  - intros n Nd HN. destruct (Hnodes n Nd HN) as (Nd' & HN' & _). eauto.
  - intros n Nd' HN'. destruct (Hback n Nd' HN') as (Nd & HN & Hs & Ht & Hce & Hcr).
    rewrite Ht, Hce, Hcr. split; [by eapply (wfs_node_types g Hwf)|].
    split; [by eapply (wfs_nodup_callee g Hwf)|].
    apply NoDup_app. split; [apply NoDup_filter; by eapply (wfs_nodup_caller g Hwf)|]. split.
    + intros x [Hx _]%list_elem_of_filter Hx'.
      destruct (decide (n = nc)); [|by apply elem_of_nil in Hx'].
      by apply list_elem_of_singleton in Hx'.
    + destruct (decide (n = nc)); [apply NoDup_singleton|apply NoDup_nil_2].
  - intros n Nd' e1 HN' He1. destruct (Hback n Nd' HN') as (Nd & HN & Hs & Ht & Hce & Hcr).
    rewrite Hce in He1.
    destruct (wfs_callee g Hwf n Nd e1 HN He1) as (E1 & d1 & D1 & HE1 & Hc1 & Hd1 & HD1 & Hin).
    destruct (decide (e1 = e)) as [->|Hne1].
    + assert (E1 = E) as -> by congruence.
      exists (ContextEdge.setCallee (Some nc) E), nc, NC'. done.
    + destruct (Hnodes d1 D1 HD1) as (D1' & HD1' & _ & _ & _ & Hcr1).
      exists E1, d1, D1'. rewrite Hother by done. repeat split; try done.
      rewrite Hcr1. apply elem_of_app. left. by apply list_elem_of_filter.
  - intros n Nd' e1 HN' He1. destruct (Hback n Nd' HN') as (Nd & HN & Hs & Ht & Hce & Hcr).
    rewrite Hcr in He1. apply elem_of_app in He1 as [He1|He1].
    + apply list_elem_of_filter in He1 as [Hne1 He1].
      destruct (wfs_caller g Hwf n Nd e1 HN He1) as (E1 & c1 & C1 & HE1 & Hc1 & Hd1 & HC1 & Hin).
      destruct (Hnodes c1 C1 HC1) as (C1' & HC1' & _ & _ & Hce1 & _).
      exists E1, c1, C1'. rewrite Hother by done. repeat split; try done.
      * by rewrite Hce1.
      * intros id Hid. exact (wfs_ids g Hwf n Nd e1 E1 id HN He1 HE1 Hid).
    + destruct (decide (n = nc)) as [->|]; [|by apply elem_of_nil in He1].
      apply list_elem_of_singleton in He1 as ->.
      exists (ContextEdge.setCallee (Some nc) E), c, C'. repeat split; try done.
      exact (WFS_edge_idsTyped g e E Hwf HE (isRemoved_false E c Hc)).
  - intros e1 E1 HE1. destruct (decide (e1 = e)) as [->|Hne1].
    + rewrite Hnew in HE1. injection HE1 as <-. simpl. by eapply (wfs_edge_types g Hwf).
    + rewrite Hother in HE1 by done. by eapply (wfs_edge_types g Hwf).
  - intros e1 E1 HE1. destruct (decide (e1 = e)) as [->|Hne1].
    + rewrite Hnew in HE1. injection HE1 as <-. right.
      exists c, nc, C', NC'. done.
    + rewrite Hother in HE1 by done.
      destruct (wfs_store g Hwf e1 E1 HE1)
        as [Hr|(c1 & d1 & C1 & D1 & Hc1 & Hd1 & HC1 & HeC1 & HD1 & HeD1)]; [by left|right].
      destruct (Hnodes c1 C1 HC1) as (C1' & HC1' & _ & _ & Hce1 & _).
      destruct (Hnodes d1 D1 HD1) as (D1' & HD1' & _ & _ & _ & Hcr1).
      exists c1, d1, C1', D1'. rewrite Hce1, Hcr1.
      repeat split; try done. apply elem_of_app. left. by apply list_elem_of_filter.
Qed.

Lemma step_edgeRepointed g g' e E c oc nc :
  WFS g -> EdgeStore g !! e = Some E ->
  ContextEdge.Caller E = Some c -> ContextEdge.Callee E = Some oc ->
  is_Some (NodeOwner g !! nc) -> nc <> oc ->
  famOf g nc = famOf g oc ->
  edgeRepointed g g' e nc ->
  WFS g' /\ evolves g g' /\ linksKept (fun x => x <> e) g g'
  /\ length (NodeOwner g') = length (NodeOwner g)
  /\ EdgeStore g' !! e = Some (ContextEdge.setCallee (Some nc) E)
  /\ (forall e', e' <> e -> EdgeStore g' !! e' = EdgeStore g !! e').
Proof.
  intros Hwf HE Hc Hd HNC Hne Hf Hrep.
  pose proof (WFS_edgeRepointed g g' e E c oc nc Hwf HE Hc Hd HNC Hne Hrep) as Hwf'.
  destruct Hrep as (Hmaps & (E0 & HE0 & Hedges) & Hlen & Hnodes).
  assert (E0 = E) as -> by congruence.
  assert (forall e1, e1 <> e -> EdgeStore g' !! e1 = EdgeStore g !! e1) as Hother.
  { intros e1 Hne1. rewrite Hedges. by apply list_lookup_insert_ne. }
  assert (EdgeStore g' !! e = Some (ContextEdge.setCallee (Some nc) E)) as Hnew.
  { rewrite Hedges. apply list_lookup_insert_eq. by eapply lookup_lt_Some. }
  assert (forall n Nd, NodeOwner g !! n = Some Nd ->
            exists Nd', NodeOwner g' !! n = Some Nd' /\ sameNodeKind Nd Nd') as Hn.
  { intros n Nd HN. destruct (Hnodes n Nd HN) as (Nd' & HN' & Hs & _).
    exists Nd'. split; [done|by apply sameNodeInfo_kind]. }
  assert (forall d', famOf g' d' = famOf g d') as Hfam.
  { intros d'. by apply famOf_length. }
  split; [done|]. split; [split|]; [| |split; [|split; [|split]]]; try done.
  - apply persists_same_length; try done.
    intros e1 E1 HE1. destruct (decide (e1 = e)) as [->|Hne1].
    + exists (ContextEdge.setCallee (Some nc) E). split; [done|].
      assert (E1 = E) as -> by congruence.
      rewrite (isRemoved_false E c Hc). done.
    + exists E1. rewrite Hother by done. done.
  - by apply (carries_repoint g g' e E (ContextEdge.setCallee (Some nc) E) oc nc).
  - intros e1 E1 Hne1 HE1. exists E1. rewrite Hother by done. done.
Qed.

Lemma repoint_spec g e E c oc nc :
  WFS g -> EdgeStore g !! e = Some E ->
  ContextEdge.Caller E = Some c -> ContextEdge.Callee E = Some oc ->
  is_Some (NodeOwner g !! nc) -> nc <> oc ->
  exists g1 g2 g3,
    updEdge g e (ContextEdge.setCallee (Some nc)) = Ok g1
    /\ pushCallerEdge g1 nc e = Ok g2
    /\ eraseCallerEdge g2 oc e = Ok g3
    /\ edgeRepointed g g3 e nc.
Proof.
  intros Hwf HE Hc Hd [NC HNC] Hne.
  destruct (WFS_edge_linked g e E Hwf HE (isRemoved_false E c Hc))
    as (c' & d' & C & OC & Hc' & Hd' & HC & HeC & HOC & HeOC).
  assert (c' = c) as -> by congruence. assert (d' = oc) as -> by congruence.
  destruct (updEdge_total g e (ContextEdge.setCallee (Some nc)) E HE) as [g1 Hg1].
  pose proof (updEdge_frame _ _ _ _ Hg1) as (Hn1 & ? & ? & ? & ? & ? & ? & ? & ? & Hl1).
  pose proof (proj1 (updEdge_Ok _ _ _ _) Hg1) as (E0 & HE0 & Hg1').
  assert (E0 = E) as -> by congruence.
  assert (NodeOwner g1 !! nc = Some NC) as HNC1 by by rewrite Hn1.
  destruct (updNode_total g1 nc (fun n =>
              ContextNode.setCallerEdges (ContextNode.CallerEdges n ++ [e]) n) NC HNC1)
    as [g2 Hg2].
  pose proof (updNode_frame _ _ _ _ Hg2) as (He2 & ? & ? & ? & ? & ? & ? & ? & ? & Hl2).
  assert (NodeOwner g2 !! oc = Some OC) as HOC2.
  { rewrite (updNode_node _ _ _ _ oc Hg2), decide_False by done. by rewrite Hn1. }
  assert (eraseFirst e (ContextNode.CallerEdges OC)
          = Some (filter (fun x => x <> e) (ContextNode.CallerEdges OC))) as Her.
  { apply eraseFirst_NoDup; [by eapply (wfs_nodup_caller g Hwf)|done]. }
  destruct (updNode_total g2 oc (ContextNode.setCallerEdges
              (filter (fun x => x <> e) (ContextNode.CallerEdges OC))) OC HOC2) as [g3 Hg3].
  pose proof (updNode_frame _ _ _ _ Hg3) as (He3 & ? & ? & ? & ? & ? & ? & ? & ? & Hl3).
  exists g1, g2, g3. split; [done|]. split; [done|]. split.
  { unfold eraseCallerEdge.
    assert (getNode g2 oc = Ok OC) as -> by by apply getNode_Ok.
    cbn [mbind Res_bind]. rewrite Her. done. }
  split; [|split; [|split]].
  - pose proof (updEdge_sameMaps _ _ _ _ Hg1). pose proof (updNode_sameMaps _ _ _ _ Hg2).
    pose proof (updNode_sameMaps _ _ _ _ Hg3).
    eapply sameMaps_trans; [|done]. by eapply sameMaps_trans.
  - exists E. split; [done|]. rewrite He3, He2, Hg1'. done.
  - rewrite Hl3, Hl2, Hn1. done.
  - intros n Nd HN.
    assert (n <> oc -> filter (fun x => x <> e) (ContextNode.CallerEdges Nd)
                       = ContextNode.CallerEdges Nd) as Hfid.
    { intros Hn. apply filter_id. intros y Hy ->.
      destruct (wfs_caller g Hwf n Nd e HN Hy) as (E1 & c1 & C1 & HE1 & Hd1 & _). congruence. }
    rewrite (updNode_node _ _ _ _ n Hg3).
    destruct (decide (n = oc)) as [->|Hnoc].
    + rewrite HOC2. simpl. assert (Nd = OC) as -> by congruence.
      eexists. split; [done|]. split; [repeat split|]. split; [done|]. split; [done|].
      simpl. rewrite decide_False by done. by rewrite app_nil_r.
    + rewrite (updNode_node _ _ _ _ n Hg2), Hn1, HN.
      destruct (decide (n = nc)) as [->|Hnnc]; simpl.
      * eexists. split; [done|]. split; [repeat split|]. split; [done|]. split; [done|].
        simpl. by rewrite Hfid.
      * exists Nd. split; [done|]. split; [repeat split|]. split; [done|]. split; [done|].
        rewrite Hfid by done. by rewrite app_nil_r.
Qed.

(** *** A new clone *)

Lemma WFS_cloneAdded g g' orig cl :
  WFS g -> cloneAdded g g' orig cl -> WFS g'.
Proof.
  intros Hwf (Hmaps & Hedges & Hcl & Hlen & (Orig & HOrig & HOrigc) & Hnodes
              & (CL & HCL & HCLe & HCLr & HCLc & HCLt & HCLo)).
  assert (forall n Nd', NodeOwner g' !! n = Some Nd' ->
            (n = cl /\ Nd' = CL)
            \/ exists Nd, NodeOwner g !! n = Some Nd /\ sameNodeKind Nd Nd'
                 /\ ContextNode.AllocTypes Nd' = ContextNode.AllocTypes Nd
                 /\ ContextNode.CalleeEdges Nd' = ContextNode.CalleeEdges Nd
                 /\ ContextNode.CallerEdges Nd' = ContextNode.CallerEdges Nd
                 /\ ContextNode.Clones Nd' =
                    ContextNode.Clones Nd ++ (if decide (n = orig) then [cl] else [])) as Hback.
  { intros n Nd' HN'. destruct (decide (n = cl)) as [->|Hne].
    - left. split; [done|congruence].
    - right. destruct (lookup_lt_is_Some_2 (NodeOwner g) n) as [Nd HN].
      { apply lookup_lt_Some in HN'. lia. }
      destruct (Hnodes n Nd HN) as (Nd2 & HN2 & H).
      assert (Nd2 = Nd') as -> by congruence. eauto. }
  destruct Hmaps as (Htbl & Halloc & Hstack & Hlast & Hrest).
  split; [split|]; rewrite ?Hedges, ?Htbl, ?Halloc, ?Hstack, ?Hlast.
  - intros n Nd' e HN' He.
    destruct (Hback n Nd' HN') as [[-> ->]|(Nd & HN & _ & _ & Hce & _)].
    { rewrite HCLe in He. by apply elem_of_nil in He. }
    rewrite Hce in He.
    destruct (wfs_callee g Hwf n Nd e HN He) as (E & d & D & HE & Hc & Hd & HD & Hin).
    destruct (Hnodes d D HD) as (D' & HD' & _ & _ & _ & Hcr & _).
    exists E, d, D'. rewrite Hcr. done.
  - intros n Nd' e HN' He.
    destruct (Hback n Nd' HN') as [[-> ->]|(Nd & HN & _ & _ & _ & Hcr & _)].
    { rewrite HCLr in He. by apply elem_of_nil in He. }
    rewrite Hcr in He.
    destruct (wfs_caller g Hwf n Nd e HN He) as (E & c & C & HE & Hc & Hd & HC & Hin).
    destruct (Hnodes c C HC) as (C' & HC' & _ & _ & Hce & _).
    exists E, c, C'. rewrite Hce. done.
  - intros n Nd' HN'.
    destruct (Hback n Nd' HN') as [[-> ->]|(Nd & HN & _ & _ & Hce & _)].
    + rewrite HCLe. apply NoDup_nil_2.
    + rewrite Hce. by eapply (wfs_nodup_callee g Hwf).
  - intros n Nd' HN'.
    destruct (Hback n Nd' HN') as [[-> ->]|(Nd & HN & _ & _ & _ & Hcr & _)].
    + rewrite HCLr. apply NoDup_nil_2.
    + rewrite Hcr. by eapply (wfs_nodup_caller g Hwf).
  - intros n Nd' o HN' Ho.
    assert (exists O, NodeOwner g !! o = Some O /\ ContextNode.CloneOf O = None)
      as (O & HO & HOc).
    { destruct (Hback n Nd' HN') as [[-> ->]|(Nd & HN & (_ & _ & Hco) & _)].
      - assert (o = orig) as -> by congruence. eauto.
      - rewrite Hco in Ho. by eapply (wfs_cloneOf g Hwf). }
    destruct (Hnodes o O HO) as (O' & HO' & (_ & _ & Hco') & _).
    exists O'. split; [done|congruence].
  - intros n Nd' c HN' Hc.
    destruct (Hback n Nd' HN') as [[-> ->]|(Nd & HN & _ & _ & _ & _ & Hcl')].
    { rewrite HCLc in Hc. by apply elem_of_nil in Hc. }
    rewrite Hcl' in Hc. apply elem_of_app in Hc as [Hc|Hc].
    + destruct (wfs_clones g Hwf n Nd c HN Hc) as (C & HC & HCo).
      destruct (Hnodes c C HC) as (C' & HC' & (_ & _ & Hco') & _).
      exists C'. split; [done|congruence].
    + destruct (decide (n = orig)) as [->|]; [|by apply elem_of_nil in Hc].
      apply list_elem_of_singleton in Hc as ->. exists CL. done.
  - intros n Nd' e E id HN' He HE Hid.
    destruct (Hback n Nd' HN') as [[-> ->]|(Nd & HN & _ & _ & _ & Hcr & _)].
    { rewrite HCLr in He. by apply elem_of_nil in He. }
    rewrite Hcr in He. exact (wfs_ids g Hwf n Nd e E id HN He HE Hid).
  - apply (wfs_table g Hwf).
  - intros n Nd' HN'.
    destruct (Hback n Nd' HN') as [[-> ->]|(Nd & HN & _ & Ht & _)].
    + rewrite HCLt. unfold AllocationType.None. lia.
    + rewrite Ht. by eapply (wfs_node_types g Hwf).
  - apply (wfs_edge_types g Hwf).
  - intros C a HCa. destruct (wfs_alloc_map g Hwf C a HCa) as (A & HA & HAo).
    destruct (Hnodes a A HA) as (A' & HA' & (_ & _ & Hco') & _).
    exists A'. split; [done|congruence].
  - intros s n Hs. destruct (wfs_stack_map g Hwf s n Hs) as [Nd HN].
    destruct (Hnodes n Nd HN) as (Nd' & HN' & _). eauto.
  - intros e E HE. destruct (wfs_store g Hwf e E HE)
      as [Hr|(c1 & d1 & C1 & D1 & Hc & Hd & HC1 & HeC & HD1 & HeD)]; [by left|right].
    destruct (Hnodes c1 C1 HC1) as (C1' & HC1' & _ & _ & Hce1 & _).
    destruct (Hnodes d1 D1 HD1) as (D1' & HD1' & _ & _ & _ & Hcr1 & _).
    exists c1, d1, C1', D1'. rewrite Hce1, Hcr1. done.
Qed.

Lemma step_cloneAdded g g' orig cl :
  WFS g -> cloneAdded g g' orig cl ->
  WFS g' /\ evolves g g' /\ linksKept (fun _ => True) g g'
  /\ famOf g' cl = Some orig
  /\ (forall d, is_Some (NodeOwner g !! d) -> famOf g' d = famOf g d).
Proof.
  intros Hwf Hadd. pose proof (WFS_cloneAdded g g' orig cl Hwf Hadd) as Hwf'.
  destruct Hadd as (Hmaps & Hedges & Hcl & Hlen & (Orig & HOrig & HOrigc) & Hnodes
                    & (CL & HCL & HCLe & HCLr & HCLc & HCLt & HCLo)).
  assert (forall n Nd, NodeOwner g !! n = Some Nd ->
            exists Nd', NodeOwner g' !! n = Some Nd' /\ sameNodeKind Nd Nd') as Hn.
  { intros n Nd HN. destruct (Hnodes n Nd HN) as (Nd' & HN' & Hs & _). eauto. }
  split; [done|]. split; [split|]; [| |split; [|split]].
  - split; [done|]. split; [done|]. split.
    + intros n Nd' HN' HN. assert (n = cl) as ->.
      { apply lookup_ge_None in HN. apply lookup_lt_Some in HN'. lia. }
      assert (Nd' = CL) as -> by congruence. rewrite HCLo. eauto.
    + intros e E HE. exists E. rewrite Hedges. done.
  - by apply carries_nodes.
  - intros e E _ HE. exists E. rewrite Hedges. done.
  - unfold famOf, getOrigNode. rewrite HCL. simpl. by rewrite HCLo.
  - intros d Hd. by apply famOf_kind.
Qed.

Lemma newClone_spec g Node Nd b F C :
  WFS g -> NodeOwner g !! Node = Some Nd ->
  exists g1 N1 g2,
    addClone (createNewNode g b F C).2 Node (length (NodeOwner g)) = Ok g1
    /\ getNode g1 Node = Ok N1
    /\ updNode g1 (length (NodeOwner g))
               (ContextNode.setMatchingCalls (ContextNode.MatchingCalls N1)) = Ok g2
    /\ cloneAdded g g2 (getOrigNode Node Nd) (length (NodeOwner g)).
Proof.
  intros Hwf HN.
  destruct (createNewNode_spec g b F C) as (_ & Hn0 & He0 & Hm0).
  set (g0 := (createNewNode g b F C).2) in *.
  set (cl := length (NodeOwner g)).
  set (orig := getOrigNode Node Nd).
  assert (exists Orig, NodeOwner g !! orig = Some Orig /\ ContextNode.CloneOf Orig = None)
    as (Orig & HOrig & HOrigc).
  { unfold orig, getOrigNode. destruct (ContextNode.CloneOf Nd) as [o|] eqn:Ho.
    - by eapply (wfs_cloneOf g Hwf).
    - eauto. }
  assert (orig <> cl) as Hne.
  { apply lookup_lt_Some in HOrig. unfold cl. lia. }
  assert (forall n Nd0, NodeOwner g !! n = Some Nd0 -> NodeOwner g0 !! n = Some Nd0) as Hold.
  { intros n Nd0 H. rewrite Hn0. by apply lookup_app_l_Some. }
  assert (NodeOwner g0 !! cl = Some (ContextNode.new b C)) as Hcl0.
  { rewrite Hn0. unfold cl. rewrite lookup_app_r by lia. by rewrite Nat.sub_diag. }
  destruct (updNode_total g0 orig (fun o =>
              ContextNode.setClones (ContextNode.Clones o ++ [cl]) o) Orig (Hold _ _ HOrig))
    as [ga Hga].
  pose proof (updNode_frame _ _ _ _ Hga) as (Hea & ? & ? & ? & ? & ? & ? & ? & ? & Hla).
  assert (NodeOwner ga !! cl = Some (ContextNode.new b C)) as Hcla.
  { rewrite (updNode_node _ _ _ _ cl Hga), decide_False by done. done. }
  destruct (updNode_total ga cl (ContextNode.setCloneOf (Some orig)) _ Hcla) as [g1 Hg1].
  pose proof (updNode_frame _ _ _ _ Hg1) as (He1 & ? & ? & ? & ? & ? & ? & ? & ? & Hl1).
  assert (addClone g0 Node cl = Ok g1) as Hadd.
  { unfold addClone.
    assert (getNode g0 Node = Ok Nd) as -> by (apply getNode_Ok; by apply Hold).
    cbn [mbind Res_bind]. unfold orig, getOrigNode in Hga, Hg1.
    destruct (ContextNode.CloneOf Nd) as [o|]; rewrite Hga; cbn [mbind Res_bind]; exact Hg1. }
  assert (Node <> cl) as Hne'.
  { apply lookup_lt_Some in HN. unfold cl. lia. }
  assert (exists N1, NodeOwner g1 !! Node = Some N1) as [N1 HN1].
  { rewrite (updNode_node _ _ _ _ Node Hg1), decide_False by done.
    rewrite (updNode_node _ _ _ _ Node Hga). rewrite (Hold _ _ HN).
    destruct (decide (Node = orig)); simpl; eauto. }
  assert (NodeOwner g1 !! cl = Some (ContextNode.setCloneOf (Some orig) (ContextNode.new b C)))
    as Hcl1.
  { rewrite (updNode_node _ _ _ _ cl Hg1), decide_True by done. by rewrite Hcla. }
  destruct (updNode_total g1 cl (ContextNode.setMatchingCalls (ContextNode.MatchingCalls N1))
              _ Hcl1) as [g2 Hg2].
  pose proof (updNode_frame _ _ _ _ Hg2) as (He2 & ? & ? & ? & ? & ? & ? & ? & ? & Hl2).
  exists g1, N1, g2. split; [done|]. split; [by apply getNode_Ok|]. split; [done|].
  split; [|split; [|split; [|split; [|split; [|split]]]]].
  - pose proof (updNode_sameMaps _ _ _ _ Hga). pose proof (updNode_sameMaps _ _ _ _ Hg1).
    pose proof (updNode_sameMaps _ _ _ _ Hg2).
    eapply sameMaps_trans; [|done]. eapply sameMaps_trans; [|done]. by eapply sameMaps_trans.
  - rewrite He2, He1, Hea. done.
  - done.
  - rewrite Hl2, Hl1, Hla, Hn0, length_app. simpl. lia.
  - eauto.
  - intros n Nd0 HN0.
    assert (n <> cl) as Hncl.
    { apply lookup_lt_Some in HN0. unfold cl. lia. }
    rewrite (updNode_node _ _ _ _ n Hg2), decide_False by done.
    rewrite (updNode_node _ _ _ _ n Hg1), decide_False by done.
    rewrite (updNode_node _ _ _ _ n Hga), (Hold _ _ HN0).
    destruct (decide (n = orig)) as [->|Hno]; simpl.
    + eexists. split; [done|]. repeat split.
    + exists Nd0. split; [done|]. repeat split. by rewrite app_nil_r.
  - rewrite (updNode_node _ _ _ _ cl Hg2), decide_True by done. rewrite Hcl1. simpl.
    eexists. split; [done|]. repeat split.
Qed.

(** *** Context ids come and go on an edge *)

Lemma famOf_nodes_eq g g' :
  NodeOwner g' = NodeOwner g -> forall d, famOf g' d = famOf g d.
Proof. intros H d. unfold famOf. by rewrite H. Qed.

Lemma step_grow g e E (K : gset N) t' :
  WFS g -> EdgeStore g !! e = Some E -> ContextEdge.isRemoved E = false ->
  t' <= 3 -> idsTyped g t' K ->
  exists g',
    updEdge g e (fun X =>
      ContextEdge.setAllocTypes (N.lor (ContextEdge.AllocTypes X) t')
        (ContextEdge.setContextIds (ContextEdge.ContextIds X ∪ K) X)) = Ok g'
    /\ WFS g' /\ persists g g' /\ linksKept (fun _ => True) g g'
    /\ NodeOwner g' = NodeOwner g
    /\ (forall o id, carries g' o id <-> carries g o id \/ (edgeInto g E o /\ id ∈ K))
    /\ EdgeStore g' !! e =
       Some (ContextEdge.setAllocTypes (N.lor (ContextEdge.AllocTypes E) t')
               (ContextEdge.setContextIds (ContextEdge.ContextIds E ∪ K) E))
    /\ (forall e', e' <> e -> EdgeStore g' !! e' = EdgeStore g !! e').
Proof.
  intros Hwf HE Hr Ht HK.
  pose proof (WFS_edge_idsTyped g e E Hwf HE Hr) as Hty.
  destruct (step_updEdge g e (fun X =>
      ContextEdge.setAllocTypes (N.lor (ContextEdge.AllocTypes X) t')
        (ContextEdge.setContextIds (ContextEdge.ContextIds X ∪ K) X)) E Hwf HE)
    as (g' & Hg' & Hwf' & Hp & Hk & Hn & Hnew & Hoth & Hlen); simpl; [done|done| | |].
  - apply lor_le3; [by eapply (wfs_edge_types g Hwf)|done].
  - intros id [Hid|Hid]%elem_of_union.
    + destruct (Hty id Hid) as (ty & Htb & Hor). exists ty. split; [done|].
      by apply lor_absorb_lor.
    + destruct (HK id Hid) as (ty & Htb & Hor). exists ty. split; [done|].
      by apply lor_absorb_lor_r.
  - exists g'. repeat (split; [done|]). split; [|done].
    by apply (carries_grow g g' e E _ K (famOf_nodes_eq g g' Hn) HE Hnew Hoth).
Qed.

Lemma step_shrink g e E (K : gset N) :
  WFS g -> EdgeStore g !! e = Some E -> ContextEdge.isRemoved E = false ->
  exists g',
    updEdge g e (fun X =>
      ContextEdge.setContextIds (ContextEdge.ContextIds X ∖ K) X) = Ok g'
    /\ WFS g' /\ persists g g' /\ linksKept (fun _ => True) g g'
    /\ NodeOwner g' = NodeOwner g
    /\ (forall o id, carries g o id <->
          carries g' o id \/ (edgeInto g E o /\ id ∈ ContextEdge.ContextIds E /\ id ∈ K))
    /\ EdgeStore g' !! e =
       Some (ContextEdge.setContextIds (ContextEdge.ContextIds E ∖ K) E)
    /\ (forall e', e' <> e -> EdgeStore g' !! e' = EdgeStore g !! e').
Proof.
  intros Hwf HE Hr.
  pose proof (WFS_edge_idsTyped g e E Hwf HE Hr) as Hty.
  destruct (step_updEdge g e (fun X =>
      ContextEdge.setContextIds (ContextEdge.ContextIds X ∖ K) X) E Hwf HE)
    as (g' & Hg' & Hwf' & Hp & Hk & Hn & Hnew & Hoth & Hlen); simpl; [done|done| | |].
  - by eapply (wfs_edge_types g Hwf).
  - intros id [Hid _]%elem_of_difference. by apply Hty.
  - exists g'. repeat (split; [done|]). split; [|done].
    by apply (carries_shrink g g' e E _ K (famOf_nodes_eq g g' Hn) HE Hnew Hoth).
Qed.

Lemma step_retype g e E :
  WFS g -> EdgeStore g !! e = Some E -> ContextEdge.isRemoved E = false ->
  exists t g',
    computeAllocType g (ContextEdge.ContextIds E) = Ok t
    /\ updEdge g e (ContextEdge.setAllocTypes t) = Ok g'
    /\ WFS g' /\ evolves g g' /\ linksKept (fun _ => True) g g'
    /\ NodeOwner g' = NodeOwner g
    /\ EdgeStore g' !! e = Some (ContextEdge.setAllocTypes t E)
    /\ (forall e', e' <> e -> EdgeStore g' !! e' = EdgeStore g !! e').
Proof.
  intros Hwf HE Hr.
  pose proof (WFS_edge_idsTyped g e E Hwf HE Hr) as Hty.
  destruct (computeAllocType_spec g (ContextEdge.ContextIds E) Hwf) as (t & Ht & Ht3 & Htt).
  { intros id Hid. by eapply idsTyped_in_table. }
  destruct (step_updEdge g e (ContextEdge.setAllocTypes t) E Hwf HE)
    as (g' & Hg' & Hwf' & Hp & Hk & Hn & Hnew & Hoth & Hlen); simpl; [done..|].
  exists t, g'. repeat (split; [done|]). split; [|done]. split; [done|].
  by apply (carries_keep g g' e E _ (famOf_nodes_eq g g' Hn) HE Hnew Hoth).
Qed.

Lemma step_newEdge g c d t (K : gset N) :
  WFS g -> is_Some (NodeOwner g !! c) -> is_Some (NodeOwner g !! d) ->
  t <= 3 -> idsTyped g t K ->
  exists g',
    (g1 ← pushCalleeEdge (makeEdge g d c t K).2 c (length (EdgeStore g));
     pushCallerEdge g1 d (length (EdgeStore g))) = Ok g'
    /\ edgeAdded g g' c d t K
    /\ WFS g' /\ persists g g' /\ linksKept (fun _ => True) g g'
    /\ length (NodeOwner g') = length (NodeOwner g)
    /\ (forall d', famOf g' d' = famOf g d')
    /\ (forall o id, carries g' o id <-> carries g o id \/ (famOf g d = Some o /\ id ∈ K))
    /\ (forall e E, EdgeStore g !! e = Some E -> EdgeStore g' !! e = Some E)
    /\ EdgeStore g' !! length (EdgeStore g)
       = Some (ContextEdge.mk (Some d) (Some c) t false K).
Proof.
  intros Hwf [C HC] [D HD] Ht HK.
  destruct (edgeAdded_calleeFirst g c d t K C D HC HD) as (g' & Hg' & Hadd).
  exists g'. split; [done|]. split; [done|].
  by apply (step_edgeAdded g g' c d t K).
Qed.

(** ** Moving an edge to a clone *)

Lemma subseteq_size_eq (M S : gset N) : M ⊆ S -> size S = size M -> M = S.
Proof.
  intros Hsub Hsz. apply set_subseteq_size_eq; [done|lia].
Qed.

Lemma famOf_persists_length g g' :
  persists g g' -> length (NodeOwner g') = length (NodeOwner g) ->
  forall d, famOf g' d = famOf g d.
Proof. intros (_ & Hn & _) Hlen d. by apply famOf_length. Qed.

Lemma edgeInto_intro g (E : ContextEdge.t) d o :
  ContextEdge.Callee E = Some d -> famOf g d = Some o -> edgeInto g E o.
Proof. intros Hd Hf. exists d. done. Qed.

Lemma edgeInto_elim g (E : ContextEdge.t) d o :
  ContextEdge.Callee E = Some d -> edgeInto g E o -> famOf g d = Some o.
Proof. intros Hd (d' & Hd' & Hf). congruence. Qed.

Lemma carries_intro g e E d o id :
  EdgeStore g !! e = Some E -> ContextEdge.Callee E = Some d -> famOf g d = Some o ->
  id ∈ ContextEdge.ContextIds E -> carries g o id.
Proof. intros HE Hd Hf Hid. exists e, E. split; [done|]. split; [by exists d|done]. Qed.

(** The first half: the ids go from [Edge] to an edge into [nc]; [r] is
    the edge that has them afterwards. *)
Lemma moveEdge_callerEdge_spec g Edge E c oc nc (X : option EdgeId) (M : gset N) :
  WFS g -> EdgeStore g !! Edge = Some E ->
  ContextEdge.Caller E = Some c -> ContextEdge.Callee E = Some oc ->
  is_Some (NodeOwner g !! nc) -> nc <> oc -> famOf g nc = famOf g oc ->
  M ⊆ ContextEdge.ContextIds E ->
  (forall x, X = Some x ->
     exists XE, EdgeStore g !! x = Some XE /\ ContextEdge.Callee XE = Some nc
                /\ ContextEdge.Caller XE = Some c) ->
  exists g', moveEdgeToExistingCalleeClone_callerEdge g Edge E nc X M = Ok g'
    /\ WFS g' /\ evolves g g' /\ linksKept (fun e => e <> Edge) g g'
    /\ length (NodeOwner g') = length (NodeOwner g)
    /\ exists r R E',
         EdgeStore g' !! r = Some R
         /\ ContextEdge.Callee R = Some nc /\ ContextEdge.Caller R = Some c
         /\ ContextEdge.ContextIds R
            = match X with Some x => edgeIds g x ∪ M | None => M end
         /\ EdgeStore g' !! Edge = Some E'
         /\ ((M = ContextEdge.ContextIds E
              /\ (r = Edge \/ ContextEdge.isRemoved E' = true))
             \/ (M <> ContextEdge.ContextIds E /\ r <> Edge
                 /\ ContextEdge.Callee E' = Some oc /\ ContextEdge.Caller E' = Some c
                 /\ ContextEdge.ContextIds E' = ContextEdge.ContextIds E ∖ M)).
Proof.
  intros Hwf HE Hc Hd [NC HNC] Hne Hfam HM HX.
  pose proof (isRemoved_false E c Hc) as Hr.
  pose proof (WFS_edge_idsTyped g Edge E Hwf HE Hr) as HtyE.
  pose proof (wfs_edge_types g Hwf Edge E HE) as HtE.
  unfold moveEdgeToExistingCalleeClone_callerEdge.
  destruct (decide (size (ContextEdge.ContextIds E) = size M)) as [Hsz|Hsz].
  - (* the whole edge *)
    pose proof (subseteq_size_eq M _ HM Hsz) as HMeq.
    destruct (step_updNode g nc (fun n =>
                ContextNode.setAllocTypes
                  (N.lor (ContextNode.AllocTypes n) (ContextEdge.AllocTypes E)) n) NC Hwf HNC)
      as (ga & Hga & Hwfa & Heva & Hka & Hea & Hla & HNCa & Hotha);
      [done|done|done|repeat split| |].
    { simpl. apply lor_le3; [by eapply (wfs_node_types g Hwf)|done]. }
    rewrite Hga. cbn [mbind Res_bind].
    pose proof (famOf_persists_length g ga (proj1 Heva) Hla) as Hfa.
    assert (EdgeStore ga !! Edge = Some E) as HEa by by rewrite Hea.
    destruct X as [x|].
    + destruct (HX x eq_refl) as (XE & HXE & HXd & HXc).
      assert (x <> Edge) as Hxne by (intros ->; congruence).
      assert (EdgeStore ga !! x = Some XE) as HXEa by by rewrite Hea.
      destruct (step_grow ga x XE M (ContextEdge.AllocTypes E) Hwfa HXEa
                  (isRemoved_false XE c HXc) HtE)
        as (gb & Hgb & Hwfb & Hpb & Hkb & Hnb & Hcarb & Hxb & Hothb).
      { eapply idsTyped_subseteq; [|exact HM].
        exact (WFS_edge_idsTyped ga Edge E Hwfa HEa Hr). }
      rewrite Hgb. cbn [mbind Res_bind].
      assert (EdgeStore gb !! Edge = Some E) as HEb by (rewrite Hothb; done).
      destruct (removeEdgeFromGraph_spec gb Edge E Hwfb HEb Hr) as (gc & Hgc & Hrem).
      destruct (step_edgeRemoved gb gc Edge E Hwfb HEb Hrem)
        as (Hwfc & Hpc & Hkc & Hlc & Hfc & Hcarc & Hclc & Hothc).
      pose proof (famOf_nodes_eq ga gb Hnb) as Hfb.
      exists gc. split; [done|]. split; [done|]. split; [split|].
      { eapply persists_trans; [|exact Hpc]. eapply persists_trans; [exact (proj1 Heva)|done]. }
      { intros o id. rewrite <- (proj2 Heva o id). split.
        - intros Hcar. assert (carries gb o id) as Hb by (apply Hcarc; by left).
          apply Hcarb in Hb as [Hb|[Hinto Hid]]; [done|].
          apply (carries_intro ga Edge E oc o id HEa Hd); [|set_solver].
          rewrite Hfa, <- Hfam, <- Hfa. by apply (edgeInto_elim ga XE nc o HXd).
        - intros Hcar. assert (carries gb o id) as Hb by (apply Hcarb; by left).
          apply Hcarc in Hb as [Hb|[Hinto Hid]]; [done|].
          eapply (carries_intro gc x _ nc o id).
          + rewrite Hothc by done. exact Hxb.
          + done.
          + rewrite Hfc, Hfb, Hfa, Hfam, <- Hfa, <- Hfb.
            by apply (edgeInto_elim gb E oc o Hd).
          + simpl. set_solver. }
      split.
      { intros e1 E1 Hne1 HE1.
        destruct (Hka e1 E1 I HE1) as (E2 & HE2 & Hc2 & Hr2).
        destruct (Hkb e1 E2 I HE2) as (E3 & HE3 & Hc3 & Hr3).
        destruct (Hkc e1 E3 Hne1 HE3) as (E4 & HE4 & Hc4 & Hr4).
        exists E4. split; [done|]. split; congruence. }
      split; [congruence|].
      eexists x, _, _. split; [rewrite Hothc by done; exact Hxb|].
      split; [done|]. split; [done|]. split.
      { simpl. by rewrite (edgeIds_lookup g x XE HXE). }
      split; [exact Hclc|]. left. split; [done|]. right. done.
    + destruct (repoint_spec ga Edge E c oc nc Hwfa HEa Hc Hd) as
        (g1 & g2 & g3 & Hg1 & Hg2 & Hg3 & Hrep); [by rewrite HNCa|done|].
      rewrite Hg1. cbn [mbind Res_bind]. rewrite Hg2. cbn [mbind Res_bind].
      rewrite Hd. cbn [mbind Res_bind deref].
      destruct (step_edgeRepointed ga g3 Edge E c oc nc Hwfa HEa Hc Hd)
        as (Hwf3 & Hev3 & Hk3 & Hl3 & HE3 & Hoth3); [by rewrite HNCa|done| |done|].
      { by rewrite !Hfa. }
      exists g3. split; [done|]. split; [done|].
      split; [by eapply evolves_trans|]. split.
      { intros e1 E1 Hne1 HE1.
        destruct (Hka e1 E1 I HE1) as (E2 & HE2 & Hc2 & Hr2).
        destruct (Hk3 e1 E2 Hne1 HE2) as (E4 & HE4 & Hc4 & Hr4).
        exists E4. split; [done|]. split; congruence. }
      split; [congruence|].
      eexists Edge, _, _. split; [exact HE3|]. split; [done|]. split; [done|].
      split; [done|]. split; [exact HE3|]. left. split; [done|]. by left.
  - (* a part of the ids *)
    assert (M <> ContextEdge.ContextIds E) as HMne by (intros ->; done).
    destruct (computeAllocType_spec g M Hwf) as (t & Ht & Ht3 & HtM).
    { intros id Hid. eapply idsTyped_in_table; [exact HtyE|set_solver]. }
    rewrite Ht. cbn [mbind Res_bind].
    assert (exists ga r R,
      match X with
      | Some Existing =>
          updEdge g Existing (fun X0 =>
            ContextEdge.setAllocTypes (N.lor (ContextEdge.AllocTypes X0) t)
              (ContextEdge.setContextIds (ContextEdge.ContextIds X0 ∪ M) X0))
      | None =>
          Caller ← deref (ContextEdge.Caller E);
          let '(NewEdge, g0) := makeEdge g nc Caller t M in
          g1 ← pushCalleeEdge g0 Caller NewEdge; pushCallerEdge g1 nc NewEdge
      end = Ok ga
      /\ WFS ga /\ persists g ga /\ linksKept (fun _ => True) g ga
      /\ length (NodeOwner ga) = length (NodeOwner g)
      /\ (forall o id, carries ga o id <-> carries g o id)
      /\ EdgeStore ga !! Edge = Some E
      /\ EdgeStore ga !! r = Some R /\ r <> Edge
      /\ ContextEdge.Callee R = Some nc /\ ContextEdge.Caller R = Some c
      /\ ContextEdge.ContextIds R
         = match X with Some x => edgeIds g x ∪ M | None => M end)
      as (ga & r & R & Hga & Hwfa & Hpa & Hka & Hla & Hcara & HEa & HRa & Hrne & HRd & HRc & HRi).
    { destruct X as [x|].
      - destruct (HX x eq_refl) as (XE & HXE & HXd & HXc).
        assert (x <> Edge) as Hxne by (intros ->; congruence).
        destruct (step_grow g x XE M t Hwf HXE (isRemoved_false XE c HXc) Ht3 HtM)
          as (ga & Hga & Hwfa & Hpa & Hka & Hna & Hcara & Hxa & Hotha).
        eexists ga, x, _. split; [done|]. split; [done|]. split; [done|]. split; [done|].
        split; [by rewrite Hna|]. split.
        { intros o id. rewrite Hcara. split; [|by left].
          intros [H|[Hinto Hid]]; [done|].
          apply (carries_intro g Edge E oc o id HE Hd); [|set_solver].
          rewrite <- Hfam. by apply (edgeInto_elim g XE nc o HXd). }
        split; [by rewrite Hotha|]. split; [exact Hxa|]. split; [done|].
        split; [done|]. split; [done|]. simpl. by rewrite (edgeIds_lookup g x XE HXE).
      - rewrite Hc. cbn [mbind Res_bind deref].
        destruct (WFS_edge_linked g Edge E Hwf HE Hr)
          as (c' & d' & C & OC & Hc' & _ & HC & _).
        assert (c' = c) as -> by congruence.
        destruct (step_newEdge g c nc t M Hwf) as
          (ga & Hga & Hadd & Hwfa & Hpa & Hka & Hla & Hfa & Hcara & Holda & Hnewa);
          [eauto|eauto|done|done|].
        unfold makeEdge in *. cbn [snd] in Hga.
        eexists ga, (length (EdgeStore g)), _. split; [exact Hga|].
        split; [done|]. split; [done|]. split; [done|]. split; [done|]. split.
        { intros o id. rewrite Hcara. split; [|by left].
          intros [H|[Hf Hid]]; [done|].
          apply (carries_intro g Edge E oc o id HE Hd); [|set_solver]. by rewrite <- Hfam. }
        split; [by apply Holda|]. split; [exact Hnewa|]. split.
        { apply lookup_lt_Some in HE. lia. }
        done. }
    rewrite Hga. cbn [mbind Res_bind].
    pose proof (famOf_persists_length g ga Hpa Hla) as Hfa.
    destruct (Hpa) as (_ & Hna & _).
    destruct (Hna nc NC HNC) as (NCa & HNCa & _).
    destruct (step_updNode ga nc (fun n =>
                ContextNode.setAllocTypes (N.lor (ContextNode.AllocTypes n) t) n) NCa Hwfa HNCa)
      as (gb & Hgb & Hwfb & Hevb & Hkb & Heb & Hlb & HNCb & Hothb);
      [done|done|done|repeat split| |].
    { simpl. apply lor_le3; [by eapply (wfs_node_types ga Hwfa)|done]. }
    rewrite Hgb. cbn [mbind Res_bind].
    pose proof (famOf_persists_length ga gb (proj1 Hevb) Hlb) as Hfb.
    assert (EdgeStore gb !! Edge = Some E) as HEb by by rewrite Heb.
    destruct (step_shrink gb Edge E M Hwfb HEb Hr)
      as (gc & Hgc & Hwfc & Hpc & Hkc & Hnc & Hcarc & HEc & Hothc).
    rewrite Hgc. cbn [mbind Res_bind].
    pose proof (famOf_nodes_eq gb gc Hnc) as Hfc.
    destruct (step_retype gc Edge _ Hwfc HEc) as
      (t' & gd & Ht' & Hgd & Hwfd & Hevd & Hkd & Hnd & HEd & Hothd).
    { simpl. apply (isRemoved_false _ c). done. }
    assert (getEdge gc Edge = Ok (ContextEdge.setContextIds (ContextEdge.ContextIds E ∖ M) E))
      as -> by by apply getEdge_Ok.
    cbn [mbind Res_bind]. rewrite Ht'. cbn [mbind Res_bind].
    exists gd. split; [done|]. split; [done|]. split; [split|].
    { eapply persists_trans; [|exact (proj1 Hevd)]. eapply persists_trans; [|exact Hpc].
      eapply persists_trans; [exact Hpa|exact (proj1 Hevb)]. }
    { intros o id. rewrite (proj2 Hevd o id), <- (Hcara o id), <- (proj2 Hevb o id).
      rewrite (Hcarc o id). split; [by left|].
      intros [H|(Hinto & Hid & HidM)]; [done|].
      apply (carries_intro gc r R nc o id); [|done| |].
      - rewrite Hothc by done. by rewrite Heb.
      - rewrite Hfc, Hfb, Hfa, Hfam, <- Hfa, <- Hfb.
        by apply (edgeInto_elim gb E oc o Hd).
      - rewrite HRi. destruct X; set_solver. }
    split.
    { intros e1 E1 _ HE1.
      destruct (Hka e1 E1 I HE1) as (E2 & HE2 & Hc2 & Hr2).
      destruct (Hkb e1 E2 I HE2) as (E3 & HE3 & Hc3 & Hr3).
      destruct (Hkc e1 E3 I HE3) as (E4 & HE4 & Hc4 & Hr4).
      destruct (Hkd e1 E4 I HE4) as (E5 & HE5 & Hc5 & Hr5).
      exists E5. split; [done|]. split; congruence. }
    split; [rewrite Hnd, Hnc; congruence|].
    eexists r, R, _. split.
    { rewrite Hothd by done. rewrite Hothc by done. by rewrite Heb. }
    split; [done|]. split; [done|]. split; [done|]. split; [exact HEd|].
    right. done.
Qed.

(** The second half, for one callee edge of the old callee. *)
Lemma moveEdge_calleeEdge_spec g oc nc OC (rec NewClone : bool) (M : gset N) OCE :
  WFS g -> NodeOwner g !! oc = Some OC -> OCE ∈ ContextNode.CalleeEdges OC ->
  is_Some (NodeOwner g !! nc) -> nc <> oc -> famOf g nc = famOf g oc ->
  exists g', moveEdgeToExistingCalleeClone_calleeEdge oc nc rec NewClone M g OCE = Ok g'
    /\ WFS g' /\ evolves g g' /\ linksKept (fun _ => True) g g'
    /\ length (NodeOwner g') = length (NodeOwner g)
    /\ (exists OC', NodeOwner g' !! oc = Some OC'
                    /\ ContextNode.CalleeEdges OC' = ContextNode.CalleeEdges OC)
    /\ (forall e E, EdgeStore g !! e = Some E ->
          ContextEdge.Caller E <> Some oc -> ContextEdge.Caller E <> Some nc ->
          EdgeStore g' !! e = Some E).
Proof.
  intros Hwf HOC HOCE [NC HNC] Hne Hfam.
  destruct (wfs_callee g Hwf oc OC OCE HOC HOCE) as (E & x & D & HE & Hc & Hd & HD & Hin).
  pose proof (isRemoved_false E oc Hc) as Hr.
  unfold moveEdgeToExistingCalleeClone_calleeEdge.
  assert (getEdge g OCE = Ok E) as -> by by apply getEdge_Ok.
  cbn [mbind Res_bind]. cbv zeta.
  destruct (bool_decide (ContextEdge.Callee E = Some oc) && rec).
  { exists g. split; [done|]. split; [done|]. split; [apply evolves_refl|].
    split; [apply linksKept_refl|]. split; [done|]. split; [eauto|]. done. }
  assert (exists x', (if decide (ContextEdge.Callee E = Some oc) then Some nc
                      else ContextEdge.Callee E) = Some x'
                     /\ is_Some (NodeOwner g !! x') /\ famOf g x' = famOf g x)
    as (x' & Hx' & Hx'v & Hx'f).
  { destruct (decide (ContextEdge.Callee E = Some oc)) as [Heq|Hneq].
    - exists nc. split; [done|]. split; [eauto|]. rewrite Hfam. congruence.
    - exists x. split; [done|]. split; [eauto|done]. }
  rewrite Hx'.
  set (K := ContextEdge.ContextIds E ∩ M).
  destruct (step_shrink g OCE E K Hwf HE Hr)
    as (g1 & Hg1 & Hwf1 & Hp1 & Hk1 & Hn1 & Hcar1 & HE1 & Hoth1).
  rewrite Hg1. cbn [mbind Res_bind].
  destruct (step_retype g1 OCE _ Hwf1 HE1) as
    (t1 & g2 & Ht1 & Hg2 & Hwf2 & Hev2 & Hk2 & Hn2 & HE2 & Hoth2).
  { simpl. by apply (isRemoved_false _ oc). }
  assert (getEdge g1 OCE = Ok (ContextEdge.setContextIds (ContextEdge.ContextIds E ∖ K) E))
    as -> by by apply getEdge_Ok.
  cbn [mbind Res_bind]. rewrite Ht1. cbn [mbind Res_bind]. rewrite Hg2. cbn [mbind Res_bind].
  pose proof (famOf_nodes_eq g g1 Hn1) as Hf1.
  pose proof (famOf_nodes_eq g1 g2 Hn2) as Hf2.
  assert (NodeOwner g2 = NodeOwner g) as Hn02 by congruence.
  assert (NodeOwner g2 !! nc = Some NC) as HNC2 by by rewrite Hn02.
  destruct (computeAllocType_spec g2 K Hwf2) as (t' & Ht' & Ht'3 & Ht'K).
  { intros id Hid.
    destruct Hp1 as ((Htb1 & _) & _). destruct (proj1 Hev2) as ((Htb2 & _) & _).
    rewrite Htb2, Htb1.
    eapply idsTyped_in_table; [exact (WFS_edge_idsTyped g OCE E Hwf HE Hr)|].
    unfold K in Hid. set_solver. }
  assert (forall o id, carries g o id <->
            carries g2 o id \/ (famOf g x = Some o /\ id ∈ K)) as Hcar2.
  { intros o id. rewrite (Hcar1 o id), (proj2 Hev2 o id).
    split; (intros [H|H]; [by left|right]).
    - destruct H as (Hinto & _ & Hid). split; [|done]. by apply (edgeInto_elim g E x o Hd).
    - destruct H as (Hf & Hid). split; [by apply (edgeInto_intro g E x o Hd)|].
      split; [|done]. unfold K in Hid. set_solver. }
  assert (forall e0 E0, EdgeStore g !! e0 = Some E0 ->
            ContextEdge.Caller E0 <> Some oc -> EdgeStore g2 !! e0 = Some E0) as Hfr2.
  { intros e0 E0 HE0 Hc0. assert (e0 <> OCE) as Hne0 by (intros ->; congruence).
    rewrite Hoth2, Hoth1 by done. done. }
  assert (exists r, (if NewClone then Ok None
                     else findEdgeFromCallee g2 nc (Some x')) = Ok r
            /\ forall y, r = Some y ->
                 exists Y, EdgeStore g2 !! y = Some Y /\ ContextEdge.Callee Y = Some x'
                           /\ ContextEdge.Caller Y = Some nc) as (r & Hr' & Hry).
  { destruct NewClone; [exists None; split; [done|]; intros y [=]|].
    destruct (findEdgeFromCallee_spec g2 nc NC (Some x') Hwf2 HNC2) as (r & Hr' & Hsome & _).
    exists r. split; [done|]. intros y Hy.
    destruct (Hsome y Hy) as (Hyin & Y & HY & HYd).
    destruct (wfs_callee g2 Hwf2 nc NC y HNC2 Hyin) as (Y' & ? & ? & HY' & HYc & _).
    exists Y. split; [done|]. split; [done|]. congruence. }
  rewrite Hr'. cbn [mbind Res_bind].
  destruct r as [y|].
  - destruct (Hry y eq_refl) as (Y & HY & HYd & HYc).
    rewrite Ht'. cbn [mbind Res_bind].
    destruct (step_grow g2 y Y K t' Hwf2 HY (isRemoved_false Y nc HYc) Ht'3 Ht'K)
      as (g3 & Hg3 & Hwf3 & Hp3 & Hk3 & Hn3 & Hcar3 & HY3 & Hoth3).
    exists g3. split; [done|]. split; [done|]. split; [split|].
    { eapply persists_trans; [|exact Hp3]. eapply persists_trans; [exact Hp1|exact (proj1 Hev2)]. }
    { intros o id. rewrite (Hcar3 o id), (Hcar2 o id).
      split; (intros [H|H]; [by left|right]).
      - destruct H as (Hinto & Hid). split; [|done].
        apply (edgeInto_elim g2 Y x' o HYd) in Hinto. by rewrite <- Hx'f, <- Hf1, <- Hf2.
      - destruct H as (Hf & Hid). split; [|done].
        apply (edgeInto_intro g2 Y x' o HYd). by rewrite Hf2, Hf1, Hx'f. }
    split.
    { intros e1 E1 _ HE1'.
      destruct (Hk1 e1 E1 I HE1') as (E2 & HE2' & Hc2 & Hr2).
      destruct (Hk2 e1 E2 I HE2') as (E3 & HE3' & Hc3 & Hr3).
      destruct (Hk3 e1 E3 I HE3') as (E4 & HE4' & Hc4 & Hr4).
      exists E4. split; [done|]. split; congruence. }
    split; [congruence|]. split.
    { exists OC. split; [|done]. by rewrite Hn3, Hn02. }
    intros e0 E0 HE0 Hc0 Hc0'. pose proof (Hfr2 e0 E0 HE0 Hc0) as HE02.
    assert (e0 <> y) as Hne0 by (intros ->; congruence).
    rewrite Hoth3 by done. done.
  - rewrite Ht'. cbn [mbind Res_bind deref].
    destruct (step_newEdge g2 nc x' t' K Hwf2) as
      (g3 & Hg3 & Hadd & Hwf3 & Hp3 & Hk3 & Hl3 & Hf3 & Hcar3 & Hold3 & Hnew3);
      [by rewrite Hn02|by rewrite Hn02|done|done|].
    unfold makeEdge in *. cbn [snd] in Hg3. rewrite decide_False by done.
    exists g3. split; [exact Hg3|]. split; [done|]. split; [split|].
    { eapply persists_trans; [|exact Hp3]. eapply persists_trans; [exact Hp1|exact (proj1 Hev2)]. }
    { intros o id. rewrite (Hcar3 o id), (Hcar2 o id).
      rewrite Hf2, Hf1, Hx'f. done. }
    split.
    { intros e1 E1 _ HE1'.
      destruct (Hk1 e1 E1 I HE1') as (E2 & HE2' & Hc2 & Hr2).
      destruct (Hk2 e1 E2 I HE2') as (E3 & HE3' & Hc3 & Hr3).
      destruct (Hk3 e1 E3 I HE3') as (E4 & HE4' & Hc4 & Hr4).
      exists E4. split; [done|]. split; congruence. }
    split; [rewrite Hl3; by rewrite Hn02|]. split.
    { destruct Hadd as (_ & _ & _ & Hnodes).
      destruct (Hnodes oc OC) as (OC' & HOC' & _ & _ & Hce & _); [by rewrite Hn02|].
      exists OC'. split; [done|]. rewrite Hce, decide_False by done. by rewrite app_nil_r. }
    intros e0 E0 HE0 Hc0 Hc0'. apply Hold3. by apply Hfr2.
Qed.

Section MoveEdge.
Variable opts : Options.

(** [moveEdgeToExistingCalleeClone] on a well-formed graph: it returns, the
    graph stays well formed, and every family carries the context ids that
    it carried.  For an edge from a node other than the two callees, [r] is
    the edge into [nc] that has the ids afterwards. *)
Lemma moveEdgeToExistingCalleeClone_spec g Edge E c oc nc NC (NewClone : bool)
    (M : gset N) :
  WFS g -> EdgeStore g !! Edge = Some E ->
  ContextEdge.Caller E = Some c -> ContextEdge.Callee E = Some oc ->
  NodeOwner g !! nc = Some NC -> nc <> oc -> famOf g nc = famOf g oc ->
  M ⊆ ContextEdge.ContextIds E ->
  let M' := if decide (M = ∅) then ContextEdge.ContextIds E else M in
  exists g', moveEdgeToExistingCalleeClone opts g Edge nc NewClone M = Ok g'
    /\ WFS g' /\ evolves g g' /\ linksKept (fun e => e <> Edge) g g'
    /\ length (NodeOwner g') = length (NodeOwner g)
    /\ (c <> oc -> c <> nc ->
        exists r R E',
          EdgeStore g' !! r = Some R
          /\ ContextEdge.Callee R = Some nc /\ ContextEdge.Caller R = Some c
          /\ M' ⊆ ContextEdge.ContextIds R
          /\ ((forall e0 E0, e0 ∈ ContextNode.CallerEdges NC ->
                 EdgeStore g !! e0 = Some E0 -> ContextEdge.Caller E0 <> Some c) ->
              ContextEdge.ContextIds R = M')
          /\ EdgeStore g' !! Edge = Some E'
          /\ ((M' = ContextEdge.ContextIds E
               /\ (r = Edge \/ ContextEdge.isRemoved E' = true))
              \/ (M' <> ContextEdge.ContextIds E /\ r <> Edge
                  /\ ContextEdge.Callee E' = Some oc /\ ContextEdge.Caller E' = Some c
                  /\ ContextEdge.ContextIds E' = ContextEdge.ContextIds E ∖ M'))).
Proof.
  intros Hwf HE Hc Hd HNC Hne Hfam HM M'.
  assert (M' ⊆ ContextEdge.ContextIds E) as HM'.
  { unfold M'. destruct (decide (M = ∅)); [done|done]. }
  rewrite moveEdgeToExistingCalleeClone_parts.
  assert (getEdge g Edge = Ok E) as -> by by apply getEdge_Ok.
  cbn [mbind Res_bind]. cbv zeta.
  set (rec := bool_decide (ContextEdge.Callee E = ContextEdge.Caller E)).
  destruct (findEdgeFromCaller_spec g nc NC (ContextEdge.Caller E) Hwf HNC)
    as (X & HX & HXsome & HXnone).
  rewrite HX. cbn [mbind Res_bind]. fold M'.
  destruct (moveEdge_callerEdge_spec g Edge E c oc nc X M' Hwf HE Hc Hd)
    as (g1 & Hg1 & Hwf1 & Hev1 & Hk1 & Hl1 & (r & R & E' & HR & HRd & HRc & HRi & HE' & Hcase));
    [eauto|done|done|done| |].
  { intros x Hx. destruct (HXsome x Hx) as (Hin & XE & HXE & HXc).
    destruct (wfs_caller g Hwf nc NC x HNC Hin) as (XE' & ? & ? & HXE' & HXd & _).
    exists XE. split; [done|]. split; congruence. }
  rewrite Hg1. cbn [mbind Res_bind]. rewrite Hd. cbn [mbind Res_bind deref].
  pose proof (famOf_persists_length g g1 (proj1 Hev1) Hl1) as Hf1.
  destruct (WFS_edge_linked g Edge E Hwf HE (isRemoved_false E c Hc))
    as (c' & d' & C & OC & _ & Hd' & _ & _ & HOC & _).
  assert (d' = oc) as -> by congruence.
  destruct (proj1 Hev1) as (_ & Hn1 & _).
  destruct (Hn1 oc OC HOC) as (OC1 & HOC1 & _).
  destruct (Hn1 nc NC HNC) as (NC1 & HNC1 & _).
  assert (getNode g1 oc = Ok OC1) as -> by by apply getNode_Ok.
  cbn [mbind Res_bind].
  destruct (foldlM_inv
    (moveEdgeToExistingCalleeClone_calleeEdge oc nc rec NewClone M')
    (fun gi => WFS gi /\ evolves g1 gi /\ linksKept (fun _ => True) g1 gi
       /\ length (NodeOwner gi) = length (NodeOwner g1)
       /\ (exists OCi, NodeOwner gi !! oc = Some OCi
             /\ ContextNode.CalleeEdges OCi = ContextNode.CalleeEdges OC1)
       /\ (forall e0 E0, EdgeStore g1 !! e0 = Some E0 ->
             ContextEdge.Caller E0 <> Some oc -> ContextEdge.Caller E0 <> Some nc ->
             EdgeStore gi !! e0 = Some E0))
    (ContextNode.CalleeEdges OC1) g1)
    as (g2 & Hg2 & Hwf2 & Hev2 & Hk2 & Hl2 & (OC2 & HOC2 & HOC2e) & Hfr2).
  { split; [done|]. split; [apply evolves_refl|]. split; [apply linksKept_refl|].
    split; [done|]. split; [eauto|]. done. }
  { intros gi x Hx (Hwfi & Hevi & Hki & Hli & (OCi & HOCi & HOCie) & Hfri).
    pose proof (famOf_persists_length g1 gi (proj1 Hevi) Hli) as Hfi.
    destruct (moveEdge_calleeEdge_spec gi oc nc OCi rec NewClone M' x Hwfi HOCi)
      as (gj & Hgj & Hwfj & Hevj & Hkj & Hlj & (OCj & HOCj & HOCje) & Hfrj).
    - by rewrite HOCie.
    - eapply persists_valid; [exact (proj1 Hevi)|eauto].
    - done.
    - by rewrite !Hfi, !Hf1.
    - exists gj. split; [done|]. split; [done|].
      split; [by eapply evolves_trans|]. split; [by eapply linksKept_trans|].
      split; [congruence|]. split; [exists OCj; split; [done|congruence]|].
      intros e0 E0 HE0 Hc0 Hc0'. apply Hfrj; [|done|done]. by apply Hfri. }
  rewrite Hg2. cbn [mbind Res_bind].
  assert (getNode g2 oc = Ok OC2) as -> by by apply getNode_Ok.
  cbn [mbind Res_bind].
  destruct (ContextNode_computeAllocType_spec opts g2 oc OC2 Hwf2 HOC2) as (t & Ht & Ht3).
  rewrite Ht. cbn [mbind Res_bind].
  destruct (step_updNode g2 oc (ContextNode.setAllocTypes t) OC2 Hwf2 HOC2)
    as (g3 & Hg3 & Hwf3 & Hev3 & Hk3 & He3 & Hl3 & HOC3 & Hoth3);
    [done|done|done|repeat split|done|].
  exists g3. split; [done|]. split; [done|].
  split; [eapply evolves_trans; [|exact Hev3]; by eapply evolves_trans|].
  split.
  { intros e1 E1 Hne1 HE1.
    destruct (Hk1 e1 E1 Hne1 HE1) as (E2 & HE2 & Hc2 & Hr2).
    destruct (Hk2 e1 E2 I HE2) as (E3 & HE3 & Hc3 & Hr3).
    destruct (Hk3 e1 E3 I HE3) as (E4 & HE4 & Hc4 & Hr4).
    exists E4. split; [done|]. split; congruence. }
  split; [congruence|].
  intros Hcoc Hcnc.
  assert (ContextEdge.Caller E' <> Some oc /\ ContextEdge.Caller E' <> Some nc) as [HE'1 HE'2].
  { destruct Hcase as [(_ & [->|Hrem])|(_ & _ & _ & HE'c & _)].
    - assert (E' = R) as -> by congruence. rewrite HRc. split; congruence.
    - apply isRemoved_true in Hrem as [_ ->]. done.
    - rewrite HE'c. split; congruence. }
  exists r, R, E'. rewrite He3.
  split; [apply Hfr2; [done|rewrite HRc; congruence|rewrite HRc; congruence]|].
  split; [done|]. split; [done|]. split.
  { rewrite HRi. destruct X; set_solver. }
  split.
  { intros Hnone. rewrite HRi. destruct X as [x|]; [|done]. exfalso.
    destruct (HXsome x eq_refl) as (Hin & XE & HXE & HXc).
    apply (Hnone x XE Hin HXE). congruence. }
  split; [by apply Hfr2|]. done.
Qed.

(** [moveEdgeToNewCalleeClone]: the clone is the next node of the store. *)
Lemma moveEdgeToNewCalleeClone_spec g Edge E c oc (M : gset N) :
  WFS g -> EdgeStore g !! Edge = Some E ->
  ContextEdge.Caller E = Some c -> ContextEdge.Callee E = Some oc ->
  M ⊆ ContextEdge.ContextIds E ->
  let M' := if decide (M = ∅) then ContextEdge.ContextIds E else M in
  let cl := length (NodeOwner g) in
  exists g', moveEdgeToNewCalleeClone opts g Edge M = Ok (cl, g')
    /\ WFS g' /\ evolves g g' /\ linksKept (fun e => e <> Edge) g g'
    /\ length (NodeOwner g') = S (length (NodeOwner g))
    /\ famOf g' cl = famOf g oc
    /\ (c <> oc ->
        exists r R E',
          EdgeStore g' !! r = Some R
          /\ ContextEdge.Callee R = Some cl /\ ContextEdge.Caller R = Some c
          /\ ContextEdge.ContextIds R = M'
          /\ EdgeStore g' !! Edge = Some E'
          /\ ((M' = ContextEdge.ContextIds E
               /\ (r = Edge \/ ContextEdge.isRemoved E' = true))
              \/ (M' <> ContextEdge.ContextIds E /\ r <> Edge
                  /\ ContextEdge.Callee E' = Some oc /\ ContextEdge.Caller E' = Some c
                  /\ ContextEdge.ContextIds E' = ContextEdge.ContextIds E ∖ M'))).
Proof.
  intros Hwf HE Hc Hd HM M' cl.
  destruct (WFS_edge_linked g Edge E Hwf HE (isRemoved_false E c Hc))
    as (c' & d' & C & OC & Hc' & Hd' & HC & _ & HOC & _).
  assert (c' = c) as -> by congruence. assert (d' = oc) as -> by congruence.
  unfold moveEdgeToNewCalleeClone.
  assert (getEdge g Edge = Ok E) as -> by by apply getEdge_Ok.
  cbn [mbind Res_bind]. rewrite Hd. cbn [mbind Res_bind deref].
  assert (getNode g oc = Ok OC) as -> by by apply getNode_Ok.
  cbn [mbind Res_bind].
  destruct (newClone_spec g oc OC (ContextNode.IsAllocation OC) (NodeToCallingFunc g !! oc)
              (ContextNode.Call OC) Hwf HOC) as (g1 & N1 & g2 & Hg1 & HN1 & Hg2 & Hadd).
  destruct (createNewNode_spec g (ContextNode.IsAllocation OC) (NodeToCallingFunc g !! oc)
              (ContextNode.Call OC)) as (Hcl & _).
  destruct (createNewNode g (ContextNode.IsAllocation OC) (NodeToCallingFunc g !! oc)
              (ContextNode.Call OC)) as [Clone g0].
  cbn [fst snd] in *. subst Clone. fold cl in Hg1, Hg2, Hadd. fold cl.
  rewrite Hg1. cbn [mbind Res_bind]. rewrite HN1. cbn [mbind Res_bind].
  rewrite Hg2. cbn [mbind Res_bind].
  destruct (step_cloneAdded g g2 _ cl Hwf Hadd) as (Hwf2 & Hev2 & Hk2 & Hfcl & Hfold).
  destruct Hadd as (_ & He2 & _ & Hl2 & _ & _ & (CL & HCL & _ & HCLr & _)).
  assert (cl <> oc) as Hne.
  { apply lookup_lt_Some in HOC. unfold cl. lia. }
  assert (famOf g oc = Some (getOrigNode oc OC)) as Hfoc.
  { unfold famOf. by rewrite HOC. }
  destruct (moveEdgeToExistingCalleeClone_spec g2 Edge E c oc cl CL true M Hwf2)
    as (g3 & Hg3 & Hwf3 & Hev3 & Hk3 & Hl3 & Hdet); [by rewrite He2|done|done|done|done| |done|].
  { rewrite Hfcl, Hfold by eauto. done. }
  rewrite Hg3. cbn [mbind Res_bind snd].
  exists g3. split; [done|]. split; [done|]. split; [by eapply evolves_trans|].
  split.
  { intros e1 E1 Hne1 HE1.
    destruct (Hk2 e1 E1 I HE1) as (E2 & HE2 & Hc2 & Hr2).
    destruct (Hk3 e1 E2 Hne1 HE2) as (E3 & HE3 & Hc3 & Hr3).
    exists E3. split; [done|]. split; congruence. }
  split; [rewrite Hl3; exact Hl2|]. split.
  { rewrite (famOf_persists_length g2 g3 (proj1 Hev3) Hl3). by rewrite Hfcl. }
  intros Hcoc.
  assert (c <> cl) as Hccl.
  { apply lookup_lt_Some in HC. unfold cl. lia. }
  destruct (Hdet Hcoc Hccl) as (r & R & E' & HR & HRd & HRc & _ & HRi & HE' & Hcase).
  exists r, R, E'. repeat (split; [done|]). split; [|done].
  apply HRi. intros e0 E0 He0. rewrite HCLr in He0. by apply elem_of_nil in He0.
Qed.
End MoveEdge.

(** ** Clone identification *)

Lemma prot_removesFrom (V W : gset NodeId) Node g g' :
  removesFrom Node g g' -> Node ∉ W -> prot V W g g'.
Proof.
  intros Hrf HW e E d HE Hd HV. destruct (Hrf e E HE) as (E' & HE' & [Hk|[Hrem Hc]]).
  - exists E'. split; [done|]. by left.
  - exists E'. split; [done|]. right. split; [done|]. intros c Hc'. congruence.
Qed.

Lemma pendingEdges_prot (V W : gset NodeId) Node l g g' :
  Node ∈ V -> persists g g' -> prot V W g g' ->
  pendingEdges Node l g -> pendingEdges Node l g'.
Proof.
  intros HV (_ & _ & _ & Hedges) Hprot Hpend e He.
  destruct (Hpend e He) as (E & HE & [Hrem|Hd]).
  - destruct (Hedges e E HE) as (E' & HE' & Hmono). exists E'. split; [done|]. left. auto.
  - destruct (Hprot e E Node HE Hd HV) as (E' & HE' & [[Hc _]|[Hrem _]]).
    + exists E'. split; [done|]. right. congruence.
    + exists E'. split; [done|]. by left.
Qed.

Lemma pendingEdges_linksKept (P : EdgeId -> Prop) Node l g g' :
  linksKept P g g' -> (forall e, e ∈ l -> P e) ->
  pendingEdges Node l g -> pendingEdges Node l g'.
Proof.
  intros Hk HP Hpend e He. destruct (Hpend e He) as (E & HE & Hcase).
  destruct (Hk e E (HP e He) HE) as (E' & HE' & Hc & Hr).
  exists E'. split; [done|]. rewrite (isRemoved_links E E') by done.
  destruct Hcase; [by left|right; congruence].
Qed.

Lemma pendingEdges_removesFrom Node cr l g g' :
  removesFrom cr g g' -> pendingEdges Node l g -> pendingEdges Node l g'.
Proof.
  intros Hrf Hpend e He. destruct (Hpend e He) as (E & HE & Hcase).
  destruct (Hrf e E HE) as (E' & HE' & [[Hc Hr]|[Hrem _]]).
  - exists E'. split; [done|]. rewrite (isRemoved_links E E') by done.
    destruct Hcase; [by left|right; congruence].
  - exists E'. split; [done|]. by left.
Qed.

Lemma pendingEdges_cons Node e l g :
  pendingEdges Node (e :: l) g -> pendingEdges Node l g.
Proof. intros H e' He'. apply H. by right. Qed.

Lemma originals_node g (U : gset NodeId) n :
  originals g U -> n ∈ U ->
  exists Nd, NodeOwner g !! n = Some Nd /\ ContextNode.CloneOf Nd = None
             /\ famOf g n = Some n.
Proof.
  intros HU Hn. apply HU in Hn as (Nd & HN & Hco). exists Nd. split; [done|]. split; [done|].
  unfold famOf, getOrigNode. rewrite HN. simpl. by rewrite Hco.
Qed.

Lemma loopPost_refl (Vp Wp : gset NodeId) Node Rest g V :
  WFS g -> pendingEdges Node Rest g -> loopPost Vp Wp Node Rest g V (g, V).
Proof.
  intros Hwf Hpend. split; [done|]. split; [apply evolves_refl|]. split; [done|].
  split; [apply prot_refl|done].
Qed.

Lemma loopPost_step (Vp Wp : gset NodeId) Node Rest g V gA VA g' V' :
  loopPost Vp Wp Node Rest g V (gA, VA) ->
  WFS g' -> evolves gA g' -> VA ⊆ V' -> prot Vp Wp gA g' -> pendingEdges Node Rest g' ->
  loopPost Vp Wp Node Rest g V (g', V').
Proof.
  intros (HwfA & HevA & HVA & HprotA & _) Hwf' Hev' HV' Hprot' Hpend'.
  split; [done|]. split; [by eapply evolves_trans|]. split; [simpl in *; set_solver|].
  split; [|done]. simpl in *. eapply prot_trans; [exact (proj1 Hev')|done|done].
Qed.

Section Loops.
Variable opts : Options.
Variable U : gset NodeId.

(** The end of an iteration. *)
Lemma identifyClones_move_spec Node g (V : gset NodeId) eA EA cA (idsA : gset N)
    (tA : N) (InA : list N) nA :
  WFS g -> originals g U -> Node ∈ U ->
  EdgeStore g !! eA = Some EA ->
  ContextEdge.Callee EA = Some Node -> ContextEdge.Caller EA = Some cA ->
  idsA ⊆ ContextEdge.ContextIds EA ->
  NodeOwner g !! Node = Some nA -> length InA = length (ContextNode.CalleeEdges nA) ->
  exists g', identifyClones_move opts Node g V eA idsA tA InA = Ok (Continue ((g', V), eA))
    /\ WFS g' /\ evolves g g' /\ linksKept (fun e => e <> eA) g g'.
Proof.
  intros Hwf HU HNode HEA Hd Hc Hids HnA Hlen.
  destruct (originals_node g U Node HU HNode) as (nA' & HnA' & Hco & Hfam).
  assert (nA' = nA) as -> by congruence.
  unfold identifyClones_move.
  assert (getNode g Node = Ok nA) as -> by by apply getNode_Ok.
  cbn [mbind Res_bind].
  destruct (findCloneToReuse_spec g Node nA (ContextNode.Clones nA) tA InA Hwf HnA)
    as (r & Hr & Hin); [done|done|].
  rewrite Hr. cbn [mbind Res_bind].
  destruct r as [cl|].
  - destruct (wfs_clones g Hwf Node nA cl HnA (Hin cl eq_refl)) as (CL & HCL & HCLo).
    assert (cl <> Node) as Hne by (intros ->; congruence).
    assert (famOf g cl = famOf g Node) as Hf.
    { rewrite Hfam. unfold famOf, getOrigNode. rewrite HCL. simpl. by rewrite HCLo. }
    destruct (moveEdgeToExistingCalleeClone_spec opts g eA EA cA Node cl CL false idsA
                Hwf HEA Hc Hd HCL Hne Hf Hids) as (g' & Hg' & Hwf' & Hev' & Hk' & _).
    rewrite Hg'. cbn [mbind Res_bind]. exists g'. done.
  - destruct (moveEdgeToNewCalleeClone_spec opts g eA EA cA Node idsA Hwf HEA Hc Hd Hids)
      as (g' & Hg' & Hwf' & Hev' & Hk' & _).
    rewrite Hg'. cbn [mbind Res_bind snd]. exists g'. done.
Qed.

Section Rec.
Variable rec : NodeId -> gset N -> CloneState -> Res CloneState.
Variable Vmin : gset NodeId.
Hypothesis Hrec : recSpec U Vmin rec.

(** The deferred cloning of the caller of a backedge. *)
Lemma identifyClones_backedge_spec Node (Done Rest : list EdgeId) g (V : gset NodeId)
    CallerEdge CE cr (Ids' : gset N) (Vp Wp : gset NodeId) :
  WFS g -> originals g U -> Vmin ⊆ V -> Node ∈ V -> Node ∈ U -> Vp ⊆ V -> Wp ⊆ V ->
  EdgeStore g !! CallerEdge = Some CE ->
  ContextEdge.Callee CE = Some Node -> ContextEdge.Caller CE = Some cr ->
  cr ∈ U -> cr ∉ V ->
  pendingEdges Node Rest g -> CallerEdge ∉ Rest ->
  exists r, identifyClones_backedge rec Node Done Rest (g, V) CallerEdge CE cr Ids' = Ok r
    /\ match r with
       | inl (st', _) => loopPost Vp Wp Node Rest g V st'
       | inr (g', V', eA, idsA, tA, InA) =>
           loopPost Vp Wp Node Rest g V (g', V')
           /\ (eA ∉ Rest)
           /\ exists EA cA nA,
                EdgeStore g' !! eA = Some EA
                /\ ContextEdge.Callee EA = Some Node /\ ContextEdge.Caller EA = Some cA
                /\ idsA ⊆ ContextEdge.ContextIds EA
                /\ NodeOwner g' !! Node = Some nA
                /\ length InA = length (ContextNode.CalleeEdges nA)
       end.
Proof using Hrec.
  intros Hwf HU HVmin HNodeV HNodeU HVp HWp HCE Hd Hc Hcr HcrV Hpend HnotRest.
  unfold identifyClones_backedge. cbv zeta.
  destruct (Hrec cr Ids' g V Hwf HU Hcr HcrV HVmin)
    as (g1 & V1 & Hg1 & Hwf1 & Hev1 & HV1 & Hprot1).
  rewrite Hg1. cbn [mbind Res_bind].
  destruct (Hprot1 CallerEdge CE Node HCE Hd HNodeV) as (CE1 & HCE1 & Hcase1).
  assert (ContextEdge.Callee CE1 = Some Node /\ ContextEdge.Caller CE1 = Some cr) as [Hd1 Hc1].
  { destruct Hcase1 as [[H1 H2]|[_ Hw]]; [split; congruence|].
    exfalso. apply (Hw cr Hc). set_solver. }
  assert (getEdge g1 CallerEdge = Ok CE1) as -> by by apply getEdge_Ok.
  cbn [mbind Res_bind]. rewrite Hc1. cbn [mbind Res_bind deref].
  pose proof (originals_persists g g1 U (proj1 Hev1) HU) as HU1.
  destruct (originals_node g1 U cr HU1 Hcr) as (C1 & HC1 & _).
  destruct (removeNoneTypeCalleeEdges_spec g1 cr Hwf1) as (g2 & Hg2 & Hwf2 & Hev2 & Hl2 & Hrf2);
    [eauto|].
  rewrite Hg2. cbn [mbind Res_bind].
  pose proof (originals_persists g1 g2 U (proj1 Hev2) HU1) as HU2.
  destruct (originals_node g2 U Node HU2 HNodeU) as (n2 & Hn2 & _).
  destruct (Hrf2 CallerEdge CE1 HCE1) as (CE2 & HCE2 & Hcase2).
  assert (getEdge g2 CallerEdge = Ok CE2) as -> by by apply getEdge_Ok.
  cbn [mbind Res_bind].
  assert (getNode g2 Node = Ok n2) as -> by by apply getNode_Ok.
  cbn [mbind Res_bind].
  assert (loopPost Vp Wp Node Rest g V (g2, V1)) as Hpost.
  { split; [done|]. split; [by eapply evolves_trans|]. split; [done|]. split; simpl.
    - eapply prot_trans; [exact (proj1 Hev2)| |].
      + eapply prot_mono; [| |exact Hprot1]; set_solver.
      + eapply prot_removesFrom; [done|]. set_solver.
    - eapply pendingEdges_removesFrom; [done|].
      eapply pendingEdges_prot; [exact HNodeV|exact (proj1 Hev1)|done|done]. }
  assert (exists upd,
    (if decide (size (ContextEdge.ContextIds CE2) < size (ContextEdge.ContextIds CE))%nat
     then findUpdatedBackedge g2 (ContextNode.CallerEdges n2) (ContextEdge.Caller CE2) Ids'
            (Done ++ CallerEdge :: Rest)
     else Ok None) = Ok upd
    /\ forall e New, upd = Some (e, New) ->
         e ∈ ContextNode.CallerEdges n2 /\ (e ∉ Done ++ CallerEdge :: Rest) /\ New ≠ ∅
         /\ exists E, EdgeStore g2 !! e = Some E /\ New = Ids' ∩ ContextEdge.ContextIds E)
    as (upd & Hupd & Hupds).
  { destruct (decide _); [|exists None; split; [done|]; intros ? ? [=]].
    by apply (findUpdatedBackedge_spec g2 Node n2). }
  rewrite Hupd. cbn [mbind Res_bind].
  destruct upd as [[e New]|].
  - destruct (Hupds e New eq_refl) as (Hein & HeS & HNew & Ee & HEe & HNewEq).
    assert (getEdge g2 e = Ok Ee) as -> by by apply getEdge_Ok.
    cbn [mbind Res_bind].
    destruct (ContextEdge.isRemoved Ee) eqn:HrEe.
    { eexists. split; [done|]. done. }
    cbn [negb andb].
    destruct (computeAllocType_spec g2 New Hwf2) as (t & Ht & _).
    { intros id Hid. eapply idsTyped_in_table; [exact (WFS_edge_idsTyped g2 e Ee Hwf2 HEe HrEe)|].
      set_solver. }
    rewrite Ht. cbn [mbind Res_bind].
    destruct (calleeEdgeAllocTypesForCallerEdge_Ok g2 (ContextNode.CalleeEdges n2) New)
      as (In & HIn & HInlen).
    { intros e0 He0. by eapply WFS_callee_edges. }
    { intros id Hid. eapply idsTyped_in_table; [exact (WFS_edge_idsTyped g2 e Ee Hwf2 HEe HrEe)|].
      set_solver. }
    rewrite HIn. cbn [mbind Res_bind].
    eexists. split; [done|]. split; [done|]. split.
    { intros Hin. apply HeS. apply elem_of_app. right. by right. }
    destruct (wfs_caller g2 Hwf2 Node n2 e Hn2 Hein) as (Ee' & c1 & ? & HEe' & Hde & Hce & _).
    assert (Ee' = Ee) as -> by congruence.
    exists Ee, c1, n2. repeat (split; [done|]). split; [set_solver|done].
  - assert (getEdge g2 CallerEdge = Ok CE2) as -> by by apply getEdge_Ok.
    cbn [mbind Res_bind].
    destruct (ContextEdge.isRemoved CE2) eqn:HrCE2.
    { eexists. split; [done|]. done. }
    cbn [negb andb].
    destruct (bool_decide (Ids' ∩ ContextEdge.ContextIds CE2 = ∅)) eqn:Hemp.
    { eexists. split; [done|]. done. }
    destruct (computeAllocType_spec g2 (Ids' ∩ ContextEdge.ContextIds CE2) Hwf2) as (t & Ht & _).
    { intros id Hid.
      eapply idsTyped_in_table; [exact (WFS_edge_idsTyped g2 CallerEdge CE2 Hwf2 HCE2 HrCE2)|].
      set_solver. }
    rewrite Ht. cbn [mbind Res_bind].
    destruct (calleeEdgeAllocTypesForCallerEdge_Ok g2 (ContextNode.CalleeEdges n2)
                (Ids' ∩ ContextEdge.ContextIds CE2)) as (In & HIn & HInlen).
    { intros e0 He0. by eapply WFS_callee_edges. }
    { intros id Hid.
      eapply idsTyped_in_table; [exact (WFS_edge_idsTyped g2 CallerEdge CE2 Hwf2 HCE2 HrCE2)|].
      set_solver. }
    rewrite HIn. cbn [mbind Res_bind].
    eexists. split; [done|]. split; [done|]. split; [done|].
    assert (ContextEdge.Callee CE2 = Some Node /\ ContextEdge.Caller CE2 = Some cr) as [Hd2 Hc2].
    { destruct Hcase2 as [[H1 H2]|[Hrem _]]; [split; congruence|congruence]. }
    exists CE2, cr, n2. repeat (split; [done|]). split; [set_solver|done].
Qed.
End Rec.
End Loops.

Section CloningLoop.
Variable opts : Options.
Variable U : gset NodeId.
Variable rec : NodeId -> gset N -> CloneState -> Res CloneState.
Variable Vmin : gset NodeId.
Hypothesis Hrec : recSpec U Vmin rec.

(** After the move of the edge [eA] into [Node]. *)
Lemma loopPost_move (Vp Wp : gset NodeId) Node (Rest : list EdgeId) g V gA VA g' eA EA :
  loopPost Vp Wp Node Rest g V (gA, VA) ->
  EdgeStore gA !! eA = Some EA -> ContextEdge.Callee EA = Some Node ->
  Node ∉ Vp -> eA ∉ Rest ->
  WFS g' -> evolves gA g' -> linksKept (fun e => e <> eA) gA g' ->
  loopPost Vp Wp Node Rest g V (g', VA).
Proof.
  intros Hpost HEA Hd HNode HeA Hwf' Hev' Hk'.
  eapply loopPost_step; [exact Hpost|done|done|done| |].
  - eapply prot_of_linksKept; [exact Hk'|].
    intros e E d HE Hd' HdV ->. assert (d = Node) as -> by congruence. done.
  - eapply pendingEdges_linksKept; [exact Hk'| |by destruct Hpost as (_ & _ & _ & _ & ?)].
    intros e He ->. done.
Qed.

Lemma identifyClones_iteration_spec Node (Ids Rids : gset N) (Done Rest : list EdgeId)
    g (V : gset NodeId) CallerEdge (Vp Wp : gset NodeId) :
  WFS g -> originals g U -> Vmin ⊆ V -> Node ∈ V -> Node ∈ U ->
  Vp ⊆ V -> Wp ⊆ V -> Node ∉ Vp ->
  pendingEdges Node (CallerEdge :: Rest) g -> CallerEdge ∉ Rest ->
  exists r,
    identifyClones_iteration opts rec Node Ids Rids Done Rest (g, V) CallerEdge = Ok r
    /\ match r with
       | Continue (st', _) => loopPost Vp Wp Node Rest g V st'
       | Break (st', _) => loopPost Vp Wp Node Rest g V st'
       end.
Proof using Hrec.
  intros Hwf HU HVmin HNodeV HNodeU HVp HWp HNodeVp Hpend HnotRest.
  pose proof (pendingEdges_cons Node CallerEdge Rest g Hpend) as Hrest.
  pose proof (loopPost_refl Vp Wp Node Rest g V Hwf Hrest) as Hpost0.
  destruct (Hpend CallerEdge) as (CE & HCE & Hcase); [left|].
  rewrite identifyClones_iteration_parts.
  assert (getEdge g CallerEdge = Ok CE) as -> by by apply getEdge_Ok.
  cbn [mbind Res_bind].
  destruct (ContextEdge.isRemoved CE) eqn:HrCE.
  { eexists. split; [done|]. done. }
  destruct Hcase as [?|Hd]; [congruence|].
  destruct (WFS_edge_linked g CallerEdge CE Hwf HCE HrCE)
    as (cr & d' & C & nA & Hc & Hd' & HC & _ & HnA & _).
  assert (d' = Node) as -> by congruence.
  assert (getNode g Node = Ok nA) as -> by by apply getNode_Ok.
  cbn [mbind Res_bind].
  destruct (_ || _).
  { eexists. split; [done|]. done. }
  rewrite Hc. cbn [mbind Res_bind deref].
  assert (getNode g cr = Ok C) as -> by by apply getNode_Ok.
  cbn [mbind Res_bind].
  destruct (negb (ContextNode.hasCall C)).
  { eexists. split; [done|]. done. }
  cbv zeta.
  set (Ids' := if decide (Rids = ∅) then ContextEdge.ContextIds CE ∩ Ids
               else (ContextEdge.ContextIds CE ∩ Ids) ∖ Rids).
  assert (Ids' ⊆ ContextEdge.ContextIds CE) as HIds'.
  { unfold Ids'. destruct (decide (Rids = ∅)); set_solver. }
  destruct (decide (Ids' = ∅)).
  { eexists. split; [done|]. done. }
  pose proof (WFS_edge_idsTyped g CallerEdge CE Hwf HCE HrCE) as HtyCE.
  assert (forall id, id ∈ Ids' -> is_Some (ContextIdToAllocationType g !! id)) as HIdsT.
  { intros id Hid. eapply idsTyped_in_table; [exact HtyCE|set_solver]. }
  destruct (computeAllocType_spec g Ids' Hwf HIdsT) as (t & Ht & _).
  rewrite Ht. cbn [mbind Res_bind].
  destruct (calleeEdgeAllocTypesForCallerEdge_Ok g (ContextNode.CalleeEdges nA) Ids')
    as (In & HIn & HInlen); [|done|].
  { intros e0 He0. by eapply WFS_callee_edges. }
  rewrite HIn. cbn [mbind Res_bind].
  assert (exists b,
    (if negb (ContextEdge.IsBackedge CE)
        && N.eqb (allocTypeToUse t) (allocTypeToUse (ContextNode.AllocTypes nA))
     then allocTypesMatch g In (ContextNode.CalleeEdges nA)
     else Ok false) = Ok b) as [b Hb].
  { destruct (_ && _); [|eauto]. apply allocTypesMatch_Ok.
    intros e0 He0. by eapply WFS_callee_edges. }
  rewrite Hb. cbn [mbind Res_bind].
  destruct b.
  { eexists. split; [done|]. done. }
  destruct (ContextEdge.IsBackedge CE
            && negb (bool_decide (is_Some (ContextNode.CloneOf C)))
            && negb (bool_decide (cr ∈ V))) eqn:Hback.
  - apply andb_true_iff in Hback as [Hback HcrV].
    apply andb_true_iff in Hback as [_ Hco].
    apply negb_true_iff, bool_decide_eq_false in HcrV, Hco.
    assert (cr ∈ U) as HcrU.
    { apply HU. exists C. split; [done|].
      destruct (ContextNode.CloneOf C); [exfalso; apply Hco; eauto|done]. }
    destruct (identifyClones_backedge_spec U rec Vmin Hrec Node Done Rest g V
                CallerEdge CE cr Ids' Vp Wp) as (r & Hr & Hrpost); try done.
    rewrite Hr. cbn [mbind Res_bind].
    destruct r as [[st' e']|[[[[[g' V'] eA] idsA] tA] InA]].
    + eexists. split; [done|]. done.
    + destruct Hrpost as (Hpost & HeA & EA & cA & nA' & HEA & HdA & HcA & HidsA & HnA' & HlenA).
      destruct Hpost as (Hwf' & Hev' & HV' & Hprot' & Hpend').
      pose proof (originals_persists g g' U (proj1 Hev') HU) as HU'.
      destruct (identifyClones_move_spec opts U Node g' V' eA EA cA idsA tA InA nA'
                  Hwf' HU' HNodeU HEA HdA HcA HidsA HnA' HlenA)
        as (g'' & Hg'' & Hwf'' & Hev'' & Hk'').
      rewrite Hg''. eexists. split; [done|].
      eapply (loopPost_move Vp Wp Node Rest g V g' V' g'' eA EA); try done.
  - cbn [mbind Res_bind].
    destruct (identifyClones_move_spec opts U Node g V CallerEdge CE cr Ids' t In nA
                Hwf HU HNodeU HCE Hd Hc HIds' HnA HInlen)
      as (g'' & Hg'' & Hwf'' & Hev'' & Hk'').
    rewrite Hg''. eexists. split; [done|].
    eapply (loopPost_move Vp Wp Node Rest g V g V g'' CallerEdge CE); try done.
Qed.

(** The cloning loop. *)
Lemma identifyClones_loop_spec Node (Ids Rids : gset N) (Vp Wp : gset NodeId)
    (Rest : list EdgeId) :
  forall (Done : list EdgeId) g (V : gset NodeId),
    WFS g -> originals g U -> Vmin ⊆ V -> Node ∈ V -> Node ∈ U ->
    Vp ⊆ V -> Wp ⊆ V -> Node ∉ Vp ->
    pendingEdges Node Rest g -> NoDup Rest ->
    exists g' V',
      identifyClones_loop opts rec Node Ids Rids Done Rest (g, V) = Ok (g', V')
      /\ WFS g' /\ evolves g g' /\ V ⊆ V' /\ prot Vp Wp g g'.
Proof using Hrec.
  induction Rest as [|CallerEdge Rest IH];
    intros Done g V Hwf HU HVmin HNodeV HNodeU HVp HWp HNodeVp Hpend Hnd;
    cbn [identifyClones_loop].
  - exists g, V. split; [done|]. split; [done|]. split; [apply evolves_refl|].
    split; [done|apply prot_refl].
  - apply NoDup_cons in Hnd as [HnotRest Hnd].
    destruct (identifyClones_iteration_spec Node Ids Rids Done Rest g V CallerEdge Vp Wp)
      as (r & Hr & Hpost); try done.
    rewrite Hr. cbn [mbind Res_bind]. clear Hr.
    destruct r as [[[g1 V1] e1]|[[g1 V1] e1]];
      destruct Hpost as (Hwf1 & Hev1 & HV1 & Hprot1 & Hpend1); cbn [fst snd] in *.
    + destruct (IH (Done ++ [e1]) g1 V1) as (g' & V' & Hg' & Hwf' & Hev' & HV' & Hprot');
        [done|by eapply originals_persists; [exact (proj1 Hev1)|]
        |set_solver|set_solver|done|set_solver|set_solver|done|done|done|].
      exists g', V'. split; [done|]. split; [done|].
      split; [by eapply evolves_trans|]. split; [set_solver|].
      eapply prot_trans; [exact (proj1 Hev')|done|done].
    + exists g1, V1. done.
Qed.

(** The first loop: the callers are visited first. *)
Lemma identifyClones_callers_spec (Ids : gset N) (Vp Wp : gset NodeId) g (V : gset NodeId)
    Edge :
  WFS g -> originals g U -> Vmin ⊆ V -> Vp ⊆ V -> Wp ⊆ V ->
  is_Some (EdgeStore g !! Edge) ->
  exists g' V',
    identifyClones_callers rec Ids (g, V) Edge = Ok (g', V')
    /\ WFS g' /\ evolves g g' /\ V ⊆ V' /\ prot Vp Wp g g'.
Proof using Hrec.
  intros Hwf HU HVmin HVp HWp [E HE].
  assert (exists g' V', Ok (g, V) = Ok (g', V')
            /\ WFS g' /\ evolves g g' /\ V ⊆ V' /\ prot Vp Wp g g') as Hsame.
  { exists g, V. split; [done|]. split; [done|]. split; [apply evolves_refl|].
    split; [done|apply prot_refl]. }
  unfold identifyClones_callers.
  assert (getEdge g Edge = Ok E) as -> by by apply getEdge_Ok.
  cbn [mbind Res_bind].
  destruct (ContextEdge.isRemoved E) eqn:HrE; [done|].
  destruct (ContextEdge.IsBackedge E); [done|].
  destruct (WFS_edge_linked g Edge E Hwf HE HrE) as (cr & d & C & D & Hc & _ & HC & _).
  rewrite Hc.
  destruct (decide (cr ∈ V)) as [|HcrV]; [done|].
  assert (getNode g cr = Ok C) as -> by by apply getNode_Ok.
  cbn [mbind Res_bind].
  destruct (bool_decide (is_Some (ContextNode.CloneOf C))) eqn:Hco; [done|].
  apply bool_decide_eq_false in Hco.
  assert (cr ∈ U) as HcrU.
  { apply HU. exists C. split; [done|].
    destruct (ContextNode.CloneOf C); [exfalso; apply Hco; eauto|done]. }
  destruct (Hrec cr Ids g V Hwf HU HcrU HcrV HVmin)
    as (g' & V' & Hg' & Hwf' & Hev' & HV' & Hprot').
  exists g', V'. split; [done|]. split; [done|]. split; [done|]. split; [done|].
  eapply prot_mono; [| |exact Hprot']; set_solver.
Qed.

Lemma identifyClones_callers_fold (Ids : gset N) (Vp Wp : gset NodeId) (l : list EdgeId) :
  forall g (V : gset NodeId),
    WFS g -> originals g U -> Vmin ⊆ V -> Vp ⊆ V -> Wp ⊆ V ->
    (forall e, e ∈ l -> is_Some (EdgeStore g !! e)) ->
    exists g' V',
      foldlM (identifyClones_callers rec Ids) l (g, V) = Ok (g', V')
      /\ WFS g' /\ evolves g g' /\ V ⊆ V' /\ prot Vp Wp g g'.
Proof using Hrec.
  induction l as [|e l IH]; intros g V Hwf HU HVmin HVp HWp Hl; cbn [foldlM].
  - exists g, V. split; [done|]. split; [done|]. split; [apply evolves_refl|].
    split; [done|apply prot_refl].
  - destruct (identifyClones_callers_spec Ids Vp Wp g V e Hwf HU HVmin HVp HWp)
      as (g1 & V1 & Hg1 & Hwf1 & Hev1 & HV1 & Hprot1); [apply Hl; left|].
    rewrite Hg1. cbn [mbind Res_bind]. clear Hg1.
    destruct (IH g1 V1) as (g' & V' & Hg' & Hwf' & Hev' & HV' & Hprot');
      [done|by eapply originals_persists; [exact (proj1 Hev1)|]
      |set_solver|set_solver|set_solver| |].
    { intros e' He'. eapply persists_edge; [exact (proj1 Hev1)|]. apply Hl. by right. }
    exists g', V'. split; [done|]. split; [done|].
    split; [by eapply evolves_trans|]. split; [set_solver|].
    eapply prot_trans; [exact (proj1 Hev')|done|done].
Qed.
End CloningLoop.

Lemma unvisited_fewer (U V : gset NodeId) (n : NodeId) :
  n ∈ U -> n ∉ V -> (size (U ∖ (V ∪ {[n]})) < size (U ∖ V))%nat.
Proof.
  intros HU HV. apply subset_size. apply strict_spec_alt. split; [set_solver|].
  intros Heq. assert (n ∈ U ∖ V) as Hn by set_solver. rewrite <- Heq in Hn. set_solver.
Qed.

Lemma unvisited_mono_sub (U V V' : gset NodeId) :
  V ⊆ V' -> (size (U ∖ V') <= size (U ∖ V))%nat.
Proof. intros H. apply subseteq_size. set_solver. Qed.

Section CloningNode.
Variable opts : Options.
Variable ContextIds_begin : EdgeId -> gset N -> N.
Variable U : gset NodeId.

(** [identifyClones] of a node that has not been visited, with fuel for the
    original nodes that have not been visited. *)
Lemma identifyClones_node_spec (fuel : nat) :
  forall Node (Ids : gset N) g (V : gset NodeId),
    WFS g -> originals g U -> Node ∈ U -> Node ∉ V -> (size (U ∖ V) < fuel)%nat ->
    exists g' V',
      identifyClones_node opts ContextIds_begin fuel Node Ids (g, V) = Ok (g', V')
      /\ WFS g' /\ evolves g g' /\ V ⊆ V' /\ prot V (V ∪ {[Node]}) g g'.
Proof.
  induction fuel as [|fuel IH]; intros Node Ids g V Hwf HU HNodeU HNodeV Hfuel; [lia|].
  assert (exists g' V', Ok (g, V) = Ok (g', V')
            /\ WFS g' /\ evolves g g' /\ V ⊆ V' /\ prot V (V ∪ {[Node]}) g g') as Hsame.
  { exists g, V. split; [done|]. split; [done|]. split; [apply evolves_refl|].
    split; [done|apply prot_refl]. }
  cbn [identifyClones_node].
  destruct (originals_node g U Node HU HNodeU) as (n & Hn & Hco & _).
  assert (getNode g Node = Ok n) as -> by by apply getNode_Ok.
  cbn [mbind Res_bind].
  destruct (negb (ContextNode.hasCall n)); [done|].
  destruct (hasSingleAllocType (ContextNode.AllocTypes n)); [done|].
  set (V1 := V ∪ {[Node]}).
  assert (recSpec U V1 (identifyClones_node opts ContextIds_begin fuel)) as Hrec.
  { intros M Ids' g1 V' Hwf1 HU1 HM HMV' HV1.
    apply IH; try done.
    pose proof (unvisited_fewer U V Node HNodeU HNodeV).
    pose proof (unvisited_mono_sub U V1 V' HV1). unfold V1 in *. lia. }
  destruct (identifyClones_callers_fold U (identifyClones_node opts ContextIds_begin fuel) V1 Hrec Ids V V1
              (ContextNode.CallerEdges n) g V1 Hwf HU)
    as (g1 & V2 & Hg1 & Hwf1 & Hev1 & HV2 & Hprot1);
    [done|apply union_subseteq_l|done| |].
  { intros e He. by eapply WFS_caller_edges. }
  rewrite Hg1. cbn [mbind Res_bind].
  pose proof (originals_persists g g1 U (proj1 Hev1) HU) as HU1.
  destruct (originals_node g1 U Node HU1 HNodeU) as (n1 & Hn1 & Hco1 & _).
  assert (getNode g1 Node = Ok n1) as -> by by apply getNode_Ok.
  cbn [mbind Res_bind].
  destruct (_ || _).
  { exists g1, V2. split; [done|]. split; [done|]. split; [done|].
    split; [etrans; [apply union_subseteq_l|exact HV2]|done]. }
  destruct (sortCallerEdges_perm ContextIds_begin g1 (ContextNode.CallerEdges n1)) as (sorted & Hsort & Hperm).
  { intros e He. destruct (wfs_caller g1 Hwf1 Node n1 e Hn1 He) as (E & ? & ? & HE & _).
    exists E. split; [done|]. pose proof (wfs_edge_types g1 Hwf1 e E HE). lia. }
  rewrite Hsort. cbn [mbind Res_bind].
  destruct (step_updNode g1 Node (ContextNode.setCallerEdges sorted) n1 Hwf1 Hn1)
    as (g2 & Hg2 & Hwf2 & Hev2 & Hk2 & He2 & Hl2 & Hn2 & Hoth2);
    [done|exact Hperm|done|repeat split| |].
  { simpl. by eapply (wfs_node_types g1 Hwf1). }
  rewrite Hg2. cbn [mbind Res_bind].
  pose proof (originals_persists g1 g2 U (proj1 Hev2) HU1) as HU2.
  assert (forall e, e ∈ sorted ->
            exists E, EdgeStore g2 !! e = Some E /\ ContextEdge.Callee E = Some Node) as Hsorted.
  { intros e He. rewrite Hperm in He.
    destruct (wfs_caller g1 Hwf1 Node n1 e Hn1 He) as (E & ? & ? & HE & Hd & _).
    exists E. rewrite He2. done. }
  assert (exists R,
    (if AllowRecursiveCallsites opts && negb (AllowRecursiveContexts opts)
     then idsOnMultipleEdges g2 sorted else Ok ∅) = Ok R) as [R HR].
  { destruct (_ && _); [|eauto]. apply idsOnMultipleEdges_Ok.
    intros e He. destruct (Hsorted e He) as (E & HE & _). eauto. }
  rewrite HR. cbn [mbind Res_bind].
  destruct (identifyClones_loop_spec opts U (identifyClones_node opts ContextIds_begin fuel) V1 Hrec
              Node Ids R V V1 sorted [] g2 V2 Hwf2 HU2)
    as (g3 & V3 & Hg3 & Hwf3 & Hev3 & HV3 & Hprot3);
    [exact HV2|apply HV2, elem_of_union_r, elem_of_singleton; reflexivity|exact HNodeU
    |etrans; [apply union_subseteq_l|exact HV2]|exact HV2|exact HNodeV| |
    |].
  { intros e He. destruct (Hsorted e He) as (E & HE & Hd). exists E. split; [done|by right]. }
  { rewrite Hperm. by eapply (wfs_nodup_caller g1 Hwf1). }
  exists g3, V3. split; [exact Hg3|]. split; [exact Hwf3|].
  split; [eapply evolves_trans; [|exact Hev3]; by eapply evolves_trans|].
  split; [etrans; [apply union_subseteq_l|]; etrans; [exact HV2|exact HV3]|].
  eapply prot_trans; [exact (proj1 Hev3)| |exact Hprot3].
  eapply prot_trans; [exact (proj1 Hev2)|exact Hprot1|].
  eapply prot_of_linksKept; [exact Hk2|done].
Qed.
End CloningNode.

(** ** The removal of the edges without context ids *)

Lemma nodeIds_elem g n : n ∈ nodeIds g <-> is_Some (NodeOwner g !! n).
Proof.
  unfold nodeIds. rewrite elem_of_list_to_set, elem_of_seq, lookup_lt_is_Some. lia.
Qed.

Lemma nodeIds_length g g' :
  length (NodeOwner g') = length (NodeOwner g) -> nodeIds g' = nodeIds g.
Proof. unfold nodeIds. by intros ->. Qed.

Lemma nodeIds_size g : size (nodeIds g) = length (NodeOwner g).
Proof.
  unfold nodeIds. rewrite size_list_to_set by apply NoDup_seq. by rewrite length_seq.
Qed.

Lemma valid_same_length g g' n :
  length (NodeOwner g') = length (NodeOwner g) ->
  is_Some (NodeOwner g !! n) -> is_Some (NodeOwner g' !! n).
Proof. rewrite !lookup_lt_is_Some. by intros ->. Qed.

Section RemoveNoneRec.
Variable fuel : nat.
Variable rec : NodeId -> CloneState -> Res CloneState.
Hypothesis Hrec : forall Node g (V : gset NodeId),
  WFS g -> is_Some (NodeOwner g !! Node) -> (size (nodeIds g ∖ V) < fuel)%nat ->
  exists g' V', rec Node (g, V) = Ok (g', V')
    /\ WFS g' /\ evolves g g' /\ length (NodeOwner g') = length (NodeOwner g) /\ V ⊆ V'.

Lemma removeNone_clones_fold (l : list NodeId) :
  forall g (V : gset NodeId),
    WFS g -> (forall c, c ∈ l -> is_Some (NodeOwner g !! c)) ->
    (size (nodeIds g ∖ V) < fuel)%nat ->
    exists g' V', foldlM (fun st Clone => rec Clone st) l (g, V) = Ok (g', V')
      /\ WFS g' /\ evolves g g' /\ length (NodeOwner g') = length (NodeOwner g) /\ V ⊆ V'.
Proof using Hrec.
  induction l as [|c l IH]; intros g V Hwf Hl Hsz; cbn [foldlM].
  - exists g, V. split; [done|]. split; [done|]. split; [apply evolves_refl|]. done.
  - destruct (Hrec c g V Hwf) as (g1 & V1 & Hg1 & Hwf1 & Hev1 & Hl1 & HV1);
      [apply Hl; left|done|].
    rewrite Hg1. cbn [mbind Res_bind].
    destruct (IH g1 V1 Hwf1) as (g' & V' & Hg' & Hwf' & Hev' & Hl' & HV').
    { intros c' Hc'. apply (valid_same_length g g1 c' Hl1). apply Hl. by right. }
    { rewrite (nodeIds_length g g1 Hl1).
      pose proof (unvisited_mono_sub (nodeIds g) V V1 HV1). lia. }
    exists g', V'. split; [done|]. split; [done|].
    split; [by eapply evolves_trans|]. split; [congruence|]. by etrans.
Qed.

Lemma removeNone_callers_fold (l : list EdgeId) :
  forall g (V : gset NodeId),
    WFS g -> (forall e, e ∈ l -> is_Some (EdgeStore g !! e)) ->
    (size (nodeIds g ∖ V) < fuel)%nat ->
    exists g' V',
      foldlM (fun (st : CloneState) Edge =>
                E ← getEdge st.1 Edge;
                if ContextEdge.isRemoved E then Ok st
                else Caller ← deref (ContextEdge.Caller E); rec Caller st)
             l (g, V) = Ok (g', V')
      /\ WFS g' /\ evolves g g' /\ length (NodeOwner g') = length (NodeOwner g) /\ V ⊆ V'.
Proof using Hrec.
  induction l as [|e l IH]; intros g V Hwf Hl Hsz; cbn [foldlM].
  - exists g, V. split; [done|]. split; [done|]. split; [apply evolves_refl|]. done.
  - destruct (Hl e) as [E HE]; [left|]. cbn [fst].
    assert (getEdge g e = Ok E) as -> by by apply getEdge_Ok.
    cbn [mbind Res_bind].
    set (step := if ContextEdge.isRemoved E then _ else _).
    assert (exists g1 V1, step = Ok (g1, V1)
      /\ WFS g1 /\ evolves g g1 /\ length (NodeOwner g1) = length (NodeOwner g) /\ V ⊆ V1)
      as (g1 & V1 & Hg1 & Hwf1 & Hev1 & Hl1 & HV1).
    { unfold step. destruct (ContextEdge.isRemoved E) eqn:HrE.
      - exists g, V. split; [done|]. split; [done|]. split; [apply evolves_refl|]. done.
      - destruct (WFS_edge_linked g e E Hwf HE HrE) as (c & d & C & D & Hc & _ & HC & _).
        rewrite Hc. cbn [deref mbind Res_bind]. apply Hrec; eauto. }
    rewrite Hg1. cbn [mbind Res_bind].
    destruct (IH g1 V1 Hwf1) as (g' & V' & Hg' & Hwf' & Hev' & Hl' & HV').
    { intros e' He'. apply (persists_edge g g1 e' (proj1 Hev1)). apply Hl. by right. }
    { rewrite (nodeIds_length g g1 Hl1).
      pose proof (unvisited_mono_sub (nodeIds g) V V1 HV1). lia. }
    exists g', V'. split; [done|]. split; [done|].
    split; [by eapply evolves_trans|]. split; [congruence|]. by etrans.
Qed.
End RemoveNoneRec.

(** [recursivelyRemoveNoneTypeCalleeEdges] with fuel for the nodes that
    have not been visited. *)
Lemma recursivelyRemoveNoneTypeCalleeEdges_spec (fuel : nat) :
  forall Node g (V : gset NodeId),
    WFS g -> is_Some (NodeOwner g !! Node) -> (size (nodeIds g ∖ V) < fuel)%nat ->
    exists g' V', recursivelyRemoveNoneTypeCalleeEdges fuel Node (g, V) = Ok (g', V')
      /\ WFS g' /\ evolves g g' /\ length (NodeOwner g') = length (NodeOwner g) /\ V ⊆ V'.
Proof.
  induction fuel as [|fuel IH]; intros Node g V Hwf HNode Hsz; [lia|].
  cbn [recursivelyRemoveNoneTypeCalleeEdges].
  destruct (decide (Node ∈ V)) as [|HNodeV].
  { exists g, V. split; [done|]. split; [done|]. split; [apply evolves_refl|]. done. }
  destruct (removeNoneTypeCalleeEdges_spec g Node Hwf HNode)
    as (g1 & Hg1 & Hwf1 & Hev1 & Hl1 & _).
  rewrite Hg1. cbn [mbind Res_bind].
  destruct (valid_same_length g g1 Node Hl1 HNode) as [n1 Hn1].
  assert (getNode g1 Node = Ok n1) as -> by by apply getNode_Ok.
  cbn [mbind Res_bind].
  assert (size (nodeIds g ∖ (V ∪ {[Node]})) < fuel)%nat as Hsz1.
  { pose proof (unvisited_fewer (nodeIds g) V Node (proj2 (nodeIds_elem g Node) HNode) HNodeV).
    lia. }
  destruct (removeNone_clones_fold fuel (recursivelyRemoveNoneTypeCalleeEdges fuel) IH
              (ContextNode.Clones n1) g1 (V ∪ {[Node]}) Hwf1)
    as (g2 & V2 & Hg2 & Hwf2 & Hev2 & Hl2 & HV2).
  { intros c Hc. destruct (wfs_clones g1 Hwf1 Node n1 c Hn1 Hc) as (C & HC & _). eauto. }
  { by rewrite (nodeIds_length g g1 Hl1). }
  rewrite Hg2. cbn [mbind Res_bind fst].
  destruct (valid_same_length g1 g2 Node Hl2 (ex_intro _ n1 Hn1)) as [n2 Hn2].
  assert (getNode g2 Node = Ok n2) as -> by by apply getNode_Ok.
  cbn [mbind Res_bind].
  destruct (removeNone_callers_fold fuel (recursivelyRemoveNoneTypeCalleeEdges fuel) IH
              (ContextNode.CallerEdges n2) g2 V2 Hwf2)
    as (g3 & V3 & Hg3 & Hwf3 & Hev3 & Hl3 & HV3).
  { intros e He. destruct (wfs_caller g2 Hwf2 Node n2 e Hn2 He) as (E & ? & ? & HE & _). eauto. }
  { rewrite (nodeIds_length g1 g2 Hl2), (nodeIds_length g g1 Hl1).
    pose proof (unvisited_mono_sub (nodeIds g) (V ∪ {[Node]}) V2 HV2). lia. }
  exists g3, V3. split; [done|]. split; [done|].
  split; [eapply evolves_trans; [|exact Hev3]; by eapply evolves_trans|].
  split; [congruence|].
  etrans; [apply union_subseteq_l|]. etrans; [exact HV2|exact HV3].
Qed.

(** ** [identifyClones] *)

Lemma originalNodes_originals g : originals g (originalNodes g).
Proof.
  intros n. unfold originalNodes. rewrite elem_of_list_to_set, list_elem_of_filter, elem_of_seq.
  split.
  - intros [H _]. destruct (NodeOwner g !! n) as [Nd|]; [|done].
    simpl in H. exists Nd. split; [done|congruence].
  - intros (Nd & HN & Hco). split; [by rewrite HN; simpl; rewrite Hco|].
    apply lookup_lt_Some in HN. lia.
Qed.

Section IdentifyClones.
Variable opts : Options.
Variable ContextIds_begin : EdgeId -> gset N -> N.

Lemma identifyClones_allocs_fold (U : gset NodeId) (l : list (CallInfo * NodeId)) :
  forall g,
    WFS g -> originals g U -> (forall p, p ∈ l -> p.2 ∈ U) ->
    exists g',
      foldlM (fun g (Entry : CallInfo * NodeId) =>
                n ← getNode g Entry.2;
                AllocContextIds ← ContextNode_getContextIds opts g n;
                '(g, _) ← identifyClones_node opts ContextIds_begin (S (length (NodeOwner g))) Entry.2
                            AllocContextIds (g, ∅);
                Ok g) l g = Ok g'
      /\ WFS g' /\ evolves g g'.
Proof.
  induction l as [|p l IH]; intros g Hwf HU Hl; cbn [foldlM].
  - exists g. split; [done|]. split; [done|apply evolves_refl].
  - assert (p.2 ∈ U) as HpU by (apply Hl; left).
    destruct (originals_node g U p.2 HU HpU) as (n & Hn & _).
    assert (getNode g p.2 = Ok n) as -> by by apply getNode_Ok.
    cbn [mbind Res_bind].
    destruct (ContextNode_getContextIds_total opts g p.2 n Hwf Hn) as [Ids HIds].
    rewrite HIds. cbn [mbind Res_bind].
    destruct (identifyClones_node_spec opts ContextIds_begin U (S (length (NodeOwner g))) p.2 Ids g ∅
                Hwf HU HpU)
      as (g1 & V1 & Hg1 & Hwf1 & Hev1 & _); [apply not_elem_of_empty| |].
    { pose proof (originals_size g U HU).
      assert (size (U ∖ ∅) <= size U)%nat by (apply subseteq_size; set_solver). lia. }
    rewrite Hg1. cbn [mbind Res_bind].
    destruct (IH g1 Hwf1) as (g' & Hg' & Hwf' & Hev').
    { by eapply originals_persists; [exact (proj1 Hev1)|]. }
    { intros q Hq. apply Hl. by right. }
    exists g'. split; [done|]. split; [done|by eapply evolves_trans].
Qed.

Lemma identifyClones_remove_fold (l : list (CallInfo * NodeId)) :
  forall g (V : gset NodeId),
    WFS g -> (forall p, p ∈ l -> is_Some (NodeOwner g !! p.2)) ->
    exists g' V',
      foldlM (fun (st : CloneState) (Entry : CallInfo * NodeId) =>
                recursivelyRemoveNoneTypeCalleeEdges
                  (S (length (NodeOwner st.1))) Entry.2 st) l (g, V) = Ok (g', V')
      /\ WFS g' /\ evolves g g'.
Proof.
  induction l as [|p l IH]; intros g V Hwf Hl; cbn [foldlM].
  - exists g, V. split; [done|]. split; [done|apply evolves_refl].
  - cbn [fst].
    destruct (recursivelyRemoveNoneTypeCalleeEdges_spec (S (length (NodeOwner g))) p.2 g V Hwf)
      as (g1 & V1 & Hg1 & Hwf1 & Hev1 & Hl1 & _); [apply Hl; left| |].
    { assert (size (nodeIds g ∖ V) <= size (nodeIds g))%nat
        by (apply subseteq_size; set_solver).
      rewrite nodeIds_size in *. lia. }
    rewrite Hg1. cbn [mbind Res_bind].
    destruct (IH g1 V1 Hwf1) as (g' & V' & Hg' & Hwf' & Hev').
    { intros q Hq. apply (valid_same_length g g1 q.2 Hl1). apply Hl. by right. }
    exists g', V'. split; [done|]. split; [done|by eapply evolves_trans].
Qed.

Lemma identifyClones_evolves g :
  WFS g -> exists g', identifyClones opts ContextIds_begin g = Ok g' /\ WFS g' /\ evolves g g'.
Proof.
  intros Hwf. unfold identifyClones.
  destruct (identifyClones_allocs_fold (originalNodes g) (AllocationCallToContextNodeMap g)
              g Hwf (originalNodes_originals g))
    as (g1 & Hg1 & Hwf1 & Hev1).
  { intros [C a] Hp. apply originalNodes_originals.
    destruct (wfs_alloc_map g Hwf C a Hp) as (A & HA & HAo). eauto. }
  rewrite Hg1. cbn [mbind Res_bind].
  destruct (identifyClones_remove_fold (AllocationCallToContextNodeMap g1) g1 ∅ Hwf1)
    as (g2 & V2 & Hg2 & Hwf2 & Hev2).
  { intros [C a] Hp. destruct (wfs_alloc_map g1 Hwf1 C a Hp) as (A & HA & _). simpl. eauto. }
  rewrite Hg2. cbn [mbind Res_bind].
  exists g2. split; [done|]. split; [done|by eapply evolves_trans].
Qed.
End IdentifyClones.

(** ** The context ids of a family, computed *)

Lemma elem_of_unionIds g (l : list EdgeId) id :
  id ∈ unionIds g l <->
  exists e E, e ∈ l /\ EdgeStore g !! e = Some E /\ id ∈ ContextEdge.ContextIds E.
Proof.
  unfold unionIds. rewrite elem_of_union_list. split.
  - intros (X & HX & Hid). apply list_elem_of_fmap in HX as (e & -> & He).
    unfold edgeIds in Hid. destruct (EdgeStore g !! e) as [E|] eqn:HE; simpl in Hid.
    + eauto.
    + by apply elem_of_empty in Hid.
  - intros (e & E & He & HE & Hid). exists (edgeIds g e). split.
    + apply list_elem_of_fmap. eauto.
    + unfold edgeIds. by rewrite HE.
Qed.

Lemma familyCallerIds_carries g o id :
  WFS g -> id ∈ familyCallerIds g o <-> carries g o id.
Proof.
  intros Hwf. unfold familyCallerIds. rewrite elem_of_union_list. split.
  - intros (X & HX & Hid). apply list_elem_of_lookup in HX as [i HX].
    rewrite list_lookup_imap in HX.
    destruct (NodeOwner g !! i) as [D|] eqn:HD; [|done]. simpl in HX. injection HX as <-.
    destruct (decide (getOrigNode i D = o)) as [Ho|]; [|by apply elem_of_empty in Hid].
    apply elem_of_unionIds in Hid as (e & E & He & HE & Hid).
    destruct (wfs_caller g Hwf i D e HD He) as (E' & c & C & HE' & Hd & _).
    assert (E' = E) as -> by congruence.
    exists e, E. split; [done|]. split; [|done].
    exists i. split; [done|]. apply famOf_Some. eauto.
  - intros (e & E & HE & (d & Hd & Hfam) & Hid).
    apply famOf_Some in Hfam as (D & HD & Ho).
    destruct (wfs_store g Hwf e E HE)
      as [Hr|(c & d' & C & D' & Hc & Hd' & HC & HeC & HD' & HeD)].
    { apply isRemoved_true in Hr as [Hr _]. congruence. }
    assert (d' = d) as -> by congruence. assert (D' = D) as -> by congruence.
    exists (if decide (getOrigNode d D = o) then unionIds g (ContextNode.CallerEdges D) else ∅).
    split.
    + apply list_elem_of_lookup. exists d. by rewrite list_lookup_imap, HD.
    + rewrite decide_True by done. apply elem_of_unionIds. eauto.
Qed.

(** ** The allocation type of a set of context ids, as a value *)

Lemma orOfTypes_le3 (tbl : gmap N N) (l : list N) :
  (forall id, id ∈ l -> exists t, tbl !! id = Some t /\ t <= 3) ->
  foldr (fun id acc => N.lor (default 0 (tbl !! id)) acc) 0 l <= 3.
Proof.
  induction l as [|id l IH]; intros Hl; simpl; [lia|].
  destruct (Hl id) as (t & Ht & Hle); [left|]. rewrite Ht. simpl.
  apply lor_le3; [done|]. apply IH. intros id' Hid'. apply Hl. by right.
Qed.

Lemma orOfTypes_perm (tbl : gmap N N) (l l' : list N) :
  l ≡ₚ l' ->
  foldr (fun id acc => N.lor (default 0 (tbl !! id)) acc) 0 l
  = foldr (fun id acc => N.lor (default 0 (tbl !! id)) acc) 0 l'.
Proof.
  intros Hp. apply (foldr_permutation (=) _ 0); [|done].
  intros j1 a1 j2 a2 b _ _ _. rewrite !N.lor_assoc. f_equal. apply N.lor_comm.
Qed.

Lemma computeAllocType_loop_value (tbl : gmap N N) (l : list N) :
  forall acc,
    (forall id, id ∈ l -> exists t, tbl !! id = Some t /\ t <= 3) -> acc <= 3 ->
    computeAllocType_loop tbl l acc
    = Ok (N.lor acc (foldr (fun id r => N.lor (default 0 (tbl !! id)) r) 0 l)).
Proof.
  induction l as [|id l IH]; intros acc Hl Hacc; cbn [computeAllocType_loop foldr].
  - by rewrite N.lor_0_r.
  - destruct (Hl id) as (t & Ht & Hle); [left|]. rewrite Ht. cbn [deref mbind Res_bind default from_option Datatypes.id].
    assert (forall id', id' ∈ l -> exists t', tbl !! id' = Some t' /\ t' <= 3) as Hl'.
    { intros id' Hid'. apply Hl. by right. }
    pose proof (orOfTypes_le3 tbl l Hl') as Hrest.
    rewrite N.lor_assoc.
    destruct (N.eqb_spec (N.lor acc t) BothTypes) as [Heq|Hne].
    + rewrite Heq. change BothTypes with 3. by rewrite lor_3_le.
    + apply IH; [done|]. by apply lor_le3.
Qed.

Lemma table_types_le3 g :
  WF g -> forall id t, ContextIdToAllocationType g !! id = Some t -> t <= 3.
Proof.
  intros Hwf id t Ht. destruct (wf_table g Hwf id t Ht) as [[->| ->] _];
    unfold AllocationType.NotCold, AllocationType.Cold; lia.
Qed.

Lemma intersectAllocTypesImpl_loop_value (tbl : gmap N N) (B : gset N) (l : list N) :
  forall acc,
    (forall id, id ∈ l -> id ∈ B -> exists t, tbl !! id = Some t /\ t <= 3) -> acc <= 3 ->
    intersectAllocTypesImpl_loop tbl l B acc
    = Ok (N.lor acc (foldr (fun id r => N.lor (default 0 (tbl !! id)) r) 0
                           (filter (fun id => id ∈ B) l))).
Proof.
  induction l as [|id l IH]; intros acc Hl Hacc; cbn [intersectAllocTypesImpl_loop].
  - by rewrite filter_nil, N.lor_0_r.
  - assert (forall id', id' ∈ l -> id' ∈ B -> exists t', tbl !! id' = Some t' /\ t' <= 3)
      as Hl'.
    { intros id' Hid'. apply Hl. by right. }
    destruct (decide (id ∈ B)) as [HB|HB].
    + rewrite filter_cons_True by done. cbn [foldr].
      destruct (Hl id) as (t & Ht & Hle); [left|done|].
      rewrite Ht. cbn [deref mbind Res_bind default from_option Datatypes.id].
      assert (foldr (fun id r => N.lor (default 0 (tbl !! id)) r) 0
                    (filter (fun id => id ∈ B) l) <= 3) as Hrest.
      { apply orOfTypes_le3. intros id' [Hid' HB']%list_elem_of_filter. by apply Hl'. }
      rewrite N.lor_assoc.
      destruct (N.eqb_spec (N.lor acc t) BothTypes) as [Heq|Hne].
      * rewrite Heq. change BothTypes with 3. by rewrite lor_3_le.
      * apply IH; [done|]. by apply lor_le3.
    + rewrite filter_cons_False by done. by apply IH.
Qed.

Lemma filter_elements_intersection (A B : gset N) :
  filter (fun id => id ∈ B) (elements A) ≡ₚ elements (A ∩ B).
Proof.
  apply NoDup_Permutation.
  - apply NoDup_filter, NoDup_elements.
  - apply NoDup_elements.
  - intros id. rewrite list_elem_of_filter, !elem_of_elements, elem_of_intersection. tauto.
Qed.

Lemma intersectAllocTypesImpl_value g (A B : gset N) :
  WF g -> (forall id, id ∈ A -> id ∈ B -> is_Some (ContextIdToAllocationType g !! id)) ->
  intersectAllocTypesImpl g A B = Ok (orOfIdTypes g (A ∩ B)).
Proof.
  intros Hwf HAB. unfold intersectAllocTypesImpl, orOfIdTypes.
  rewrite intersectAllocTypesImpl_loop_value.
  - rewrite N.lor_0_l. f_equal. apply orOfTypes_perm, filter_elements_intersection.
  - intros id Hid%elem_of_elements HB. destruct (HAB id Hid HB) as [t Ht].
    exists t. split; [done|]. by eapply table_types_le3.
  - unfold AllocationType.None. lia.
Qed.

Lemma intersectAllocTypes_value g (A B : gset N) :
  WF g -> (forall id, id ∈ A -> id ∈ B -> is_Some (ContextIdToAllocationType g !! id)) ->
  intersectAllocTypes g A B = Ok (orOfIdTypes g (A ∩ B)).
Proof.
  intros Hwf HAB. unfold intersectAllocTypes.
  destruct (decide (size A < size B)%nat).
  - by apply intersectAllocTypesImpl_value.
  - replace (A ∩ B) with (B ∩ A) by (apply leibniz_equiv; set_solver).
    apply intersectAllocTypesImpl_value; [done|]. intros id H1 H2. by apply HAB.
Qed.

(** ** What [removeNoneTypeCalleeEdges] leaves *)

Lemma removeNoneTypeCalleeEdges_loop_typed Node (Rest : list EdgeId) :
  forall (Done : list EdgeId) g Nd g',
    WFS g -> NodeOwner g !! Node = Some Nd ->
    ContextNode.CalleeEdges Nd = Done ++ Rest ->
    (forall e E, e ∈ Done -> EdgeStore g !! e = Some E ->
       ContextEdge.AllocTypes E <> AllocationType.None) ->
    removeNoneTypeCalleeEdges_loop g Node Done Rest = Ok g' ->
    forall Nd' e E,
      NodeOwner g' !! Node = Some Nd' -> e ∈ ContextNode.CalleeEdges Nd' ->
      EdgeStore g' !! e = Some E -> ContextEdge.AllocTypes E <> AllocationType.None.
Proof.
  induction Rest as [|e Rest IH]; intros Done g Nd g' Hwf HN Hl HDone Hrun;
    cbn [removeNoneTypeCalleeEdges_loop] in Hrun.
  - injection Hrun as <-. intros Nd' e E HN' He HE.
    assert (Nd' = Nd) as -> by congruence. rewrite Hl, app_nil_r in He. by eapply HDone.
  - assert (e ∈ ContextNode.CalleeEdges Nd) as He.
    { rewrite Hl. apply elem_of_app. right. left. }
    destruct (wfs_callee g Hwf Node Nd e HN He) as (E & d & D & HE & Hc & Hd & HD & Hin).
    assert (getEdge g e = Ok E) as Hget by by apply getEdge_Ok.
    rewrite Hget in Hrun. cbn [mbind Res_bind] in Hrun.
    destruct (N.eqb_spec (ContextEdge.AllocTypes E) AllocationType.None) as [Ht|Ht].
    + destruct (removeEdgeFromGraph_iter_spec g e Node Nd Done Rest Hwf HN Hl)
        as (g1 & Hg1 & Hrem).
      rewrite Hg1 in Hrun. cbn [mbind Res_bind] in Hrun.
      destruct (step_edgeRemoved g g1 e E Hwf HE Hrem)
        as (Hwf1 & _ & _ & _ & _ & _ & _ & Hoth1).
      destruct Hrem as (_ & _ & _ & Hnodes).
      destruct (Hnodes Node Nd HN) as (Nd1 & HN1 & _ & _ & Hce1 & _).
      pose proof (wfs_nodup_callee g Hwf Node Nd HN) as Hnd. rewrite Hl in Hnd.
      assert (ContextNode.CalleeEdges Nd1 = Done ++ Rest) as Hl1.
      { rewrite Hce1, Hl. by apply filter_middle_NoDup. }
      apply (IH Done g1 Nd1 g' Hwf1 HN1 Hl1); [|done].
      intros e1 E1 He1 HE1. apply (HDone e1 E1 He1). rewrite <- Hoth1; [done|].
      intros ->. apply NoDup_app in Hnd as (_ & Hdis & _). apply (Hdis e He1). left.
    + apply (IH (Done ++ [e]) g Nd g' Hwf HN); [by rewrite <- app_assoc| |done].
      intros e1 E1 [He1|He1]%elem_of_app HE1; [by eapply HDone|].
      apply list_elem_of_singleton in He1 as ->. congruence.
Qed.

Lemma removeNoneTypeCalleeEdges_typed g Node g' :
  WFS g -> removeNoneTypeCalleeEdges g Node = Ok g' ->
  forall Nd' e E,
    NodeOwner g' !! Node = Some Nd' -> e ∈ ContextNode.CalleeEdges Nd' ->
    EdgeStore g' !! e = Some E -> ContextEdge.AllocTypes E <> AllocationType.None.
Proof.
  intros Hwf Hrun. unfold removeNoneTypeCalleeEdges in Hrun.
  destruct (NodeOwner g !! Node) as [Nd|] eqn:HN.
  - assert (getNode g Node = Ok Nd) as Hget by by apply getNode_Ok.
    rewrite Hget in Hrun. cbn [mbind Res_bind] in Hrun.
    apply (removeNoneTypeCalleeEdges_loop_typed Node (ContextNode.CalleeEdges Nd) [] g Nd g'
             Hwf HN); [done| |done].
    intros e E He. by apply elem_of_nil in He.
  - unfold getNode, deref in Hrun. by rewrite HN in Hrun.
Qed.

(** ** The ids of a family under a step that conserves them *)

Lemma familyCallerIds_evolves g g' :
  WFS g -> WFS g' -> evolves g g' -> forall o, familyCallerIds g' o = familyCallerIds g o.
Proof.
  intros Hwf Hwf' [_ Hc] o. apply set_eq. intros id.
  rewrite !familyCallerIds_carries by done. apply Hc.
Qed.

(** ** Clones of clones *)

Lemma addClone_spec g Node Clone Nd O Cl :
  NodeOwner g !! Node = Some Nd ->
  NodeOwner g !! getOrigNode Node Nd = Some O ->
  NodeOwner g !! Clone = Some Cl ->
  Clone <> getOrigNode Node Nd ->
  exists g',
    addClone g Node Clone = Ok g'
    /\ NodeOwner g' !! Clone
       = Some (ContextNode.setCloneOf (Some (getOrigNode Node Nd)) Cl)
    /\ NodeOwner g' !! getOrigNode Node Nd
       = Some (ContextNode.setClones (ContextNode.Clones O ++ [Clone]) O)
    /\ (forall n, n <> getOrigNode Node Nd -> n <> Clone ->
          NodeOwner g' !! n = NodeOwner g !! n)
    /\ EdgeStore g' = EdgeStore g.
Proof.
  intros HN HO HCl Hne.
  set (orig := getOrigNode Node Nd) in *.
  destruct (updNode_total g orig
              (fun o => ContextNode.setClones (ContextNode.Clones o ++ [Clone]) o) O HO)
    as [g1 Hg1].
  assert (NodeOwner g1 !! Clone = Some Cl) as HCl1.
  { rewrite (updNode_node _ _ _ _ Clone Hg1), decide_False by done. done. }
  destruct (updNode_total g1 Clone (ContextNode.setCloneOf (Some orig)) Cl HCl1)
    as [g2 Hg2].
  exists g2. split; [|split; [|split; [|split]]].
  - unfold addClone.
    assert (getNode g Node = Ok Nd) as -> by by apply getNode_Ok.
    cbn [mbind Res_bind]. unfold orig, getOrigNode in *.
    destruct (ContextNode.CloneOf Nd) as [o|]; rewrite Hg1; cbn [mbind Res_bind]; exact Hg2.
  - rewrite (updNode_node _ _ _ _ Clone Hg2), decide_True by done. by rewrite HCl1.
  - rewrite (updNode_node _ _ _ _ orig Hg2), decide_False by done.
    rewrite (updNode_node _ _ _ _ orig Hg1), decide_True by done. by rewrite HO.
  - intros n Hn1 Hn2.
    rewrite (updNode_node _ _ _ _ n Hg2), decide_False by done.
    by rewrite (updNode_node _ _ _ _ n Hg1), decide_False.
  - destruct (updNode_frame _ _ _ _ Hg1) as [He1 _].
    destruct (updNode_frame _ _ _ _ Hg2) as [He2 _]. congruence.
Qed.

(** ** Allocation nodes and their calls *)

Lemma mapVectorLookup_set_eq {K V : Type} `{EqDecision K} (k : K) (v : V)
    (l : list (K * V)) :
  mapVectorLookup k (mapVectorSet k v l) = Some v.
Proof.
  induction l as [|[k' v'] l IH]; simpl.
  - by rewrite decide_True.
  - destruct (decide (k' = k)); simpl.
    + by rewrite decide_True.
    + by rewrite decide_False.
Qed.

Lemma mapVectorLookup_set_ne {K V : Type} `{EqDecision K} (k k0 : K) (v : V)
    (l : list (K * V)) :
  k0 <> k -> mapVectorLookup k0 (mapVectorSet k v l) = mapVectorLookup k0 l.
Proof.
  intros Hne. induction l as [|[k' v'] l IH]; simpl.
  - rewrite decide_False; [done|congruence].
  - destruct (decide (k' = k)) as [->|]; simpl.
    + rewrite !decide_False; [done|congruence|congruence].
    + destruct (decide (k' = k0)); done.
Qed.

Lemma mapVectorSet_absent {K V : Type} `{EqDecision K} (k : K) (v : V)
    (l : list (K * V)) :
  mapVectorLookup k l = None -> mapVectorSet k v l = l ++ [(k, v)].
Proof.
  induction l as [|[k' v'] l IH]; simpl; [done|].
  destruct (decide (k' = k)); [done|]. intros H. by rewrite IH.
Qed.

Lemma addAllocNode_spec g Call F :
  let a := length (NodeOwner g) in
  exists g',
    addAllocNode g Call F = Ok (a, g')
    /\ NodeOwner g'
       = NodeOwner g ++
         [ContextNode.setAllocTypes AllocationType.None
            (ContextNode.setOrigStackOrAllocId (LastContextId g)
               (ContextNode.new true Call))]
    /\ EdgeStore g' = EdgeStore g
    /\ AllocationCallToContextNodeMap g'
       = mapVectorSet Call a (AllocationCallToContextNodeMap g)
    /\ NonAllocationCallToContextNodeMap g' = NonAllocationCallToContextNodeMap g.
Proof.
  intros a. unfold addAllocNode, createNewNode. fold a. cbv zeta.
  set (g1 := setAllocationCallToContextNodeMap _ _).
  assert (NodeOwner g1 = NodeOwner g ++ [ContextNode.new true Call]) as Hn1 by done.
  assert (NodeOwner g1 !! a = Some (ContextNode.new true Call)) as Ha1.
  { rewrite Hn1. unfold a. by rewrite lookup_app_r, Nat.sub_diag by lia. }
  destruct (updNode_total g1 a (ContextNode.setOrigStackOrAllocId (LastContextId g1))
              _ Ha1) as [g2 Hg2].
  rewrite Hg2. cbn [mbind Res_bind].
  assert (NodeOwner g2 !! a
          = Some (ContextNode.setOrigStackOrAllocId (LastContextId g1)
                    (ContextNode.new true Call))) as Ha2.
  { rewrite (updNode_node _ _ _ _ a Hg2), decide_True by done. by rewrite Ha1. }
  destruct (updNode_total g2 a (ContextNode.setAllocTypes AllocationType.None) _ Ha2)
    as [g3 Hg3].
  rewrite Hg3. cbn [mbind Res_bind]. exists g3. split; [done|].
  apply updNode_Ok in Hg2 as (N2 & HN2 & ->). apply updNode_Ok in Hg3 as (N3 & HN3 & ->).
  assert (N2 = ContextNode.new true Call) as -> by congruence.
  cbn [NodeOwner setNodeOwner] in HN3.
  assert (N3 = ContextNode.setOrigStackOrAllocId (LastContextId g1)
                 (ContextNode.new true Call)) as ->.
  { rewrite list_lookup_insert_eq in HN3; [congruence|]. by eapply lookup_lt_Some. }
  split; [|done]. cbn [NodeOwner setNodeOwner]. rewrite list_insert_insert_eq, Hn1.
  unfold a. rewrite insert_app_r_alt, Nat.sub_diag by lia. done.
Qed.

(** ** The comparison of the caller edges *)

Lemma keyLtb_irrefl k : keyLtb k k = false.
Proof. apply keyLtb_false. unfold keyLt. lia. Qed.

Lemma keyLtb_asym k1 k2 : keyLtb k1 k2 = true -> keyLtb k2 k1 = false.
Proof. rewrite keyLtb_spec, keyLtb_false. unfold keyLt. lia. Qed.

Lemma keyLtb_trans k1 k2 k3 :
  keyLtb k1 k2 = true -> keyLtb k2 k3 = true -> keyLtb k1 k3 = true.
Proof. rewrite !keyLtb_spec. unfold keyLt. lia. Qed.

Lemma keyLtb_equiv k1 k2 : keyLtb k1 k2 = false -> keyLtb k2 k1 = false -> k1 = k2.
Proof.
  rewrite !keyLtb_false. unfold keyLt. intros H1 H2.
  destruct k1 as [a1 b1], k2 as [a2 b2]; simpl in *. f_equal; lia.
Qed.

(** ** The context ids on more than one edge *)

Lemma idsOnMultipleEdges_fold g (l : list EdgeId) :
  forall (All Rec : gset N),
    (forall e, e ∈ l -> is_Some (EdgeStore g !! e)) ->
    exists All' Rec',
      foldlM (fun (st : gset N * gset N) CE =>
                E ← getEdge g CE;
                let '(AllCallerContextIds, RecursiveContextIds) := st in
                Ok (AllCallerContextIds ∪ ContextEdge.ContextIds E,
                    RecursiveContextIds ∪ (ContextEdge.ContextIds E ∩ AllCallerContextIds)))
             l (All, Rec) = Ok (All', Rec')
      /\ All' = All ∪ unionIds g l
      /\ forall id, id ∈ Rec' <->
           id ∈ Rec
           \/ exists (j : nat) ej, l !! j = Some ej /\ id ∈ edgeIds g ej
                /\ (id ∈ All
                    \/ exists (i : nat) ei, (i < j)%nat /\ l !! i = Some ei
                                            /\ id ∈ edgeIds g ei).
Proof.
  induction l as [|e l IH]; intros All Rec Hl; cbn [foldlM].
  - exists All, Rec. split; [done|]. split; [unfold unionIds; simpl; set_solver|].
    intros id. split; [by left|]. intros [H|(j & ej & Hj & _)]; [done|].
    by rewrite lookup_nil in Hj.
  - destruct (Hl e) as [E HE]; [left|].
    assert (getEdge g e = Ok E) as -> by by apply getEdge_Ok.
    cbn [mbind Res_bind].
    destruct (IH (All ∪ ContextEdge.ContextIds E)
                 (Rec ∪ (ContextEdge.ContextIds E ∩ All)))
      as (All' & Rec' & Hrun & HAll & HRec).
    { intros e' He'. apply Hl. by right. }
    exists All', Rec'. split; [done|].
    pose proof (edgeIds_lookup g e E HE) as Hids.
    split; [rewrite HAll, unionIds_cons, Hids; set_solver|].
    intros id. rewrite HRec. split.
    + intros [Hr|(j & ej & Hj & Hid & Hprev)].
      * apply elem_of_union in Hr as [Hr|Hr]; [by left|].
        right. exists 0%nat, e. split; [done|]. rewrite Hids. split; [set_solver|].
        left. set_solver.
      * right. exists (S j), ej. split; [done|]. split; [done|].
        destruct Hprev as [Hin|(i & ei & Hij & Hi & Hidi)].
        -- apply elem_of_union in Hin as [Hin|Hin]; [by left|].
           right. exists 0%nat, e. split; [lia|]. split; [done|]. by rewrite Hids.
        -- right. exists (S i), ei. split; [lia|]. done.
    + intros [Hr|(j & ej & Hj & Hid & Hprev)]; [left; set_solver|].
      destruct j as [|j].
      * simpl in Hj. injection Hj as <-. rewrite Hids in Hid.
        destruct Hprev as [Hin|(i & ei & Hij & _)]; [|lia].
        left. set_solver.
      * simpl in Hj. right. exists j, ej. split; [done|]. split; [done|].
        destruct Hprev as [Hin|(i & ei & Hij & Hi & Hidi)]; [left; set_solver|].
        destruct i as [|i].
        -- simpl in Hi. injection Hi as <-. rewrite Hids in Hidi. left. set_solver.
        -- simpl in Hi. right. exists i, ei. split; [lia|]. done.
Qed.

(** ** The allocation type of a node, as a value *)

Lemma orOfEdgeTypes_le3 g (l : list EdgeId) :
  (forall e E, EdgeStore g !! e = Some E -> ContextEdge.AllocTypes E <= 3) ->
  orOfEdgeTypes g l <= 3.
Proof.
  intros Hty. induction l as [|e l IH]; simpl; [lia|].
  apply lor_le3; [|done].
  destruct (EdgeStore g !! e) as [E|] eqn:HE; simpl; [by eapply Hty|lia].
Qed.

Lemma ContextNode_computeAllocType_loop_value g (l : list EdgeId) :
  forall acc,
    (forall e E, EdgeStore g !! e = Some E -> ContextEdge.AllocTypes E <= 3) ->
    (forall e, e ∈ l -> is_Some (EdgeStore g !! e)) -> acc <= 3 ->
    ContextNode_computeAllocType_loop g l acc = Ok (N.lor acc (orOfEdgeTypes g l)).
Proof.
  induction l as [|e l IH]; intros acc Hty Hl Hacc;
    cbn [ContextNode_computeAllocType_loop orOfEdgeTypes foldr].
  - by rewrite N.lor_0_r.
  - destruct (Hl e) as [E HE]; [left|].
    assert (getEdge g e = Ok E) as -> by by apply getEdge_Ok.
    cbn [mbind Res_bind]. rewrite HE. cbn [from_option].
    pose proof (orOfEdgeTypes_le3 g l Hty) as Hrest. unfold orOfEdgeTypes in Hrest.
    rewrite N.lor_assoc.
    destruct (N.eqb_spec (N.lor acc (ContextEdge.AllocTypes E)) BothTypes) as [Heq|Hne].
    + rewrite Heq. change BothTypes with 3. by rewrite lor_3_le.
    + apply IH; [done| |].
      * intros e' He'. apply Hl. by right.
      * apply lor_le3; [done|]. by eapply Hty.
Qed.

(** ** The marking of the backedges *)

Lemma setIsBackedge_same (E : ContextEdge.t) :
  ContextEdge.setIsBackedge (ContextEdge.IsBackedge E) E = E.
Proof. by destruct E. Qed.

Lemma backedgesMarked_refl g : backedgesMarked g g.
Proof.
  split; [by destruct g|]. split; [done|].
  intros e E HE. exists (ContextEdge.IsBackedge E). by rewrite setIsBackedge_same.
Qed.

Lemma backedgesMarked_nodes g0 g : backedgesMarked g0 g -> NodeOwner g = NodeOwner g0.
Proof. intros (-> & _). done. Qed.

Lemma backedgesMarked_mark g0 g e g' :
  backedgesMarked g0 g -> updEdge g e (ContextEdge.setIsBackedge true) = Ok g' ->
  backedgesMarked g0 g'.
Proof.
  intros (Hg & Hlen & Hed) (E & HE & ->)%updEdge_Ok. split; [|split].
  - rewrite Hg. by destruct g0.
  - cbn [EdgeStore setEdgeStore]. by rewrite length_insert.
  - intros e0 E0 HE0. destruct (Hed e0 E0 HE0) as (b & Hb & Hkeep).
    cbn [EdgeStore setEdgeStore]. destruct (decide (e0 = e)) as [->|Hne].
    + rewrite list_lookup_insert_eq by (by eapply lookup_lt_Some).
      exists true. split; [|done]. f_equal.
      assert (E = ContextEdge.setIsBackedge b E0) as -> by congruence. by destruct E0.
    + rewrite list_lookup_insert_ne by done. eauto.
Qed.

Lemma backedgesMarked_back g0 g e E' :
  backedgesMarked g0 g -> EdgeStore g !! e = Some E' ->
  exists E b, EdgeStore g0 !! e = Some E /\ E' = ContextEdge.setIsBackedge b E.
Proof.
  intros (_ & Hlen & Hed) HE'.
  destruct (lookup_lt_is_Some_2 (EdgeStore g0) e) as [E HE].
  { rewrite <- Hlen. by eapply lookup_lt_Some. }
  destruct (Hed e E HE) as (b & Hb & _). exists E, b. split; [done|congruence].
Qed.

Lemma backedgesMarked_WF g0 g : WF g0 -> backedgesMarked g0 g -> WF g.
Proof.
  intros Hwf Hm. pose proof Hm as (Hg & Hlen & Hed).
  assert (NodeOwner g = NodeOwner g0) as Hn by by rewrite Hg.
  assert (ContextIdToAllocationType g = ContextIdToAllocationType g0) as Htbl
    by by rewrite Hg.
  assert (LastContextId g = LastContextId g0) as Hlast by by rewrite Hg.
  assert (AllocationCallToContextNodeMap g = AllocationCallToContextNodeMap g0) as Ha
    by by rewrite Hg.
  assert (StackEntryIdToContextNodeMap g = StackEntryIdToContextNodeMap g0) as Hs
    by by rewrite Hg.
  split; rewrite ?Hn, ?Htbl, ?Hlast, ?Ha, ?Hs.
  - intros n Nd e HN He.
    destruct (wf_callee g0 Hwf n Nd e HN He) as (E & d & D & HE & Hc & Hd & HD & Hin).
    destruct (Hed e E HE) as (b & Hb & _).
    exists (ContextEdge.setIsBackedge b E), d, D. done.
  - intros n Nd e HN He.
    destruct (wf_caller g0 Hwf n Nd e HN He) as (E & c & C & HE & Hd & Hc & HC & Hin).
    destruct (Hed e E HE) as (b & Hb & _).
    exists (ContextEdge.setIsBackedge b E), c, C. done.
  - apply (wf_nodup_callee g0 Hwf).
  - apply (wf_nodup_caller g0 Hwf).
  - apply (wf_cloneOf g0 Hwf).
  - apply (wf_clones g0 Hwf).
  - intros n Nd e E' id HN He HE' Hid.
    destruct (backedgesMarked_back g0 g e E' Hm HE') as (E & b & HE & ->).
    apply (wf_ids g0 Hwf n Nd e E id HN He HE Hid).
  - apply (wf_table g0 Hwf).
  - apply (wf_node_types g0 Hwf).
  - intros e E' HE'.
    destruct (backedgesMarked_back g0 g e E' Hm HE') as (E & b & HE & ->).
    apply (wf_edge_types g0 Hwf e E HE).
  - apply (wf_alloc_map g0 Hwf).
  - apply (wf_stack_map g0 Hwf).
Qed.

Section MarkBackedges.
Variable g0 : CallsiteContextGraph.
Hypothesis Hwf : WF g0.

Section MarkBackedgesRec.
Variable fuel : nat.
Variable rec : NodeId -> CallsiteContextGraph * gset NodeId * gset NodeId ->
               Res (CallsiteContextGraph * gset NodeId * gset NodeId).
Hypothesis Hrec : forall Node g (V S : gset NodeId),
  backedgesMarked g0 g -> is_Some (NodeOwner g0 !! Node) ->
  S ⊆ V ∪ {[Node]} -> (size (nodeIds g0 ∖ (V ∪ {[Node]})) < fuel)%nat ->
  exists g' V', rec Node (g, V, S) = Ok (g', V', S)
    /\ backedgesMarked g0 g' /\ V ∪ {[Node]} ⊆ V'.

Lemma markBackedges_fold (S : gset NodeId) (l : list EdgeId) :
  forall g (Vc : gset NodeId),
    backedgesMarked g0 g ->
    (forall e, e ∈ l ->
       exists E d, EdgeStore g0 !! e = Some E /\ ContextEdge.Callee E = Some d
                   /\ is_Some (NodeOwner g0 !! d)) ->
    S ⊆ Vc -> (size (nodeIds g0 ∖ Vc) <= fuel)%nat ->
    exists g' V',
      foldlM (fun (st : CallsiteContextGraph * gset NodeId * gset NodeId) CalleeEdge =>
                let '(g, Visited, CurrentStack) := st in
                E ← getEdge g CalleeEdge;
                Callee ← deref (ContextEdge.Callee E);
                if decide (Callee ∈ Visited) then
                  if decide (Callee ∈ CurrentStack) then
                    g ← updEdge g CalleeEdge (ContextEdge.setIsBackedge true);
                    Ok (g, Visited, CurrentStack)
                  else Ok st
                else
                  '(g, Visited, CurrentStack) ←
                    rec Callee (g, Visited, CurrentStack ∪ {[Callee]});
                  Ok (g, Visited, CurrentStack ∖ {[Callee]}))
             l (g, Vc, S) = Ok (g', V', S)
      /\ backedgesMarked g0 g' /\ Vc ⊆ V'.
Proof using Hrec.
  induction l as [|e l IH]; intros g Vc Hm Hl HS Hsz; cbn [foldlM].
  - exists g, Vc. done.
  - destruct (Hl e) as (E & d & HE & Hd & HD); [left|].
    assert (forall e', e' ∈ l ->
              exists E d, EdgeStore g0 !! e' = Some E /\ ContextEdge.Callee E = Some d
                          /\ is_Some (NodeOwner g0 !! d)) as Hl'.
    { intros e' He'. apply Hl. by right. }
    pose proof Hm as (_ & _ & Hed). destruct (Hed e E HE) as (b & Hb & _).
    assert (getEdge g e = Ok (ContextEdge.setIsBackedge b E)) as -> by by apply getEdge_Ok.
    cbn [mbind Res_bind]. change (ContextEdge.Callee (ContextEdge.setIsBackedge b E))
      with (ContextEdge.Callee E). rewrite Hd. cbn [deref mbind Res_bind].
    destruct (decide (d ∈ Vc)) as [HdV|HdV].
    + destruct (decide (d ∈ S)) as [HdS|HdS].
      * destruct (updEdge_total g e (ContextEdge.setIsBackedge true) _ Hb) as [g1 Hg1].
        rewrite Hg1. cbn [mbind Res_bind].
        apply (IH g1 Vc); [by eapply backedgesMarked_mark|done|done|done].
      * cbn [mbind Res_bind]. by apply (IH g Vc).
    + destruct (Hrec d g Vc (S ∪ {[d]}) Hm HD) as (g1 & V1 & Hg1 & Hm1 & HV1).
      { by apply union_mono_r. }
      { pose proof (unvisited_fewer (nodeIds g0) Vc d (proj2 (nodeIds_elem g0 d) HD) HdV).
        lia. }
      rewrite Hg1. cbn [mbind Res_bind].
      assert ((S ∪ {[d]}) ∖ {[d]} = S) as ->.
      { apply set_eq. intros x. rewrite elem_of_difference, elem_of_union, elem_of_singleton.
        split; [tauto|]. intros Hx. split; [by left|]. intros ->. apply HdV, HS, Hx. }
      destruct (IH g1 V1 Hm1 Hl') as (g' & V' & Hg' & Hm' & HV').
      { etrans; [exact HS|]. etrans; [apply union_subseteq_l|exact HV1]. }
      { assert (Vc ⊆ V1) as Hsub by (etrans; [apply union_subseteq_l|exact HV1]).
        pose proof (unvisited_mono_sub (nodeIds g0) Vc V1 Hsub). lia. }
      exists g', V'. split; [done|]. split; [done|].
      etrans; [apply union_subseteq_l|]. etrans; [exact HV1|exact HV'].
Qed.
End MarkBackedgesRec.

Lemma markBackedges_node_spec (fuel : nat) :
  forall Node g (V S : gset NodeId),
    backedgesMarked g0 g -> is_Some (NodeOwner g0 !! Node) ->
    S ⊆ V ∪ {[Node]} -> (size (nodeIds g0 ∖ (V ∪ {[Node]})) < fuel)%nat ->
    exists g' V', markBackedges_node fuel Node (g, V, S) = Ok (g', V', S)
      /\ backedgesMarked g0 g' /\ V ∪ {[Node]} ⊆ V'.
Proof using Hwf.
  induction fuel as [|fuel IH]; intros Node g V S Hm [Nd HN] HS Hsz; [lia|].
  cbn [markBackedges_node].
  assert (getNode g Node = Ok Nd) as ->.
  { apply getNode_Ok. by rewrite (backedgesMarked_nodes g0 g Hm). }
  cbn [mbind Res_bind].
  apply (markBackedges_fold fuel (markBackedges_node fuel) IH S
           (ContextNode.CalleeEdges Nd) g (V ∪ {[Node]}) Hm); [|done|lia].
  intros e He.
  destruct (wf_callee g0 Hwf Node Nd e HN He) as (E & d & D & HE & _ & Hd & HD & _).
  exists E, d. eauto.
Qed.

Lemma markBackedges_roots_fold (fuel : nat) (l : list (CallInfo * NodeId)) :
  (length (NodeOwner g0) < fuel)%nat ->
  forall g (V : gset NodeId),
    backedgesMarked g0 g ->
    (forall p, p ∈ l -> is_Some (NodeOwner g0 !! p.2)) ->
    exists g' V',
      foldlM (fun (st : CallsiteContextGraph * gset NodeId * gset NodeId)
                  (Entry : CallInfo * NodeId) =>
                let Node := Entry.2 in
                n ← getNode st.1.1 Node;
                if ContextNode_isRemoved n then Ok st
                else if negb (bool_decide (ContextNode.CallerEdges n = [])) then Ok st
                else markBackedges_node fuel Node st)
             l (g, V, ∅) = Ok (g', V', ∅)
      /\ backedgesMarked g0 g'.
Proof using Hwf.
  intros Hfuel. induction l as [|p l IH]; intros g V Hm Hl; cbn [foldlM].
  - exists g, V. done.
  - destruct (Hl p) as [Nd HN]; [left|]. cbn [fst snd].
    assert (getNode g p.2 = Ok Nd) as ->.
    { apply getNode_Ok. by rewrite (backedgesMarked_nodes g0 g Hm). }
    cbn [mbind Res_bind].
    assert (forall q, q ∈ l -> is_Some (NodeOwner g0 !! q.2)) as Hl'.
    { intros q Hq. apply Hl. by right. }
    destruct (ContextNode_isRemoved Nd); [by apply IH|].
    destruct (negb _); [by apply IH|].
    destruct (markBackedges_node_spec fuel p.2 g V ∅ Hm (ex_intro _ Nd HN))
      as (g1 & V1 & Hg1 & Hm1 & _).
    { apply empty_subseteq. }
    { assert (size (nodeIds g0 ∖ (V ∪ {[p.2]})) <= size (nodeIds g0))%nat
        by (apply subseteq_size; set_solver).
      rewrite nodeIds_size in *. lia. }
    rewrite Hg1. cbn [mbind Res_bind]. by apply IH.
Qed.
End MarkBackedges.

Lemma markBackedges_spec opts g :
  WF g ->
  (forall p, p ∈ NonAllocationCallToContextNodeMap g -> is_Some (NodeOwner g !! p.2)) ->
  exists g', markBackedges opts g = Ok g' /\ backedgesMarked g g' /\ WF g'.
Proof.
  intros Hwf Hmap. unfold markBackedges.
  destruct (negb (CloneRecursiveContexts opts)).
  { exists g. split; [done|]. split; [apply backedgesMarked_refl|done]. }
  destruct (markBackedges_roots_fold g Hwf (S (length (NodeOwner g)))
              (NonAllocationCallToContextNodeMap g) (Nat.lt_succ_diag_r _)
              g ∅ (backedgesMarked_refl g) Hmap)
    as (g' & V' & Hrun & Hm).
  set (run := foldlM _ _ _).
  assert (run = Ok (g', V', ∅)) as -> by exact Hrun.
  cbn [mbind Res_bind]. exists g'. split; [done|]. split; [done|].
  by eapply backedgesMarked_WF.
Qed.

(** ** The allocation types of the callee edges for a caller edge *)

Lemma calleeEdgeAllocTypesForCallerEdge_value g (l : list EdgeId) (S : gset N) :
  WF g -> (forall e, e ∈ l -> is_Some (EdgeStore g !! e)) ->
  (forall id, id ∈ S -> is_Some (ContextIdToAllocationType g !! id)) ->
  calleeEdgeAllocTypesForCallerEdge g l S
  = Ok ((fun e => orOfIdTypes g (edgeIds g e ∩ S)) <$> l).
Proof.
  intros Hwf Hl HS. unfold calleeEdgeAllocTypesForCallerEdge.
  assert (forall acc,
    foldlM (fun acc CalleeEdge =>
              E ← getEdge g CalleeEdge;
              t ← intersectAllocTypes g (ContextEdge.ContextIds E) S;
              Ok (acc ++ [t])) l acc
    = Ok (acc ++ ((fun e => orOfIdTypes g (edgeIds g e ∩ S)) <$> l))) as H.
  { induction l as [|e l IH]; intros acc; cbn [foldlM fmap list_fmap].
    - by rewrite app_nil_r.
    - destruct (Hl e) as [E HE]; [left|].
      assert (getEdge g e = Ok E) as -> by by apply getEdge_Ok. cbn [mbind Res_bind].
      rewrite (intersectAllocTypes_value g (ContextEdge.ContextIds E) S Hwf)
        by (intros id _ Hid; by apply HS).
      cbn [mbind Res_bind].
      rewrite IH by (intros e' He'; apply Hl; by right).
      rewrite <- app_assoc. cbn [app]. by rewrite (edgeIds_lookup g e E HE). }
  by rewrite (H []).
Qed.

(** ** One edge per caller *)



(** ** Caller edges without a type *)

Lemma WF_edgeUnlinked g g' e :
  WF g -> edgeUnlinked g g' e -> WF g'.
Proof.
  intros Hwf (Hmaps & Hedges & Hlen & Hnodes).
  assert (forall n Nd', NodeOwner g' !! n = Some Nd' ->
            exists Nd, NodeOwner g !! n = Some Nd /\ sameNodeInfo Nd Nd'
              /\ ContextNode.AllocTypes Nd' = ContextNode.AllocTypes Nd
              /\ ContextNode.CalleeEdges Nd' = filter (fun x => x <> e) (ContextNode.CalleeEdges Nd)
              /\ ContextNode.CallerEdges Nd' = filter (fun x => x <> e) (ContextNode.CallerEdges Nd))
    as Hback.
  { intros n Nd' HN'. destruct (nodes_back _ _ _ _ Hlen HN') as [Nd HN].
    destruct (Hnodes n Nd HN) as (Nd2 & HN2 & H). exists Nd.
    assert (Nd2 = Nd') as -> by congruence. done. }
  apply (WF_relink g g' Hwf Hmaps); rewrite ?Hedges.
  - intros n Nd' HN'. destruct (Hback n Nd' HN') as (Nd & HN & Hs & _). eauto.
  - intros n Nd HN. destruct (Hnodes n Nd HN) as (Nd' & HN' & _). eauto.
  - intros n Nd' HN'. destruct (Hback n Nd' HN') as (Nd & HN & Hs & Ht & Hce & Hcr).
    rewrite Ht, Hce, Hcr. split; [by eapply (wf_node_types g Hwf)|].
    split; apply NoDup_filter;
      [by eapply (wf_nodup_callee g Hwf)|by eapply (wf_nodup_caller g Hwf)].
  - intros n Nd' e1 HN' He1. destruct (Hback n Nd' HN') as (Nd & HN & Hs & Ht & Hce & Hcr).
    rewrite Hce in He1. apply list_elem_of_filter in He1 as [Hne He1].
    destruct (wf_callee g Hwf n Nd e1 HN He1) as (E1 & d1 & D1 & HE1 & Hc & Hd & HD1 & Hin).
    destruct (Hnodes d1 D1 HD1) as (D1' & HD1' & _ & _ & _ & Hcr1).
    exists E1, d1, D1'. repeat split; try done.
    rewrite Hcr1. by apply list_elem_of_filter.
  - intros n Nd' e1 HN' He1. destruct (Hback n Nd' HN') as (Nd & HN & Hs & Ht & Hce & Hcr).
    rewrite Hcr in He1. apply list_elem_of_filter in He1 as [Hne He1].
    destruct (wf_caller g Hwf n Nd e1 HN He1) as (E1 & c1 & C1 & HE1 & Hc & Hd & HC1 & Hin).
    destruct (Hnodes c1 C1 HC1) as (C1' & HC1' & _ & _ & Hce1 & _).
    exists E1, c1, C1'. repeat split; try done.
    + rewrite Hce1. by apply list_elem_of_filter.
    + intros id Hid. exact (wf_ids g Hwf n Nd e1 E1 id HN He1 HE1 Hid).
  - apply (wf_edge_types g Hwf).
Qed.

(** One step of [removeNoneTypeCallerEdges]: the edge leaves the callee
    edges of its caller and the caller edges of the node. *)
Lemma unlink_step g e Node Nd (Done Rest : list EdgeId) E c :
  WF g -> NodeOwner g !! Node = Some Nd ->
  ContextNode.CallerEdges Nd = Done ++ e :: Rest ->
  EdgeStore g !! e = Some E -> ContextEdge.Caller E = Some c ->
  exists g1 g2 Nd2,
    eraseCalleeEdge g c e = Ok g1
    /\ updNode g1 Node (ContextNode.setCallerEdges (Done ++ Rest)) = Ok g2
    /\ NodeOwner g2 !! Node = Some Nd2
    /\ ContextNode.CallerEdges Nd2 = Done ++ Rest
    /\ edgeUnlinked g g2 e.
Proof.
  intros Hwf HN Hl HE Hc.
  assert (e ∈ ContextNode.CallerEdges Nd) as He.
  { rewrite Hl. apply elem_of_app. right. left. }
  destruct (wf_caller g Hwf Node Nd e HN He) as (E' & c' & C & HE' & Hd & Hc' & HC & HeC).
  assert (E' = E) as -> by congruence. assert (c' = c) as -> by congruence.
  assert (Done ++ Rest = filter (fun x => x <> e) (ContextNode.CallerEdges Nd)) as HL.
  { rewrite Hl. symmetry. apply filter_middle_NoDup. rewrite <- Hl.
    by eapply (wf_nodup_caller g Hwf). }
  assert (eraseFirst e (ContextNode.CalleeEdges C)
          = Some (filter (fun x => x <> e) (ContextNode.CalleeEdges C))) as Her.
  { apply eraseFirst_NoDup; [by eapply (wf_nodup_callee g Hwf)|done]. }
  destruct (updNode_total g c (ContextNode.setCalleeEdges
              (filter (fun x => x <> e) (ContextNode.CalleeEdges C))) C HC) as [g1 Hg1].
  assert (eraseCalleeEdge g c e = Ok g1) as Hec.
  { unfold eraseCalleeEdge.
    assert (getNode g c = Ok C) as -> by by apply getNode_Ok.
    cbn [mbind Res_bind]. rewrite Her. done. }
  pose proof (updNode_frame _ _ _ _ Hg1) as (He1 & ? & ? & ? & ? & ? & ? & ? & ? & Hl1).
  assert (exists N1, NodeOwner g1 !! Node = Some N1
            /\ sameNodeInfo Nd N1 /\ ContextNode.AllocTypes N1 = ContextNode.AllocTypes Nd
            /\ ContextNode.CallerEdges N1 = ContextNode.CallerEdges Nd
            /\ ContextNode.CalleeEdges N1
               = if decide (Node = c) then filter (fun x => x <> e) (ContextNode.CalleeEdges Nd)
                 else ContextNode.CalleeEdges Nd) as (N1 & HN1 & HN1s & HN1t & HN1r & HN1e).
  { rewrite (updNode_node _ _ _ _ Node Hg1). destruct (decide (Node = c)) as [->|Hne].
    - rewrite HC. simpl. assert (Nd = C) as -> by congruence.
      eexists. split; [done|]. repeat split.
    - exists Nd. repeat split; done. }
  destruct (updNode_total g1 Node (ContextNode.setCallerEdges (Done ++ Rest)) N1 HN1)
    as [g2 Hg2].
  pose proof (updNode_frame _ _ _ _ Hg2) as (He2 & ? & ? & ? & ? & ? & ? & ? & ? & Hl2).
  exists g1, g2, (ContextNode.setCallerEdges (Done ++ Rest) N1).
  split; [done|]. split; [done|].
  split; [by rewrite (updNode_node _ _ _ _ Node Hg2), decide_True, HN1 by done|].
  split; [done|].
  split; [|split; [|split]].
  - pose proof (updNode_sameMaps _ _ _ _ Hg1). pose proof (updNode_sameMaps _ _ _ _ Hg2).
    by eapply sameMaps_trans.
  - by rewrite He2, He1.
  - by rewrite Hl2, Hl1.
  - intros n Nd0 HN0.
    rewrite (updNode_node _ _ _ _ n Hg2).
    destruct (decide (n = Node)) as [->|HnN].
    + rewrite HN1. simpl. eexists. split; [done|].
      assert (Nd0 = Nd) as -> by congruence.
      split; [by destruct HN1s as (?&?&?&?&?&?&?)|]. split; [done|].
      split; [|by rewrite HL].
      simpl. rewrite HN1e. destruct (decide (Node = c)) as [Heq|Hne]; [done|].
      symmetry. apply filter_id. intros y Hy ->.
      destruct (wf_callee g Hwf Node Nd e HN Hy) as (E1 & d1 & D1 & HE1 & Hc1 & _).
      congruence.
    + rewrite (updNode_node _ _ _ _ n Hg1), HN0.
      assert (filter (fun x => x <> e) (ContextNode.CallerEdges Nd0)
              = ContextNode.CallerEdges Nd0) as Hfr.
      { apply filter_id. intros y Hy ->.
        destruct (wf_caller g Hwf n Nd0 e HN0 Hy) as (E1 & c1 & C1 & HE1 & Hd1 & _).
        congruence. }
      destruct (decide (n = c)) as [->|Hnc]; simpl.
      * assert (Nd0 = C) as -> by congruence.
        eexists. split; [done|]. split; [repeat split|]. split; [done|].
        split; simpl; [done|by rewrite Hfr].
      * exists Nd0. split; [done|]. split; [repeat split|]. split; [done|].
        split; [|by rewrite Hfr].
        symmetry. apply filter_id. intros y Hy ->.
        destruct (wf_callee g Hwf n Nd0 e HN0 Hy) as (E1 & d1 & D1 & HE1 & Hc1 & _).
        congruence.
Qed.

Lemma removeNoneTypeCallerEdges_loop_spec Node (Rest : list EdgeId) :
  forall (Done : list EdgeId) g Nd,
    WF g -> NodeOwner g !! Node = Some Nd ->
    ContextNode.CallerEdges Nd = Done ++ Rest ->
    (forall e E, e ∈ Done -> EdgeStore g !! e = Some E ->
       ContextEdge.AllocTypes E <> AllocationType.None) ->
    exists g' Nd',
      removeNoneTypeCallerEdges_loop g Node Done Rest = Ok g'
      /\ WF g' /\ sameMaps g g'
      /\ EdgeStore g' = EdgeStore g
      /\ length (NodeOwner g') = length (NodeOwner g)
      /\ NodeOwner g' !! Node = Some Nd'
      /\ (forall e E, e ∈ ContextNode.CallerEdges Nd' -> EdgeStore g !! e = Some E ->
            ContextEdge.AllocTypes E <> AllocationType.None)
      /\ (forall n N0, NodeOwner g !! n = Some N0 ->
            exists N', NodeOwner g' !! n = Some N'
              /\ ContextNode.CalleeEdges N' ⊆ ContextNode.CalleeEdges N0
              /\ ContextNode.CallerEdges N' ⊆ ContextNode.CallerEdges N0
              /\ (forall e E, e ∈ ContextNode.CallerEdges N0 -> EdgeStore g !! e = Some E ->
                    (n <> Node \/ ContextEdge.AllocTypes E <> AllocationType.None) ->
                    e ∈ ContextNode.CallerEdges N')
              /\ (forall e E, e ∈ ContextNode.CalleeEdges N0 -> EdgeStore g !! e = Some E ->
                    (ContextEdge.Callee E <> Some Node
                     \/ ContextEdge.AllocTypes E <> AllocationType.None) ->
                    e ∈ ContextNode.CalleeEdges N')).
Proof.
  induction Rest as [|e Rest IH]; intros Done g Nd Hwf HN Hl HDone;
    cbn [removeNoneTypeCallerEdges_loop].
  - exists g, Nd. split; [done|]. split; [done|]. split; [apply sameMaps_refl|].
    split; [done|]. split; [done|]. split; [done|]. split.
    + intros e E He. rewrite Hl, app_nil_r in He. by apply HDone.
    + intros n N0 HN0. exists N0. done.
  - assert (e ∈ ContextNode.CallerEdges Nd) as He.
    { rewrite Hl. apply elem_of_app. right. left. }
    destruct (wf_caller g Hwf Node Nd e HN He) as (E & c & C & HE & Hd & Hc & HC & HeC).
    assert (getEdge g e = Ok E) as -> by by apply getEdge_Ok. cbn [mbind Res_bind].
    destruct (N.eqb_spec (ContextEdge.AllocTypes E) AllocationType.None) as [Ht|Ht].
    + rewrite Hc. cbn [deref mbind Res_bind].
      destruct (unlink_step g e Node Nd Done Rest E c Hwf HN Hl HE Hc)
        as (g1 & g2 & Nd2 & Hg1 & Hg2 & HN2 & Hl2 & Hun).
      rewrite Hg1. cbn [mbind Res_bind]. rewrite Hg2. cbn [mbind Res_bind].
      pose proof (WF_edgeUnlinked g g2 e Hwf Hun) as Hwf2.
      pose proof Hun as (Hm2 & He2 & Hlen2 & Hnodes2).
      pose proof (wf_nodup_caller g Hwf Node Nd HN) as Hnd. rewrite Hl in Hnd.
      destruct (IH Done g2 Nd2 Hwf2 HN2 Hl2)
        as (g' & Nd' & Hg' & Hwf' & Hm' & He' & Hlen' & HN' & Htyped & Hsub).
      { intros e1 E1 He1 HE1. rewrite He2 in HE1. by eapply HDone. }
      exists g', Nd'. split; [done|]. split; [done|].
      split; [by eapply sameMaps_trans|]. split; [congruence|]. split; [congruence|].
      split; [done|]. split.
      * intros e1 E1 He1 HE1. apply (Htyped e1 E1 He1). by rewrite He2.
      * intros n N0 HN0.
        destruct (Hnodes2 n N0 HN0) as (N2 & HN02 & _ & _ & Hce2 & Hcr2).
        destruct (Hsub n N2 HN02) as (N' & HN0' & Hs1 & Hs2 & Hk1 & Hk2).
        exists N'. split; [done|].
        split; [intros x Hx; apply Hs1 in Hx; rewrite Hce2 in Hx;
                by apply list_elem_of_filter in Hx as [_ Hx]|].
        split; [intros x Hx; apply Hs2 in Hx; rewrite Hcr2 in Hx;
                by apply list_elem_of_filter in Hx as [_ Hx]|].
        split.
        -- intros e1 E1 He1 HE1 Hkeep. apply (Hk1 e1 E1); [|by rewrite He2|done].
           rewrite Hcr2. apply list_elem_of_filter. split; [|done].
           intros ->. assert (E1 = E) as -> by congruence.
           destruct Hkeep as [Hn|Hn]; [|done].
           destruct (wf_caller g Hwf n N0 e HN0 He1) as (E2 & ? & ? & HE2 & Hd2 & _).
           congruence.
        -- intros e1 E1 He1 HE1 Hkeep. apply (Hk2 e1 E1); [|by rewrite He2|done].
           rewrite Hce2. apply list_elem_of_filter. split; [|done].
           intros ->. assert (E1 = E) as -> by congruence.
           destruct Hkeep as [Hn|Hn]; done.
    + apply (IH (Done ++ [e]) g Nd Hwf HN); [by rewrite <- app_assoc|].
      intros e1 E1 [He1|He1]%elem_of_app HE1; [by eapply HDone|].
      apply list_elem_of_singleton in He1 as ->. congruence.
Qed.

(* ================================================================== *)
(** * Part IV: further properties of the graph operations              *)
(* ================================================================== *)

(** ** Allocation types of sets of context ids *)

(** X1.  [computeAllocType] of a set of context ids that the table knows is
    the OR of their allocation types, whatever the order in which the set
    is walked: the early return at [NotCold|Cold] never changes the result.
    The result has no bit besides [NotCold] and [Cold]. *)
Theorem computeAllocType_or_of_types g (S : gset N) :
  WF g ->
  (forall id, id ∈ S -> is_Some (ContextIdToAllocationType g !! id)) ->
  computeAllocType g S = Ok (orOfIdTypes g S) /\ orOfIdTypes g S <= 3.
Proof.
  intros Hwf HS.
  assert (forall id, id ∈ elements S ->
            exists t, ContextIdToAllocationType g !! id = Some t /\ t <= 3) as Hl.
  { intros id Hid%elem_of_elements. destruct (HS id Hid) as [t Ht].
    exists t. split; [done|]. by eapply table_types_le3. }
  split; [|by apply orOfTypes_le3].
  unfold computeAllocType, orOfIdTypes.
  rewrite (computeAllocType_loop_value _ _ AllocationType.None Hl)
    by (unfold AllocationType.None; lia).
  by rewrite N.lor_0_l.
Qed.

Lemma computeAllocType_or_of_types_witness :
  computeAllocType plainExample {[1; 2]} = Ok 3.
Proof.
  assert (forall id : N, id ∈ ({[1; 2]} : gset N) ->
            is_Some (ContextIdToAllocationType plainExample !! id)) as Hin.
  { intros id [->%elem_of_singleton| ->%elem_of_singleton]%elem_of_union;
      eexists; vm_compute; reflexivity. }
  destruct (computeAllocType_or_of_types plainExample {[1; 2]} WF_plainExample Hin) as [H _].
  rewrite H. vm_compute. reflexivity.
Defined.

(** X2.  [intersectAllocTypes] of two sets of context ids is the OR of the
    allocation types of the ids the two sets share; only these ids have to
    be in the table.  The choice of the smaller set to walk makes no
    difference: the result is the same with the arguments swapped. *)
Theorem intersectAllocTypes_common_ids g (S1 S2 : gset N) :
  WF g ->
  (forall id, id ∈ S1 -> id ∈ S2 -> is_Some (ContextIdToAllocationType g !! id)) ->
  intersectAllocTypes g S1 S2 = Ok (orOfIdTypes g (S1 ∩ S2))
  /\ intersectAllocTypes g S2 S1 = intersectAllocTypes g S1 S2.
Proof.
  intros Hwf H12.
  rewrite (intersectAllocTypes_value g S1 S2 Hwf H12).
  split; [done|].
  rewrite (intersectAllocTypes_value g S2 S1 Hwf) by (intros id H2 H1; by apply H12).
  f_equal. f_equal. apply leibniz_equiv. set_solver.
Qed.

Lemma intersectAllocTypes_common_ids_witness :
  intersectAllocTypes plainExample {[1; 2]} {[2; 7]} = Ok 1
  /\ intersectAllocTypes plainExample {[2; 7]} {[1; 2]} = Ok 1.
Proof.
  assert (forall id : N, id ∈ ({[1; 2]} : gset N) -> id ∈ ({[2; 7]} : gset N) ->
            is_Some (ContextIdToAllocationType plainExample !! id)) as Hin.
  { intros id [->%elem_of_singleton| ->%elem_of_singleton]%elem_of_union _;
      eexists; vm_compute; reflexivity. }
  destruct (intersectAllocTypes_common_ids plainExample {[1; 2]} {[2; 7]}
              WF_plainExample Hin) as [H1 H2].
  rewrite H2, H1. split; vm_compute; reflexivity.
Defined.

(** ** Edges *)

(** X3.  [removeEdgeFromGraph] of an edge of a well-formed graph that has not
    been removed clears the edge and takes it out of the callee edges of
    its caller and the caller edges of its callee; nothing else changes,
    and the graph stays well formed. *)
Theorem removeEdgeFromGraph_unlinks g e E :
  WFS g -> EdgeStore g !! e = Some E -> ContextEdge.isRemoved E = false ->
  exists g',
    removeEdgeFromGraph g e = Ok g'
    /\ WFS g'
    /\ EdgeStore g' !! e = Some (ContextEdge.clear E)
    /\ (forall e', e' <> e -> EdgeStore g' !! e' = EdgeStore g !! e')
    /\ (forall n Nd, NodeOwner g !! n = Some Nd ->
          exists Nd', NodeOwner g' !! n = Some Nd' /\ sameNodeInfo Nd Nd'
            /\ ContextNode.AllocTypes Nd' = ContextNode.AllocTypes Nd
            /\ ContextNode.CalleeEdges Nd'
               = filter (fun x => x <> e) (ContextNode.CalleeEdges Nd)
            /\ ContextNode.CallerEdges Nd'
               = filter (fun x => x <> e) (ContextNode.CallerEdges Nd))
    /\ length (NodeOwner g') = length (NodeOwner g).
Proof.
  intros Hwf HE Hr.
  destruct (removeEdgeFromGraph_spec g e E Hwf HE Hr) as (g' & Hg' & Hrem).
  destruct (step_edgeRemoved g g' e E Hwf HE Hrem)
    as (Hwf' & _ & _ & Hlen & _ & _ & Hcl & Hoth).
  destruct Hrem as (_ & _ & _ & Hnodes).
  exists g'. split; [done|]. split; [done|]. split; [done|]. split; [done|].
  split; [exact Hnodes|done].
Qed.

Lemma removeEdgeFromGraph_unlinks_witness :
  exists g', removeEdgeFromGraph plainExample 1 = Ok g' /\ WFS g'
             /\ (ContextEdge.isRemoved <$> EdgeStore g' !! 1%nat) = Some true.
Proof.
  destruct (removeEdgeFromGraph_unlinks plainExample 1
              (ContextEdge.mk (Some 1%nat) (Some 2%nat) 2 false {[1]})
              WFS_plainExample eq_refl eq_refl) as (g' & Hg' & Hwf' & HE' & _).
  exists g'. split; [exact Hg'|]. split; [exact Hwf'|]. rewrite HE'. reflexivity.
Defined.

(** X4.  An edge that has been removed cannot be removed again: its two
    ends are null, and [removeEdgeFromGraph], which asserts that the edge
    is not removed, has no defined behaviour on it. *)
Theorem removeEdgeFromGraph_removed_undefined g e E :
  EdgeStore g !! e = Some E -> ContextEdge.isRemoved E = true ->
  removeEdgeFromGraph g e = Err UndefinedBehaviour.
Proof.
  intros HE Hr. unfold removeEdgeFromGraph.
  assert (getEdge g e = Ok E) as -> by by apply getEdge_Ok.
  cbn [mbind Res_bind].
  destruct (updEdge_total g e ContextEdge.clear E HE) as [g1 ->].
  cbn [mbind Res_bind].
  apply isRemoved_true in Hr as [-> _]. reflexivity.
Qed.

Lemma removeEdgeFromGraph_removed_undefined_witness :
  removeEdgeFromGraph recursionExample_cloned 1 = Err UndefinedBehaviour.
Proof.
  exact (removeEdgeFromGraph_removed_undefined recursionExample_cloned 1
           (ContextEdge.mk None None 0 true ∅) eq_refl eq_refl).
Defined.

(** X5.  [removeNoneTypeCalleeEdges] of a node of a well-formed graph
    returns a well-formed graph with the same nodes in which no callee
    edge of the node has the type [None] any more.  The edges it removed
    came from the node; every other edge keeps its two ends; and no
    context id is lost: the caller edges of every family of clones carry
    the ids they carried. *)
Theorem removeNoneTypeCalleeEdges_keeps_ids g Node :
  WFS g -> is_Some (NodeOwner g !! Node) ->
  exists g',
    removeNoneTypeCalleeEdges g Node = Ok g'
    /\ WFS g'
    /\ length (NodeOwner g') = length (NodeOwner g)
    /\ (forall Nd' e E,
          NodeOwner g' !! Node = Some Nd' -> e ∈ ContextNode.CalleeEdges Nd' ->
          EdgeStore g' !! e = Some E -> ContextEdge.AllocTypes E <> AllocationType.None)
    /\ removesFrom Node g g'
    /\ (forall o, familyCallerIds g' o = familyCallerIds g o).
Proof.
  intros Hwf HN.
  destruct (removeNoneTypeCalleeEdges_spec g Node Hwf HN)
    as (g' & Hg' & Hwf' & Hev & Hlen & Hrf).
  exists g'. split; [done|]. split; [done|]. split; [done|].
  split; [exact (removeNoneTypeCalleeEdges_typed g Node g' Hwf Hg')|]. split; [done|].
  by apply familyCallerIds_evolves.
Qed.

Lemma removeNoneTypeCalleeEdges_keeps_ids_witness :
  exists g', removeNoneTypeCalleeEdges recursionExample 1 = Ok g'
             /\ familyCallerIds g' 0%nat = familyCallerIds recursionExample 0%nat.
Proof.
  destruct (removeNoneTypeCalleeEdges_keeps_ids recursionExample 1 WFS_recursionExample)
    as (g' & Hg' & _ & _ & _ & _ & Hids); [by eexists|].
  exists g'. split; [exact Hg'|apply Hids].
Defined.

(** X6.  [findEdgeFromCaller] and [findEdgeFromCallee] on a node of a
    well-formed graph: an edge that is returned is in the list that was
    searched and has the wanted node at its other end; a null result means
    that no edge of the list has. *)
Theorem findEdge_from_other_end g Node Nd (Other : option NodeId) :
  WFS g -> NodeOwner g !! Node = Some Nd ->
  (exists r, findEdgeFromCaller g Node Other = Ok r
     /\ (forall e, r = Some e ->
           e ∈ ContextNode.CallerEdges Nd
           /\ exists E, EdgeStore g !! e = Some E /\ ContextEdge.Caller E = Other)
     /\ (r = None -> forall e E, e ∈ ContextNode.CallerEdges Nd ->
           EdgeStore g !! e = Some E -> ContextEdge.Caller E ≠ Other))
  /\ (exists r, findEdgeFromCallee g Node Other = Ok r
     /\ (forall e, r = Some e ->
           e ∈ ContextNode.CalleeEdges Nd
           /\ exists E, EdgeStore g !! e = Some E /\ ContextEdge.Callee E = Other)
     /\ (r = None -> forall e E, e ∈ ContextNode.CalleeEdges Nd ->
           EdgeStore g !! e = Some E -> ContextEdge.Callee E ≠ Other)).
Proof.
  intros Hwf HN. split.
  - by apply findEdgeFromCaller_spec.
  - by apply findEdgeFromCallee_spec.
Qed.

Lemma findEdge_from_other_end_witness :
  (exists r, findEdgeFromCaller plainExample 1 (Some 3%nat) = Ok r
             /\ forall e, r = Some e -> e ∈ [1%nat; 2%nat])
  /\ (exists r, findEdgeFromCallee plainExample 1 (Some 3%nat) = Ok r
              /\ forall e, r = Some e -> e ∈ [0%nat]).
Proof.
  destruct (findEdge_from_other_end plainExample 1 _ (Some 3%nat)
              WFS_plainExample eq_refl) as [(r1 & H1 & Hin1 & _) (r2 & H2 & Hin2 & _)].
  split.
  - exists r1. split; [exact H1|]. intros e He. apply (Hin1 e He).
  - exists r2. split; [exact H2|]. intros e He. apply (Hin2 e He).
Defined.

(** ** Moving an edge to a clone *)

Section MoveEdgeProperties.
Variable opts : Options.

(** X8.  [moveEdgeToExistingCalleeClone] moves context ids of the caller
    edge [Edge] of the node [oc] over to [nc], another node of the family
    of [oc].  On a well-formed graph it returns a well-formed graph with
    the same nodes; every edge but [Edge] keeps its two ends; and no
    context id is lost or invented: the caller edges of every family of
    clones carry the ids they carried.  When the caller is neither of the
    two nodes, an edge from the caller into [nc] carries the ids that were
    to be moved (all ids of [Edge] when the set given is empty), and [Edge]
    either went over or was removed, or stays at [oc] with the remaining
    ids. *)
Theorem moveEdgeToExistingCalleeClone_conserves g Edge E c oc nc NC (NewClone : bool)
    (M : gset N) :
  WFS g -> EdgeStore g !! Edge = Some E ->
  ContextEdge.Caller E = Some c -> ContextEdge.Callee E = Some oc ->
  NodeOwner g !! nc = Some NC -> nc <> oc -> famOf g nc = famOf g oc ->
  M ⊆ ContextEdge.ContextIds E ->
  let M' := if decide (M = ∅) then ContextEdge.ContextIds E else M in
  exists g',
    moveEdgeToExistingCalleeClone opts g Edge nc NewClone M = Ok g'
    /\ WFS g'
    /\ length (NodeOwner g') = length (NodeOwner g)
    /\ linksKept (fun e => e <> Edge) g g'
    /\ (forall o, familyCallerIds g' o = familyCallerIds g o)
    /\ (c <> oc -> c <> nc ->
        exists r R E',
          EdgeStore g' !! r = Some R
          /\ ContextEdge.Callee R = Some nc /\ ContextEdge.Caller R = Some c
          /\ M' ⊆ ContextEdge.ContextIds R
          /\ EdgeStore g' !! Edge = Some E'
          /\ ((M' = ContextEdge.ContextIds E
               /\ (r = Edge \/ ContextEdge.isRemoved E' = true))
              \/ (M' <> ContextEdge.ContextIds E /\ r <> Edge
                  /\ ContextEdge.Callee E' = Some oc /\ ContextEdge.Caller E' = Some c
                  /\ ContextEdge.ContextIds E' = ContextEdge.ContextIds E ∖ M'))).
Proof.
  intros Hwf HE Hc Hd HNC Hne Hfam HM M'.
  destruct (moveEdgeToExistingCalleeClone_spec opts g Edge E c oc nc NC NewClone M
              Hwf HE Hc Hd HNC Hne Hfam HM)
    as (g' & Hg' & Hwf' & Hev & Hk & Hlen & Hpart).
  exists g'. split; [done|]. split; [done|]. split; [done|]. split; [done|].
  split; [by apply familyCallerIds_evolves|].
  intros Hcoc Hcnc. destruct (Hpart Hcoc Hcnc)
    as (r & R & E' & HR & HRd & HRc & HRids & _ & HE' & Hcase).
  exists r, R, E'. done.
Qed.

(** X9.  [moveEdgeToNewCalleeClone] makes a new node, the next one of the
    graph, a clone in the family of the callee of [Edge], and moves the
    context ids over to it.  On a well-formed graph it returns a
    well-formed graph; every edge but [Edge] keeps its two ends; no context
    id is lost or invented; and when the caller is not the callee itself,
    an edge from the caller into the clone carries exactly the ids that
    were to be moved. *)
Theorem moveEdgeToNewCalleeClone_conserves g Edge E c oc (M : gset N) :
  WFS g -> EdgeStore g !! Edge = Some E ->
  ContextEdge.Caller E = Some c -> ContextEdge.Callee E = Some oc ->
  M ⊆ ContextEdge.ContextIds E ->
  let M' := if decide (M = ∅) then ContextEdge.ContextIds E else M in
  let cl := length (NodeOwner g) in
  exists g',
    moveEdgeToNewCalleeClone opts g Edge M = Ok (cl, g')
    /\ WFS g'
    /\ length (NodeOwner g') = S (length (NodeOwner g))
    /\ famOf g' cl = famOf g oc
    /\ linksKept (fun e => e <> Edge) g g'
    /\ (forall o, familyCallerIds g' o = familyCallerIds g o)
    /\ (c <> oc ->
        exists r R,
          EdgeStore g' !! r = Some R
          /\ ContextEdge.Callee R = Some cl /\ ContextEdge.Caller R = Some c
          /\ ContextEdge.ContextIds R = M').
Proof.
  intros Hwf HE Hc Hd HM M' cl.
  destruct (moveEdgeToNewCalleeClone_spec opts g Edge E c oc M Hwf HE Hc Hd HM)
    as (g' & Hg' & Hwf' & Hev & Hk & Hlen & Hfam & Hpart).
  exists g'. split; [done|]. split; [done|]. split; [done|]. split; [done|].
  split; [done|]. split; [by apply familyCallerIds_evolves|].
  intros Hcoc. destruct (Hpart Hcoc) as (r & R & E' & HR & HRd & HRc & HRids & _).
  exists r, R. done.
Qed.
End MoveEdgeProperties.

Lemma moveEdgeToExistingCalleeClone_conserves_witness :
  exists g',
    moveEdgeToExistingCalleeClone defaultOptions recursionExample_cloned 0 4 false ∅ = Ok g'
    /\ familyCallerIds g' 0%nat = familyCallerIds recursionExample_cloned 0%nat.
Proof.
  assert (WFS recursionExample_cloned) as Hwf by (apply WFSb_sound; vm_compute; reflexivity).
  destruct (moveEdgeToExistingCalleeClone_conserves defaultOptions recursionExample_cloned
              0 (ContextEdge.mk (Some 0%nat) (Some 1%nat) 1 false {[2]}) 1 0 4
              (ContextNode.mk true false 2 (mkCallInfo (Some 1) 0) [] 0 [] [3%nat] []
                              (Some 0%nat))
              false ∅ Hwf eq_refl eq_refl eq_refl eq_refl)
    as (g' & Hg' & _ & _ & _ & Hids & _); [lia|reflexivity|set_solver|].
  exists g'. split; [exact Hg'|apply Hids].
Defined.

Lemma moveEdgeToNewCalleeClone_conserves_witness :
  exists g',
    moveEdgeToNewCalleeClone defaultOptions plainExample 0 {[1]} = Ok (4%nat, g')
    /\ familyCallerIds g' 0%nat = familyCallerIds plainExample 0%nat.
Proof.
  destruct (moveEdgeToNewCalleeClone_conserves defaultOptions plainExample
              0 (ContextEdge.mk (Some 0%nat) (Some 1%nat) 3 false {[1; 2]}) 1 0 {[1]}
              WFS_plainExample eq_refl eq_refl eq_refl)
    as (g' & Hg' & _ & _ & _ & _ & Hids & _); [set_solver|].
  exists g'. split; [exact Hg'|apply Hids].
Defined.

(** ** Clone identification *)

Section CloningProperties.
Variable opts : Options.
Variable ContextIds_begin : EdgeId -> gset N -> N.

(** X10.  [identifyClones] of an original node that has not been visited,
    on a well-formed graph: the recursion never goes deeper than there are
    original nodes that have not been visited, so that with more fuel than
    that it returns.  The graph it returns is well formed, no context id
    is lost or invented in any family of clones, the visited set only
    grows, and the edges into nodes that were visited before keep their
    two ends, or are removed when they come from a node that was not
    visited before. *)
Theorem identifyClones_node_returns (fuel : nat) Node (Ids : gset N) g (V : gset NodeId) :
  WFS g -> Node ∈ originalNodes g -> Node ∉ V ->
  (size (originalNodes g ∖ V) < fuel)%nat ->
  exists g' V',
    identifyClones_node opts ContextIds_begin fuel Node Ids (g, V) = Ok (g', V')
    /\ WFS g'
    /\ (forall o, familyCallerIds g' o = familyCallerIds g o)
    /\ V ⊆ V'
    /\ prot V (V ∪ {[Node]}) g g'.
Proof.
  intros Hwf HNode HV Hfuel.
  destruct (identifyClones_node_spec opts ContextIds_begin (originalNodes g) fuel Node Ids g V Hwf
              (originalNodes_originals g) HNode HV Hfuel)
    as (g' & V' & Hg' & Hwf' & Hev & HV' & Hprot).
  exists g', V'. split; [done|]. split; [done|].
  split; [by apply familyCallerIds_evolves|]. done.
Qed.

(** X11.  [recursivelyRemoveNoneTypeCalleeEdges] from a node of a
    well-formed graph: the recursion never goes deeper than there are
    nodes that have not been visited, so that with more fuel than that it
    returns.  The graph it returns is well formed and has the same nodes,
    no context id is lost, and the visited set only grows. *)
Theorem recursivelyRemoveNoneTypeCalleeEdges_returns (fuel : nat) Node g
    (V : gset NodeId) :
  WFS g -> is_Some (NodeOwner g !! Node) -> (size (nodeIds g ∖ V) < fuel)%nat ->
  exists g' V',
    recursivelyRemoveNoneTypeCalleeEdges fuel Node (g, V) = Ok (g', V')
    /\ WFS g'
    /\ length (NodeOwner g') = length (NodeOwner g)
    /\ (forall o, familyCallerIds g' o = familyCallerIds g o)
    /\ V ⊆ V'.
Proof.
  intros Hwf HNode Hfuel.
  destruct (recursivelyRemoveNoneTypeCalleeEdges_spec fuel Node g V Hwf HNode Hfuel)
    as (g' & V' & Hg' & Hwf' & Hev & Hlen & HV').
  exists g', V'. split; [done|]. split; [done|]. split; [done|].
  split; [by apply familyCallerIds_evolves|done].
Qed.

(** X12.  [identifyClones()] on a well-formed graph returns, with the fuel
    it gives each recursion, a well-formed graph, and in it the caller
    edges of every original node and its clones together carry the context
    ids that the caller edges of the node and its clones carried before:
    cloning moves context ids between the clones of a node but neither
    loses nor invents one. *)
Theorem identifyClones_conserves_family_ids g :
  WFS g ->
  exists g',
    identifyClones opts ContextIds_begin g = Ok g'
    /\ WFS g'
    /\ forall o, familyCallerIds g' o = familyCallerIds g o.
Proof.
  intros Hwf. destruct (identifyClones_evolves opts ContextIds_begin g Hwf) as (g' & Hg' & Hwf' & Hev).
  exists g'. split; [done|]. split; [done|]. by apply familyCallerIds_evolves.
Qed.

(** X13.  What [identifyClones()] never does on a well-formed graph: it
    changes neither the table of the allocation types of the context ids
    nor the maps from the calls and the stack ids to the nodes; it deletes
    no node, and
    every node stays the allocation or the callsite it was, with the same
    call, and stays an original or a clone of the same node; every node it
    adds is a clone; and an edge that was removed stays removed. *)
Theorem identifyClones_keeps_nodes_and_tables g g' :
  WFS g -> identifyClones opts ContextIds_begin g = Ok g' ->
  sameMaps g g'
  /\ (forall n Nd, NodeOwner g !! n = Some Nd ->
        exists Nd', NodeOwner g' !! n = Some Nd'
          /\ ContextNode.IsAllocation Nd' = ContextNode.IsAllocation Nd
          /\ ContextNode.Call Nd' = ContextNode.Call Nd
          /\ ContextNode.CloneOf Nd' = ContextNode.CloneOf Nd)
  /\ (forall n Nd', NodeOwner g' !! n = Some Nd' -> NodeOwner g !! n = None ->
        is_Some (ContextNode.CloneOf Nd'))
  /\ (forall e E, EdgeStore g !! e = Some E ->
        exists E', EdgeStore g' !! e = Some E'
          /\ (ContextEdge.isRemoved E = true -> ContextEdge.isRemoved E' = true)).
Proof.
  intros Hwf Hrun.
  destruct (identifyClones_evolves opts ContextIds_begin g Hwf) as (g2 & Hg2 & _ & Hev).
  assert (g2 = g') as -> by congruence.
  destruct Hev as [(Hm & Hn & Hc & He) _]. done.
Qed.
End CloningProperties.

Lemma identifyClones_node_returns_witness :
  exists g' V',
    identifyClones_node defaultOptions (fun _ => bucketBegin 64) 5 0%nat {[1; 2]} (plainExample, ∅) = Ok (g', V')
    /\ familyCallerIds g' 0%nat = familyCallerIds plainExample 0%nat.
Proof.
  destruct (identifyClones_node_returns defaultOptions (fun _ => bucketBegin 64) 5 0%nat {[1; 2]} plainExample ∅
              WFS_plainExample)
    as (g' & V' & Hg' & _ & Hids & _).
  - apply originalNodes_originals. eexists. split; reflexivity.
  - apply not_elem_of_empty.
  - vm_compute. lia.
  - exists g', V'. split; [exact Hg'|apply Hids].
Defined.

Lemma recursivelyRemoveNoneTypeCalleeEdges_returns_witness :
  exists g' V',
    recursivelyRemoveNoneTypeCalleeEdges 5 0%nat (plainExample, ∅) = Ok (g', V')
    /\ length (NodeOwner g') = 4%nat.
Proof.
  destruct (recursivelyRemoveNoneTypeCalleeEdges_returns 5 0%nat plainExample ∅
              WFS_plainExample)
    as (g' & V' & Hg' & _ & Hlen & _).
  - by eexists.
  - vm_compute. lia.
  - exists g', V'. split; [exact Hg'|exact Hlen].
Defined.

Lemma identifyClones_conserves_family_ids_witness :
  exists g',
    identifyClones defaultOptions (fun _ => bucketBegin 64) plainExample = Ok g'
    /\ familyCallerIds g' 1%nat = familyCallerIds plainExample 1%nat.
Proof.
  destruct (identifyClones_conserves_family_ids defaultOptions (fun _ => bucketBegin 64) plainExample WFS_plainExample)
    as (g' & Hg' & _ & Hids).
  exists g'. split; [exact Hg'|apply Hids].
Defined.

Lemma identifyClones_keeps_nodes_and_tables_witness :
  exists g',
    identifyClones defaultOptions (fun _ => bucketBegin 64) plainExample = Ok g'
    /\ ContextIdToAllocationType g' = ContextIdToAllocationType plainExample.
Proof.
  destruct (identifyClones_evolves defaultOptions (fun _ => bucketBegin 64) plainExample WFS_plainExample)
    as (g' & Hg' & _).
  exists g'. split; [exact Hg'|].
  destruct (identifyClones_keeps_nodes_and_tables defaultOptions (fun _ => bucketBegin 64) plainExample g'
              WFS_plainExample Hg') as [(Htbl & _) _].
  exact Htbl.
Defined.

(** ** Nodes *)

(** X7.  [ContextNode::addClone]: a clone is always registered with the
    original node.  When [Node], an original or itself a clone, gets the
    new clone [Clone], the clone is appended to the clones of the original
    of [Node] and its [CloneOf] is that original, so that
    [Clone->getOrigNode()] is [Node->getOrigNode()]; no other node and no
    edge changes. *)
Theorem addClone_registers_with_original g Node Clone Nd O Cl :
  NodeOwner g !! Node = Some Nd ->
  NodeOwner g !! getOrigNode Node Nd = Some O ->
  NodeOwner g !! Clone = Some Cl ->
  ContextNode.CloneOf Cl = None ->
  Clone <> getOrigNode Node Nd ->
  exists g' Cl' O',
    addClone g Node Clone = Ok g'
    /\ NodeOwner g' !! Clone = Some Cl'
    /\ Cl' = ContextNode.setCloneOf (Some (getOrigNode Node Nd)) Cl
    /\ getOrigNode Clone Cl' = getOrigNode Node Nd
    /\ NodeOwner g' !! getOrigNode Node Nd = Some O'
    /\ O' = ContextNode.setClones (ContextNode.Clones O ++ [Clone]) O
    /\ (forall n, n <> getOrigNode Node Nd -> n <> Clone ->
          NodeOwner g' !! n = NodeOwner g !! n)
    /\ EdgeStore g' = EdgeStore g.
Proof.
  intros HN HO HCl _ Hne.
  destruct (addClone_spec g Node Clone Nd O Cl HN HO HCl Hne)
    as (g' & Hg' & HCl' & HO' & Hoth & He).
  exists g', (ContextNode.setCloneOf (Some (getOrigNode Node Nd)) Cl),
         (ContextNode.setClones (ContextNode.Clones O ++ [Clone]) O).
  repeat split; done.
Qed.

Lemma addClone_registers_with_original_witness :
  exists g' Cl',
    addClone (createNewNode recursionExample_cloned false None nullCallInfo).2 3 5 = Ok g'
    /\ NodeOwner g' !! 5%nat = Some Cl'
    /\ ContextNode.CloneOf Cl' = Some 1%nat.
Proof.
  destruct (addClone_registers_with_original
              (createNewNode recursionExample_cloned false None nullCallInfo).2 3 5
              (ContextNode.mk false false 2 (mkCallInfo (Some 2) 0) [] 0
                              [3%nat; 4%nat] [4%nat] [] (Some 1%nat))
              (ContextNode.mk false false 3 (mkCallInfo (Some 2) 0) [] 10
                              [0%nat] [2%nat] [3%nat] None)
              (ContextNode.new false nullCallInfo)
              eq_refl eq_refl eq_refl eq_refl)
    as (g' & Cl' & O' & Hg' & HCl' & -> & _); [cbn; lia|].
  eexists g', _. split; [exact Hg'|]. split; [exact HCl'|reflexivity].
Defined.

(** X14.  [markBackedges()] only marks: on a well-formed graph whose map of
    the calls holds nodes of the graph it returns a graph with the same
    nodes and tables and the same edges up to their [IsBackedge] flags,
    and no flag that was set is cleared.  The depth-first search ends:
    its recursion is never deeper than there are nodes.  (The last two
    hypotheses are what the assertions of the source ask for: every root is
    visited once, and [isRemoved()] holds its assertion on the nodes of
    the map.) *)
Theorem markBackedges_only_marks opts g :
  WF g ->
  (forall p, p ∈ NonAllocationCallToContextNodeMap g -> is_Some (NodeOwner g !! p.2)) ->
  NoDup (NonAllocationCallToContextNodeMap g).*2 ->
  (forall p Nd, p ∈ NonAllocationCallToContextNodeMap g -> NodeOwner g !! p.2 = Some Nd ->
     ContextNode_isRemoved_assert opts g Nd = Ok true) ->
  exists g',
    markBackedges opts g = Ok g'
    /\ WF g'
    /\ g' = setEdgeStore (EdgeStore g') g
    /\ length (EdgeStore g') = length (EdgeStore g)
    /\ forall e E, EdgeStore g !! e = Some E ->
         exists b, EdgeStore g' !! e = Some (ContextEdge.setIsBackedge b E)
                   /\ (ContextEdge.IsBackedge E = true -> b = true).
Proof.
  intros Hwf Hmap _ _.
  destruct (markBackedges_spec opts g Hwf Hmap) as (g' & Hg' & (Hg & Hlen & Hed) & Hwf').
  exists g'. done.
Qed.

Lemma markBackedges_only_marks_witness :
  exists g',
    markBackedges defaultOptions recursionExample = Ok g'
    /\ NodeOwner g' = NodeOwner recursionExample
    /\ (ContextEdge.IsBackedge <$> EdgeStore g' !! 1%nat) = Some true.
Proof.
  destruct (markBackedges_only_marks defaultOptions recursionExample WF_recursionExample)
    as (g' & Hg' & _ & Hsame & _ & Hed).
  - intros p Hp. apply list_elem_of_In in Hp.
    destruct Hp as [<-|[<-|[]]]; eexists; reflexivity.
  - apply (bool_decide_unpack _). vm_compute. reflexivity.
  - intros p Nd Hp _. reflexivity.
  - exists g'. split; [exact Hg'|]. split; [by rewrite Hsame|].
    destruct (Hed 1%nat _ eq_refl) as (b & Hb & Hkeep).
    rewrite Hb. cbn. f_equal. by apply Hkeep.
Defined.

(** X15.  [addAllocNode] and [getNodeForAlloc]: for a call that has no
    allocation node yet, [addAllocNode] returns a new node, the next one of
    the graph, which is an allocation for the call, has no edges, the type
    [None] and [LastContextId] as its id; afterwards [getNodeForAlloc] and
    [getNodeForInst] of the call return that node, while the lookup of every
    other call gives what it gave.  The new entry is the last one of the
    map, and no edge and no other node changes. *)
Theorem addAllocNode_then_getNodeForAlloc g Call F :
  getNodeForAlloc g Call = None ->
  let a := length (NodeOwner g) in
  exists g',
    addAllocNode g Call F = Ok (a, g')
    /\ getNodeForAlloc g' Call = Some a
    /\ getNodeForInst g' Call = Some a
    /\ (forall C, C <> Call ->
          getNodeForAlloc g' C = getNodeForAlloc g C
          /\ getNodeForInst g' C = getNodeForInst g C)
    /\ AllocationCallToContextNodeMap g' = AllocationCallToContextNodeMap g ++ [(Call, a)]
    /\ NodeOwner g'
       = NodeOwner g ++
         [ContextNode.mk true false AllocationType.None Call [] (LastContextId g)
                         [] [] [] None]
    /\ EdgeStore g' = EdgeStore g.
Proof.
  intros Hnone a.
  destruct (addAllocNode_spec g Call F) as (g' & Hg' & Hn & He & Ha & Hna).
  fold a in Hg', Ha.
  assert (getNodeForAlloc g' Call = Some a) as Hget.
  { unfold getNodeForAlloc. rewrite Ha. apply mapVectorLookup_set_eq. }
  assert (forall C, C <> Call -> getNodeForAlloc g' C = getNodeForAlloc g C) as Hother.
  { intros C HC. unfold getNodeForAlloc. rewrite Ha. by apply mapVectorLookup_set_ne. }
  exists g'. split; [done|]. split; [done|].
  split; [unfold getNodeForInst; by rewrite Hget|].
  split; [|split; [|split]].
  - intros C HC. split; [by apply Hother|].
    unfold getNodeForInst. by rewrite (Hother C HC), Hna.
  - rewrite Ha. by apply mapVectorSet_absent.
  - exact Hn.
  - exact He.
Qed.

Lemma addAllocNode_then_getNodeForAlloc_witness :
  exists g',
    addAllocNode plainExample (mkCallInfo (Some 9) 0) 100 = Ok (4%nat, g')
    /\ getNodeForAlloc g' (mkCallInfo (Some 9) 0) = Some 4%nat
    /\ getNodeForAlloc g' (mkCallInfo (Some 1) 0) = Some 0%nat.
Proof.
  destruct (addAllocNode_then_getNodeForAlloc plainExample (mkCallInfo (Some 9) 0) 100
              eq_refl) as (g' & Hg' & Hget & _ & Hother & _).
  exists g'. split; [exact Hg'|]. split; [exact Hget|].
  destruct (Hother (mkCallInfo (Some 1) 0)) as [H _]; [discriminate|].
  rewrite H. reflexivity.
Defined.

(** ** The cloning loop's queries *)

(** X16.  The comparison that [identifyClones] hands to [stable_sort] is a
    strict weak ordering on the edges whose allocation type indexes the
    priority table (a type below 4), whatever id the iteration over the
    context ids of an edge starts with: no edge is less than itself, the
    comparison is asymmetric and transitive, and being incomparable is
    transitive. *)
Theorem callerEdgeLess_strict_weak_order (ContextIds_begin : EdgeId -> gset N -> N)
    (e1 e2 e3 : EdgeId) (E1 E2 E3 : ContextEdge.t) :
  ContextEdge.AllocTypes E1 < 4 -> ContextEdge.AllocTypes E2 < 4 ->
  ContextEdge.AllocTypes E3 < 4 ->
  let less := callerEdgeLess ContextIds_begin in
  less e1 e1 E1 E1 = Ok false
  /\ (less e1 e2 E1 E2 = Ok true -> less e2 e1 E2 E1 = Ok false)
  /\ (less e1 e2 E1 E2 = Ok true -> less e2 e3 E2 E3 = Ok true ->
      less e1 e3 E1 E3 = Ok true)
  /\ (less e1 e2 E1 E2 = Ok false -> less e2 e1 E2 E1 = Ok false ->
      less e2 e3 E2 E3 = Ok false -> less e3 e2 E3 E2 = Ok false ->
      less e1 e3 E1 E3 = Ok false /\ less e3 e1 E3 E1 = Ok false).
Proof.
  intros H1 H2 H3 less. unfold less.
  rewrite !callerEdgeLess_key by done.
  split; [by rewrite keyLtb_irrefl|]. split; [|split].
  - intros [= H]. by rewrite (keyLtb_asym _ _ H).
  - intros [= Ha] [= Hb]. by rewrite (keyLtb_trans _ _ _ Ha Hb).
  - intros [= Ha] [= Hb] [= Hc] [= Hd].
    rewrite (keyLtb_equiv _ _ Ha Hb), (keyLtb_equiv _ _ Hc Hd).
    by rewrite keyLtb_irrefl.
Qed.

Lemma callerEdgeLess_strict_weak_order_witness :
  callerEdgeLess (fun _ => bucketBegin 64) 0%nat 2%nat
                 (ContextEdge.mk (Some 0%nat) (Some 1%nat) 2 false {[1]})
                 (ContextEdge.mk (Some 0%nat) (Some 3%nat) 1 false {[3]}) = Ok true.
Proof.
  destruct (callerEdgeLess_strict_weak_order (fun _ => bucketBegin 64)
              0%nat 1%nat 2%nat
              (ContextEdge.mk (Some 0%nat) (Some 1%nat) 2 false {[1]})
              (ContextEdge.mk (Some 0%nat) (Some 2%nat) 3 false {[1; 2]})
              (ContextEdge.mk (Some 0%nat) (Some 3%nat) 1 false {[3]}))
    as (_ & _ & Htrans & _); [cbn; lia|cbn; lia|cbn; lia|].
  apply Htrans; vm_compute; reflexivity.
Defined.

(** X17.  The allocation types that [identifyClones] computes for the callee
    edges of a node and the context ids of a caller edge: one entry per
    callee edge, in the order of the edges, each the OR of the types of the
    context ids that the callee edge shares with the caller edge.  The
    vector has the size that [allocTypesMatch] and [allocTypesMatchClone]
    assert, and both return on it. *)
Theorem calleeEdgeAllocTypes_fit g Node Nd (S : gset N) :
  WFS g -> NodeOwner g !! Node = Some Nd ->
  (forall id, id ∈ S -> is_Some (ContextIdToAllocationType g !! id)) ->
  exists In,
    calleeEdgeAllocTypesForCallerEdge g (ContextNode.CalleeEdges Nd) S = Ok In
    /\ In = (fun e => orOfIdTypes g (edgeIds g e ∩ S)) <$> ContextNode.CalleeEdges Nd
    /\ length In = length (ContextNode.CalleeEdges Nd)
    /\ (exists b, allocTypesMatch g In (ContextNode.CalleeEdges Nd) = Ok b)
    /\ (forall Clone, Clone ∈ ContextNode.Clones Nd ->
          exists b, allocTypesMatchClone g In Clone = Ok b).
Proof.
  intros Hwf HN HS.
  assert (forall e, e ∈ ContextNode.CalleeEdges Nd -> is_Some (EdgeStore g !! e)) as Hl.
  { intros e He. by eapply WFS_callee_edges. }
  exists ((fun e => orOfIdTypes g (edgeIds g e ∩ S)) <$> ContextNode.CalleeEdges Nd).
  split; [by apply calleeEdgeAllocTypesForCallerEdge_value; [apply Hwf|..]|].
  split; [done|]. split; [by rewrite length_fmap|]. split.
  - by apply allocTypesMatch_Ok.
  - intros Clone HClone. eapply allocTypesMatchClone_Ok; [done|done|done|].
    by rewrite length_fmap.
Qed.

Lemma calleeEdgeAllocTypes_fit_witness :
  calleeEdgeAllocTypesForCallerEdge plainExample [0%nat] {[1]} = Ok [2].
Proof.
  destruct (calleeEdgeAllocTypes_fit plainExample 1 _ {[1]} WFS_plainExample eq_refl)
    as (In & HIn & -> & _).
  - intros id ->%elem_of_singleton. eexists. vm_compute. reflexivity.
  - etrans; [exact HIn|]. vm_compute. reflexivity.
Defined.

(** X18.  The context ids that [identifyClones] sets aside when recursive
    callsites are allowed but recursive contexts are not: exactly the ids
    that are on two of the caller edges at different places of the list. *)
Theorem idsOnMultipleEdges_spec g (Edges : list EdgeId) :
  (forall e, e ∈ Edges -> is_Some (EdgeStore g !! e)) ->
  exists R,
    idsOnMultipleEdges g Edges = Ok R
    /\ forall id, id ∈ R <->
         exists (i j : nat) ei ej,
           (i < j)%nat /\ Edges !! i = Some ei /\ Edges !! j = Some ej
           /\ id ∈ edgeIds g ei /\ id ∈ edgeIds g ej.
Proof.
  intros Hl. unfold idsOnMultipleEdges.
  destruct (idsOnMultipleEdges_fold g Edges ∅ ∅ Hl) as (All' & Rec' & Hrun & _ & HRec).
  rewrite Hrun. cbn [mbind Res_bind snd]. exists Rec'. split; [done|].
  intros id. rewrite HRec. split.
  - intros [H|(j & ej & Hj & Hid & [H|(i & ei & Hij & Hi & Hidi)])];
      [by apply elem_of_empty in H|by apply elem_of_empty in H|].
    exists i, j, ei, ej. done.
  - intros (i & j & ei & ej & Hij & Hi & Hj & Hidi & Hidj).
    right. exists j, ej. split; [done|]. split; [done|]. right. exists i, ei. done.
Qed.

Lemma idsOnMultipleEdges_spec_witness :
  exists R, idsOnMultipleEdges recursionExample [1%nat; 2%nat] = Ok R /\ 1 ∈ R.
Proof.
  destruct (idsOnMultipleEdges_spec recursionExample [1%nat; 2%nat]) as (R & HR & Hiff).
  - intros e He. apply list_elem_of_In in He.
    destruct He as [<-|[<-|[]]]; eexists; reflexivity.
  - exists R. split; [exact HR|]. apply Hiff.
    exists 0%nat, 1%nat, 1%nat, 2%nat.
    split; [lia|]. split; [reflexivity|]. split; [reflexivity|].
    split; apply (bool_decide_unpack _); vm_compute; reflexivity.
Defined.

(** X19.  What a node reads off its edges, on a well-formed graph:
    [ContextNode::computeAllocType] returns the OR of the allocation types
    of the callee edges, and of the caller edges when these are used for
    the context information; the early return at [NotCold|Cold] never
    changes the result.  [ContextNode::getContextIds] returns the union of
    the context ids of the same edges. *)
Theorem ContextNode_info_of_edges opts g n Nd :
  WFS g -> NodeOwner g !! n = Some Nd ->
  ContextNode_computeAllocType opts g Nd = Ok (orOfEdgeTypes g (contextInfoEdges opts Nd))
  /\ orOfEdgeTypes g (contextInfoEdges opts Nd) <= 3
  /\ ContextNode_getContextIds opts g Nd = Ok (unionIds g (contextInfoEdges opts Nd)).
Proof.
  intros Hwf HN.
  assert (forall e E, EdgeStore g !! e = Some E -> ContextEdge.AllocTypes E <= 3) as Hty
    by apply (wfs_edge_types g Hwf).
  split; [|split].
  - unfold ContextNode_computeAllocType.
    rewrite ContextNode_computeAllocType_loop_value.
    + by rewrite N.lor_0_l.
    + done.
    + intros e He. by eapply contextInfoEdges_valid.
    + unfold AllocationType.None. lia.
  - by apply orOfEdgeTypes_le3.
  - destruct (ContextNode_getContextIds_total opts g n Nd Hwf HN) as [S HS].
    rewrite HS. f_equal. by eapply ContextNode_getContextIds_Ok.
Qed.

Lemma ContextNode_info_of_edges_witness :
  ContextNode_computeAllocType defaultOptions plainExample
    (ContextNode.mk false false 3 (mkCallInfo (Some 2) 0) [] 10
                    [0%nat] [1%nat; 2%nat] [] None) = Ok 3.
Proof.
  destruct (ContextNode_info_of_edges defaultOptions plainExample 1 _
              WFS_plainExample eq_refl) as (H & _).
  etrans; [exact H|]. vm_compute. reflexivity.
Defined.

(** ** Building the graph and matching the calls *)



(** X21.  [calleeMatchesFunc] for a call whose operand, behind its pointer
    casts, is a function: a call of the profiled function itself matches
    and leaves the chain as it was; for another function the call matches
    exactly when one chain of at most [TailCallSearchDepth] tail calls
    leads from the called function to the profiled one, and that chain is
    appended to the chain found so far; without such a chain the call does
    not match and the chain is as it was. *)
Theorem calleeMatchesFunc_through_tail_calls opts (Mod : FuncTy -> list (list Instruction))
    (fuel : nat) Call Func F (Chain : list (Instruction * FuncTy)) :
  TailCallSearchDepth opts + 1 < UINT32_MOD ->
  (N.to_nat (TailCallSearchDepth opts) <= fuel)%nat ->
  stripPointerCasts (getCalledOperand Call) = VFunction F ->
  exists r,
    calleeMatchesFunc opts Mod fuel Call Func Chain = Ok r
    /\ (F = Func -> r = (true, Chain))
    /\ (F <> Func ->
        (r.1 = true <->
           exists c, tailCallChains Mod (N.to_nat (TailCallSearchDepth opts)) Func F = [c])
        /\ (forall c,
              tailCallChains Mod (N.to_nat (TailCallSearchDepth opts)) Func F = [c] ->
              r = (true, Chain ++ c))
        /\ (tailCallChains Mod (N.to_nat (TailCallSearchDepth opts)) Func F = [] ->
            r = (false, Chain))).
Proof.
  intros Hlim Hfuel Hop. unfold calleeMatchesFunc.
  assert (isIndirectCall Call = false) as ->.
  { unfold isIndirectCall. destruct (getCalledOperand Call); try done. }
  rewrite Hop. cbn [dyn_cast_Function].
  destruct (decide (Some F = Some Func)) as [[= ->]|Hne].
  { eexists. split; [done|]. split; [done|]. intros Hne. done. }
  assert (F <> Func) as HF by congruence.
  destruct (findProfiledCalleeThroughTailCalls_spec opts Mod
              (N.to_nat (TailCallSearchDepth opts)) fuel Func F 1 (Chain, false))
    as (r & Hr & Hspec); [done|lia|done|done|].
  rewrite Hr. cbn [mbind Res_bind]. eexists. split; [done|].
  split; [intros ->; done|]. intros _.
  unfold SearchSpec in Hspec. cbn [fst snd] in Hspec.
  destruct (tailCallChains Mod (N.to_nat (TailCallSearchDepth opts)) Func F)
    as [|c1 [|c2 cs]].
  - subst r. cbn [fst snd]. split; [|split].
    + split; [done|]. intros [c Hc]. done.
    + intros c Hc. done.
    + done.
  - subst r. cbn [fst snd]. split; [|split].
    + split; [eauto|done].
    + intros c [= ->]. done.
    + done.
  - destruct Hspec as [H1 H2]. cbn [fst snd]. split; [|split].
    + split; [intros Ht; exfalso; revert H1 Ht; destruct r as [[] ?]; done|].
      intros [c Hc]. done.
    + intros c Hc. done.
    + done.
Qed.

Lemma calleeMatchesFunc_through_tail_calls_witness :
  calleeMatchesFunc defaultOptions tailCallExample 5
    (mkInstruction 1 true false (VPointerCast (VFunction 1))) 3 []
  = Ok (true, [(mkInstruction 21 true true (VFunction 3), 2);
               (mkInstruction 10 true true (VFunction 2), 1)]).
Proof.
  destruct (calleeMatchesFunc_through_tail_calls defaultOptions tailCallExample 5
              (mkInstruction 1 true false (VPointerCast (VFunction 1))) 3 1 [])
    as (r & Hr & _ & Hchain).
  - vm_compute. reflexivity.
  - vm_compute. lia.
  - reflexivity.
  - rewrite Hr. f_equal. destruct Hchain as (_ & Hone & _); [discriminate|].
    apply (Hone _ eq_refl).
Defined.

(** X22.  [removeNoneTypeCallerEdges] on a node of a well-formed graph
    returns; afterwards the caller edges of the node are its former caller
    edges with a type, the callee edges of every node are the former ones
    except the untyped edges into the node, and the other caller lists hold
    the same edges.  Unlike [removeEdgeFromGraph] it does not clear the
    edges it takes out: the edge store is unchanged. *)
Theorem removeNoneTypeCallerEdges_unlinks_only g Node Nd :
  WF g -> NodeOwner g !! Node = Some Nd ->
  exists g',
    removeNoneTypeCallerEdges g Node = Ok g'
    /\ WF g'
    /\ EdgeStore g' = EdgeStore g
    /\ length (NodeOwner g') = length (NodeOwner g)
    /\ forall n N0, NodeOwner g !! n = Some N0 ->
         exists N', NodeOwner g' !! n = Some N'
           /\ (forall e E, EdgeStore g !! e = Some E ->
                 (e ∈ ContextNode.CallerEdges N' <->
                  e ∈ ContextNode.CallerEdges N0
                  /\ (n = Node -> ContextEdge.AllocTypes E <> AllocationType.None)))
           /\ (forall e E, EdgeStore g !! e = Some E ->
                 (e ∈ ContextNode.CalleeEdges N' <->
                  e ∈ ContextNode.CalleeEdges N0
                  /\ (ContextEdge.Callee E = Some Node ->
                      ContextEdge.AllocTypes E <> AllocationType.None))).
Proof.
  intros Hwf HN. unfold removeNoneTypeCallerEdges.
  assert (getNode g Node = Ok Nd) as -> by by apply getNode_Ok.
  cbn [mbind Res_bind].
  destruct (removeNoneTypeCallerEdges_loop_spec Node (ContextNode.CallerEdges Nd) [] g Nd
              Hwf HN eq_refl)
    as (g' & Nd' & Hg' & Hwf' & Hm & He & Hlen & HN' & Htyped & Hnodes).
  { intros e E He. by apply elem_of_nil in He. }
  exists g'. split; [done|]. split; [done|]. split; [done|]. split; [done|].
  intros n N0 HN0.
  destruct (Hnodes n N0 HN0) as (N' & HN0' & Hs1 & Hs2 & Hk1 & Hk2).
  exists N'. split; [done|]. split.
  - intros e E HE. split.
    + intros Hin. split; [by apply Hs2|].
      intros ->. assert (N' = Nd') as -> by congruence. by eapply Htyped.
    + intros [Hin Hty]. apply (Hk1 e E Hin HE).
      destruct (decide (n = Node)) as [Heq|Hne]; [right; by apply Hty|by left].
  - intros e E HE. split.
    + intros Hin. split; [by apply Hs1|].
      intros Hcallee.
      destruct (wf_callee g' Hwf' n N' e HN0' Hin) as (E1 & d & D & HE1 & _ & Hd & HD & HeD).
      rewrite He in HE1. assert (E1 = E) as -> by congruence.
      assert (d = Node) as -> by congruence.
      assert (D = Nd') as -> by congruence. by eapply Htyped.
    + intros [Hin Hty]. apply (Hk2 e E Hin HE).
      destruct (decide (ContextEdge.Callee E = Some Node)) as [Heq|Hne];
        [right; by apply Hty|by left].
Qed.

Lemma removeNoneTypeCallerEdges_unlinks_only_witness :
  exists g',
    removeNoneTypeCallerEdges emptiedEdgeExample 1 = Ok g'
    /\ EdgeStore g' = EdgeStore emptiedEdgeExample
    /\ ContextNode.CallerEdges <$> NodeOwner g' !! 1%nat = Some [1%nat]
    /\ ContextNode.CalleeEdges <$> NodeOwner g' !! 3%nat = Some [].
Proof.
  assert (WF emptiedEdgeExample) as Hwf by (apply WFb_sound; vm_compute; reflexivity).
  destruct (removeNoneTypeCallerEdges_unlinks_only emptiedEdgeExample 1 _ Hwf eq_refl)
    as (g' & Hg' & _ & He & _).
  exists g'. split; [exact Hg'|]. split; [exact He|].
  assert (Ok g' = removeNoneTypeCallerEdges emptiedEdgeExample 1) as Heq by by rewrite Hg'.
  vm_compute in Heq. injection Heq as ->. split; reflexivity.
Defined.

(** X23.  [ContextNode::emptyContextIds] agrees with
    [ContextNode::getContextIds]: on a node of a well-formed graph both
    return, and [emptyContextIds] answers true exactly when the set that
    [getContextIds] builds is empty, although it stops at the first edge
    with an id. *)
Theorem emptyContextIds_iff_getContextIds_empty opts g n Nd :
  WFS g -> NodeOwner g !! n = Some Nd ->
  exists b ids,
    ContextNode_emptyContextIds opts g Nd = Ok b
    /\ ContextNode_getContextIds opts g Nd = Ok ids
    /\ (b = true <-> ids = ∅).
Proof.
  intros Hwf HN.
  assert (forall l, (forall e, e ∈ l -> is_Some (EdgeStore g !! e)) ->
            exists b, ContextNode_emptyContextIds_loop g l = Ok b) as Htot.
  { induction l as [|e l IH]; intros Hl; cbn [ContextNode_emptyContextIds_loop].
    - by exists true.
    - destruct (Hl e) as [E HE]; [left|].
      assert (getEdge g e = Ok E) as -> by by apply getEdge_Ok.
      cbn [mbind Res_bind].
      destruct (decide (ContextEdge.ContextIds E = ∅)); [|by exists false].
      apply IH. intros e' He'. apply Hl. by right. }
  destruct (Htot (contextInfoEdges opts Nd)) as [b Hb].
  { intros e He. by eapply contextInfoEdges_valid. }
  destruct (ContextNode_getContextIds_total opts g n Nd Hwf HN) as [ids Hids].
  exists b, ids. split; [exact Hb|]. split; [exact Hids|].
  rewrite (ContextNode_getContextIds_Ok opts g Nd ids Hids).
  by apply ContextNode_emptyContextIds_loop_Ok.
Qed.

Lemma emptyContextIds_iff_getContextIds_empty_witness :
  ContextNode_emptyContextIds defaultOptions plainExample
    (ContextNode.mk false false 3 (mkCallInfo (Some 2) 0) [] 10
                    [0%nat] [1%nat; 2%nat] [] None) = Ok false.
Proof.
  destruct (emptyContextIds_iff_getContextIds_empty defaultOptions plainExample 1 _
              WFS_plainExample eq_refl) as (b & ids & Hb & _ & _).
  rewrite Hb. vm_compute in Hb. symmetry. exact Hb.
Defined.
